(** * IQ Puzzler: a shallow embedding of pieces.js, solver.js and challenges.js

    The development follows the source files: the piece library and the
    orientation generator (pieces.js), the placement engine, the island
    pruning, the backtracking packer and the capped solution counter
    (solver.js), and the two challenge generators (solver.js and
    challenges.js).  Coordinates are JavaScript numbers holding integers and
    are modelled by [Z]; arrays are lists; the mutable objects a search
    threads through its calls (board, remaining set, solution stack, counter)
    are passed explicitly as a state record. *)

From Stdlib Require Import String Ascii DecimalString.
From Stdlib Require Import ZArith QArith List Bool Lia Permutation Sorted FinFun Floats Uint63 DecimalZ.
Import ListNotations.
Local Open Scope Z_scope.

(* ================================================================== *)
(** * Part I: the program                                              *)
(* ================================================================== *)

(** ** pieces.js: the piece library *)

(** Piece identifiers: the strings 'A' .. 'L' of the closed library. *)
Inductive PieceId : Set :=
  | idA | idB | idC | idD | idE | idF | idG | idH | idI | idJ | idK | idL.

Definition PieceId_eqb (a b : PieceId) : bool :=
  match a, b with
  | idA, idA | idB, idB | idC, idC | idD, idD | idE, idE | idF, idF
  | idG, idG | idH, idH | idI, idI | idJ, idJ | idK, idK | idL, idL => true
  | _, _ => false
  end.

(** A shape is an array of [col, row] pairs. *)
Definition Cell : Set := (Z * Z)%type.
Definition Shape : Set := list Cell.

(** A piece: its id, its display name and its base shape (the colour is
    display data and is left out). *)
Record Piece : Set := mkPiece { p_id : PieceId; p_name : string; p_shape : Shape }.

Definition PIECES : list Piece :=
  [ mkPiece idA "L-shape"          [(0,0); (1,0); (2,0); (2,1)];
    mkPiece idB "S-pentomino"      [(0,0); (1,0); (1,1); (2,1); (2,2)];
    mkPiece idC "T-tetromino"      [(0,0); (1,0); (2,0); (1,1)];
    mkPiece idD "Long L"           [(0,0); (1,0); (2,0); (3,0); (3,1)];
    mkPiece idE "Z-pentomino"      [(0,0); (1,0); (1,1); (2,1); (3,1)];
    mkPiece idF "Y-pentomino"      [(0,0); (1,0); (2,0); (3,0); (1,1)];
    mkPiece idG "J-pentomino"      [(0,0); (0,1); (1,1); (2,1); (3,1)];
    mkPiece idH "Reverse-L"        [(0,0); (1,0); (2,0); (3,0); (0,1)];
    mkPiece idI "U-pentomino"      [(0,0); (1,0); (2,0); (0,1); (2,1)];
    mkPiece idJ "S-pentomino-3row" [(0,0); (0,1); (1,1); (1,2); (2,2)];
    mkPiece idK "2x2 square"       [(0,0); (1,0); (0,1); (1,1)];
    mkPiece idL "Straight line"    [(0,0); (1,0); (2,0)] ].

(** [PIECES.reduce((sum, p) => sum + p.shape.length, 0)] *)
Definition totalBalls : Z :=
  fold_left (fun sum p => sum + Z.of_nat (length (p_shape p))) PIECES 0.

(** [PIECE_MAP[k]]: the entry of [PIECES] whose id is [k].  Every id of the
    closed library has one, so the fallback is never taken. *)
Definition PIECE_MAP (k : PieceId) : Piece :=
  match find (fun p => PieceId_eqb (p_id p) k) PIECES with
  | Some p => p
  | None => mkPiece k "" []
  end.

(** ** pieces.js: transformations *)

(** [Math.min(...xs)] and [Math.max(...xs)].  On the empty array JavaScript
    gives [Infinity] and [-Infinity]; the callers then map over the same
    empty shape, so the value is never used and the model returns 0. *)
Definition list_min (xs : list Z) : Z :=
  match xs with [] => 0 | x :: t => fold_left Z.min t x end.

Definition list_max (xs : list Z) : Z :=
  match xs with [] => 0 | x :: t => fold_left Z.max t x end.

(** [Array.prototype.sort] with a comparator: a stable sort, here by
    insertion.  [x] goes in front of the first element it does not exceed, so
    equal elements keep their order. *)
Section JsSort.
Context {A : Type} (cmp : A -> A -> Z).

Fixpoint sort_insert (x : A) (l : list A) : list A :=
  match l with
  | [] => [x]
  | y :: t => if cmp x y <=? 0 then x :: y :: t else y :: sort_insert x t
  end.

Definition js_sort (l : list A) : list A := fold_right sort_insert [] l.
End JsSort.

(** The comparator of [normalize]: [a[1] - b[1] || a[0] - b[0]]. *)
Definition cmpCell (a b : Cell) : Z :=
  let d := snd a - snd b in
  if d =? 0 then fst a - fst b else d.

Definition normalize (shape : Shape) : Shape :=
  let minCol := list_min (map fst shape) in
  let minRow := list_min (map snd shape) in
  js_sort cmpCell (map (fun '(c, r) => (c - minCol, r - minRow)) shape).

Definition rotate90CW (shape : Shape) : Shape :=
  let maxRow := list_max (map snd shape) in
  normalize (map (fun '(c, r) => (maxRow - r, c)) shape).

Definition flipH (shape : Shape) : Shape :=
  let maxCol := list_max (map fst shape) in
  normalize (map (fun '(c, r) => (maxCol - c, r)) shape).

(** The decimal text of an integer, as a template literal prints it. *)
Definition num_to_string (z : Z) : string := NilEmpty.string_of_int (Z.to_int z).

(** [shape.map(([c, r]) => `${c},${r}`).join('|')] *)
Definition shapeKey (shape : Shape) : string :=
  String.concat "|"
    (map (fun '(c, r) => (num_to_string c ++ "," ++ num_to_string r)%string) shape).

(** The state of [getAllOrientations]: the [seen] set of keys and the
    [orientations] array. *)
Definition OrientState : Type := (list string * list Shape)%type.

(** The inner loop [for (rot = 0; rot < 4; rot++)], [n] rounds to go. *)
Fixpoint rotations (n : nat) (current : Shape) (st : OrientState) : OrientState :=
  match n with
  | O => st
  | S n' =>
      let key := shapeKey current in
      let st' :=
        if existsb (String.eqb key) (fst st) then st
        else (fst st ++ [key], snd st ++ [current]) in
      rotations n' (rotate90CW current) st'
  end.

Definition getAllOrientations (baseShape : Shape) : list Shape :=
  let normalized := normalize baseShape in
  snd (fold_left (fun st startShape => rotations 4 startShape st)
                 [normalized; flipH normalized] ([], [])).

(** [ORIENTATIONS[k]], built once when the module loads: the table below is
    the value of [getAllOrientations] on each base shape (lemma
    [ORIENTATIONS_eq]). *)
Definition ORIENTATIONS : PieceId -> list Shape :=
  Eval vm_compute in
    (fun k => match k with
     | idA => getAllOrientations (p_shape (PIECE_MAP idA))
     | idB => getAllOrientations (p_shape (PIECE_MAP idB))
     | idC => getAllOrientations (p_shape (PIECE_MAP idC))
     | idD => getAllOrientations (p_shape (PIECE_MAP idD))
     | idE => getAllOrientations (p_shape (PIECE_MAP idE))
     | idF => getAllOrientations (p_shape (PIECE_MAP idF))
     | idG => getAllOrientations (p_shape (PIECE_MAP idG))
     | idH => getAllOrientations (p_shape (PIECE_MAP idH))
     | idI => getAllOrientations (p_shape (PIECE_MAP idI))
     | idJ => getAllOrientations (p_shape (PIECE_MAP idJ))
     | idK => getAllOrientations (p_shape (PIECE_MAP idK))
     | idL => getAllOrientations (p_shape (PIECE_MAP idL))
     end).

(** ** solver.js: the board *)

Definition ROWS : Z := 5.
Definition COLS : Z := 11.

(** A board cell: [None] is JavaScript's [null], [Some k] the id of the
    piece lying there. *)
Definition cell : Set := option PieceId.
Definition Board : Set := list (list cell).

(** The boards of this program are [ROWS] arrays of [COLS] cells. *)
Definition wf_board (b : Board) : Prop :=
  length b = Z.to_nat ROWS /\ Forall (fun row => length row = Z.to_nat COLS) b.

Definition createEmptyBoard : Board :=
  repeat (repeat None (Z.to_nat COLS)) (Z.to_nat ROWS).

(** [board.map(row => [...row])] on values; the object-level version that
    allocates fresh rows is [Store.cloneBoard]. *)
Definition cloneBoard (b : Board) : Board := map (fun row => row) b.

(** [board[r][c]] where it denotes an element; [None] where the row or the
    element does not exist. *)
Definition getCell (b : Board) (c r : Z) : option cell :=
  if (r <? 0) || (c <? 0) then None
  else match nth_error b (Z.to_nat r) with
       | Some row => nth_error row (Z.to_nat c)
       | None => None
       end.

(** [board[r][c] === null] *)
Definition isNull (b : Board) (c r : Z) : bool :=
  match getCell b c r with Some None => true | _ => false end.

Fixpoint list_set {A : Type} (n : nat) (f : A -> option A) (l : list A) : option (list A) :=
  match l, n with
  | [], _ => None
  | x :: t, O => option_map (fun y => y :: t) (f x)
  | x :: t, S n' => option_map (cons x) (list_set n' f t)
  end.

(** [board[r][c] = v] for an existing element.  Outside the array the
    statement does not write a cell of the grid: a missing row raises a
    TypeError and an index outside the row adds a property to the row
    object; both are reported as [None]. *)
Definition setCell (b : Board) (c r : Z) (v : cell) : option Board :=
  if (r <? 0) || (c <? 0) then None
  else list_set (Z.to_nat r) (list_set (Z.to_nat c) (fun _ => Some v)) b.

(** The two nested scanning loops of [findFirstEmpty]; [n] counts the
    iterations left. *)
Fixpoint scanCols (n : nat) (b : Board) (c r : Z) : option (Z * Z) :=
  match n with
  | O => None
  | S n' => if isNull b c r then Some (c, r) else scanCols n' b (c + 1) r
  end.

Fixpoint scanRows (n : nat) (b : Board) (r : Z) : option (Z * Z) :=
  match n with
  | O => None
  | S n' =>
      match scanCols (Z.to_nat COLS) b 0 r with
      | Some target => Some target
      | None => scanRows n' b (r + 1)
      end
  end.

(** Returns [Some (col, row)] or [None] when the board is full. *)
Definition findFirstEmpty (b : Board) : option (Z * Z) :=
  scanRows (Z.to_nat ROWS) b 0.

Definition canPlace (b : Board) (shape : Shape) (col row : Z) : bool :=
  forallb (fun '(dc, dr) =>
             let c := col + dc in
             let r := row + dr in
             (r >=? 0) && (r <? ROWS) && (c >=? 0) && (c <? COLS) && isNull b c r)
          shape.

(** [shape.forEach(([dc, dr]) => { board[row + dr][col + dc] = v; })] *)
Fixpoint writeCells (b : Board) (v : cell) (shape : Shape) (col row : Z) : option Board :=
  match shape with
  | [] => Some b
  | (dc, dr) :: rest =>
      match setCell b (col + dc) (row + dr) v with
      | Some b' => writeCells b' v rest col row
      | None => None
      end
  end.

Definition placePiece (b : Board) (pieceId : PieceId) (shape : Shape) (col row : Z)
  : option Board :=
  writeCells b (Some pieceId) shape col row.

Definition removePiece (b : Board) (pieceId : PieceId) (shape : Shape) (col row : Z)
  : option Board :=
  writeCells b None shape col row.

(** ** solver.js: island pruning *)

(** The [visited] matrix of [hasDeadIslands], [ROWS] x [COLS] booleans.
    Every write is guarded by the bounds test of the loop it sits in, so the
    update below is only used inside the matrix. *)
Definition Visited : Set := list (list bool).

Definition newVisited : Visited :=
  repeat (repeat false (Z.to_nat COLS)) (Z.to_nat ROWS).

Definition isVisited (v : Visited) (c r : Z) : bool :=
  nth (Z.to_nat c) (nth (Z.to_nat r) v []) false.

Fixpoint list_upd {A : Type} (n : nat) (f : A -> A) (l : list A) : list A :=
  match l, n with
  | [], _ => []
  | x :: t, O => f x :: t
  | x :: t, S n' => x :: list_upd n' f t
  end.

(** [visited[r][c] = true] *)
Definition markVisited (v : Visited) (c r : Z) : Visited :=
  list_upd (Z.to_nat r) (list_upd (Z.to_nat c) (fun _ => true)) v.

(** One round of [for (const [nc, nr] of neighbors)]. *)
Definition visitNeighbor (b : Board) (vq : Visited * list Cell) (n : Cell)
  : Visited * list Cell :=
  let '(nc, nr) := n in
  let '(visited, queue) := vq in
  if (nr >=? 0) && (nr <? ROWS) && (nc >=? 0) && (nc <? COLS)
     && isNull b nc nr && negb (isVisited visited nc nr)
  then (markVisited visited nc nr, queue ++ [(nc, nr)])
  else vq.

(** The [while (queue.length > 0)] loop.  [fuel] bounds the number of
    rounds; [None] is returned only if it runs out. *)
Fixpoint bfsLoop (fuel : nat) (b : Board) (visited : Visited) (queue : list Cell) (size : Z)
  : option (Z * Visited) :=
  match queue with
  | [] => Some (size, visited)
  | (c, r) :: queue' =>
      match fuel with
      | O => None
      | S fuel' =>
          let neighbors := [(c - 1, r); (c + 1, r); (c, r - 1); (c, r + 1)] in
          let '(visited', queue'') := fold_left (visitNeighbor b) neighbors (visited, queue') in
          bfsLoop fuel' b visited' queue'' (size + 1)
      end
  end.

(** A round takes one cell off the queue and a cell enters the queue at most
    once, so [ROWS * COLS] rounds always suffice. *)
Definition bfsFuel : nat := S (Z.to_nat (ROWS * COLS)).

Definition bfsRegionSize (b : Board) (visited : Visited) (startCol startRow : Z)
  : option (Z * Visited) :=
  bfsLoop bfsFuel b (markVisited visited startCol startRow) [(startCol, startRow)] 0.

(** The column loop of [hasDeadIslands]; the boolean is [true] when the
    function returns [true] from inside the loop. *)
Fixpoint deadCols (n : nat) (b : Board) (minPieceSize : Z) (visited : Visited) (c r : Z)
  : option (bool * Visited) :=
  match n with
  | O => Some (false, visited)
  | S n' =>
      if isNull b c r && negb (isVisited visited c r) then
        match bfsRegionSize b visited c r with
        | None => None
        | Some (size, visited') =>
            if size <? minPieceSize then Some (true, visited')
            else deadCols n' b minPieceSize visited' (c + 1) r
        end
      else deadCols n' b minPieceSize visited (c + 1) r
  end.

Fixpoint deadRows (n : nat) (b : Board) (minPieceSize : Z) (visited : Visited) (r : Z)
  : option bool :=
  match n with
  | O => Some false
  | S n' =>
      match deadCols (Z.to_nat COLS) b minPieceSize visited 0 r with
      | None => None
      | Some (true, _) => Some true
      | Some (false, visited') => deadRows n' b minPieceSize visited' (r + 1)
      end
  end.

Definition hasDeadIslands (b : Board) (minPieceSize : Z) : option bool :=
  if minPieceSize <=? 1 then Some false
  else deadRows (Z.to_nat ROWS) b minPieceSize newVisited 0.

(** ** solver.js: the packer *)

(** An entry of the solution array. *)
Record Placement : Set := mkPlacement {
  pl_pieceId : PieceId;
  pl_shape : Shape;
  pl_col : Z;
  pl_row : Z;
  pl_orientationIndex : Z
}.

(** A JavaScript [Set] of piece ids: its elements in insertion order. *)
Definition IdSet : Set := list PieceId.

Definition set_has (k : PieceId) (s : IdSet) : bool := existsb (PieceId_eqb k) s.

(** [s.add(k)]: a new element goes last, a present one keeps its place. *)
Definition set_add (k : PieceId) (s : IdSet) : IdSet :=
  if set_has k s then s else s ++ [k].

(** [s.delete(k)] *)
Definition set_delete (k : PieceId) (s : IdSet) : IdSet :=
  filter (fun q => negb (PieceId_eqb q k)) s.

(** [new Set(ids)] *)
Definition set_of_list (ids : list PieceId) : IdSet :=
  fold_left (fun s k => set_add k s) ids [].

(** [PIECE_MAP[k].shape.length] *)
Definition pieceSize (k : PieceId) : Z := Z.of_nat (length (p_shape (PIECE_MAP k))).

(** The [newMin] computation: the least size among [ids], or 1 when there
    is none ([Infinity] replaced by 1). *)
Definition newMinOf (ids : list PieceId) : Z :=
  match ids with
  | [] => 1
  | k :: t => fold_left (fun m q => if pieceSize q <? m then pieceSize q else m) t (pieceSize k)
  end.

(** What [_solve] shares with its caller and mutates. *)
Record SolveState : Set := mkSolveState {
  board : Board;
  remaining : IdSet;
  solution : list Placement
}.

(** The result of a search call in the model: [None] when the model gives no
    result (out of fuel, or a write outside the board); otherwise the
    returned value and the state left behind. *)
Definition SolveResult : Set := option (bool * SolveState).

Section SolveLoops.
(** The recursive call [_solve(board, remaining, solution, newMin)]. *)
Variable rec : SolveState -> Z -> SolveResult.
Variables targetCol targetRow : Z.

(** [for (const [dc, dr] of shape)], over the cells still to try. *)
Fixpoint solveCells (pieceId : PieceId) (oi : Z) (shape : Shape) (cells : list Cell)
                    (st : SolveState) : SolveResult :=
  match cells with
  | [] => Some (false, st)
  | (dc, dr) :: cells' =>
      let placeCol := targetCol - dc in
      let placeRow := targetRow - dr in
      if canPlace (board st) shape placeCol placeRow then
        match placePiece (board st) pieceId shape placeCol placeRow with
        | None => None
        | Some b1 =>
            let rem1 := set_delete pieceId (remaining st) in
            let newMin := newMinOf rem1 in
            match hasDeadIslands b1 newMin with
            | None => None
            | Some false =>
                let sol1 := solution st ++ [mkPlacement pieceId shape placeCol placeRow oi] in
                match rec (mkSolveState b1 rem1 sol1) newMin with
                | None => None
                | Some (true, st') => Some (true, st')
                | Some (false, st2) =>
                    let sol2 := removelast (solution st2) in
                    let rem2 := set_add pieceId (remaining st2) in
                    match removePiece (board st2) pieceId shape placeCol placeRow with
                    | None => None
                    | Some b2 => solveCells pieceId oi shape cells' (mkSolveState b2 rem2 sol2)
                    end
                end
            | Some true =>
                let rem2 := set_add pieceId rem1 in
                match removePiece b1 pieceId shape placeCol placeRow with
                | None => None
                | Some b2 =>
                    solveCells pieceId oi shape cells' (mkSolveState b2 rem2 (solution st))
                end
            end
        end
      else solveCells pieceId oi shape cells' st
  end.

(** [for (let oi = 0; oi < orientations.length; oi++)] *)
Fixpoint solveOrients (pieceId : PieceId) (oi : Z) (orientations : list Shape)
                      (st : SolveState) : SolveResult :=
  match orientations with
  | [] => Some (false, st)
  | shape :: rest =>
      match solveCells pieceId oi shape shape st with
      | None => None
      | Some (true, st') => Some (true, st')
      | Some (false, st') => solveOrients pieceId (oi + 1) rest st'
      end
  end.

(** [for (const pieceId of pieceIds)] over the snapshot of [remaining]. *)
Fixpoint solvePieces (pieceIds : list PieceId) (st : SolveState) : SolveResult :=
  match pieceIds with
  | [] => Some (false, st)
  | pieceId :: rest =>
      match solveOrients pieceId 0 (ORIENTATIONS pieceId) st with
      | None => None
      | Some (true, st') => Some (true, st')
      | Some (false, st') => solvePieces rest st'
      end
  end.
End SolveLoops.

(** [_solve]; the recursion depth is bounded by [fuel]. *)
Fixpoint _solve (fuel : nat) (st : SolveState) (minPieceSize : Z) : SolveResult :=
  match fuel with
  | O => None
  | S fuel' =>
      match findFirstEmpty (board st) with
      | None => Some (true, st)
      | Some (targetCol, targetRow) =>
          solvePieces (_solve fuel') targetCol targetRow (remaining st) st
      end
  end.

(** The comparator of [solve]: larger pieces first. *)
Definition cmpSize (a b : PieceId) : Z := pieceSize b - pieceSize a.

(** The body of [solve] once [workBoard] is made: the value returned
    ([Some sol] for a solution, [None] for [null]) and the content the search
    leaves in [workBoard].  Each call of [_solve] removes one id from
    [remaining] before it recurses, so one more level than there are ids is
    enough fuel. *)
Definition solveOn (workBoard : Board) (availablePieceIds : list PieceId)
  : option (option (list Placement) * Board) :=
  let remaining0 := set_of_list availablePieceIds in
  let sortedIds := js_sort cmpSize remaining0 in
  match _solve (S (length sortedIds)) (mkSolveState workBoard (set_of_list sortedIds) []) 3 with
  | None => None
  | Some (true, st) => Some (Some (solution st), board st)
  | Some (false, st) => Some (None, board st)
  end.

(** [solve(board, availablePieceIds)] *)
Definition solve (b : Board) (availablePieceIds : list PieceId)
  : option (option (list Placement)) :=
  option_map fst (solveOn (cloneBoard b) availablePieceIds).

(** ** solver.js: the ordered packer *)

(** [_solveOrdered] shares the board and the solution with its caller;
    [remainingIds] is an array that is never mutated. *)
Record OrderedState : Set := mkOrderedState {
  o_board : Board;
  o_solution : list Placement
}.

Definition OrderedResult : Set := option (bool * OrderedState).

Section OrderedLoops.
Variable rec : OrderedState -> list PieceId -> Z -> OrderedResult.
Variables targetCol targetRow : Z.

(** [newRemaining] is [remainingIds] without index [i]. *)
Fixpoint orderedCells (pieceId : PieceId) (newRemaining : list PieceId) (oi : Z)
                      (shape : Shape) (cells : list Cell) (st : OrderedState)
  : OrderedResult :=
  match cells with
  | [] => Some (false, st)
  | (dc, dr) :: cells' =>
      let placeCol := targetCol - dc in
      let placeRow := targetRow - dr in
      if canPlace (o_board st) shape placeCol placeRow then
        match placePiece (o_board st) pieceId shape placeCol placeRow with
        | None => None
        | Some b1 =>
            let newMin := newMinOf newRemaining in
            match hasDeadIslands b1 newMin with
            | None => None
            | Some false =>
                let sol1 := o_solution st ++ [mkPlacement pieceId shape placeCol placeRow oi] in
                match rec (mkOrderedState b1 sol1) newRemaining newMin with
                | None => None
                | Some (true, st') => Some (true, st')
                | Some (false, st2) =>
                    match removePiece (o_board st2) pieceId shape placeCol placeRow with
                    | None => None
                    | Some b2 =>
                        orderedCells pieceId newRemaining oi shape cells'
                          (mkOrderedState b2 (removelast (o_solution st2)))
                    end
                end
            | Some true =>
                match removePiece b1 pieceId shape placeCol placeRow with
                | None => None
                | Some b2 =>
                    orderedCells pieceId newRemaining oi shape cells'
                      (mkOrderedState b2 (o_solution st))
                end
            end
        end
      else orderedCells pieceId newRemaining oi shape cells' st
  end.

Fixpoint orderedOrients (pieceId : PieceId) (newRemaining : list PieceId) (oi : Z)
                        (orientations : list Shape) (st : OrderedState) : OrderedResult :=
  match orientations with
  | [] => Some (false, st)
  | shape :: rest =>
      match orderedCells pieceId newRemaining oi shape shape st with
      | None => None
      | Some (true, st') => Some (true, st')
      | Some (false, st') => orderedOrients pieceId newRemaining (oi + 1) rest st'
      end
  end.

(** [for (let i = 0; i < remainingIds.length; i++)]: [before] holds the
    ids of index below [i], [rest] those from [i] on. *)
Fixpoint orderedPieces (before rest : list PieceId) (st : OrderedState) : OrderedResult :=
  match rest with
  | [] => Some (false, st)
  | pieceId :: after =>
      match orderedOrients pieceId (before ++ after) 0 (ORIENTATIONS pieceId) st with
      | None => None
      | Some (true, st') => Some (true, st')
      | Some (false, st') => orderedPieces (before ++ [pieceId]) after st'
      end
  end.
End OrderedLoops.

Fixpoint _solveOrdered (fuel : nat) (st : OrderedState) (remainingIds : list PieceId)
                       (minPieceSize : Z) : OrderedResult :=
  match fuel with
  | O => None
  | S fuel' =>
      match findFirstEmpty (o_board st) with
      | None => Some (true, st)
      | Some (targetCol, targetRow) =>
          orderedPieces (_solveOrdered fuel') targetCol targetRow [] remainingIds st
      end
  end.

Definition solveWithOrderOn (workBoard : Board) (orderedPieceIds : list PieceId)
  : option (option (list Placement) * Board) :=
  match _solveOrdered (S (length orderedPieceIds)) (mkOrderedState workBoard [])
                      orderedPieceIds 3 with
  | None => None
  | Some (true, st) => Some (Some (o_solution st), o_board st)
  | Some (false, st) => Some (None, o_board st)
  end.

(** [solveWithOrder(board, orderedPieceIds)] *)
Definition solveWithOrder (b : Board) (orderedPieceIds : list PieceId)
  : option (option (list Placement)) :=
  option_map fst (solveWithOrderOn (cloneBoard b) orderedPieceIds).

(** ** solver.js: the solution counter *)

(** What [_countSolve] shares with its caller: the board, the remaining set
    and the [counter] object. *)
Record CountState : Set := mkCountState {
  c_board : Board;
  c_remaining : IdSet;
  c_count : Z
}.

(** A loop of [_countSolve] reports whether the function has returned from
    inside it ([true]) or the loop ran to its end ([false]). *)
Definition CountResult : Set := option (bool * CountState).

Section CountLoops.
Variable rec : CountState -> Z -> option CountState.
Variable maxCount : Z.
Variables targetCol targetRow : Z.

Fixpoint countCells (pieceId : PieceId) (shape : Shape) (cells : list Cell)
                    (st : CountState) : CountResult :=
  match cells with
  | [] => Some (false, st)
  | (dc, dr) :: cells' =>
      let placeCol := targetCol - dc in
      let placeRow := targetRow - dr in
      if canPlace (c_board st) shape placeCol placeRow then
        match placePiece (c_board st) pieceId shape placeCol placeRow with
        | None => None
        | Some b1 =>
            let rem1 := set_delete pieceId (c_remaining st) in
            let newMin := newMinOf rem1 in
            match hasDeadIslands b1 newMin with
            | None => None
            | Some false =>
                match rec (mkCountState b1 rem1 (c_count st)) newMin with
                | None => None
                | Some st2 =>
                    let rem2 := set_add pieceId (c_remaining st2) in
                    match removePiece (c_board st2) pieceId shape placeCol placeRow with
                    | None => None
                    | Some b2 =>
                        if c_count st2 >=? maxCount
                        then Some (true, mkCountState b2 rem2 (c_count st2))
                        else countCells pieceId shape cells' (mkCountState b2 rem2 (c_count st2))
                    end
                end
            | Some true =>
                let rem2 := set_add pieceId rem1 in
                match removePiece b1 pieceId shape placeCol placeRow with
                | None => None
                | Some b2 => countCells pieceId shape cells' (mkCountState b2 rem2 (c_count st))
                end
            end
        end
      else countCells pieceId shape cells' st
  end.

Fixpoint countOrients (pieceId : PieceId) (orientations : list Shape) (st : CountState)
  : CountResult :=
  match orientations with
  | [] => Some (false, st)
  | shape :: rest =>
      match countCells pieceId shape shape st with
      | None => None
      | Some (true, st') => Some (true, st')
      | Some (false, st') => countOrients pieceId rest st'
      end
  end.

Fixpoint countPieces (pieceIds : list PieceId) (st : CountState) : CountResult :=
  match pieceIds with
  | [] => Some (false, st)
  | pieceId :: rest =>
      match countOrients pieceId (ORIENTATIONS pieceId) st with
      | None => None
      | Some (true, st') => Some (true, st')
      | Some (false, st') => countPieces rest st'
      end
  end.
End CountLoops.

Fixpoint _countSolve (fuel : nat) (maxCount : Z) (st : CountState) (minPieceSize : Z)
  : option CountState :=
  match fuel with
  | O => None
  | S fuel' =>
      if c_count st >=? maxCount then Some st
      else
        match findFirstEmpty (c_board st) with
        | None => Some (mkCountState (c_board st) (c_remaining st) (c_count st + 1))
        | Some (targetCol, targetRow) =>
            option_map snd
              (countPieces (fun s m => _countSolve fuel' maxCount s m) maxCount
                           targetCol targetRow (c_remaining st) st)
        end
  end.

Definition countSolutionsOn (workBoard : Board) (availablePieceIds : list PieceId)
                            (maxCount : Z) : option (Z * Board) :=
  let remaining0 := set_of_list availablePieceIds in
  option_map (fun st => (c_count st, c_board st))
    (_countSolve (S (length remaining0)) maxCount (mkCountState workBoard remaining0 0) 3).

(** [countSolutions(board, availablePieceIds, maxCount)] *)
Definition countSolutions (b : Board) (availablePieceIds : list PieceId) (maxCount : Z)
  : option Z :=
  option_map fst (countSolutionsOn (cloneBoard b) availablePieceIds maxCount).

(** ** solver.js: the entry points on the caller's board *)

(** The entry points of solver.js receive a reference to the caller's
    board.  Row arrays are objects: here they live in a heap and are named
    by their address, and a board is the array of the addresses of its rows
    (two entries may name the same row).  [cloneBoard] allocates a new row
    for each row of the board, so the work board shares nothing with the
    caller's board and with itself; the search then runs on it as on a
    value, and what it leaves there is written back to the new rows. *)
Module Store.

Definition Heap : Set := list (list cell).
Definition BoardRef : Set := list nat.

(** The content of a board. *)
Fixpoint readBoard (h : Heap) (b : BoardRef) : option Board :=
  match b with
  | [] => Some []
  | a :: rest =>
      match nth_error h a, readBoard h rest with
      | Some row, Some rows => Some (row :: rows)
      | _, _ => None
      end
  end.

(** [board.map(row => [...row])]: the copies go to fresh addresses. *)
Definition cloneBoard (h : Heap) (b : BoardRef) : option (Heap * BoardRef) :=
  match readBoard h b with
  | Some rows => Some (h ++ rows, seq (length h) (length rows))
  | None => None
  end.

(** The rows of [b] after the search has mutated them into [v]. *)
Fixpoint writeBoard (h : Heap) (b : BoardRef) (v : Board) : Heap :=
  match b, v with
  | a :: rest, row :: rows => writeBoard (list_upd a (fun _ => row) h) rest rows
  | _, _ => h
  end.

(** Runs a search given on board values on a clone of the caller's board:
    the value returned and the heap afterwards. *)
Definition onClone {R : Type} (search : Board -> option (R * Board)) (h : Heap) (b : BoardRef)
  : option (R * Heap) :=
  match cloneBoard h b with
  | None => None
  | Some (h1, workBoard) =>
      match readBoard h1 workBoard with
      | None => None
      | Some v =>
          match search v with
          | None => None
          | Some (res, v') => Some (res, writeBoard h1 workBoard v')
          end
      end
  end.

Definition solve (h : Heap) (b : BoardRef) (availablePieceIds : list PieceId) :=
  onClone (fun v => solveOn v availablePieceIds) h b.

Definition solveWithOrder (h : Heap) (b : BoardRef) (orderedPieceIds : list PieceId) :=
  onClone (fun v => solveWithOrderOn v orderedPieceIds) h b.

Definition countSolutions (h : Heap) (b : BoardRef) (availablePieceIds : list PieceId)
                          (maxCount : Z) :=
  onClone (fun v => countSolutionsOn v availablePieceIds maxCount) h b.

(** A call of one of the three entry points. *)
Inductive Call : Set :=
  | CallSolve (availablePieceIds : list PieceId)
  | CallSolveWithOrder (orderedPieceIds : list PieceId)
  | CallCountSolutions (availablePieceIds : list PieceId) (maxCount : Z).

(** The heap a call leaves behind, when it returns. *)
Definition heapAfter (h : Heap) (b : BoardRef) (call : Call) : option Heap :=
  match call with
  | CallSolve ids => option_map snd (solve h b ids)
  | CallSolveWithOrder ids => option_map snd (solveWithOrder h b ids)
  | CallCountSolutions ids maxCount => option_map snd (countSolutions h b ids maxCount)
  end.

End Store.

(** ** solver.js: [generateChallenge] *)

(** A locked placement as a descriptor carries it: no shape, only the
    orientation index. *)
Record Locked : Set := mkLocked {
  lk_pieceId : PieceId;
  lk_col : Z;
  lk_row : Z;
  lk_orientationIndex : Z
}.

(** [p => ({ pieceId: p.pieceId, col: p.col, row: p.row, orientationIndex: ... })] *)
Definition lockedOf (p : Placement) : Locked :=
  mkLocked (pl_pieceId p) (pl_col p) (pl_row p) (pl_orientationIndex p).

(** What [generateChallenge] returns. *)
Record GeneratedChallenge : Set := mkGenerated {
  g_prePlaced : list Locked;
  g_solution : list Placement
}.

(** [for (const p of prePlaced) placePiece(testBoard, p.pieceId, p.shape, p.col, p.row)] *)
Fixpoint placeAll (b : Board) (ps : list Placement) : option Board :=
  match ps with
  | [] => Some b
  | p :: rest =>
      match placePiece b (pl_pieceId p) (pl_shape p) (pl_col p) (pl_row p) with
      | Some b' => placeAll b' rest
      | None => None
      end
  end.

Section GenerateChallenge.
(** [[...solution].sort(() => Math.random() - 0.5)]: the order the random
    comparator produces at each attempt is not determined by the program;
    [shuffle attempt] stands for it. *)
Variable shuffle : nat -> list Placement -> list Placement.

(** The loop [for (attempt = 0; attempt < 100; attempt++)], [n] attempts
    to go. *)
Fixpoint attempts (n : nat) (attempt : nat) (preCount : nat) (sol : list Placement)
  : option (option GeneratedChallenge) :=
  match n with
  | O => Some None
  | S n' =>
      let shuffled := shuffle attempt sol in
      let prePlaced := firstn preCount shuffled in
      let remainingIds := map pl_pieceId (skipn preCount shuffled) in
      match placeAll createEmptyBoard prePlaced with
      | None => None
      | Some testBoard =>
          match countSolutions testBoard remainingIds 2 with
          | None => None
          | Some count =>
              if count =? 1
              then Some (Some (mkGenerated (map lockedOf prePlaced) sol))
              else attempts n' (S attempt) preCount sol
          end
      end
  end.

(** What [generateChallenge] does with the packer's answer [solution]:
    [null] without a solution, the attempts otherwise. *)
Definition challengeFrom (solution : option (option (list Placement))) (preCount : nat)
  : option (option GeneratedChallenge) :=
  match solution with
  | None => None
  | Some None => Some None
  | Some (Some sol) => attempts 100 0 preCount sol
  end.

(** [generateChallenge(difficulty)]: [Some None] is [null]. *)
Definition generateChallenge (difficulty : Z) : option (option GeneratedChallenge) :=
  let preCount := Z.max 5 (10 - difficulty) in
  let allIds := map p_id PIECES in
  let solution := solve createEmptyBoard allIds in
  challengeFrom solution (Z.to_nat preCount).
End GenerateChallenge.

(** ** challenges.js *)

Definition CHALLENGES_PER_DIFFICULTY : Z := 10.
Definition DIFFICULTY_LEVELS : Z := 5.

(** [DIFFICULTY_CONFIG[difficulty]]: player pieces and name.  The table has
    the keys 1 to 5, the only ones [buildChallengesFromSolutions] reads. *)
Definition DIFFICULTY_CONFIG (difficulty : Z) : Z * string :=
  match difficulty with
  | 1 => (2, "Starter")
  | 2 => (4, "Junior")
  | 3 => (6, "Expert")
  | 4 => (8, "Master")
  | _ => (10, "Wizard")
  end%string.

(** [x & 0xFFFFFFFF]: the signed 32-bit integer congruent to [x]. *)
Definition toInt32 (x : Z) : Z :=
  let m := x mod 4294967296 in
  if m >=? 2147483648 then m - 4294967296 else m.

(** The state update of [seededRandom]: the product stays below 2^53, so
    the double arithmetic of the source is exact. *)
Definition lcgNext (s : Z) : Z := toInt32 (s * 1664525 + 1013904223).

(** A non-negative integer below 2^53 as a double. *)
Definition floatOfZ (z : Z) : float := PrimFloat.of_uint63 (Uint63.of_Z z).

(** [Math.floor] of a non-negative double. *)
Definition floorZ (f : float) : Z :=
  match Prim2SF f with
  | SpecFloat.S754_finite false m e => Z.shiftl (Z.pos m) e
  | _ => 0
  end.

(** [(s >>> 0) / 0xFFFFFFFF] *)
Definition rngValue (s : Z) : float :=
  PrimFloat.div (floatOfZ (s mod 4294967296)) (floatOfZ 4294967295).

(** [[result[i], result[j]] = [result[j], result[i]]] for two indices of the
    array.  [shuffleWithRng] draws [j <= i] unless the generator returns
    exactly 1 (state [0xFFFFFFFF]); the source then writes past the end of
    the array, which the model leaves out (the list is returned as it
    is). *)
Definition swap {A : Type} (l : list A) (i j : nat) : list A :=
  match nth_error l i, nth_error l j with
  | Some x, Some y => list_upd j (fun _ => x) (list_upd i (fun _ => y) l)
  | _, _ => l
  end.

(** The loop of [shuffleWithRng], from index [i] down to 1; [s] is the state
    of the generator. *)
Fixpoint shuffleLoop {A : Type} (i : nat) (s : Z) (result : list A) : list A :=
  match i with
  | O => result
  | S i' =>
      let s' := lcgNext s in
      let j := floorZ (PrimFloat.mul (rngValue s') (floatOfZ (Z.of_nat i + 1))) in
      shuffleLoop i' s' (swap result i (Z.to_nat j))
  end.

(** [shuffleWithRng(arr, seededRandom(seed))] *)
Definition shuffleWithSeed {A : Type} (arr : list A) (seed : Z) : list A :=
  shuffleLoop (length arr - 1) seed arr.

Definition SOLUTION_SEEDS : list Z :=
  [42; 7919; 31337; 86753; 104729; 271828; 314159; 577215; 161803; 248163].

(** A challenge of challenges.js. *)
Record Challenge : Set := mkChallenge {
  ch_id : Z;
  ch_difficulty : Z;
  ch_name : string;
  ch_prePlaced : list Locked;
  ch_playerPieceIds : list PieceId;
  ch_solution : list Locked
}.

(** The body of the inner loop of [buildChallengesFromSolutions]. *)
Definition buildChallenge (solutions : list (list Placement)) (challengeId difficulty i : Z)
  : option Challenge :=
  let '(playerPieces, name) := DIFFICULTY_CONFIG difficulty in
  let preCount := Z.to_nat (12 - playerPieces) in
  let solutionIdx := i mod Z.of_nat (length solutions) in
  match nth_error solutions (Z.to_nat solutionIdx) with
  | None => None
  | Some sol =>
      let selectionSeed := difficulty * 100003 + i * 7919 + solutionIdx * 54321 in
      let shuffled := shuffleWithSeed sol selectionSeed in
      let prePlaced := firstn preCount shuffled in
      Some (mkChallenge challengeId difficulty name
              (map lockedOf prePlaced)
              (map pl_pieceId (skipn preCount shuffled))
              (map lockedOf sol))
  end.

(** All in a list of results, or none. *)
Fixpoint sequence {A : Type} (l : list (option A)) : option (list A) :=
  match l with
  | [] => Some []
  | Some x :: t => option_map (cons x) (sequence t)
  | None :: _ => None
  end.

(** [buildChallengesFromSolutions(solutions)]: ten challenges for each of the
    five difficulties, numbered from 1; the challenge of index [k] in the
    result has difficulty [k / 10 + 1] and inner index [i = k mod 10].
    [None] when [solutions] is empty (the source then reads
    [solutions[NaN]] and throws). *)
Definition buildChallengesFromSolutions (solutions : list (list Placement))
  : option (list Challenge) :=
  sequence
    (map (fun k => buildChallenge solutions (Z.of_nat k + 1)
                     (Z.of_nat k / CHALLENGES_PER_DIFFICULTY + 1)
                     (Z.of_nat k mod CHALLENGES_PER_DIFFICULTY))
         (seq 0 (Z.to_nat (DIFFICULTY_LEVELS * CHALLENGES_PER_DIFFICULTY)))).

(** The board a challenge shows: its locked pieces on the empty board, each
    with the shape its orientation index names. *)
Fixpoint placeLocked (b : Board) (ps : list Locked) : option Board :=
  match ps with
  | [] => Some b
  | p :: rest =>
      match nth_error (ORIENTATIONS (lk_pieceId p)) (Z.to_nat (lk_orientationIndex p)) with
      | None => None
      | Some shape =>
          match placePiece b (lk_pieceId p) shape (lk_col p) (lk_row p) with
          | Some b' => placeLocked b' rest
          | None => None
          end
      end
  end.

(** ** challenges.js: the shuffle on arrays that may hold [undefined] *)

(** The index that round [i] of [shuffleWithRng] draws when the generator
    is in state [s]: [Math.floor(rng() * (i + 1))]. *)
Definition drawIndex (i : nat) (s : Z) : Z :=
  floorZ (PrimFloat.mul (rngValue s) (floatOfZ (Z.of_nat i + 1))).

(** A JavaScript array whose entries may be [undefined] ([None]). *)
Definition JsArray (A : Type) : Type := list (option A).

(** [arr[i]]: [undefined] outside the array. *)
Definition jsGet {A : Type} (arr : JsArray A) (i : nat) : option A :=
  match nth_error arr i with
  | Some v => v
  | None => None
  end.

(** [arr[i] = v]: an index at or past the end makes the array longer. *)
Definition jsSet {A : Type} (arr : JsArray A) (i : nat) (v : option A) : JsArray A :=
  if (i <? length arr)%nat then list_upd i (fun _ => v) arr
  else arr ++ repeat None (i - length arr) ++ [v].

(** [[result[i], result[j]] = [result[j], result[i]]]: both entries are
    read, then [result[i]] and [result[j]] are written in that order. *)
Definition swapArr {A : Type} (result : JsArray A) (i j : nat) : JsArray A :=
  let a := jsGet result j in
  let b := jsGet result i in
  jsSet (jsSet result i a) j b.

Fixpoint shuffleLoopArr {A : Type} (i : nat) (s : Z) (result : JsArray A) : JsArray A :=
  match i with
  | O => result
  | S i' =>
      let s' := lcgNext s in
      shuffleLoopArr i' s' (swapArr result i (Z.to_nat (drawIndex i s')))
  end.

(** [shuffleWithSeed(arr, seed)] on such arrays. *)
Definition shuffleWithSeedArr {A : Type} (arr : list A) (seed : Z) : JsArray A :=
  shuffleLoopArr (length arr - 1) seed (map Some arr).

(** [shuffleWithSeed(arr, undefined)]: the first state of the generator is
    [NaN & 0xFFFFFFFF], that is 0, and the first draw is 0. *)
Definition shuffleWithUndefinedSeed {A : Type} (arr : list A) : list A :=
  match (length arr - 1)%nat with
  | O => arr
  | S i' => shuffleLoop i' 0 (swap arr (S i') (Z.to_nat (drawIndex (S i') 0)))
  end.

(** ** challenges.js: [generateSolutionsSync] *)

(** The piece ids as the strings they are. *)
Definition idName (k : PieceId) : string :=
  match k with
  | idA => "A" | idB => "B" | idC => "C" | idD => "D" | idE => "E" | idF => "F"
  | idG => "G" | idH => "H" | idI => "I" | idJ => "J" | idK => "K" | idL => "L"
  end.

(** [`${p.pieceId}@${p.col},${p.row}`] *)
Definition placementTag (p : Placement) : string :=
  (idName (pl_pieceId p) ++ "@" ++ num_to_string (pl_col p) ++ ","
   ++ num_to_string (pl_row p))%string.

(** The order of [Array.prototype.sort] without a comparator, on strings:
    by code units. *)
Definition cmpString (a b : string) : Z :=
  match String.compare a b with
  | Lt => -1
  | Eq => 0
  | Gt => 1
  end.

(** [solution.map(p => ...).sort().join('|')] *)
Definition fingerprint (sol : list Placement) : string :=
  String.concat "|" (js_sort cmpString (map placementTag sol)).

(** The loop of [generateSolutionsSync]: [n] rounds to go, [i] the index of
    the round; [seeds[i]] is [undefined] past the end of [seeds]. *)
Fixpoint solutionsLoop (n i : nat) (seeds : list Z) (seen : list string)
                       (solutions : list (list Placement))
  : option (list string * list (list Placement)) :=
  match n with
  | O => Some (seen, solutions)
  | S n' =>
      let allIds := map p_id PIECES in
      let orderedIds :=
        match nth_error seeds i with
        | Some seed => shuffleWithSeed allIds seed
        | None => shuffleWithUndefinedSeed allIds
        end in
      match solveWithOrder createEmptyBoard orderedIds with
      | None => None
      | Some None => solutionsLoop n' (S i) seeds seen solutions
      | Some (Some solution) =>
          let fp := fingerprint solution in
          if existsb (String.eqb fp) seen
          then solutionsLoop n' (S i) seeds seen solutions
          else solutionsLoop n' (S i) seeds (seen ++ [fp]) (solutions ++ [solution])
      end
  end.

(** The fallback of [generateSolutionsSync]: what it makes of the packer's
    answer on the full library. *)
Definition fallbackSolutions (solution : option (option (list Placement)))
  : option (list (list Placement)) :=
  match solution with
  | None => None
  | Some None => Some []
  | Some (Some s) => Some [s]
  end.

Definition generateSolutionsSync (count : nat) (seeds : list Z)
  : option (list (list Placement)) :=
  match solutionsLoop count 0 seeds [] [] with
  | None => None
  | Some (_, []) => fallbackSolutions (solve createEmptyBoard (map p_id PIECES))
  | Some (_, solutions) => Some solutions
  end.

(** ** challenges.js: [getChallenge] *)

(** [challenges.find(c => c.id === id) || null], on the array that
    [getChallenges] returns. *)
Definition getChallenge (challenges : list Challenge) (id : Z) : option Challenge :=
  find (fun c => ch_id c =? id) challenges.

(** ** game.js: the state *)

(** An entry of [state.placed]: [{ col, row, orientationIndex, shape }]. *)
Record PlacedPiece : Set := mkPlaced {
  pp_col : Z;
  pp_row : Z;
  pp_orientationIndex : Z;
  pp_shape : Shape
}.

(** [state.selected]: [{ id, orientationIndex, shape, anchorCol, anchorRow }]. *)
Record Selection : Set := mkSelection {
  sel_id : PieceId;
  sel_orientationIndex : Z;
  sel_shape : Shape;
  sel_anchorCol : Z;
  sel_anchorRow : Z
}.

(** [state.mode]: ['idle' | 'selected' | 'dragging']. *)
Inductive Mode : Set := ModeIdle | ModeSelected | ModeDragging.

(** The [Map] [state.placed], read by key only. *)
Definition PlacedMap : Set := PieceId -> option PlacedPiece.

Definition map_set (m : PlacedMap) (k : PieceId) (v : PlacedPiece) : PlacedMap :=
  fun q => if PieceId_eqb q k then Some v else m q.

Definition map_delete (m : PlacedMap) (k : PieceId) : PlacedMap :=
  fun q => if PieceId_eqb q k then None else m q.

(** The fields of [state] that the board logic, the selection and the
    challenge loader read and write.  The ghost preview, the clock values of
    the timer and the DOM references are left out; no function below reads
    them. *)
Record GameState : Set := mkGame {
  g_board : Board;
  g_placed : PlacedMap;
  g_tray : IdSet;
  g_selected : option Selection;
  g_mode : Mode;
  g_currentChallengeId : Z;
  g_currentChallenge : option Challenge;
  g_lockedPieces : IdSet;
  g_timerStarted : bool
}.

(** The initial value of [state]. *)
Definition initialState : GameState :=
  mkGame createEmptyBoard (fun _ => None) (set_of_list (map p_id PIECES))
         None ModeIdle 1 None [] false.

(** ** game.js: board logic *)

(** [canPlace(shape, col, row)] on [state.board]. *)
Definition gameCanPlace (g : GameState) (shape : Shape) (col row : Z) : bool :=
  canPlace (g_board g) shape col row.

(** [startTimer()], as far as the flag goes. *)
Definition startTimer (g : GameState) : GameState :=
  if g_timerStarted g then g
  else mkGame (g_board g) (g_placed g) (g_tray g) (g_selected g) (g_mode g)
              (g_currentChallengeId g) (g_currentChallenge g) (g_lockedPieces g) true.

(** [doPlace(pieceId, shape, col, row, orientationIndex)].  [None] when a
    write falls outside the arrays of the board. *)
Definition doPlace (g : GameState) (pieceId : PieceId) (shape : Shape)
    (col row orientationIndex : Z) : option GameState :=
  match writeCells (g_board g) (Some pieceId) shape col row with
  | None => None
  | Some board' =>
      let g1 := mkGame board'
                       (map_set (g_placed g) pieceId (mkPlaced col row orientationIndex shape))
                       (set_delete pieceId (g_tray g))
                       (g_selected g) (g_mode g)
                       (g_currentChallengeId g) (g_currentChallenge g)
                       (g_lockedPieces g) (g_timerStarted g) in
      Some (if negb (set_has pieceId (g_lockedPieces g)) && negb (g_timerStarted g)
            then startTimer g1 else g1)
  end.

(** The inner loop of [doRemove] over the columns of row [r]; [n] counts
    the iterations left.  A missing row raises a TypeError ([None]); a
    missing element compares unequal to the id. *)
Fixpoint clearCols (n : nat) (b : Board) (pieceId : PieceId) (c r : Z) : option Board :=
  match n with
  | O => Some b
  | S n' =>
      match nth_error b (Z.to_nat r) with
      | None => None
      | Some rowArr =>
          match nth_error rowArr (Z.to_nat c) with
          | Some (Some q) =>
              if PieceId_eqb q pieceId
              then match setCell b c r None with
                   | Some b' => clearCols n' b' pieceId (c + 1) r
                   | None => None
                   end
              else clearCols n' b pieceId (c + 1) r
          | _ => clearCols n' b pieceId (c + 1) r
          end
      end
  end.

Fixpoint clearRows (n : nat) (b : Board) (pieceId : PieceId) (r : Z) : option Board :=
  match n with
  | O => Some b
  | S n' =>
      match clearCols (Z.to_nat COLS) b pieceId 0 r with
      | Some b' => clearRows n' b' pieceId (r + 1)
      | None => None
      end
  end.

(** [doRemove(pieceId)]: the boolean returned and the state left. *)
Definition doRemove (g : GameState) (pieceId : PieceId) : option (bool * GameState) :=
  if set_has pieceId (g_lockedPieces g) then Some (false, g)
  else
    match clearRows (Z.to_nat ROWS) (g_board g) pieceId 0 with
    | None => None
    | Some board' =>
        Some (true,
              mkGame board' (map_delete (g_placed g) pieceId) (set_add pieceId (g_tray g))
                     (g_selected g) (g_mode g)
                     (g_currentChallengeId g) (g_currentChallenge g)
                     (g_lockedPieces g) (g_timerStarted g))
    end.

(** [state.board.every(row => row.every(cell => cell !== null))] *)
Definition isBoardFull (g : GameState) : bool :=
  forallb (fun row => forallb (fun v : cell => match v with Some _ => true | None => false end) row)
          (g_board g).

(** ** game.js: selecting, turning and flipping the piece in hand *)

(** [(c - centerCol) ** 2 + (r - centerRow) ** 2]; the halves are exact. *)
Definition sqDist (centerCol centerRow : Q) (p : Cell) : Q :=
  ((inject_Z (fst p) - centerCol) ^ 2 + (inject_Z (snd p) - centerRow) ^ 2)%Q.

(** The loop of [computeAnchor]; [bestDist = None] is [Infinity]. *)
Fixpoint anchorLoop (centerCol centerRow : Q) (cells : Shape) (best : Cell)
    (bestDist : option Q) : Cell :=
  match cells with
  | [] => best
  | p :: rest =>
      let d := sqDist centerCol centerRow p in
      let closer := match bestDist with
                    | None => true
                    | Some bd => if Qlt_le_dec d bd then true else false
                    end in
      if closer then anchorLoop centerCol centerRow rest p (Some d)
      else anchorLoop centerCol centerRow rest best bestDist
  end.

(** [computeAnchor(shape)]: [(anchorCol, anchorRow)].  On the empty shape
    [best] is [undefined] and reading [best[0]] raises a TypeError. *)
Definition computeAnchor (shape : Shape) : option (Z * Z) :=
  match shape with
  | [] => None
  | first :: _ =>
      let maxCol := list_max (map fst shape) in
      let maxRow := list_max (map snd shape) in
      let centerCol := (inject_Z maxCol / 2)%Q in
      let centerRow := (inject_Z maxRow / 2)%Q in
      Some (anchorLoop centerCol centerRow shape first None)
  end.

Definition withSelection (g : GameState) (s : option Selection) (m : Mode) : GameState :=
  mkGame (g_board g) (g_placed g) (g_tray g) s m
         (g_currentChallengeId g) (g_currentChallenge g)
         (g_lockedPieces g) (g_timerStarted g).

(** [selectPiece(pieceId)].  [None] when [ORIENTATIONS[pieceId][0]] is
    missing or empty, where [computeAnchor] raises. *)
Definition selectPiece (g : GameState) (pieceId : PieceId) : option GameState :=
  if negb (set_has pieceId (g_tray g)) then Some g
  else if set_has pieceId (g_lockedPieces g) then Some g
  else
    let orientationIndex := 0 in
    match nth_error (ORIENTATIONS pieceId) (Z.to_nat orientationIndex) with
    | None => None
    | Some shape =>
        match computeAnchor shape with
        | None => None
        | Some (anchorCol, anchorRow) =>
            Some (withSelection g
                    (Some (mkSelection pieceId orientationIndex shape anchorCol anchorRow))
                    ModeSelected)
        end
    end.

(** [deselectPiece()] *)
Definition deselectPiece (g : GameState) : GameState := withSelection g None ModeIdle.

(** [arr.findIndex(pred)], counting from [i]: the first index whose element
    passes, or -1. *)
Fixpoint findIndexFrom {A : Type} (pred : A -> bool) (arr : list A) (i : Z) : Z :=
  match arr with
  | [] => -1
  | x :: rest => if pred x then i else findIndexFrom pred rest (i + 1)
  end.

Definition findIndex {A : Type} (pred : A -> bool) (arr : list A) : Z :=
  findIndexFrom pred arr 0.

(** [orientations[i]] for an integer [i]; [undefined] is [None]. *)
Definition orientationAt (orientations : list Shape) (i : Z) : option Shape :=
  if i <? 0 then None else nth_error orientations (Z.to_nat i).

(** [rotateSelected()].  [None] where [computeAnchor] is handed
    [undefined] or an empty shape. *)
Definition rotateSelected (g : GameState) : option GameState :=
  match g_selected g with
  | None => Some g
  | Some sel =>
      let rotated := rotate90CW (sel_shape sel) in
      let key := shapeKey rotated in
      let orientations := ORIENTATIONS (sel_id sel) in
      let newIndex := findIndex (fun o => String.eqb (shapeKey o) key) orientations in
      let index' :=
        if negb (newIndex =? -1) then newIndex
        else Z.rem (sel_orientationIndex sel + 1) (Z.of_nat (length orientations)) in
      match orientationAt orientations index' with
      | None => None
      | Some newShape =>
          match computeAnchor newShape with
          | None => None
          | Some (anchorCol, anchorRow) =>
              Some (withSelection g
                      (Some (mkSelection (sel_id sel) index' newShape anchorCol anchorRow))
                      (g_mode g))
          end
      end
  end.

(** [flipSelected()] *)
Definition flipSelected (g : GameState) : option GameState :=
  match g_selected g with
  | None => Some g
  | Some sel =>
      let flipped := flipH (sel_shape sel) in
      let key := shapeKey flipped in
      let orientations := ORIENTATIONS (sel_id sel) in
      let newIndex := findIndex (fun o => String.eqb (shapeKey o) key) orientations in
      if negb (newIndex =? -1) then
        match orientationAt orientations newIndex with
        | None => None
        | Some newShape =>
            match computeAnchor newShape with
            | None => None
            | Some (anchorCol, anchorRow) =>
                Some (withSelection g
                        (Some (mkSelection (sel_id sel) newIndex newShape anchorCol anchorRow))
                        (g_mode g))
            end
        end
      else Some g
  end.

(** ** game.js: clicks on the board *)

(** [anchoredOrigin(hoverCol, hoverRow)] *)
Definition anchoredOrigin (g : GameState) (hoverCol hoverRow : Z) : Z * Z :=
  match g_selected g with
  | None => (hoverCol, hoverRow)
  | Some sel => (hoverCol - sel_anchorCol sel, hoverRow - sel_anchorRow sel)
  end.

(** What a click on a board cell did. *)
Inductive ClickOutcome : Set :=
  | ClickWon            (* piece placed, [showWin()] *)
  | ClickPlaced         (* piece placed *)
  | ClickInvalid        (* [flashInvalid]: the selection does not fit *)
  | ClickLocked         (* a locked piece: refused *)
  | ClickRemoved        (* a piece went back to the tray *)
  | ClickIgnored.       (* nothing to do *)

(** [handleBoardClick(e)] for a click that lands on the board cell
    [(hoverCol, hoverRow)] whose [dataset.piece] is [piece], when no drag has
    asked to suppress the click.  [None] where the handler raises (mode
    ['selected'] with nothing selected, or a write outside the board). *)
Definition handleBoardClick (g : GameState) (hoverCol hoverRow : Z) (piece : option PieceId)
  : option (ClickOutcome * GameState) :=
  match g_mode g with
  | ModeSelected =>
      let '(col, row) := anchoredOrigin g hoverCol hoverRow in
      match g_selected g with
      | None => None
      | Some sel =>
          if gameCanPlace g (sel_shape sel) col row then
            match doPlace g (sel_id sel) (sel_shape sel) col row (sel_orientationIndex sel) with
            | None => None
            | Some g1 =>
                let g2 := deselectPiece g1 in
                Some (if isBoardFull g2 then ClickWon else ClickPlaced, g2)
            end
          else Some (ClickInvalid, g)
      end
  | ModeIdle =>
      match piece with
      | Some pieceId =>
          if set_has pieceId (g_lockedPieces g) then Some (ClickLocked, g)
          else match doRemove g pieceId with
               | Some (_, g1) => Some (ClickRemoved, g1)
               | None => None
               end
      | None => Some (ClickIgnored, g)
      end
  | ModeDragging => Some (ClickIgnored, g)
  end.

(** ** game.js: loading a challenge *)

(** The loop of [loadChallenge] over [challenge.prePlaced]. *)
Fixpoint placePrePlaced (g : GameState) (prePlaced : list Locked) : option GameState :=
  match prePlaced with
  | [] => Some g
  | pp :: rest =>
      let orientations := ORIENTATIONS (lk_pieceId pp) in
      (* [orientations[pp.orientationIndex] || orientations[0]] *)
      let shape := match orientationAt orientations (lk_orientationIndex pp) with
                   | Some s => Some s
                   | None => orientationAt orientations 0
                   end in
      match shape with
      | None => None
      | Some shape =>
          let g1 := mkGame (g_board g) (g_placed g) (g_tray g) (g_selected g) (g_mode g)
                           (g_currentChallengeId g) (g_currentChallenge g)
                           (set_add (lk_pieceId pp) (g_lockedPieces g)) (g_timerStarted g) in
          match doPlace g1 (lk_pieceId pp) shape (lk_col pp) (lk_row pp)
                        (lk_orientationIndex pp) with
          | Some g2 => placePrePlaced g2 rest
          | None => None
          end
      end
  end.

(** [loadChallenge(challengeId)] over the challenge list of
    [getChallenges()]. *)
Definition loadChallenge (challenges : list Challenge) (g : GameState) (challengeId : Z)
  : option GameState :=
  match getChallenge challenges challengeId with
  | None => Some g
  | Some challenge =>
      placePrePlaced
        (mkGame createEmptyBoard (fun _ => None) (set_of_list (map p_id PIECES))
                None ModeIdle challengeId (Some challenge) [] false)
        (ch_prePlaced challenge)
  end.

(** ** game.js: the best times *)

(** An entry of [state.progress.completed]: [{ time, completedAt }]. *)
Record BestTime : Set := mkBestTime { bt_time : Z; bt_completedAt : string }.

Definition Progress : Set := Z -> option BestTime.

(** [markChallengeCompleted(challengeId, timeMs)]; [now] is the text of
    [new Date().toISOString()].  The boolean tells whether [saveProgress()]
    was called. *)
Definition markChallengeCompleted (completed : Progress) (challengeId timeMs : Z)
    (now : string) : bool * Progress :=
  let store := (true, fun id => if id =? challengeId then Some (mkBestTime timeMs now)
                                else completed id) in
  match completed challengeId with
  | None => store
  | Some existing => if timeMs <? bt_time existing then store else (false, completed)
  end.

(** [String(n).padStart(2, '0')] *)
Definition padStart2 (s : string) : string :=
  match s with
  | EmptyString => "00"
  | String a EmptyString => String "0"%char s
  | _ => s
  end.

(** [formatTime(ms)] for an integer number of milliseconds; [%] is the
    remainder that takes the sign of the dividend. *)
Definition formatTime (ms : Z) : string :=
  let totalSeconds := ms / 1000 in
  let minutes := totalSeconds / 60 in
  let seconds := Z.rem totalSeconds 60 in
  (padStart2 (num_to_string minutes) ++ ":" ++ padStart2 (num_to_string seconds))%string.

(* ================================================================== *)
(** * Part II: the vocabulary of the statements                        *)
(* ================================================================== *)

(** ** Shapes *)

(** Row-major order on cells: by row, then by column. *)
Definition rowMajor_le (a b : Cell) : Prop :=
  snd a < snd b \/ (snd a = snd b /\ fst a <= fst b).

Definition shiftBy (dx dy : Z) (s : Shape) : Shape :=
  map (fun '(c, r) => (c + dx, r + dy)) s.

(** [congruent s s']: [s'] lists the cells of [s], moved by one offset. *)
Definition congruent (s s' : Shape) : Prop :=
  exists dx dy, Permutation s' (shiftBy dx dy s).

(** The quarter turn and the mirror about the origin. *)
Definition turn (p : Cell) : Cell := (- snd p, fst p).
Definition mirror (p : Cell) : Cell := (- fst p, snd p).

(** A normalized shape: some cell in column 0 and none left of it, some cell
    in row 0 and none above it, cells listed in row-major order. *)
Definition is_normalized (s : Shape) : Prop :=
  (exists p, In p s /\ fst p = 0) /\ (forall p, In p s -> 0 <= fst p) /\
  (exists p, In p s /\ snd p = 0) /\ (forall p, In p s -> 0 <= snd p) /\
  StronglySorted rowMajor_le s.

(** The loop invariant of [getAllOrientations]: [seen] holds the keys of the
    shapes recorded so far, each once, and the shapes satisfy [Q]. *)
Definition orient_inv (Q : Shape -> Prop) (st : OrientState) : Prop :=
  fst st = map shapeKey (snd st) /\ NoDup (fst st) /\ Forall Q (snd st).

(** The shapes that normalize some arrangement of as many cells as [base]. *)
Definition orbit_shape (base : Shape) (s : Shape) : Prop :=
  exists x, s = normalize x /\ length x = length base.

(** ** Boards and cells *)

(** The row lengths of a board. *)
Definition dims (b : Board) : list nat := map (@length cell) b.

(** The board cells a shape covers when put at offset ([col], [row]). *)
Definition cellsAt (shape : Shape) (col row : Z) : list Cell :=
  map (fun '(dc, dr) => (col + dc, row + dr)) shape.

Definition Cell_eq_dec (x y : Cell) : {x = y} + {x <> y}.
Proof. decide equality; apply Z.eq_dec. Defined.

Definition inGrid (c r : Z) : Prop := 0 <= r < ROWS /\ 0 <= c < COLS.

(** A board whose top-left cell holds piece B. *)
Definition boardWithB : Board :=
  (Some idB :: repeat None 10) :: repeat (repeat None 11) 4.

(** ** Regions of empty cells and the traversal *)

(** An empty cell of the grid. *)
Definition emptyCell (b : Board) (x : Cell) : Prop :=
  inGrid (fst x) (snd x) /\ isNull b (fst x) (snd x) = true.

(** Two cells that share an edge. *)
Definition adjacent (x y : Cell) : Prop :=
  Z.abs (fst y - fst x) + Z.abs (snd y - snd x) = 1.

(** [connected b x y]: a path of empty cells, each sharing an edge with the
    next, leads from [x] to [y]. *)
Inductive connected (b : Board) : Cell -> Cell -> Prop :=
  | connected_refl (x : Cell) : emptyCell b x -> connected b x x
  | connected_step (x y z : Cell) :
      connected b x y -> adjacent y z -> emptyCell b z -> connected b x z.

(** The region of [x] has [n] cells. *)
Definition region_size (b : Board) (x : Cell) (n : Z) : Prop :=
  exists cells, NoDup cells /\ (forall y, In y cells <-> connected b x y) /\
                Z.of_nat (length cells) = n.

(** Some region of empty cells is smaller than [minPieceSize]. *)
Definition dead_island (b : Board) (minPieceSize : Z) : Prop :=
  exists x n, emptyCell b x /\ region_size b x n /\ n < minPieceSize.

Definition neighbors4 (x : Cell) : list Cell :=
  let '(c, r) := x in [(c - 1, r); (c + 1, r); (c, r - 1); (c, r + 1)].

Definition wf_visited (v : Visited) : Prop :=
  length v = Z.to_nat ROWS /\ Forall (fun row => length row = Z.to_nat COLS) v.

Definition visitedAt (v : Visited) (x : Cell) : bool := isVisited v (fst x) (snd x).

Definition neighbor_test (b : Board) (visited : Visited) (n : Cell) : bool :=
  (snd n >=? 0) && (snd n <? ROWS) && (fst n >=? 0) && (fst n <? COLS)
  && isNull b (fst n) (snd n) && negb (isVisited visited (fst n) (snd n)).

(** All the cells of the grid. *)
Definition gridCells : list Cell :=
  flat_map (fun r => map (fun c => (Z.of_nat c, Z.of_nat r)) (seq 0 (Z.to_nat COLS)))
           (seq 0 (Z.to_nat ROWS)).

(** The invariant of the traversal that started from [s] with the matrix
    [v0]: [done] holds the cells taken off the queue. *)
Record bfs_inv (b : Board) (v0 : Visited) (s : Cell)
    (v : Visited) (queue done : list Cell) (size : Z) : Prop := {
  inv_wf : wf_visited v;
  inv_visited : forall y, inGrid (fst y) (snd y) ->
      (visitedAt v y = true <-> visitedAt v0 y = true \/ In y (done ++ queue));
  inv_nodup : NoDup (done ++ queue);
  inv_region : forall y, In y (done ++ queue) -> connected b s y;
  inv_closed : forall x y, In x done -> adjacent x y -> emptyCell b y ->
      In y (done ++ queue);
  inv_size : size = Z.of_nat (length done);
  inv_start : In s (done ++ queue)
}.

(** The invariant of the two scanning loops: the visited cells form whole
    regions, none of them smaller than [minPieceSize]. *)
Record scan_inv (b : Board) (minPieceSize : Z) (v : Visited) : Prop := {
  scan_wf : wf_visited v;
  scan_closed : forall x y, visitedAt v x = true -> emptyCell b x -> adjacent x y ->
                            emptyCell b y -> visitedAt v y = true;
  scan_big : forall x n, visitedAt v x = true -> emptyCell b x -> region_size b x n ->
                         minPieceSize <= n
}.

(** Every empty cell that comes before ([c], [r]) in scan order is
    visited. *)
Definition scanned (b : Board) (v : Visited) (c r : Z) : Prop :=
  forall y, emptyCell b y -> snd y < r \/ (snd y = r /\ fst y < c) -> visitedAt v y = true.

(** A board whose empty cells are the first three of the top row: one
    region, of three cells. *)
Definition boardOneIsland : Board :=
  (None :: None :: None :: repeat (Some idK) 8) :: repeat (repeat (Some idK) 11) 4.

(** ** Solutions, and what a search call leaves behind *)

(** The board cells a placement covers. *)
Definition placementCells (pl : Placement) : list Cell :=
  cellsAt (pl_shape pl) (pl_col pl) (pl_row pl).

Definition solutionCells (sol : list Placement) : list Cell :=
  concat (map placementCells sol).

(** The shape of a placement is the entry of its piece's orientation table
    at the recorded index. *)
Definition valid_orientation (pl : Placement) : Prop :=
  0 <= pl_orientationIndex pl /\
  nth_error (ORIENTATIONS (pl_pieceId pl)) (Z.to_nat (pl_orientationIndex pl))
  = Some (pl_shape pl).

(** [placed b sol b']: putting the placements of [sol] on [b] one after the
    other, each fitting when its turn comes, gives [b']. *)
Inductive placed : Board -> list Placement -> Board -> Prop :=
  | placed_nil (b : Board) : placed b [] b
  | placed_cons (b b1 b' : Board) (pl : Placement) (sol : list Placement) :
      canPlace b (pl_shape pl) (pl_col pl) (pl_row pl) = true ->
      placePiece b (pl_pieceId pl) (pl_shape pl) (pl_col pl) (pl_row pl) = Some b1 ->
      placed b1 sol b' ->
      placed b (pl :: sol) b'.

(** After a call that returned [true]. *)
Definition success_post (st st' : SolveState) : Prop :=
  exists new,
    solution st' = solution st ++ new /\
    placed (board st) new (board st') /\
    findFirstEmpty (board st') = None /\
    NoDup (map pl_pieceId new) /\
    Forall (fun pl => In (pl_pieceId pl) (remaining st) /\ valid_orientation pl) new.

(** After a call that returned [false]: board and solution are as they
    were, the remaining set has the same elements. *)
Definition failure_post (st st' : SolveState) : Prop :=
  board st' = board st /\ solution st' = solution st /\
  Permutation (remaining st) (remaining st').

Definition solve_post (st : SolveState) (ok : bool) (st' : SolveState) : Prop :=
  if ok then success_post st st' else failure_post st st'.

Definition rec_spec (rec : SolveState -> Z -> SolveResult) : Prop :=
  forall st m ok st', NoDup (remaining st) -> rec st m = Some (ok, st') -> solve_post st ok st'.

Fixpoint nodupb (l : list Cell) : bool :=
  match l with
  | [] => true
  | x :: t => negb (existsb (fun y => (fst x =? fst y) && (snd x =? snd y)) t) && nodupb t
  end.

(** The properties of a solution with respect to the board it was asked for
    and the ids it could use. *)
Definition solves (b : Board) (ids : list PieceId) (sol : list Placement) : Prop :=
  (forall pl c r, In pl sol -> In (c, r) (placementCells pl) -> inGrid c r) /\
  NoDup (solutionCells sol) /\
  NoDup (map pl_pieceId sol) /\
  (forall pl, In pl sol -> In (pl_pieceId pl) ids /\ valid_orientation pl) /\
  (forall c r, In (c, r) (solutionCells sol) <-> inGrid c r /\ isNull b c r = true).

(** [PIECES.map(p => p.id)] *)
Definition allIds : list PieceId := map p_id PIECES.

(** The first solution the packer finds for the full library. *)
Definition firstSolution :=
  Eval vm_compute in
    match solve createEmptyBoard allIds with
    | Some (Some sol) => sol
    | _ => []
    end.

Definition inGridb (c r : Z) : bool := (r >=? 0) && (r <? ROWS) && (c >=? 0) && (c <? COLS).

Definition shapeCells (sol : list Placement) : Z :=
  fold_right (fun pl acc => Z.of_nat (length (pl_shape pl)) + acc) 0 sol.

Definition declaredCells (sol : list Placement) : Z :=
  fold_right (fun pl acc => pieceSize (pl_pieceId pl) + acc) 0 sol.

(** ** The counter *)

(** What a call of [_countSolve] leaves behind: the board as it was, the
    remaining set with the same elements, and a counter that has not gone
    down and has not passed the cap (unless it was beyond it already). *)
Definition count_post (maxCount : Z) (st st' : CountState) : Prop :=
  c_board st' = c_board st /\
  Permutation (c_remaining st) (c_remaining st') /\
  c_count st <= c_count st' <= Z.max (c_count st) maxCount.

(** What a loop of [_countSolve] leaves behind; it returns from inside
    ([true]) only with the cap reached. *)
Definition loop_post (maxCount : Z) (st : CountState) (r : bool * CountState) : Prop :=
  count_post maxCount st (snd r) /\ (fst r = true -> maxCount <= c_count (snd r)).

(** The first solution with the three L-pentominoes D, G and H taken off
    again: their three places can be filled in several ways. *)
Definition boardWithoutDGH : Board :=
  Eval vm_compute in
    fold_left (fun b pl =>
                 match pl_pieceId pl with
                 | idD | idG | idH => b
                 | k => match placePiece b k (pl_shape pl) (pl_col pl) (pl_row pl) with
                        | Some b' => b'
                        | None => b
                        end
                 end)
              firstSolution createEmptyBoard.

(** ** The ordered packer *)

(** A call that returned [false] left board and solution as they were. *)
Definition ordered_post (st : OrderedState) (r : bool * OrderedState) : Prop :=
  fst r = false -> o_board (snd r) = o_board st /\ o_solution (snd r) = o_solution st.

(** ** A heap after a call *)

(** The heap after [solve] ran on [boardOneIsland], stored at addresses 0 to
    4: the five rows of the caller and the five rows of the work board. *)
Definition heapAfterSolve :=
  Eval vm_compute in
    match Store.heapAfter boardOneIsland [0; 1; 2; 3; 4]%nat (Store.CallSolve [idL]) with
    | Some h' => h'
    | None => []
    end.

(** ** A challenge of challenges.js *)

(** The solution the ordered packer finds for the first seed, 42. *)
Definition solution42 :=
  Eval vm_compute in
    match solveWithOrder createEmptyBoard (shuffleWithSeed (map p_id PIECES) 42) with
    | Some (Some sol) => sol
    | _ => []
    end.

(** Challenge 31: the first of difficulty 4, built from the first solution. *)
Definition challenge31 :=
  Eval vm_compute in
    match buildChallenge [solution42] 31 4 0 with
    | Some c => c
    | None => mkChallenge 0 0 "" [] [] []
    end.

(** ** Connected shapes and failed searches *)

(** [linked shape x y]: a path of cells of [shape], each sharing an edge
    with the next, leads from [x] to [y]. *)
Inductive linked (shape : Shape) : Cell -> Cell -> Prop :=
  | linked_refl (x : Cell) : In x shape -> linked shape x x
  | linked_step (x y z : Cell) :
      linked shape x y -> adjacent y z -> In z shape -> linked shape x z.

Definition adjacentb (x y : Cell) : bool :=
  Z.abs (fst y - fst x) + Z.abs (snd y - snd x) =? 1.

Definition memCell (x : Cell) (l : list Cell) : bool :=
  existsb (fun y => (fst x =? fst y) && (snd x =? snd y)) l.

(** [n] rounds of adding to [reached] the cells of [shape] that touch it. *)
Fixpoint grow (n : nat) (shape reached : list Cell) : list Cell :=
  match n with
  | O => reached
  | S n' =>
      grow n' shape
        (reached ++ filter (fun y => existsb (fun x => adjacentb x y) reached) shape)
  end.

(** Every cell of [shape] is reached from the first one. *)
Definition connectedb (shape : Shape) : bool :=
  match shape with
  | [] => true
  | x :: _ => forallb (fun y => memCell y (grow (length shape) shape [x])) shape
  end.

(** The placement a loop round tries. *)
Definition tried (k : PieceId) (shape : Shape) (oi targetCol targetRow : Z) (d : Cell)
  : Placement :=
  mkPlacement k shape (targetCol - fst d) (targetRow - snd d) oi.

Definition rec_complete (rec : SolveState -> Z -> SolveResult) : Prop :=
  forall st m st', NoDup (remaining st) -> rec st m = Some (false, st') ->
                   forall sol, ~ solves (board st) (remaining st) sol.

(** ** The ordered packer, on success *)

(** After a call of [_solveOrdered] that returned [true]: the placements
    added use entries of [ids], each entry at most once. *)
Definition ordered_success (st : OrderedState) (ids : list PieceId) (st' : OrderedState)
  : Prop :=
  exists new,
    o_solution st' = o_solution st ++ new /\
    placed (o_board st) new (o_board st') /\
    findFirstEmpty (o_board st') = None /\
    (exists unused, Permutation ids (map pl_pieceId new ++ unused)) /\
    Forall valid_orientation new.

(** ** Counted coverings *)

(** Coverings that differ by more than the order of their placements. *)
Definition distinct_covers (L : list (list Placement)) : Prop :=
  ForallOrdPairs (fun s s' => ~ Permutation s s') L.

(** [L] lists the coverings counted while the counter went from [c0] to
    [c1]: as many as the counter moved, all different, and all there are if
    the counter stayed below the cap. *)
Definition counted (maxCount : Z) (b : Board) (ids : list PieceId) (c0 c1 : Z)
    (L : list (list Placement)) : Prop :=
  Z.of_nat (length L) = c1 - c0 /\
  Forall (solves b ids) L /\
  distinct_covers L /\
  (c1 < maxCount -> forall sol, solves b ids sol -> exists s, In s L /\ Permutation sol s).

(** The same for the part of a loop that tries the placements [B]. *)
Definition counted_in (B : Placement -> Prop) (maxCount : Z) (b : Board) (ids : list PieceId)
    (c0 c1 : Z) (L : list (list Placement)) : Prop :=
  Z.of_nat (length L) = c1 - c0 /\
  Forall (fun s => solves b ids s /\ exists pl, In pl s /\ B pl) L /\
  distinct_covers L /\
  (c1 < maxCount ->
   forall sol pl, solves b ids sol -> In pl sol -> B pl ->
                  exists s, In s L /\ Permutation sol s).

(** The placements the three loops of [_countSolve] try on the target
    cell. *)
Definition B_cells (targetCol targetRow : Z) (k : PieceId) (shape : Shape) (oi : Z)
    (cells : list Cell) : Placement -> Prop :=
  fun pl => exists d, In d cells /\ pl = tried k shape oi targetCol targetRow d.

Definition B_orients (targetCol targetRow : Z) (k : PieceId) (oi : Z)
    (orientations : list Shape) : Placement -> Prop :=
  fun pl => exists j shape d,
    nth_error orientations j = Some shape /\ In d shape /\
    pl = tried k shape (oi + Z.of_nat j) targetCol targetRow d.

Definition B_pieces (targetCol targetRow : Z) (pieceIds : list PieceId)
  : Placement -> Prop :=
  fun pl => exists k j shape d,
    In k pieceIds /\ nth_error (ORIENTATIONS k) j = Some shape /\ In d shape /\
    pl = tried k shape (Z.of_nat j) targetCol targetRow d.

(** ** Keys and images of shapes *)

(** A string without the two separators of a key. *)
Fixpoint plain (s : string) : Prop :=
  match s with
  | EmptyString => True
  | String a t => (a <> "," /\ a <> "|")%char /\ plain t
  end.

(** What follows a number in a key: nothing, or a separator and more. *)
Definition key_tail (t : string) : Prop := t = EmptyString \/ exists u, t = String "|" u.

(** The text of one cell in a key. *)
Definition cellKey (p : Cell) : string :=
  let '(c, r) := p in (num_to_string c ++ "," ++ num_to_string r)%string.

(** What follows the first cell of a key. *)
Definition keyRest (l : list string) : string :=
  match l with
  | [] => EmptyString
  | _ :: _ => String "|" (String.concat "|" l)
  end.

(** The eight symmetries of the square, as maps on cells: the quarter
    turns, and the quarter turns after the mirror. *)
Definition symmetries : list (Cell -> Cell) :=
  [ (fun p => p); turn; (fun p => turn (turn p)); (fun p => turn (turn (turn p)));
    mirror; (fun p => turn (mirror p)); (fun p => turn (turn (mirror p)));
    (fun p => turn (turn (turn (mirror p)))) ].

(** The normal forms of the images of [base] under the eight symmetries. *)
Definition images (base : Shape) : list Shape :=
  map (fun g => normalize (map g base)) symmetries.

(** The shapes the inner loop of [getAllOrientations] looks at. *)
Fixpoint rot_list (n : nat) (current : Shape) : list Shape :=
  match n with
  | O => []
  | S n' => current :: rot_list n' (rotate90CW current)
  end.

(** ** Shuffles and challenges *)

(** Every index drawn from round [i] down to round 1, with the generator
    started in state [s], stays within [0 .. i]. *)
Fixpoint drawsInRange (i : nat) (s : Z) : bool :=
  match i with
  | O => true
  | S i' =>
      let s' := lcgNext s in
      (drawIndex i s' <=? Z.of_nat i) && drawsInRange i' s'
  end.

(** The seed of the selection shuffle of a challenge. *)
Definition selectionSeed (difficulty i solutionIdx : Z) : Z :=
  difficulty * 100003 + i * 7919 + solutionIdx * 54321.

(** The number of player pieces of a difficulty. *)
Definition playerPieces (difficulty : Z) : Z := fst (DIFFICULTY_CONFIG difficulty).

(** The declared sizes of a list of pieces, added up. *)
Definition sizeSum (ids : list PieceId) : Z :=
  fold_right (fun k acc => pieceSize k + acc) 0 ids.

(** The invariant of the loop of [generateSolutionsSync]. *)
Definition solutions_inv (seen : list string) (solutions : list (list Placement)) : Prop :=
  seen = map fingerprint solutions /\ NoDup seen /\
  Forall (solves createEmptyBoard allIds) solutions.

(** ** The game state *)

(** The cell holds the id [k]. *)
Definition holds (k : PieceId) (v : option cell) : bool :=
  match v with Some (Some q) => PieceId_eqb q k | _ => false end.

(** The board, the map of placed pieces and the tray tell the same story:
    a grid cell shows an id exactly when the piece placed under that id
    covers it, the placed pieces lie within the grid in orientations of
    their tables, and the tray holds the pieces that are not placed. *)
Record game_ok (g : GameState) : Prop := mk_game_ok {
  ok_board : wf_board (g_board g);
  ok_cells : forall c r k,
      getCell (g_board g) c r = Some (Some k) <->
      exists p, g_placed g k = Some p /\
                In (c, r) (cellsAt (pp_shape p) (pp_col p) (pp_row p));
  ok_inside : forall k p c r,
      g_placed g k = Some p ->
      In (c, r) (cellsAt (pp_shape p) (pp_col p) (pp_row p)) -> inGrid c r;
  ok_shape : forall k p, g_placed g k = Some p -> In (pp_shape p) (ORIENTATIONS k);
  ok_tray : forall k, In k (g_tray g) <-> g_placed g k = None;
  ok_tray_NoDup : NoDup (g_tray g)
}.

(** The squared distance of a cell to the centre of the bounding box of the
    shape, as [computeAnchor] measures it. *)
Definition centerDist (shape : Shape) (p : Cell) : Q :=
  sqDist (inject_Z (list_max (map fst shape)) / 2) (inject_Z (list_max (map snd shape)) / 2) p.

(** The selection names an entry of its piece's table. *)
Definition selection_ok (sel : Selection) : Prop :=
  0 <= sel_orientationIndex sel /\
  nth_error (ORIENTATIONS (sel_id sel)) (Z.to_nat (sel_orientationIndex sel))
  = Some (sel_shape sel).

(** Running a step on the state an earlier step returned. *)
Definition andThen (x : option GameState) (f : GameState -> option GameState)
  : option GameState :=
  match x with Some g => f g | None => None end.

(** A finished run: the challenge, its time and the moment it ended. *)
Definition Run : Set := (Z * Z * string)%type.

(** The progress after the runs of a list, in order. *)
Definition recordRuns (completed : Progress) (runs : list Run) : Progress :=
  fold_left (fun p (run : Run) =>
               let '(id, t, now) := run in snd (markChallengeCompleted p id t now))
            runs completed.

Definition digitChar (d : Z) : ascii := ascii_of_nat (48 + Z.to_nat d).

(** [MM:SS] for [t] whole seconds. *)
Definition clockText (t : Z) : string :=
  String (digitChar (t / 600)) (String (digitChar (t / 60 mod 10))
    (String ":" (String (digitChar (t mod 60 / 10)) (String (digitChar (t mod 10))
       EmptyString)))).

(** The state with piece A in hand, as [selectPiece] leaves it at the
    start of a game. *)
Definition handA : Selection := mkSelection idA 0 [(0,0); (1,0); (2,0); (2,1)] 1 0.

Definition stateWithA : GameState := withSelection initialState (Some handA) ModeSelected.

(* ================================================================== *)
(** * Part III: the orientation generator                               *)
(* ================================================================== *)

(** ** Minimum and maximum of a list *)

Lemma fold_min_le_init (t : list Z) (x : Z) : fold_left Z.min t x <= x.
Proof.
  revert x; induction t as [|y t IH]; intros x; simpl; [lia|].
  specialize (IH (Z.min x y)); lia.
Qed.

Lemma fold_min_lower (t : list Z) (x y : Z) : In y t -> fold_left Z.min t x <= y.
Proof.
  revert x; induction t as [|z t IH]; intros x Hin; simpl in *; [contradiction|].
  destruct Hin as [-> | Hin].
  - pose proof (fold_min_le_init t (Z.min x y)); lia.
  - now apply IH.
Qed.

Lemma fold_min_in (t : list Z) (x : Z) :
  fold_left Z.min t x = x \/ In (fold_left Z.min t x) t.
Proof.
  revert x; induction t as [|y t IH]; intros x; simpl; [now left|].
  destruct (IH (Z.min x y)) as [E | Hin]; [|now right; right].
  rewrite E. destruct (Z.min_spec x y) as [[_ ->] | [_ ->]]; [now left | now right; left].
Qed.

Lemma list_min_in (l : list Z) : l <> [] -> In (list_min l) l.
Proof.
  destruct l as [|x t]; [congruence|]; intros _; simpl.
  destruct (fold_min_in t x) as [-> | H]; auto.
Qed.

Lemma list_min_lower (l : list Z) (y : Z) : In y l -> list_min l <= y.
Proof.
  destruct l as [|x t]; [contradiction|]; simpl.
  intros [-> | Hin]; [apply fold_min_le_init | now apply fold_min_lower].
Qed.

Lemma list_min_unique (l : list Z) (m : Z) :
  In m l -> (forall y, In y l -> m <= y) -> list_min l = m.
Proof.
  intros Hin Hlow.
  assert (Hne : l <> []) by (destruct l; [contradiction | congruence]).
  pose proof (list_min_in l Hne) as H1.
  pose proof (list_min_lower l m Hin) as H2.
  specialize (Hlow _ H1). lia.
Qed.

Lemma list_min_perm (l l' : list Z) : Permutation l l' -> list_min l = list_min l'.
Proof.
  intros HP. destruct l as [|x t].
  - apply Permutation_nil in HP; now subst.
  - symmetry; apply list_min_unique.
    + eapply Permutation_in; [exact HP|]. apply list_min_in; congruence.
    + intros y Hy. apply list_min_lower. eapply Permutation_in; [symmetry; exact HP | exact Hy].
Qed.

Lemma list_min_shift (l : list Z) (d : Z) :
  l <> [] -> list_min (map (fun x => x + d) l) = list_min l + d.
Proof.
  intros Hne. apply list_min_unique.
  - apply in_map_iff. exists (list_min l). split; [reflexivity | now apply list_min_in].
  - intros y Hy. apply in_map_iff in Hy as (x & <- & Hx).
    pose proof (list_min_lower l x Hx); lia.
Qed.

(** ** The stable sort *)

Lemma cmpCell_le (a b : Cell) : cmpCell a b <= 0 <-> rowMajor_le a b.
Proof.
  unfold cmpCell, rowMajor_le. destruct (Z.eqb_spec (snd a - snd b) 0); lia.
Qed.

Lemma rowMajor_le_total (a b : Cell) : rowMajor_le a b \/ rowMajor_le b a.
Proof. unfold rowMajor_le; lia. Qed.

Lemma rowMajor_le_trans (a b c : Cell) : rowMajor_le a b -> rowMajor_le b c -> rowMajor_le a c.
Proof. unfold rowMajor_le; lia. Qed.

Lemma rowMajor_le_antisym (a b : Cell) : rowMajor_le a b -> rowMajor_le b a -> a = b.
Proof.
  destruct a as [c r], b as [c' r']; unfold rowMajor_le; simpl; intros H1 H2.
  f_equal; lia.
Qed.

Section SortFacts.
Context {A : Type} (cmp : A -> A -> Z).

Lemma sort_insert_perm (x : A) (l : list A) : Permutation (sort_insert cmp x l) (x :: l).
Proof.
  induction l as [|y t IH]; simpl; [reflexivity|].
  destruct (cmp x y <=? 0); [reflexivity|].
  rewrite IH. apply perm_swap.
Qed.

Lemma js_sort_perm (l : list A) : Permutation (js_sort cmp l) l.
Proof.
  induction l as [|x t IH]; simpl; [reflexivity|].
  rewrite sort_insert_perm. now constructor.
Qed.

Lemma js_sort_length (l : list A) : length (js_sort cmp l) = length l.
Proof. apply Permutation_length, js_sort_perm. Qed.

Variable le : A -> A -> Prop.
Hypothesis cmp_le : forall a b, cmp a b <= 0 <-> le a b.
Hypothesis le_total : forall a b, le a b \/ le b a.
Hypothesis le_trans : forall a b c, le a b -> le b c -> le a c.

Lemma sort_insert_sorted (x : A) (l : list A) :
  StronglySorted le l -> StronglySorted le (sort_insert cmp x l).
Proof.
  induction 1 as [|y t Ht IH Hy]; simpl.
  - repeat constructor.
  - destruct (Z.leb_spec (cmp x y) 0) as [Hle | Hgt].
    + apply cmp_le in Hle. constructor; [now constructor|].
      constructor; [assumption|].
      eapply Forall_impl; [|exact Hy]. intros z Hz; eauto.
    + assert (Hyx : le y x).
      { destruct (le_total x y) as [H | H]; [apply cmp_le in H; lia | exact H]. }
      constructor; [exact IH|].
      eapply Permutation_Forall; [symmetry; apply sort_insert_perm|].
      now constructor.
Qed.

Lemma js_sort_sorted (l : list A) : StronglySorted le (js_sort cmp l).
Proof.
  induction l as [|x t IH]; simpl; [constructor | now apply sort_insert_sorted].
Qed.

Hypothesis le_antisym : forall a b, le a b -> le b a -> a = b.

Lemma sorted_perm_eq (l l' : list A) :
  StronglySorted le l -> StronglySorted le l' -> Permutation l l' -> l = l'.
Proof.
  intros Hl; revert l'; induction Hl as [|x t Ht IH Hx]; intros l' Hl' HP.
  - apply Permutation_nil in HP; now subst.
  - destruct Hl' as [|y t' Ht' Hy].
    + symmetry in HP; apply Permutation_nil in HP; discriminate.
    + assert (x = y) as <-.
      { assert (Hxin : In x (y :: t')) by (eapply Permutation_in; [exact HP | now left]).
        assert (Hyin : In y (x :: t)) by (eapply Permutation_in; [symmetry; exact HP | now left]).
        destruct Hxin as [-> | Hxin]; [reflexivity|].
        destruct Hyin as [-> | Hyin]; [reflexivity|].
        rewrite Forall_forall in Hx, Hy. apply le_antisym; auto. }
      f_equal. apply IH; [exact Ht'|]. eapply Permutation_cons_inv; exact HP.
Qed.

Lemma js_sort_of_perm (l l' : list A) : Permutation l l' -> js_sort cmp l = js_sort cmp l'.
Proof.
  intros HP. apply sorted_perm_eq; try apply js_sort_sorted.
  rewrite !js_sort_perm. exact HP.
Qed.
End SortFacts.

Lemma sortCells_sorted (l : list Cell) : StronglySorted rowMajor_le (js_sort cmpCell l).
Proof.
  exact (js_sort_sorted cmpCell rowMajor_le cmpCell_le rowMajor_le_total rowMajor_le_trans l).
Qed.

Lemma sortCells_of_perm (l l' : list Cell) :
  Permutation l l' -> js_sort cmpCell l = js_sort cmpCell l'.
Proof.
  exact (js_sort_of_perm cmpCell rowMajor_le cmpCell_le rowMajor_le_total rowMajor_le_trans
           rowMajor_le_antisym l l').
Qed.

(** ** Shapes up to translation and reordering *)

Lemma shiftBy_shiftBy dx dy dx' dy' s :
  shiftBy dx' dy' (shiftBy dx dy s) = shiftBy (dx + dx') (dy + dy') s.
Proof.
  unfold shiftBy; rewrite map_map. apply map_ext; intros [c r]. f_equal; lia.
Qed.

Lemma shiftBy_zero s : shiftBy 0 0 s = s.
Proof.
  unfold shiftBy. rewrite <- (map_id s) at 2. apply map_ext; intros [c r]. f_equal; lia.
Qed.

Lemma map_fst_shiftBy dx dy s : map fst (shiftBy dx dy s) = map (fun x => x + dx) (map fst s).
Proof. unfold shiftBy; rewrite !map_map; apply map_ext; now intros [c r]. Qed.

Lemma map_snd_shiftBy dx dy s : map snd (shiftBy dx dy s) = map (fun x => x + dy) (map snd s).
Proof. unfold shiftBy; rewrite !map_map; apply map_ext; now intros [c r]. Qed.

Lemma congruent_refl s : congruent s s.
Proof. exists 0, 0. now rewrite shiftBy_zero. Qed.

Lemma congruent_trans s1 s2 s3 : congruent s1 s2 -> congruent s2 s3 -> congruent s1 s3.
Proof.
  intros (dx & dy & H12) (dx' & dy' & H23).
  exists (dx + dx'), (dy + dy'). rewrite H23, <- shiftBy_shiftBy.
  unfold shiftBy at 1 3. now apply Permutation_map.
Qed.

Lemma congruent_sym s1 s2 : congruent s1 s2 -> congruent s2 s1.
Proof.
  intros (dx & dy & H). exists (- dx), (- dy).
  assert (E : s1 = shiftBy (- dx) (- dy) (shiftBy dx dy s1)).
  { rewrite shiftBy_shiftBy. replace (dx + - dx) with 0 by lia.
    replace (dy + - dy) with 0 by lia. now rewrite shiftBy_zero. }
  rewrite E at 1. unfold shiftBy at 1 3. apply Permutation_map. now symmetry.
Qed.

Lemma normalize_as_shift s :
  normalize s = js_sort cmpCell
                  (shiftBy (- list_min (map fst s)) (- list_min (map snd s)) s).
Proof.
  unfold normalize, shiftBy. reflexivity.
Qed.

Lemma normalize_congruent s : congruent s (normalize s).
Proof.
  rewrite normalize_as_shift. eexists _, _. apply js_sort_perm.
Qed.

Lemma normalize_length s : length (normalize s) = length s.
Proof. unfold normalize. now rewrite js_sort_length, length_map. Qed.

(** Normalization picks one representative per congruence class. *)
Lemma normalize_of_congruent s s' : congruent s s' -> normalize s' = normalize s.
Proof.
  intros (dx & dy & HP).
  destruct s as [|x t].
  { simpl in HP. symmetry in HP. apply Permutation_nil in HP. now subst. }
  rewrite !normalize_as_shift. apply sortCells_of_perm.
  assert (Hc : list_min (map fst s') = list_min (map fst (x :: t)) + dx).
  { rewrite (list_min_perm _ _ (Permutation_map fst HP)), map_fst_shiftBy.
    apply list_min_shift; simpl; congruence. }
  assert (Hr : list_min (map snd s') = list_min (map snd (x :: t)) + dy).
  { rewrite (list_min_perm _ _ (Permutation_map snd HP)), map_snd_shiftBy.
    apply list_min_shift; simpl; congruence. }
  rewrite Hc, Hr.
  etransitivity; [unfold shiftBy at 1; apply Permutation_map; exact HP|].
  fold (shiftBy (- (list_min (map fst (x :: t)) + dx)) (- (list_min (map snd (x :: t)) + dy))
                (shiftBy dx dy (x :: t))).
  rewrite shiftBy_shiftBy.
  match goal with |- Permutation (shiftBy ?a ?b _) (shiftBy ?c ?d _) =>
    replace a with c by lia; replace b with d by lia end.
  reflexivity.
Qed.

Lemma normalize_idem s : normalize (normalize s) = normalize s.
Proof. apply normalize_of_congruent, normalize_congruent. Qed.

Lemma map_turn_congruent s s' : congruent s s' -> congruent (map turn s) (map turn s').
Proof.
  intros (dx & dy & HP). exists (- dy), dx.
  rewrite (Permutation_map turn HP). unfold shiftBy; rewrite !map_map.
  erewrite map_ext; [reflexivity|]. intros [c r]; unfold turn; simpl. f_equal; lia.
Qed.

Lemma map_mirror_congruent s s' : congruent s s' -> congruent (map mirror s) (map mirror s').
Proof.
  intros (dx & dy & HP). exists (- dx), dy.
  rewrite (Permutation_map mirror HP). unfold shiftBy; rewrite !map_map.
  erewrite map_ext; [reflexivity|]. intros [c r]; unfold mirror; simpl. f_equal; lia.
Qed.

Lemma rotate90CW_congruent s : congruent (map turn s) (rotate90CW s).
Proof.
  unfold rotate90CW. eapply congruent_trans; [|apply normalize_congruent].
  exists (list_max (map snd s)), 0. unfold shiftBy; rewrite !map_map.
  erewrite map_ext; [reflexivity|]. intros [c r]; unfold turn; simpl. f_equal; lia.
Qed.

Lemma flipH_congruent s : congruent (map mirror s) (flipH s).
Proof.
  unfold flipH. eapply congruent_trans; [|apply normalize_congruent].
  exists (list_max (map fst s)), 0. unfold shiftBy; rewrite !map_map.
  erewrite map_ext; [reflexivity|]. intros [c r]; unfold mirror; simpl. f_equal; lia.
Qed.

Lemma rotate90CW_is_normalize s : exists x, rotate90CW s = normalize x /\ length x = length s.
Proof. unfold rotate90CW. eexists; split; [reflexivity | apply length_map]. Qed.

Lemma flipH_is_normalize s : exists x, flipH s = normalize x /\ length x = length s.
Proof. unfold flipH. eexists; split; [reflexivity | apply length_map]. Qed.

Lemma normalized_fixed s : (exists x, s = normalize x) -> normalize s = s.
Proof. intros (x & ->). apply normalize_idem. Qed.

Lemma turn4 s : map turn (map turn (map turn (map turn s))) = s.
Proof.
  rewrite !map_map. rewrite <- (map_id s) at 2. apply map_ext.
  intros [c r]; unfold turn; simpl. f_equal; lia.
Qed.

Lemma mirror2 s : map mirror (map mirror s) = s.
Proof.
  rewrite !map_map. rewrite <- (map_id s) at 2. apply map_ext.
  intros [c r]; unfold mirror; simpl. f_equal; lia.
Qed.

Lemma rotate4_congruent s :
  congruent s (rotate90CW (rotate90CW (rotate90CW (rotate90CW s)))).
Proof.
  rewrite <- (turn4 s) at 1.
  repeat (eapply congruent_trans; [|apply rotate90CW_congruent]; apply map_turn_congruent).
  apply congruent_refl.
Qed.

Lemma flip2_congruent s : congruent s (flipH (flipH s)).
Proof.
  rewrite <- (mirror2 s) at 1.
  repeat (eapply congruent_trans; [|apply flipH_congruent]; apply map_mirror_congruent).
  apply congruent_refl.
Qed.

(** C8: four quarter turns give back the normalized shape, and so do two
    horizontal reflections, for every shape. *)
Theorem rotate_four_flip_two (shape : Shape) :
  rotate90CW (rotate90CW (rotate90CW (rotate90CW shape))) = normalize shape
  /\ flipH (flipH shape) = normalize shape.
Proof.
  split.
  - destruct (rotate90CW_is_normalize (rotate90CW (rotate90CW (rotate90CW shape))))
      as (x & E & _).
    rewrite <- (normalized_fixed _ (ex_intro _ x E)).
    apply normalize_of_congruent, rotate4_congruent.
  - destruct (flipH_is_normalize (flipH shape)) as (x & E & _).
    rewrite <- (normalized_fixed _ (ex_intro _ x E)).
    apply normalize_of_congruent, flip2_congruent.
Qed.

(** ** The orientation table *)

Lemma normalize_is_normalized (x : Shape) : x <> [] -> is_normalized (normalize x).
Proof.
  intros Hne.
  assert (Hin : forall p, In p (normalize x) <->
                 exists q, In q x /\ p = (fst q - list_min (map fst x), snd q - list_min (map snd x))).
  { intros p. unfold normalize. split.
    - intros H. apply (Permutation_in _ (js_sort_perm cmpCell _)) in H.
      apply in_map_iff in H as ([c r] & <- & Hq). now exists (c, r).
    - intros (q & Hq & ->). apply (Permutation_in _ (Permutation_sym (js_sort_perm cmpCell _))).
      apply in_map_iff. exists q. split; [now destruct q | exact Hq]. }
  assert (Hf : map fst x <> []) by (destruct x; simpl; congruence).
  assert (Hs : map snd x <> []) by (destruct x; simpl; congruence).
  repeat split.
  - pose proof (list_min_in _ Hf) as H. apply in_map_iff in H as (q & Eq & Hq).
    exists (fst q - list_min (map fst x), snd q - list_min (map snd x)). split.
    + apply Hin. now exists q.
    + simpl. lia.
  - intros p Hp. apply Hin in Hp as (q & Hq & ->). simpl.
    pose proof (list_min_lower (map fst x) (fst q) (in_map fst _ _ Hq)). lia.
  - pose proof (list_min_in _ Hs) as H. apply in_map_iff in H as (q & Eq & Hq).
    exists (fst q - list_min (map fst x), snd q - list_min (map snd x)). split.
    + apply Hin. now exists q.
    + simpl. lia.
  - intros p Hp. apply Hin in Hp as (q & Hq & ->). simpl.
    pose proof (list_min_lower (map snd x) (snd q) (in_map snd _ _ Hq)). lia.
  - apply sortCells_sorted.
Qed.

Lemma existsb_string_In (key : string) (seen : list string) :
  existsb (String.eqb key) seen = true <-> In key seen.
Proof.
  rewrite existsb_exists. split.
  - intros (k & Hk & E). apply String.eqb_eq in E. now subst.
  - intros H. exists key. split; [exact H | apply String.eqb_refl].
Qed.

Section Rotations.
(** A property of shapes that the quarter turn preserves. *)
Variable Q : Shape -> Prop.
Hypothesis Q_rotate : forall s, Q s -> Q (rotate90CW s).

Lemma rotations_inv (n : nat) :
  forall current st, Q current -> orient_inv Q st ->
    orient_inv Q (rotations n current st) /\
    (length (snd st) <= length (snd (rotations n current st)) <= length (snd st) + n)%nat /\
    (n <> O -> snd (rotations n current st) <> []).
Proof.
  induction n as [|n IH]; intros current [seen os] Hq Hinv.
  - simpl. split; [exact Hinv|]. split; [lia|]. intros H; now elim H.
  - cbn [rotations fst snd].
    destruct (existsb (String.eqb (shapeKey current)) seen) eqn:Hseen.
    + destruct (IH (rotate90CW current) (seen, os) (Q_rotate _ Hq) Hinv) as (H1 & H2 & H3).
      split; [exact H1|]. split; [cbn [snd] in *; lia|].
      intros _. apply existsb_string_In in Hseen.
      destruct Hinv as (E & _ & _). cbn [fst snd] in E. subst seen.
      intros Hnil. destruct os; [contradiction|].
      cbn [snd] in H2. rewrite Hnil in H2. simpl in H2. lia.
    + assert (Hinv' : orient_inv Q (seen ++ [shapeKey current], os ++ [current])).
      { destruct Hinv as (E & Hnd & HQ). cbn [fst snd] in *. repeat split; cbn [fst snd].
        - rewrite map_app, E. reflexivity.
        - apply NoDup_app; [exact Hnd | repeat constructor; intros [] | ].
          intros k Hk [<- | []].
          apply existsb_string_In in Hk. congruence.
        - apply Forall_app; split; [exact HQ | now repeat constructor]. }
      destruct (IH (rotate90CW current) _ (Q_rotate _ Hq) Hinv') as (H1 & H2 & H3).
      cbn [snd] in *. rewrite length_app in H2. simpl in H2.
      split; [exact H1|]. split; [lia|].
      intros _ Hnil. rewrite Hnil in H2. simpl in H2. lia.
Qed.

Lemma getAllOrientations_inv (base : Shape) :
  Q (normalize base) -> Q (flipH (normalize base)) ->
  let os := getAllOrientations base in
  (1 <= length os <= 8)%nat /\ NoDup os /\ Forall Q os.
Proof.
  intros Q1 Q2. unfold getAllOrientations. cbn [fold_left].
  assert (H0 : orient_inv Q ([], [])) by (repeat split; constructor).
  destruct (rotations_inv 4 (normalize base) ([], []) Q1 H0) as (Ha & La & Na).
  destruct (rotations_inv 4 (flipH (normalize base)) _ Q2 Ha) as (Hb & Lb & Nb).
  destruct Hb as (E & Hnd & HQ).
  cbn [snd length] in *.
  repeat split; try lia.
  - specialize (Na ltac:(lia)).
    destruct (snd (rotations 4 (normalize base) ([], []))); [congruence | cbn [length] in Lb; lia].
  - rewrite E in Hnd. eapply NoDup_map_inv; exact Hnd.
  - exact HQ.
Qed.
End Rotations.

Lemma orbit_shape_rotate base s : orbit_shape base s -> orbit_shape base (rotate90CW s).
Proof.
  intros (x & -> & Hl). destruct (rotate90CW_is_normalize (normalize x)) as (y & E & Hy).
  exists y. split; [exact E|]. now rewrite Hy, normalize_length.
Qed.

Lemma orbit_shape_normalized base s : base <> [] -> orbit_shape base s -> is_normalized s.
Proof.
  intros Hne (x & -> & Hl). apply normalize_is_normalized.
  destruct x; [destruct base; [congruence | discriminate] | congruence].
Qed.

Lemma orbit_shape_length base s : orbit_shape base s -> length s = length base.
Proof. intros (x & -> & Hl). now rewrite normalize_length. Qed.

(** What [getAllOrientations] returns on any non-empty shape. *)
Lemma getAllOrientations_spec (base : Shape) :
  base <> [] ->
  let os := getAllOrientations base in
  (1 <= length os <= 8)%nat /\ NoDup os /\ Forall is_normalized os /\
  Forall (fun o => length o = length base) os.
Proof.
  intros Hne.
  destruct (getAllOrientations_inv (orbit_shape base) (orbit_shape_rotate base) base)
    as (Hlen & Hnd & HQ).
  - now exists base.
  - destruct (flipH_is_normalize (normalize base)) as (y & E & Hy).
    exists y. split; [exact E|]. now rewrite Hy, normalize_length.
  - repeat split; try tauto.
    + eapply Forall_impl; [|exact HQ]. intros s. now apply orbit_shape_normalized.
    + eapply Forall_impl; [|exact HQ]. intros s. apply orbit_shape_length.
Qed.

(** The precomputed table is the generator's output on each base shape. *)
Lemma ORIENTATIONS_eq (k : PieceId) :
  ORIENTATIONS k = getAllOrientations (p_shape (PIECE_MAP k)).
Proof. destruct k; vm_compute; reflexivity. Qed.

Lemma PIECE_MAP_shape_nonempty (k : PieceId) : p_shape (PIECE_MAP k) <> [].
Proof. destruct k; vm_compute; discriminate. Qed.

Lemma PIECE_MAP_id (k : PieceId) : p_id (PIECE_MAP k) = k.
Proof. now destruct k. Qed.

Lemma ORIENTATIONS_length (k : PieceId) (o : Shape) :
  In o (ORIENTATIONS k) -> Z.of_nat (length o) = pieceSize k.
Proof.
  intros Hin. unfold pieceSize. f_equal.
  pose proof (getAllOrientations_spec _ (PIECE_MAP_shape_nonempty k)) as (_ & _ & _ & H).
  rewrite <- ORIENTATIONS_eq in H. rewrite Forall_forall in H. now apply H.
Qed.

(** C7: for every piece of the library, [getAllOrientations] on its base
    shape (the entry of the precomputed table) produces between 1 and 8
    shapes, each one normalized (a cell in column 0 and none left of it, a
    cell in row 0 and none above it, cells in row-major order), and no shape
    occurs twice in the list. *)
Theorem orientations_normalized_distinct (k : PieceId) :
  let os := getAllOrientations (p_shape (PIECE_MAP k)) in
  ORIENTATIONS k = os /\
  (1 <= length os <= 8)%nat /\
  Forall is_normalized os /\
  NoDup os.
Proof.
  pose proof (getAllOrientations_spec _ (PIECE_MAP_shape_nonempty k)) as (H1 & H2 & H3 & _).
  split; [apply ORIENTATIONS_eq | auto].
Qed.


(* ================================================================== *)
(** * Part IV: the placement engine                                   *)
(* ================================================================== *)

(** ** Writing one element of a list *)

Lemma list_set_length {A} (f : A -> option A) (l l' : list A) (n : nat) :
  list_set n f l = Some l' -> length l' = length l.
Proof.
  revert n l'; induction l as [|x t IH]; intros [|n] l'; simpl; try discriminate.
  - destruct (f x); simpl; [intros [= <-]; reflexivity | discriminate].
  - destruct (list_set n f t) eqn:E; simpl; [intros [= <-] | discriminate].
    simpl. f_equal. eapply IH; eassumption.
Qed.

Lemma list_set_nth_same {A} (f : A -> option A) (l l' : list A) (n : nat) :
  list_set n f l = Some l' ->
  exists x y, nth_error l n = Some x /\ f x = Some y /\ nth_error l' n = Some y.
Proof.
  revert n l'; induction l as [|x t IH]; intros [|n] l'; simpl; try discriminate.
  - destruct (f x) eqn:E; simpl; [intros [= <-] | discriminate]. now exists x, a.
  - destruct (list_set n f t) eqn:E; simpl; [intros [= <-] | discriminate].
    simpl. eapply IH; eassumption.
Qed.

Lemma list_set_nth_other {A} (f : A -> option A) (l l' : list A) (n m : nat) :
  list_set n f l = Some l' -> m <> n -> nth_error l' m = nth_error l m.
Proof.
  revert n m l'; induction l as [|x t IH]; intros [|n] m l'; simpl; try discriminate.
  - destruct (f x); simpl; [intros [= <-] | discriminate].
    intros Hm. destruct m; [congruence | reflexivity].
  - destruct (list_set n f t) eqn:E; simpl; [intros [= <-] | discriminate].
    intros Hm. destruct m; [reflexivity|]. simpl. eapply IH; [eassumption | congruence].
Qed.

Lemma list_set_exists {A} (f : A -> option A) (l : list A) (n : nat) (x y : A) :
  nth_error l n = Some x -> f x = Some y -> exists l', list_set n f l = Some l'.
Proof.
  revert n; induction l as [|z t IH]; intros [|n]; simpl; try discriminate.
  - intros [= ->] ->. simpl. eauto.
  - intros H1 H2. destruct (IH n H1 H2) as (l' & ->). simpl. eauto.
Qed.

Lemma nth_error_ext_eq {A} (l l' : list A) :
  (forall n, nth_error l n = nth_error l' n) -> l = l'.
Proof.
  revert l'; induction l as [|x t IH]; intros [|y t'] H.
  - reflexivity.
  - specialize (H O); discriminate.
  - specialize (H O); discriminate.
  - pose proof (H O) as H0; simpl in H0; injection H0 as ->.
    f_equal. apply IH. intros n. exact (H (S n)).
Qed.

(** ** Reading and writing board cells *)

Lemma wf_board_dims (b : Board) :
  wf_board b <-> dims b = repeat (Z.to_nat COLS) (Z.to_nat ROWS).
Proof.
  unfold wf_board, dims. split.
  - intros [Hl HF]. rewrite <- Hl. clear Hl.
    induction HF as [|row t Hrow _ IH]; simpl; [reflexivity | now rewrite Hrow, IH].
  - intros H. split.
    + rewrite <- (length_map (@length cell)), H. apply repeat_length.
    + apply Forall_forall. intros row Hin.
      apply (in_map (@length cell)) in Hin. rewrite H in Hin.
      now apply repeat_spec in Hin.
Qed.

Lemma createEmptyBoard_wf : wf_board createEmptyBoard.
Proof. apply wf_board_dims. reflexivity. Qed.

Lemma getCell_nonneg (b : Board) (c r : Z) (x : cell) :
  getCell b c r = Some x -> 0 <= c /\ 0 <= r.
Proof.
  unfold getCell. destruct (Z.ltb_spec r 0), (Z.ltb_spec c 0); simpl; try discriminate. lia.
Qed.

Lemma setCell_dims (b b' : Board) (c r : Z) (v : cell) :
  setCell b c r v = Some b' -> dims b' = dims b.
Proof.
  unfold setCell, dims. destruct ((r <? 0) || (c <? 0)); [discriminate|].
  generalize (Z.to_nat r) as n. intros n; revert n b'.
  induction b as [|row t IH]; intros [|n] b'; simpl; try discriminate.
  - destruct (list_set (Z.to_nat c) _ row) eqn:E; simpl; [intros [= <-] | discriminate].
    simpl. f_equal. eapply list_set_length; eassumption.
  - destruct (list_set n _ t) eqn:E; simpl; [intros [= <-] | discriminate].
    simpl. f_equal. eapply IH; eassumption.
Qed.

Lemma setCell_spec (b b' : Board) (c r : Z) (v : cell) :
  setCell b c r v = Some b' ->
  forall c' r', getCell b' c' r' =
                if (c' =? c) && (r' =? r) then Some v else getCell b c' r'.
Proof.
  unfold setCell. intros H c' r'.
  destruct (Z.ltb_spec r 0) as [|Hr]; [discriminate|].
  destruct (Z.ltb_spec c 0) as [|Hc]; [discriminate|]. simpl in H.
  unfold getCell.
  destruct (Z.ltb_spec r' 0) as [Hr'|Hr']; simpl.
  { destruct (Z.eqb_spec r' r); [lia|]. now rewrite andb_false_r. }
  destruct (Z.ltb_spec c' 0) as [Hc'|Hc']; simpl.
  { destruct (Z.eqb_spec c' c); [lia | reflexivity]. }
  destruct (Z.eqb_spec r' r) as [->|Hne].
  - destruct (list_set_nth_same _ _ _ _ H) as (row & row' & E1 & E2 & E3).
    rewrite E1, E3.
    destruct (Z.eqb_spec c' c) as [->|Hnc]; simpl.
    + destruct (list_set_nth_same _ _ _ _ E2) as (x & y & _ & [= <-] & E). exact E.
    + apply (list_set_nth_other _ _ _ _ _ E2). lia.
  - rewrite andb_false_r. rewrite (list_set_nth_other _ _ _ _ _ H); [reflexivity | lia].
Qed.

Lemma setCell_exists (b : Board) (c r : Z) (x v : cell) :
  getCell b c r = Some x -> exists b', setCell b c r v = Some b'.
Proof.
  intros H. pose proof (getCell_nonneg _ _ _ _ H) as [Hc Hr].
  unfold getCell in H. unfold setCell.
  destruct ((r <? 0) || (c <? 0)); [discriminate|].
  destruct (nth_error b (Z.to_nat r)) as [row|] eqn:Erow; [|discriminate].
  destruct (list_set_exists (fun _ => Some v) row _ x v H eq_refl) as (row' & Hrow').
  eapply list_set_exists; eassumption.
Qed.

(** Two boards with the same row lengths and the same cells are equal. *)
Lemma board_ext (b b' : Board) :
  dims b = dims b' ->
  (forall c r, getCell b c r = getCell b' c r) ->
  b = b'.
Proof.
  intros Hd Hg. apply nth_error_ext_eq. intros n.
  assert (Hl : length b = length b').
  { unfold dims in Hd. apply (f_equal (@length nat)) in Hd. now rewrite !length_map in Hd. }
  destruct (nth_error b n) as [row|] eqn:E; destruct (nth_error b' n) as [row'|] eqn:E'.
  - f_equal. apply nth_error_ext_eq. intros m.
    specialize (Hg (Z.of_nat m) (Z.of_nat n)). unfold getCell in Hg.
    destruct (Z.ltb_spec (Z.of_nat n) 0); [lia|].
    destruct (Z.ltb_spec (Z.of_nat m) 0); [lia|]. simpl in Hg.
    now rewrite !Nat2Z.id, E, E' in Hg.
  - apply nth_error_None in E'. assert (n < length b)%nat by (apply nth_error_Some; congruence). lia.
  - apply nth_error_None in E. assert (n < length b')%nat by (apply nth_error_Some; congruence). lia.
  - reflexivity.
Qed.

(** ** Pieces on the board *)

Lemma inGrid_test (c r : Z) :
  (r >=? 0) && (r <? ROWS) && (c >=? 0) && (c <? COLS) = true <-> inGrid c r.
Proof.
  unfold inGrid. rewrite !andb_true_iff, !Z.geb_le, !Z.ltb_lt. lia.
Qed.

Lemma canPlace_spec (b : Board) (shape : Shape) (col row : Z) :
  canPlace b shape col row = true <->
  forall c r, In (c, r) (cellsAt shape col row) -> inGrid c r /\ isNull b c r = true.
Proof.
  unfold canPlace, cellsAt. rewrite forallb_forall. split.
  - intros H c r Hin. apply in_map_iff in Hin as ([dc dr] & [= <- <-] & Hin).
    specialize (H _ Hin). cbv beta iota zeta in H.
    apply andb_true_iff in H as [H1 H2]. apply inGrid_test in H1. auto.
  - intros H [dc dr] Hin.
    destruct (H (col + dc) (row + dr)) as [Hg Hn].
    { apply in_map_iff. now exists (dc, dr). }
    apply andb_true_iff. split; [now apply inGrid_test | exact Hn].
Qed.

Lemma isNull_getCell (b : Board) (c r : Z) :
  isNull b c r = true <-> getCell b c r = Some None.
Proof.
  unfold isNull. destruct (getCell b c r) as [[k|]|]; split; intros H;
    try discriminate H; try reflexivity; inversion H.
Qed.

Lemma writeCells_dims (v : cell) (shape : Shape) (col row : Z) :
  forall b b', writeCells b v shape col row = Some b' -> dims b' = dims b.
Proof.
  induction shape as [|[dc dr] rest IH]; intros b b'; simpl.
  - now intros [= <-].
  - destruct (setCell b (col + dc) (row + dr) v) as [b1|] eqn:E; [|discriminate].
    intros H. rewrite (IH _ _ H). eapply setCell_dims; eassumption.
Qed.

Lemma writeCells_spec (v : cell) (shape : Shape) (col row : Z) :
  forall b b', writeCells b v shape col row = Some b' ->
  forall c r, getCell b' c r =
              if in_dec Cell_eq_dec (c, r) (cellsAt shape col row) then Some v
              else getCell b c r.
Proof.
  induction shape as [|[dc dr] rest IH]; intros b b'; cbn [writeCells].
  - now intros [= <-].
  - destruct (setCell b (col + dc) (row + dr) v) as [b1|] eqn:E; [|discriminate].
    intros H c r. rewrite (IH _ _ H c r), (setCell_spec _ _ _ _ _ E c r).
    change (map (fun '(dc0, dr0) => (col + dc0, row + dr0)) rest) with (cellsAt rest col row).
    change (cellsAt ((dc, dr) :: rest) col row)
      with ((col + dc, row + dr) :: cellsAt rest col row).
    destruct (in_dec Cell_eq_dec (c, r) ((col + dc, row + dr) :: cellsAt rest col row))
      as [Hin|Hout];
      destruct (in_dec Cell_eq_dec (c, r) (cellsAt rest col row)) as [Hin'|Hout'];
      try reflexivity.
    + destruct Hin as [[= <- <-]|Hin]; [|exfalso; exact (Hout' Hin)]. now rewrite !Z.eqb_refl.
    + exfalso. apply Hout. now right.
    + destruct (Z.eqb_spec c (col + dc)), (Z.eqb_spec r (row + dr)); simpl; try reflexivity.
      subst. exfalso. apply Hout. now left.
Qed.

Lemma writeCells_exists (v : cell) (shape : Shape) (col row : Z) :
  forall b, (forall c r, In (c, r) (cellsAt shape col row) -> getCell b c r <> None) ->
  exists b', writeCells b v shape col row = Some b'.
Proof.
  induction shape as [|[dc dr] rest IH]; intros b Hex; simpl.
  - eauto.
  - destruct (getCell b (col + dc) (row + dr)) as [x|] eqn:Ex.
    2:{ exfalso. apply (Hex (col + dc) (row + dr)); [now left | exact Ex]. }
    destruct (setCell_exists _ _ _ _ v Ex) as (b1 & E1). rewrite E1.
    apply IH. intros c r Hin. rewrite (setCell_spec _ _ _ _ _ E1).
    destruct ((c =? col + dc) && (r =? row + dr)); [discriminate|].
    apply Hex. now right.
Qed.

(** A shape that fits can be placed, and removing it again gives back the
    board it was placed on. *)
Lemma place_remove (b : Board) (k : PieceId) (shape : Shape) (col row : Z) :
  canPlace b shape col row = true ->
  exists b1, placePiece b k shape col row = Some b1 /\
             removePiece b1 k shape col row = Some b.
Proof.
  intros Hcan. rewrite canPlace_spec in Hcan. unfold placePiece, removePiece.
  destruct (writeCells_exists (Some k) shape col row b) as (b1 & E1).
  { intros c r Hin. destruct (Hcan c r Hin) as [_ Hn].
    apply isNull_getCell in Hn. congruence. }
  exists b1. split; [exact E1|].
  destruct (writeCells_exists None shape col row b1) as (b2 & E2).
  { intros c r Hin. rewrite (writeCells_spec _ _ _ _ _ _ E1).
    destruct (in_dec Cell_eq_dec (c, r) (cellsAt shape col row)); [discriminate | contradiction]. }
  rewrite E2. f_equal. apply board_ext.
  - rewrite (writeCells_dims _ _ _ _ _ _ E2). apply (writeCells_dims _ _ _ _ _ _ E1).
  - intros c r. rewrite (writeCells_spec _ _ _ _ _ _ E2), (writeCells_spec _ _ _ _ _ _ E1).
    destruct (in_dec Cell_eq_dec (c, r) (cellsAt shape col row)) as [Hin|]; [|reflexivity].
    destruct (Hcan c r Hin) as [_ Hn]. apply isNull_getCell in Hn. now symmetry.
Qed.

(** C4, as amended: when the shape fits ([canPlace]), [placePiece] followed
    by [removePiece] with the same arguments returns the board it started
    from, cell for cell. *)
Theorem place_then_remove_restores (b : Board) (pieceId : PieceId) (shape : Shape)
    (col row : Z) :
  canPlace b shape col row = true ->
  exists b1, placePiece b pieceId shape col row = Some b1 /\
             removePiece b1 pieceId shape col row = Some b.
Proof. apply place_remove. Qed.

Lemma place_then_remove_restores_witness :
  canPlace createEmptyBoard [(0,0); (1,0); (2,0)] 3 1 = true /\
  exists b1, placePiece createEmptyBoard idL [(0,0); (1,0); (2,0)] 3 1 = Some b1 /\
             removePiece b1 idL [(0,0); (1,0); (2,0)] 3 1 = Some createEmptyBoard.
Proof.
  split; [reflexivity|].
  apply (place_then_remove_restores createEmptyBoard idL [(0,0); (1,0); (2,0)] 3 1).
  reflexivity.
Defined.

(** C4 as stated fails: [placePiece] overwrites an occupied cell and
    [removePiece] then leaves it empty, so the board is not the one the two
    calls started from. *)
Lemma place_then_remove_overwrites :
  exists b1 b2,
    placePiece boardWithB idL [(0,0); (1,0); (2,0)] 0 0 = Some b1 /\
    removePiece b1 idL [(0,0); (1,0); (2,0)] 0 0 = Some b2 /\
    getCell boardWithB 0 0 = Some (Some idB) /\
    getCell b2 0 0 = Some None /\
    b2 <> boardWithB.
Proof.
  eexists. eexists. split; [reflexivity|]. split; [reflexivity|].
  split; [reflexivity|]. split; [reflexivity|]. discriminate.
Qed.


(* ================================================================== *)
(** * Part V: island pruning                                           *)
(* ================================================================== *)

(** ** Regions of empty cells *)

Lemma adjacent_sym (x y : Cell) : adjacent x y -> adjacent y x.
Proof. unfold adjacent. lia. Qed.

Lemma adjacent_neighbors (x y : Cell) : adjacent x y <-> In y (neighbors4 x).
Proof.
  destruct x as [c r], y as [c' r']. unfold adjacent. simpl. split.
  - intros H.
    assert (Hc : (c' = c - 1 /\ r' = r) \/ (c' = c + 1 /\ r' = r) \/
                 (c' = c /\ r' = r - 1) \/ (c' = c /\ r' = r + 1)) by lia.
    destruct Hc as [[-> ->]|[[-> ->]|[[-> ->]|[-> ->]]]]; auto.
  - intros [[= <- <-]|[[= <- <-]|[[= <- <-]|[[= <- <-]|[]]]]]; lia.
Qed.

Lemma connected_empty_l b x y : connected b x y -> emptyCell b x.
Proof. induction 1; assumption. Qed.

Lemma connected_empty_r b x y : connected b x y -> emptyCell b y.
Proof. destruct 1; assumption. Qed.

Lemma connected_trans b x y z : connected b x y -> connected b y z -> connected b x z.
Proof.
  intros Hxy Hyz. revert Hxy. induction Hyz as [y Hy | y u z Hyu IH Hadj Hz]; intros Hxy.
  - exact Hxy.
  - exact (connected_step b x u z (IH Hxy) Hadj Hz).
Qed.

Lemma connected_sym b x y : connected b x y -> connected b y x.
Proof.
  induction 1 as [x Hx | x y z Hxy IH Hadj Hz]; [now constructor|].
  eapply connected_trans; [|exact IH].
  eapply connected_step; [now constructor | now apply adjacent_sym |].
  eapply connected_empty_r; exact Hxy.
Qed.

(** Induction along the paths that start from a fixed cell. *)
Lemma connected_from_ind b (s : Cell) (P : Cell -> Prop) :
  P s ->
  (forall y z, connected b s y -> P y -> adjacent y z -> emptyCell b z -> P z) ->
  forall y, connected b s y -> P y.
Proof.
  intros Hs Hstep y Hc. induction Hc as [x Hx | x y z Hxy IH Hadj Hz]; [exact Hs|].
  eapply Hstep; eauto.
Qed.

Lemma region_size_unique b x n n' : region_size b x n -> region_size b x n' -> n = n'.
Proof.
  intros (l & Hnd & Hl & <-) (l' & Hnd' & Hl' & <-). f_equal.
  apply Permutation_length, NoDup_Permutation; auto.
  intros y. now rewrite Hl, Hl'.
Qed.

Lemma region_size_connected b x y n :
  connected b x y -> region_size b y n -> region_size b x n.
Proof.
  intros Hxy (l & Hnd & Hl & Hn). exists l. repeat split; auto.
  - intros H. apply Hl in H. eapply connected_trans; eassumption.
  - intros H. apply Hl. eapply connected_trans; [apply connected_sym|]; eassumption.
Qed.

(** ** The visited matrix *)

Lemma list_upd_length {A} (f : A -> A) (l : list A) (n : nat) :
  length (list_upd n f l) = length l.
Proof.
  revert n; induction l as [|x t IH]; intros [|n]; simpl; auto.
Qed.

Lemma list_upd_nth {A} (f : A -> A) (l : list A) (n m : nat) (d : A) :
  (n < length l)%nat ->
  nth m (list_upd n f l) d = if Nat.eqb m n then f (nth n l d) else nth m l d.
Proof.
  revert n m; induction l as [|x t IH]; intros [|n] [|m]; simpl; try lia; auto.
  intros H. apply IH. lia.
Qed.

Lemma newVisited_wf : wf_visited newVisited.
Proof. split; [reflexivity|]. repeat constructor. Qed.

Lemma newVisited_false (x : Cell) : visitedAt newVisited x = false.
Proof.
  unfold visitedAt, isVisited, newVisited.
  generalize (Z.to_nat (fst x)) (Z.to_nat (snd x)). intros n m.
  change (Z.to_nat ROWS) with 5%nat. change (Z.to_nat COLS) with 11%nat.
  do 6 (destruct m as [|m]; [do 12 (destruct n as [|n]; [reflexivity|]); reflexivity|]).
  simpl. now destruct n.
Qed.

Lemma markVisited_wf (v : Visited) (c r : Z) : wf_visited v -> wf_visited (markVisited v c r).
Proof.
  intros [Hl HF]. unfold markVisited. split; [now rewrite list_upd_length|].
  clear Hl. generalize (Z.to_nat r). induction HF as [|row t Hrow HF IH]; intros [|n]; simpl.
  - constructor.
  - constructor.
  - constructor; [now rewrite list_upd_length | exact HF].
  - constructor; [exact Hrow | apply IH].
Qed.

Lemma wf_visited_row (v : Visited) (r : Z) :
  wf_visited v -> 0 <= r < ROWS -> length (nth (Z.to_nat r) v []) = Z.to_nat COLS.
Proof.
  intros [Hl HF] Hr. rewrite Forall_forall in HF. apply HF, nth_In.
  rewrite Hl. unfold ROWS in *. lia.
Qed.

Lemma markVisited_spec (v : Visited) (x y : Cell) :
  wf_visited v -> inGrid (fst x) (snd x) -> inGrid (fst y) (snd y) ->
  visitedAt (markVisited v (fst x) (snd x)) y = true <-> y = x \/ visitedAt v y = true.
Proof.
  destruct x as [c r], y as [c' r']. unfold visitedAt, isVisited, markVisited, inGrid. simpl.
  intros Hwf [Hr Hc] [Hr' Hc'].
  pose proof (wf_visited_row v r Hwf Hr) as Hrow.
  destruct Hwf as [Hl _].
  rewrite (list_upd_nth _ _ _ _ []) by (rewrite Hl; unfold ROWS in *; lia).
  destruct (Nat.eqb_spec (Z.to_nat r') (Z.to_nat r)) as [Er|Er].
  - assert (r' = r) by lia. subst r'.
    rewrite (list_upd_nth _ _ _ _ false) by (rewrite Hrow; unfold COLS in *; lia).
    destruct (Nat.eqb_spec (Z.to_nat c') (Z.to_nat c)) as [Ec|Ec].
    + assert (c' = c) by lia. subst c'. tauto.
    + split; [now right | intros [[= ->]|H]; [contradiction | exact H]].
  - split; [now right | intros [[= -> ->]|H]; [contradiction | exact H]].
Qed.

(** ** One round of the traversal *)

Lemma visitNeighbor_unfold (b : Board) (v : Visited) (q : list Cell) (n : Cell) :
  visitNeighbor b (v, q) n =
  if neighbor_test b v n then (markVisited v (fst n) (snd n), q ++ [n]) else (v, q).
Proof. destruct n as [nc nr]. reflexivity. Qed.

Lemma neighbor_test_spec (b : Board) (v : Visited) (n : Cell) :
  neighbor_test b v n = true <-> emptyCell b n /\ visitedAt v n = false.
Proof.
  unfold neighbor_test, emptyCell, visitedAt.
  rewrite !andb_true_iff, negb_true_iff.
  rewrite <- (inGrid_test (fst n) (snd n)), !andb_true_iff. tauto.
Qed.

Lemma visitNeighbors_spec (b : Board) (ns : list Cell) :
  forall (v : Visited) (q : list Cell), wf_visited v ->
  exists v' new,
    fold_left (visitNeighbor b) ns (v, q) = (v', q ++ new) /\
    wf_visited v' /\ NoDup new /\
    (forall y, In y new -> In y ns /\ emptyCell b y /\ visitedAt v y = false) /\
    (forall y, inGrid (fst y) (snd y) ->
               visitedAt v' y = true <-> visitedAt v y = true \/ In y new) /\
    (forall y, In y ns -> emptyCell b y -> visitedAt v' y = true).
Proof.
  induction ns as [|n ns IH]; intros v q Hwf.
  - exists v, []. simpl. rewrite app_nil_r.
    split; [reflexivity|]. split; [exact Hwf|]. split; [constructor|].
    split; [intros y []|]. split; [intros y Hy; tauto | intros y []].
  - cbn [fold_left]. rewrite visitNeighbor_unfold.
    destruct (neighbor_test b v n) eqn:Htest.
    + apply neighbor_test_spec in Htest as [Hempty Hunv].
      destruct (IH (markVisited v (fst n) (snd n)) (q ++ [n]) (markVisited_wf _ _ _ Hwf))
        as (v' & new & Hfold & Hwf' & Hnd & Hnew & Hvis & Hall).
      exists v', (n :: new). rewrite Hfold, <- app_assoc.
      split; [reflexivity|]. split; [exact Hwf'|].
      assert (Hmark : forall y, inGrid (fst y) (snd y) ->
                visitedAt (markVisited v (fst n) (snd n)) y = true <->
                y = n \/ visitedAt v y = true).
      { intros y Hy. apply markVisited_spec; auto. apply Hempty. }
      split; [|split; [|split]].
      * constructor; [|exact Hnd]. intros Hin.
        destruct (Hnew n Hin) as (_ & _ & Hf).
        assert (visitedAt (markVisited v (fst n) (snd n)) n = true)
          by (apply Hmark; [apply Hempty | now left]).
        congruence.
      * intros y [<-|Hin]; [split; [now left | now split]|].
        destruct (Hnew y Hin) as (H1 & H2 & H3). split; [now right|]. split; [exact H2|].
        destruct (visitedAt v y) eqn:E; [|reflexivity].
        assert (visitedAt (markVisited v (fst n) (snd n)) y = true)
          by (apply Hmark; [apply H2 | now right]).
        congruence.
      * intros y Hy. rewrite (Hvis y Hy), (Hmark y Hy). simpl. intuition.
      * intros y [<-|Hin] Hy.
        -- apply Hvis; [apply Hy|]. left. apply Hmark; [apply Hy | now left].
        -- now apply Hall.
    + destruct (IH v q Hwf) as (v' & new & Hfold & Hwf' & Hnd & Hnew & Hvis & Hall).
      exists v', new. rewrite Hfold.
      split; [reflexivity|]. split; [exact Hwf'|]. split; [exact Hnd|].
      split; [|split].
      * intros y Hin. destruct (Hnew y Hin) as (H1 & H2 & H3). split; [now right | now split].
      * exact Hvis.
      * intros y [<-|Hin] Hy; [|now apply Hall].
        apply Hvis; [apply Hy|]. left.
        destruct (visitedAt v n) eqn:E; [reflexivity|].
        assert (neighbor_test b v n = true) by (now apply neighbor_test_spec).
        congruence.
Qed.

(** ** The traversal of one region *)

Lemma gridCells_In (x : Cell) : inGrid (fst x) (snd x) -> In x gridCells.
Proof.
  destruct x as [c r]. unfold inGrid, gridCells, ROWS, COLS. simpl fst; simpl snd.
  intros [Hr Hc]. apply in_flat_map. exists (Z.to_nat r). split.
  - apply in_seq. lia.
  - apply in_map_iff. exists (Z.to_nat c). split; [f_equal; lia | apply in_seq; lia].
Qed.

Lemma gridCells_length : length gridCells = Z.to_nat (ROWS * COLS).
Proof. reflexivity. Qed.

Section Traversal.
Variable b : Board.
(** The matrix before the traversal and the cell it starts from. *)
Variable v0 : Visited.
Variable s : Cell.
Hypothesis v0_wf : wf_visited v0.
(** What is already visited is a union of whole regions. *)
Hypothesis v0_closed :
  forall x y, visitedAt v0 x = true -> emptyCell b x -> adjacent x y -> emptyCell b y ->
              visitedAt v0 y = true.
Hypothesis s_empty : emptyCell b s.
Hypothesis s_fresh : visitedAt v0 s = false.

Lemma region_fresh (y : Cell) : connected b s y -> visitedAt v0 y = false.
Proof.
  revert y. apply (connected_from_ind b s (fun y => visitedAt v0 y = false)); [exact s_fresh|].
  intros x z Hxy IH Hadj Hz.
  destruct (visitedAt v0 z) eqn:E; [|reflexivity].
  rewrite <- IH. symmetry.
  apply (v0_closed z x); auto using adjacent_sym.
  eapply connected_empty_r; exact Hxy.
Qed.

Lemma bfs_inv_init : bfs_inv b v0 s (markVisited v0 (fst s) (snd s)) [s] [] 0.
Proof.
  split; simpl.
  - now apply markVisited_wf.
  - intros y Hy. rewrite markVisited_spec; auto; [|apply s_empty].
    intuition.
  - repeat constructor. intros [].
  - intros y [<-|[]]. now constructor.
  - intros x y [].
  - reflexivity.
  - now left.
Qed.

Lemma bfs_inv_bound v queue done size :
  bfs_inv b v0 s v queue done size -> (length (done ++ queue) <= Z.to_nat (ROWS * COLS))%nat.
Proof.
  intros H. rewrite <- gridCells_length. apply NoDup_incl_length; [apply H|].
  intros y Hy. apply gridCells_In. eapply connected_empty_r, H. exact Hy.
Qed.

Lemma bfs_inv_step v x queue done size v' queue' :
  bfs_inv b v0 s v (x :: queue) done size ->
  fold_left (visitNeighbor b) (neighbors4 x) (v, queue) = (v', queue') ->
  bfs_inv b v0 s v' queue' (done ++ [x]) (size + 1).
Proof.
  intros Hinv Hfold.
  destruct (visitNeighbors_spec b (neighbors4 x) v queue (inv_wf _ _ _ _ _ _ _ Hinv))
    as (v1 & new & Hfold' & Hwf' & Hnd & Hnew & Hvis & Hall).
  rewrite Hfold' in Hfold. injection Hfold as <- <-.
  assert (Hx : connected b s x).
  { apply (inv_region _ _ _ _ _ _ _ Hinv). apply in_or_app. right. now left. }
  assert (Hmem : forall y, In y ((done ++ [x]) ++ queue ++ new) <->
                           In y (done ++ x :: queue) \/ In y new).
  { intros y. rewrite !in_app_iff. simpl. intuition. }
  split.
  - exact Hwf'.
  - intros y Hy. rewrite (Hvis y Hy), (inv_visited _ _ _ _ _ _ _ Hinv y Hy), Hmem. tauto.
  - assert (Hperm : Permutation ((done ++ [x]) ++ queue ++ new) ((done ++ x :: queue) ++ new)).
    { rewrite <- !app_assoc. simpl. reflexivity. }
    eapply Permutation_NoDup; [symmetry; exact Hperm|].
    apply NoDup_app; [apply Hinv | exact Hnd |].
    intros y Hy Hy'. destruct (Hnew y Hy') as (_ & Hempty & Hunv).
    assert (visitedAt v y = true).
    { apply (inv_visited _ _ _ _ _ _ _ Hinv); [apply Hempty | now right]. }
    congruence.
  - intros y Hy. apply Hmem in Hy as [Hy|Hy]; [now apply (inv_region _ _ _ _ _ _ _ Hinv)|].
    destruct (Hnew y Hy) as (Hadj & Hempty & _).
    eapply connected_step; [exact Hx | now apply adjacent_neighbors | exact Hempty].
  - intros z y Hz Hadj Hy. apply Hmem.
    apply in_app_or in Hz as [Hz|[<-|[]]].
    + left. now apply (inv_closed _ _ _ _ _ _ _ Hinv z y).
    + assert (Hv : visitedAt v1 y = true) by (apply Hall; [now apply adjacent_neighbors | exact Hy]).
      apply Hvis in Hv; [|apply Hy]. destruct Hv as [Hv|Hv]; [|now right].
      apply (inv_visited _ _ _ _ _ _ _ Hinv) in Hv; [|apply Hy].
      destruct Hv as [Hv|Hv]; [|now left].
      assert (visitedAt v0 y = false).
      { apply region_fresh. eapply connected_step; eauto. }
      congruence.
  - rewrite length_app, (inv_size _ _ _ _ _ _ _ Hinv). simpl. lia.
  - apply Hmem. left. apply Hinv.
Qed.

(** With the queue empty, [done] lists the region of [s]. *)
Lemma bfs_inv_final v done size :
  bfs_inv b v0 s v [] done size ->
  region_size b s size /\
  (forall y, inGrid (fst y) (snd y) ->
             (visitedAt v y = true <-> visitedAt v0 y = true \/ connected b s y)).
Proof.
  intros Hinv. pose proof Hinv as [Hwf Hvis Hnd Hreg Hclo Hsize Hstart].
  rewrite app_nil_r in *.
  assert (Hall : forall y, connected b s y -> In y done).
  { apply (connected_from_ind b s (fun y => In y done)); [exact Hstart|].
    intros y z Hxy IH Hadj Hz. exact (Hclo y z IH Hadj Hz). }
  split.
  - exists done. repeat split; auto.
  - intros y Hy. rewrite (Hvis y Hy). split; intros [H|H]; auto.
Qed.

Lemma bfsLoop_spec (fuel : nat) :
  forall v queue done size,
    bfs_inv b v0 s v queue done size ->
    (Z.to_nat (ROWS * COLS) < fuel + length done)%nat ->
    exists size' v',
      bfsLoop fuel b v queue size = Some (size', v') /\
      wf_visited v' /\ region_size b s size' /\
      (forall y, inGrid (fst y) (snd y) ->
                 (visitedAt v' y = true <-> visitedAt v0 y = true \/ connected b s y)).
Proof.
  induction fuel as [|fuel IH]; intros v queue done size Hinv Hfuel.
  - destruct queue as [|x queue].
    + simpl. exists size, v. split; [reflexivity|]. split; [apply Hinv|].
      now apply (bfs_inv_final v done).
    + pose proof (bfs_inv_bound _ _ _ _ Hinv) as Hb. rewrite length_app in Hb. simpl in *. lia.
  - destruct queue as [|[c r] queue].
    + simpl. exists size, v. split; [reflexivity|]. split; [apply Hinv|].
      now apply (bfs_inv_final v done).
    + cbn [bfsLoop].
      change [(c - 1, r); (c + 1, r); (c, r - 1); (c, r + 1)] with (neighbors4 (c, r)).
      destruct (fold_left (visitNeighbor b) (neighbors4 (c, r)) (v, queue)) as [v' queue'] eqn:Hfold.
      apply (IH v' queue' (done ++ [(c, r)]) (size + 1)).
      * eapply bfs_inv_step; eassumption.
      * rewrite length_app. cbn [length]. lia.
Qed.

(** [bfsRegionSize] returns the size of the region of its start cell and
    adds that region to the visited cells. *)
Lemma bfsRegionSize_spec :
  exists size v',
    bfsRegionSize b v0 (fst s) (snd s) = Some (size, v') /\
    wf_visited v' /\ region_size b s size /\
    (forall y, inGrid (fst y) (snd y) ->
               (visitedAt v' y = true <-> visitedAt v0 y = true \/ connected b s y)).
Proof.
  unfold bfsRegionSize. rewrite <- surjective_pairing.
  apply (bfsLoop_spec bfsFuel _ _ [] 0 bfs_inv_init).
  unfold bfsFuel. simpl. lia.
Qed.
End Traversal.

(** ** The scan over the grid *)

Section Scan.
Variable b : Board.
Variable minPieceSize : Z.

Lemma scan_inv_after_region (v v' : Visited) (s : Cell) (size : Z) :
  scan_inv b minPieceSize v -> emptyCell b s -> wf_visited v' -> region_size b s size ->
  minPieceSize <= size ->
  (forall y, inGrid (fst y) (snd y) ->
             (visitedAt v' y = true <-> visitedAt v y = true \/ connected b s y)) ->
  scan_inv b minPieceSize v'.
Proof.
  intros Hinv Hs Hwf Hsize Hbig Hvis. split.
  - exact Hwf.
  - intros x y Hx Hex Hadj Hey. apply Hvis; [apply Hey|].
    apply Hvis in Hx; [|apply Hex]. destruct Hx as [Hx|Hx].
    + left. eapply (scan_closed _ _ _ Hinv); eassumption.
    + right. eapply connected_step; eassumption.
  - intros x n Hx Hex Hn. apply Hvis in Hx; [|apply Hex]. destruct Hx as [Hx|Hx].
    + eapply (scan_big _ _ _ Hinv); eassumption.
    + rewrite (region_size_unique b s n size); [exact Hbig | | exact Hsize].
      eapply region_size_connected; eassumption.
Qed.

Lemma deadCols_spec (r : Z) (n : nat) :
  0 <= r < ROWS ->
  forall v c, scan_inv b minPieceSize v -> 0 <= c -> c + Z.of_nat n <= COLS -> scanned b v c r ->
  exists res v',
    deadCols n b minPieceSize v c r = Some (res, v') /\
    if res then dead_island b minPieceSize
    else scan_inv b minPieceSize v' /\ scanned b v' (c + Z.of_nat n) r.
Proof.
  intros Hr. induction n as [|n IH]; intros v c Hinv Hc Hcn Hscan.
  - exists false, v. simpl. rewrite Z.add_0_r. auto.
  - cbn [deadCols].
    assert (Hgrid : inGrid c r) by (split; [exact Hr | lia]).
    assert (Hnext : forall v', scan_inv b minPieceSize v' -> scanned b v' (c + 1) r ->
              exists res v'',
                deadCols n b minPieceSize v' (c + 1) r = Some (res, v'') /\
                if res then dead_island b minPieceSize
                else scan_inv b minPieceSize v'' /\ scanned b v'' (c + Z.of_nat (S n)) r).
    { intros v' Hinv' Hscan'.
      destruct (IH v' (c + 1) Hinv') as (res & v'' & E & Hres); [lia | lia | exact Hscan' |].
      exists res, v''. split; [exact E|].
      replace (c + Z.of_nat (S n)) with (c + 1 + Z.of_nat n) by lia. exact Hres. }
    destruct (isNull b c r && negb (isVisited v c r)) eqn:Htest.
    + apply andb_true_iff in Htest as [Hnull Hunv]. apply negb_true_iff in Hunv.
      assert (Hs : emptyCell b (c, r)) by (split; assumption).
      destruct (bfsRegionSize_spec b v (c, r) (scan_wf _ _ _ Hinv) (scan_closed _ _ _ Hinv) Hs Hunv)
        as (size & v' & Hbfs & Hwf' & Hsize & Hvis).
      cbn [fst snd] in Hbfs. rewrite Hbfs.
      destruct (Z.ltb_spec size minPieceSize) as [Hlt|Hge].
      * exists true, v'. split; [reflexivity|]. exists (c, r), size. auto.
      * apply Hnext.
        -- eapply scan_inv_after_region; eassumption.
        -- intros y Hy Hbefore. apply Hvis; [apply Hy|].
           destruct (Cell_eq_dec y (c, r)) as [->|Hne]; [right; now constructor|].
           left. apply Hscan; [exact Hy|]. destruct y as [yc yr]. simpl in *.
           assert (~ (yc = c /\ yr = r)) by (intros [-> ->]; congruence). lia.
    + apply Hnext; [exact Hinv|].
      intros y Hy Hbefore.
      destruct (Cell_eq_dec y (c, r)) as [->|Hne].
      * destruct Hy as [_ Hn]. cbn [fst snd] in Hn. rewrite Hn in Htest.
        simpl in Htest. apply negb_false_iff in Htest. exact Htest.
      * apply Hscan; [exact Hy|]. destruct y as [yc yr]. simpl in *.
        assert (~ (yc = c /\ yr = r)) by (intros [-> ->]; congruence). lia.
Qed.

Lemma deadRows_spec (n : nat) :
  forall v r, scan_inv b minPieceSize v -> 0 <= r -> r + Z.of_nat n <= ROWS -> scanned b v 0 r ->
  exists res,
    deadRows n b minPieceSize v r = Some res /\
    if res then dead_island b minPieceSize
    else exists v', scan_inv b minPieceSize v' /\ scanned b v' 0 (r + Z.of_nat n).
Proof.
  induction n as [|n IH]; intros v r Hinv Hr Hrn Hscan.
  - exists false. simpl. split; [reflexivity|]. exists v. now rewrite Z.add_0_r.
  - cbn [deadRows].
    destruct (deadCols_spec r (Z.to_nat COLS) ltac:(lia) v 0 Hinv)
      as (res & v' & E & Hres); [lia | unfold COLS; simpl; lia | exact Hscan |].
    rewrite E. destruct res.
    + exists true. auto.
    + destruct Hres as [Hinv' Hscan'].
      destruct (IH v' (r + 1) Hinv') as (res & E' & Hres); [lia | lia | |].
      * intros y Hy Hbefore. apply Hscan'; [exact Hy|].
        destruct Hy as [[_ Hcy] _]. rewrite Z2Nat.id by (unfold COLS; lia). lia.
      * exists res. split; [exact E'|].
        replace (r + Z.of_nat (S n)) with (r + 1 + Z.of_nat n) by lia. exact Hres.
Qed.
End Scan.

Lemma region_size_pos (b : Board) (x : Cell) (n : Z) :
  emptyCell b x -> region_size b x n -> 1 <= n.
Proof.
  intros Hx (cells & _ & Hall & <-).
  assert (Hin : In x cells) by (apply Hall; now constructor).
  destruct cells; [contradiction | simpl; lia].
Qed.

(** [hasDeadIslands] always returns, and returns [true] exactly when a
    region of empty cells is smaller than [minPieceSize]. *)
Lemma hasDeadIslands_spec (b : Board) (minPieceSize : Z) :
  exists res, hasDeadIslands b minPieceSize = Some res /\
              (res = true <-> dead_island b minPieceSize).
Proof.
  unfold hasDeadIslands. destruct (Z.leb_spec minPieceSize 1) as [Hle|Hgt].
  - exists false. split; [reflexivity|]. split; [discriminate|].
    intros (x & n & Hx & Hn & Hlt).
    pose proof (region_size_pos b x n Hx Hn). lia.
  - assert (Hinit : scan_inv b minPieceSize newVisited).
    { split; [exact newVisited_wf | |]; intros x; rewrite newVisited_false; discriminate. }
    destruct (deadRows_spec b minPieceSize (Z.to_nat ROWS) newVisited 0 Hinit)
      as (res & E & Hres); [lia | unfold ROWS; simpl; lia | |].
    { intros y [[Hy Hc] _] Hbefore. lia. }
    exists res. split; [exact E|]. destruct res; [tauto|].
    split; [discriminate|].
    destruct Hres as (v' & Hinv & Hscan).
    intros (x & n & Hx & Hn & Hlt).
    assert (Hv : visitedAt v' x = true).
    { apply Hscan; [exact Hx|]. destruct Hx as [[Hr _] _].
      rewrite Z2Nat.id by (unfold ROWS; lia). lia. }
    pose proof (scan_big _ _ _ Hinv x n Hv Hx Hn). lia.
Qed.

(** C6: on every board of the grid's size and for every minimum piece size,
    [hasDeadIslands] returns [true] if and only if some region of empty
    cells, connected through shared edges, has fewer cells than that
    minimum. *)
Theorem hasDeadIslands_iff_small_region (b : Board) (minPieceSize : Z) :
  wf_board b ->
  exists res, hasDeadIslands b minPieceSize = Some res /\
              (res = true <-> dead_island b minPieceSize).
Proof. intros _. apply hasDeadIslands_spec. Qed.

Lemma hasDeadIslands_iff_small_region_witness :
  wf_board boardOneIsland /\
  hasDeadIslands boardOneIsland 3 = Some false /\
  hasDeadIslands boardOneIsland 4 = Some true /\
  ~ dead_island boardOneIsland 3 /\
  dead_island boardOneIsland 4.
Proof.
  assert (Hwf : wf_board boardOneIsland) by (split; [reflexivity | repeat constructor]).
  split; [exact Hwf|].
  destruct (hasDeadIslands_iff_small_region boardOneIsland 3 Hwf) as (res3 & E3 & H3).
  destruct (hasDeadIslands_iff_small_region boardOneIsland 4 Hwf) as (res4 & E4 & H4).
  vm_compute in E3. vm_compute in E4.
  injection E3 as <-. injection E4 as <-.
  split; [reflexivity|]. split; [reflexivity|]. split.
  - intros Hd. apply H3 in Hd. discriminate Hd.
  - now apply H4.
Defined.


(* ================================================================== *)
(** * Part VI: the packer                                              *)
(* ================================================================== *)

(** ** Sets of piece ids *)

Lemma PieceId_eqb_eq (a b : PieceId) : PieceId_eqb a b = true <-> a = b.
Proof. destruct a, b; simpl; split; congruence. Qed.

Lemma PieceId_eqb_refl (a : PieceId) : PieceId_eqb a a = true.
Proof. now apply PieceId_eqb_eq. Qed.

Lemma set_has_In (k : PieceId) (s : IdSet) : set_has k s = true <-> In k s.
Proof.
  unfold set_has. rewrite existsb_exists. split.
  - intros (x & Hx & E). apply PieceId_eqb_eq in E. now subst.
  - intros H. exists k. split; [exact H | apply PieceId_eqb_refl].
Qed.

Lemma set_delete_In (k q : PieceId) (s : IdSet) : In q (set_delete k s) <-> In q s /\ q <> k.
Proof.
  unfold set_delete. rewrite filter_In, negb_true_iff. split; intros [H1 H2]; split; auto.
  - intros ->. now rewrite PieceId_eqb_refl in H2.
  - destruct (PieceId_eqb q k) eqn:E; [apply PieceId_eqb_eq in E; contradiction | reflexivity].
Qed.

Lemma set_delete_NoDup (k : PieceId) (s : IdSet) : NoDup s -> NoDup (set_delete k s).
Proof. apply NoDup_filter. Qed.

Lemma set_delete_length (k : PieceId) (s : IdSet) :
  NoDup s -> In k s -> S (length (set_delete k s)) = length s.
Proof.
  induction s as [|x t IH]; intros Hnd Hin; [contradiction|].
  inversion Hnd as [|? ? Hx Ht]; subst. simpl.
  destruct (PieceId_eqb x k) eqn:E; simpl.
  - apply PieceId_eqb_eq in E; subst x. f_equal.
    unfold set_delete. f_equal. apply forallb_filter_id.
    apply forallb_forall. intros y Hy. apply negb_true_iff.
    destruct (PieceId_eqb y k) eqn:E; [|reflexivity].
    apply PieceId_eqb_eq in E; subst. contradiction.
  - f_equal. apply IH; [exact Ht|]. destruct Hin as [->|]; [|assumption].
    now rewrite PieceId_eqb_refl in E.
Qed.

Lemma set_add_In (k q : PieceId) (s : IdSet) : In q (set_add k s) <-> q = k \/ In q s.
Proof.
  unfold set_add. destruct (set_has k s) eqn:E.
  - apply set_has_In in E. split; [now right | intros [->|]; assumption].
  - rewrite in_app_iff. simpl. intuition.
Qed.

Lemma set_add_NoDup (k : PieceId) (s : IdSet) : NoDup s -> NoDup (set_add k s).
Proof.
  intros H. unfold set_add. destruct (set_has k s) eqn:E; [exact H|].
  apply NoDup_app; [exact H | repeat constructor; intros [] |].
  intros x Hx [<-|[]]. apply set_has_In in Hx. congruence.
Qed.

(** Deleting an element and adding it back permutes the set. *)
Lemma set_add_delete_perm (k : PieceId) (s s' : IdSet) :
  NoDup s -> In k s -> Permutation (set_delete k s) s' -> Permutation s (set_add k s').
Proof.
  intros Hnd Hin HP.
  assert (Hk : set_has k s' = false).
  { destruct (set_has k s') eqn:E; [|reflexivity].
    apply set_has_In in E. apply (Permutation_in _ (Permutation_sym HP)) in E.
    apply set_delete_In in E. tauto. }
  unfold set_add. rewrite Hk.
  apply NoDup_Permutation; [exact Hnd | |].
  - apply NoDup_app.
    + eapply Permutation_NoDup; [exact HP | now apply set_delete_NoDup].
    + repeat constructor; intros [].
    + intros x Hx [<-|[]]. apply set_has_In in Hx. congruence.
  - intros x. rewrite in_app_iff. simpl.
    rewrite <- (Permutation_in' (eq_refl x) HP), set_delete_In.
    destruct (PieceId_eqb x k) eqn:E.
    + apply PieceId_eqb_eq in E; subst. tauto.
    + assert (x <> k) by (intros ->; now rewrite PieceId_eqb_refl in E). intuition congruence.
Qed.

Lemma set_of_list_spec (ids : list PieceId) :
  NoDup (set_of_list ids) /\ forall k, In k (set_of_list ids) <-> In k ids.
Proof.
  unfold set_of_list.
  assert (G : forall acc, NoDup acc ->
            NoDup (fold_left (fun s k => set_add k s) ids acc) /\
            forall k, In k (fold_left (fun s k => set_add k s) ids acc) <-> In k acc \/ In k ids).
  { induction ids as [|x t IH]; intros acc Hacc; simpl.
    - split; [exact Hacc | intuition].
    - destruct (IH (set_add x acc) (set_add_NoDup _ _ Hacc)) as [H1 H2].
      split; [exact H1|]. intros k. rewrite H2, set_add_In. intuition. }
  destruct (G [] (NoDup_nil _)) as [H1 H2]. split; [exact H1|].
  intros k. rewrite H2. simpl. tauto.
Qed.

Lemma set_of_list_NoDup_id (ids : list PieceId) : NoDup ids -> set_of_list ids = ids.
Proof.
  unfold set_of_list.
  assert (G : forall acc, NoDup (acc ++ ids) ->
            fold_left (fun s k => set_add k s) ids acc = acc ++ ids).
  { induction ids as [|x t IH]; intros acc Hnd; simpl.
    - now rewrite app_nil_r.
    - assert (E : set_add x acc = acc ++ [x]).
      { unfold set_add. destruct (set_has x acc) eqn:E; [|reflexivity].
        apply set_has_In in E. apply NoDup_remove_2 in Hnd.
        exfalso. apply Hnd. apply in_or_app. now left. }
      rewrite E, IH; rewrite <- app_assoc; [reflexivity | exact Hnd]. }
  intros H. now apply (G []).
Qed.

(** ** What a search call leaves behind *)

Lemma solve_post_from (st0 st : SolveState) (ok : bool) (st' : SolveState) :
  board st = board st0 -> solution st = solution st0 ->
  Permutation (remaining st0) (remaining st) ->
  solve_post st ok st' -> solve_post st0 ok st'.
Proof.
  intros Hb Hs Hr. destruct ok; simpl.
  - intros (new & H1 & H2 & H3 & H4 & H5). exists new.
    rewrite <- Hb, <- Hs. repeat split; auto.
    eapply Forall_impl; [|exact H5]. intros pl [Ha Hb']. split; [|exact Hb'].
    eapply Permutation_in; [symmetry; exact Hr | exact Ha].
  - intros (H1 & H2 & H3). repeat split; try congruence.
    etransitivity; eassumption.
Qed.

Section SolveLoopFacts.
Variable rec : SolveState -> Z -> SolveResult.
Hypothesis Hrec : rec_spec rec.
Variables targetCol targetRow : Z.

Lemma solveCells_post (pieceId : PieceId) (oi : Z) (shape : Shape) :
  0 <= oi -> nth_error (ORIENTATIONS pieceId) (Z.to_nat oi) = Some shape ->
  forall cells st ok st',
    NoDup (remaining st) -> In pieceId (remaining st) ->
    solveCells rec targetCol targetRow pieceId oi shape cells st = Some (ok, st') ->
    solve_post st ok st'.
Proof.
  intros Hoi Hshape. induction cells as [|[dc dr] cells IH]; intros st ok st' Hnd Hin; simpl.
  - intros [= <- <-]. repeat split; reflexivity.
  - destruct (canPlace (board st) shape (targetCol - dc) (targetRow - dr)) eqn:Hcan;
      [|now apply IH].
    destruct (place_remove (board st) pieceId shape _ _ Hcan) as (b1 & Hplace & Hremove).
    rewrite Hplace.
    destruct (hasDeadIslands b1 (newMinOf (set_delete pieceId (remaining st))))
      as [[|]|]; [| |discriminate].
    + (* pruned: undo and go on *)
      rewrite Hremove. intros H.
      eapply solve_post_from; [| | |eapply IH; [| |exact H]]; simpl; auto.
      * apply set_add_delete_perm; auto.
      * eapply Permutation_NoDup; [apply set_add_delete_perm; eauto | exact Hnd].
      * eapply Permutation_in; [apply set_add_delete_perm; eauto | exact Hin].
    + (* recursive call *)
      destruct (rec _ _) as [[[|] st2]|] eqn:Hcall; [| |discriminate].
      * intros [= <- <-].
        apply Hrec in Hcall; [|now apply set_delete_NoDup].
        destruct Hcall as (new & H1 & H2 & H3 & H4 & H5). simpl in *.
        exists (mkPlacement pieceId shape (targetCol - dc) (targetRow - dr) oi :: new).
        repeat split.
        -- rewrite H1, <- app_assoc. reflexivity.
        -- econstructor; simpl; eauto.
        -- exact H3.
        -- simpl. constructor; [|exact H4].
           intros Hk. apply in_map_iff in Hk as (pl & E & Hpl).
           rewrite Forall_forall in H5. destruct (H5 _ Hpl) as [Hd _].
           apply set_delete_In in Hd. rewrite E in Hd. tauto.
        -- constructor; [split; [exact Hin | split; assumption]|].
           eapply Forall_impl; [|exact H5]. intros pl [Ha Hb]. split; [|exact Hb].
           apply set_delete_In in Ha. tauto.
      * apply Hrec in Hcall; [|now apply set_delete_NoDup].
        destruct Hcall as (Hb & Hs & Hr). simpl in *.
        rewrite Hb, Hremove. intros H.
        eapply solve_post_from; [| | |eapply IH; [| |exact H]]; simpl; auto.
        -- rewrite Hs. apply removelast_last.
        -- apply set_add_delete_perm; auto.
        -- eapply Permutation_NoDup; [apply set_add_delete_perm; eauto | exact Hnd].
        -- eapply Permutation_in; [apply set_add_delete_perm; eauto | exact Hin].
Qed.

Lemma solveOrients_post (pieceId : PieceId) :
  forall orientations before oi st ok st',
    ORIENTATIONS pieceId = before ++ orientations -> oi = Z.of_nat (length before) ->
    NoDup (remaining st) -> In pieceId (remaining st) ->
    solveOrients rec targetCol targetRow pieceId oi orientations st = Some (ok, st') ->
    solve_post st ok st'.
Proof.
  induction orientations as [|shape rest IH]; intros before oi st ok st' Hsplit Hoi Hnd Hin; simpl.
  - intros [= <- <-]. repeat split; reflexivity.
  - destruct (solveCells _ _ _ _ _ _ _ _) as [[[|] st1]|] eqn:Hcells; [| |discriminate].
    + intros [= <- <-].
      eapply solveCells_post; [| | | |exact Hcells]; auto; [lia|].
      subst oi. rewrite Nat2Z.id, Hsplit, nth_error_app2, Nat.sub_diag; [reflexivity | lia].
    + intros H.
      assert (Hf : solve_post st false st1).
      { eapply solveCells_post; [| | | |exact Hcells]; auto; [lia|].
        subst oi. rewrite Nat2Z.id, Hsplit, nth_error_app2, Nat.sub_diag; [reflexivity | lia]. }
      destruct Hf as (Hb & Hs & Hr).
      eapply solve_post_from; [exact Hb | exact Hs | exact Hr |].
      eapply (IH (before ++ [shape])); [| | | |exact H].
      * now rewrite <- app_assoc.
      * rewrite length_app. simpl. lia.
      * eapply Permutation_NoDup; eassumption.
      * eapply Permutation_in; eassumption.
Qed.

Lemma solvePieces_post :
  forall pieceIds st ok st',
    NoDup (remaining st) -> (forall k, In k pieceIds -> In k (remaining st)) ->
    solvePieces rec targetCol targetRow pieceIds st = Some (ok, st') ->
    solve_post st ok st'.
Proof.
  induction pieceIds as [|pieceId rest IH]; intros st ok st' Hnd Hin; simpl.
  - intros [= <- <-]. repeat split; reflexivity.
  - destruct (solveOrients _ _ _ _ _ _ _) as [[[|] st1]|] eqn:Hor; [| |discriminate].
    + intros [= <- <-].
      eapply (solveOrients_post pieceId _ []); [| | | |exact Hor]; auto. apply Hin; now left.
    + intros H.
      assert (Hf : solve_post st false st1).
      { eapply (solveOrients_post pieceId _ []); [| | | |exact Hor]; auto. apply Hin; now left. }
      destruct Hf as (Hb & Hs & Hr).
      eapply solve_post_from; [exact Hb | exact Hs | exact Hr |].
      eapply IH; [| |exact H].
      * eapply Permutation_NoDup; eassumption.
      * intros k Hk. eapply Permutation_in; [exact Hr|]. apply Hin. now right.
Qed.
End SolveLoopFacts.

Lemma _solve_post (fuel : nat) : rec_spec (_solve fuel).
Proof.
  induction fuel as [|fuel IH]; intros st m ok st' Hnd; simpl; [discriminate|].
  destruct (findFirstEmpty (board st)) as [[tc tr]|] eqn:Hfirst.
  - intros H. eapply solvePieces_post; [exact IH | exact Hnd | | exact H]. auto.
  - intros [= <- <-]. exists []. rewrite app_nil_r.
    repeat split; auto; constructor.
Qed.

(** ** From the invariant to the covering *)

Lemma nodupb_sound (l : list Cell) : nodupb l = true -> NoDup l.
Proof.
  induction l as [|x t IH]; simpl; [constructor|].
  rewrite andb_true_iff, negb_true_iff. intros [H1 H2].
  constructor; [|now apply IH].
  intros Hin. assert (E : existsb (fun y => (fst x =? fst y) && (snd x =? snd y)) t = true).
  { apply existsb_exists. exists x. split; [exact Hin | now rewrite !Z.eqb_refl]. }
  congruence.
Qed.

(** No shape of the orientation table lists a cell twice. *)
Lemma ORIENTATIONS_NoDup (k : PieceId) (o : Shape) : In o (ORIENTATIONS k) -> NoDup o.
Proof.
  intros Hin. apply nodupb_sound.
  assert (H : forallb nodupb (ORIENTATIONS k) = true) by (destruct k; vm_compute; reflexivity).
  rewrite forallb_forall in H. now apply H.
Qed.

Lemma valid_orientation_In (pl : Placement) :
  valid_orientation pl -> In (pl_shape pl) (ORIENTATIONS (pl_pieceId pl)).
Proof. intros [_ H]. eapply nth_error_In; exact H. Qed.

Lemma cellsAt_NoDup (shape : Shape) (col row : Z) : NoDup shape -> NoDup (cellsAt shape col row).
Proof.
  intros H. unfold cellsAt. apply Finite.Injective_map_NoDup; [|exact H].
  intros [c r] [c' r'] [= H1 H2]. f_equal; lia.
Qed.

Lemma cellsAt_length (shape : Shape) (col row : Z) :
  length (cellsAt shape col row) = length shape.
Proof. apply length_map. Qed.

Lemma placePiece_spec (b b1 : Board) (k : PieceId) (shape : Shape) (col row : Z) :
  placePiece b k shape col row = Some b1 ->
  forall c r, getCell b1 c r =
              if in_dec Cell_eq_dec (c, r) (cellsAt shape col row) then Some (Some k)
              else getCell b c r.
Proof. apply writeCells_spec. Qed.

(** Case analysis on whether the cell at hand is one of the cells just
    written. *)
Ltac case_written :=
  match goal with
  | H : context [in_dec Cell_eq_dec ?x ?l] |- _ => destruct (in_dec Cell_eq_dec x l)
  | |- context [in_dec Cell_eq_dec ?x ?l] => destruct (in_dec Cell_eq_dec x l)
  end.

(** The cells of a sequence of placements are distinct cells of the grid,
    empty before; the other cells are left alone; the covered ones end up
    occupied. *)
Lemma placed_cells (b b' : Board) (sol : list Placement) :
  placed b sol b' ->
  Forall (fun pl => NoDup (pl_shape pl)) sol ->
  NoDup (solutionCells sol) /\
  (forall c r, In (c, r) (solutionCells sol) ->
               inGrid c r /\ isNull b c r = true /\ isNull b' c r = false) /\
  (forall c r, ~ In (c, r) (solutionCells sol) -> getCell b' c r = getCell b c r).
Proof.
  induction 1 as [b | b b1 b' pl sol Hcan Hplace Hrest IH]; intros Hshapes.
  - unfold solutionCells. simpl. split; [constructor|]. split; [intros c r []|reflexivity].
  - inversion Hshapes as [|? ? Hpl Hsol]; subst.
    destruct (IH Hsol) as (Hnd & Hcov & Hout).
    pose proof (placePiece_spec _ _ _ _ _ _ Hplace) as Hb1.
    rewrite canPlace_spec in Hcan.
    assert (Hsep : forall c r, In (c, r) (placementCells pl) -> ~ In (c, r) (solutionCells sol)).
    { intros c r Hin Hin'. destruct (Hcov c r Hin') as (_ & Hn & _).
      apply isNull_getCell in Hn. rewrite Hb1 in Hn.
      case_written; [discriminate | contradiction]. }
    unfold solutionCells in *. cbn [map concat]. split; [|split].
    + apply NoDup_app; [now apply cellsAt_NoDup | exact Hnd |].
      intros [c r]. apply Hsep.
    + intros c r H. apply in_app_or in H as [Hin | Hin].
      * destruct (Hcan c r Hin) as [Hg Hn]. split; [exact Hg|]. split; [exact Hn|].
        unfold isNull. rewrite (Hout c r (Hsep c r Hin)), Hb1.
        case_written; [reflexivity | contradiction].
      * destruct (Hcov c r Hin) as (Hg & Hn & Hn'). split; [exact Hg|]. split; [|exact Hn'].
        apply isNull_getCell in Hn. rewrite Hb1 in Hn.
        case_written; [discriminate|]. now apply isNull_getCell.
    + intros c r Hnin. rewrite Hout by (intros Hin; apply Hnin, in_or_app; now right).
      rewrite Hb1. case_written; [|reflexivity].
      exfalso. apply Hnin, in_or_app. now left.
Qed.

Lemma scanCols_None (b : Board) (r : Z) (n : nat) :
  forall c, scanCols n b c r = None ->
  forall c', c <= c' < c + Z.of_nat n -> isNull b c' r = false.
Proof.
  induction n as [|n IH]; intros c H c' Hc'; [lia|].
  simpl in H. destruct (isNull b c r) eqn:E; [discriminate|].
  destruct (Z.eq_dec c' c) as [->|]; [exact E|].
  apply (IH (c + 1) H). lia.
Qed.

Lemma scanRows_None (b : Board) (n : nat) :
  forall r, scanRows n b r = None ->
  forall c' r', r <= r' < r + Z.of_nat n -> 0 <= c' < COLS -> isNull b c' r' = false.
Proof.
  induction n as [|n IH]; intros r H c' r' Hr' Hc'; [lia|].
  cbn [scanRows] in H. destruct (scanCols _ b 0 r) eqn:E; [discriminate|].
  destruct (Z.eq_dec r' r) as [->|].
  - apply (scanCols_None _ _ _ _ E). rewrite Z2Nat.id; unfold COLS in *; lia.
  - apply (IH (r + 1) H); lia.
Qed.

(** A board on which [findFirstEmpty] finds nothing has no empty cell in
    the grid. *)
Lemma findFirstEmpty_None (b : Board) :
  findFirstEmpty b = None -> forall c r, inGrid c r -> isNull b c r = false.
Proof.
  intros H c r [Hr Hc]. apply (scanRows_None _ _ _ H); [|exact Hc].
  rewrite Z2Nat.id; unfold ROWS in *; lia.
Qed.

Lemma cloneBoard_id (b : Board) : cloneBoard b = b.
Proof. unfold cloneBoard. apply map_id. Qed.

Lemma in_solutionCells (sol : list Placement) (x : Cell) :
  In x (solutionCells sol) <-> exists pl, In pl sol /\ In x (placementCells pl).
Proof.
  unfold solutionCells. rewrite in_concat. split.
  - intros (l & Hl & Hx). apply in_map_iff in Hl as (pl & <- & Hpl). eauto.
  - intros (pl & Hpl & Hx). exists (placementCells pl). split; [now apply in_map | exact Hx].
Qed.

(** Whatever [solve] returns as a solution solves the board. *)
Lemma solveOn_solves (b : Board) (ids : list PieceId) (sol : list Placement) (b' : Board) :
  solveOn b ids = Some (Some sol, b') -> solves b ids sol.
Proof.
  unfold solveOn.
  destruct (set_of_list_spec ids) as [Hnd Hids].
  set (sortedIds := js_sort cmpSize (set_of_list ids)).
  assert (Hperm : Permutation sortedIds (set_of_list ids)) by apply js_sort_perm.
  assert (Hnd' : NoDup sortedIds) by (eapply Permutation_NoDup; [symmetry; exact Hperm | exact Hnd]).
  rewrite (set_of_list_NoDup_id _ Hnd').
  destruct (_solve _ _ _) as [[[|] st]|] eqn:Hrun; try discriminate.
  intros [= <- <-].
  apply _solve_post in Hrun; [|exact Hnd'].
  destruct Hrun as (new & H1 & H2 & H3 & H4 & H5). simpl in *. subst new.
  assert (Hshapes : Forall (fun pl => NoDup (pl_shape pl)) (solution st)).
  { eapply Forall_impl; [|exact H5]. intros pl [_ Hv].
    eapply ORIENTATIONS_NoDup, valid_orientation_In, Hv. }
  destruct (placed_cells _ _ _ H2 Hshapes) as (Hcells & Hcov & Hout).
  rewrite Forall_forall in H5.
  split; [|split; [|split; [|split]]].
  - intros pl c r Hpl Hin. apply (Hcov c r). apply in_solutionCells. eauto.
  - exact Hcells.
  - exact H4.
  - intros pl Hpl. destruct (H5 _ Hpl) as [Ha Hb]. split; [|exact Hb].
    apply Hids. eapply Permutation_in; [exact Hperm | exact Ha].
  - intros c r. split.
    + intros Hin. destruct (Hcov c r Hin) as (Hg & Hn & _). now split.
    + intros [Hg Hn].
      destruct (in_dec Cell_eq_dec (c, r) (solutionCells (solution st))) as [|Hnin]; [assumption|].
      pose proof (findFirstEmpty_None _ H3 c r Hg) as Hfull.
      unfold isNull in Hfull, Hn. rewrite (Hout c r Hnin) in Hfull. congruence.
Qed.

Lemma solve_solves (b : Board) (ids : list PieceId) (sol : list Placement) :
  solve b ids = Some (Some sol) -> solves b ids sol.
Proof.
  unfold solve. rewrite cloneBoard_id.
  destruct (solveOn b ids) as [[res b']|] eqn:E; [|discriminate].
  simpl. intros [= ->]. eapply solveOn_solves; exact E.
Qed.

(** ** The packer always returns *)

Section SolveLoopsReturn.
Variable rec : SolveState -> Z -> SolveResult.
Hypothesis Hrec : rec_spec rec.
(** The recursive call returns on every state with fewer than [depth]
    remaining pieces. *)
Variable depth : nat.
Hypothesis Hreturns : forall st m,
  NoDup (remaining st) -> (length (remaining st) < depth)%nat -> exists r, rec st m = Some r.
Variables targetCol targetRow : Z.

Lemma solveCells_returns (pieceId : PieceId) (oi : Z) (shape : Shape) :
  forall cells st,
    NoDup (remaining st) -> In pieceId (remaining st) ->
    (length (remaining st) <= depth)%nat ->
    exists r, solveCells rec targetCol targetRow pieceId oi shape cells st = Some r.
Proof.
  induction cells as [|[dc dr] cells IH]; intros st Hnd Hin Hlen; simpl; [eauto|].
  destruct (canPlace (board st) shape (targetCol - dc) (targetRow - dr)) eqn:Hcan;
    [|now apply IH].
  destruct (place_remove (board st) pieceId shape _ _ Hcan) as (b1 & Hplace & Hremove).
  rewrite Hplace.
  assert (Hback : forall rem', Permutation (set_delete pieceId (remaining st)) rem' ->
            let rem2 := set_add pieceId rem' in
            NoDup rem2 /\ In pieceId rem2 /\ (length rem2 <= depth)%nat).
  { intros rem' HP. pose proof (set_add_delete_perm _ _ _ Hnd Hin HP) as HP'.
    repeat split.
    - eapply Permutation_NoDup; eassumption.
    - eapply Permutation_in; eassumption.
    - now rewrite <- (Permutation_length HP'). }
  destruct (hasDeadIslands_spec b1 (newMinOf (set_delete pieceId (remaining st))))
    as ([|] & -> & _).
  - rewrite Hremove. destruct (Hback _ (Permutation_refl _)) as (H1 & H2 & H3).
    now apply IH.
  - destruct (Hreturns (mkSolveState b1 (set_delete pieceId (remaining st))
                (solution st ++ [mkPlacement pieceId shape (targetCol - dc) (targetRow - dr) oi]))
                (newMinOf (set_delete pieceId (remaining st)))) as ([ok st2] & Hcall).
    + now apply set_delete_NoDup.
    + simpl. pose proof (set_delete_length _ _ Hnd Hin). lia.
    + rewrite Hcall. destruct ok; [eauto|].
      apply Hrec in Hcall; [|now apply set_delete_NoDup].
      destruct Hcall as (Hb & Hs & Hr). simpl in *.
      rewrite Hb, Hremove. destruct (Hback _ Hr) as (H1 & H2 & H3).
      now apply IH.
Qed.

Lemma solveOrients_returns (pieceId : PieceId) :
  forall orientations before oi st,
    ORIENTATIONS pieceId = before ++ orientations -> oi = Z.of_nat (length before) ->
    NoDup (remaining st) -> In pieceId (remaining st) ->
    (length (remaining st) <= depth)%nat ->
    exists r, solveOrients rec targetCol targetRow pieceId oi orientations st = Some r.
Proof.
  induction orientations as [|shape rest IH]; intros before oi st Hsplit Hoi Hnd Hin Hlen;
    simpl; [eauto|].
  destruct (solveCells_returns pieceId oi shape shape st Hnd Hin Hlen) as ([ok st1] & Hcells).
  rewrite Hcells. destruct ok; [eauto|].
  assert (Hf : solve_post st false st1).
  { eapply (solveCells_post rec Hrec); [| | | |exact Hcells]; auto; [lia|].
    subst oi. rewrite Nat2Z.id, Hsplit, nth_error_app2, Nat.sub_diag; [reflexivity | lia]. }
  destruct Hf as (Hb & Hs & Hr).
  apply (IH (before ++ [shape])).
  - now rewrite <- app_assoc.
  - rewrite length_app. simpl. lia.
  - eapply Permutation_NoDup; eassumption.
  - eapply Permutation_in; eassumption.
  - now rewrite <- (Permutation_length Hr).
Qed.

Lemma solvePieces_returns :
  forall pieceIds st,
    NoDup (remaining st) -> (forall k, In k pieceIds -> In k (remaining st)) ->
    (length (remaining st) <= depth)%nat ->
    exists r, solvePieces rec targetCol targetRow pieceIds st = Some r.
Proof.
  induction pieceIds as [|pieceId rest IH]; intros st Hnd Hin Hlen; simpl; [eauto|].
  destruct (solveOrients_returns pieceId (ORIENTATIONS pieceId) [] 0 st eq_refl eq_refl Hnd)
    as ([ok st1] & Hor); [apply Hin; now left | exact Hlen |].
  rewrite Hor. destruct ok; [eauto|].
  assert (Hf : solve_post st false st1).
  { eapply (solveOrients_post rec Hrec _ _ pieceId _ []); [| | | |exact Hor]; auto.
    apply Hin; now left. }
  destruct Hf as (Hb & Hs & Hr).
  apply IH.
  - eapply Permutation_NoDup; eassumption.
  - intros k Hk. eapply Permutation_in; [exact Hr|]. apply Hin. now right.
  - now rewrite <- (Permutation_length Hr).
Qed.
End SolveLoopsReturn.

Lemma _solve_returns (fuel : nat) :
  forall st m, NoDup (remaining st) -> (length (remaining st) < fuel)%nat ->
               exists r, _solve fuel st m = Some r.
Proof.
  induction fuel as [|fuel IH]; intros st m Hnd Hlen; [lia|]. simpl.
  destruct (findFirstEmpty (board st)) as [[tc tr]|]; [|eauto].
  apply (solvePieces_returns (_solve fuel) (_solve_post fuel) fuel IH); auto. lia.
Qed.

(** [solve] returns on every board and every list of ids. *)
Lemma solveOn_returns (b : Board) (ids : list PieceId) : exists r, solveOn b ids = Some r.
Proof.
  unfold solveOn.
  destruct (set_of_list_spec ids) as [Hnd _].
  set (sortedIds := js_sort cmpSize (set_of_list ids)).
  assert (Hnd' : NoDup sortedIds).
  { eapply Permutation_NoDup; [symmetry; apply js_sort_perm | exact Hnd]. }
  rewrite (set_of_list_NoDup_id _ Hnd').
  destruct (_solve_returns (S (length sortedIds)) (mkSolveState b sortedIds []) 3 Hnd')
    as ([[|] st] & ->); simpl; eauto.
Qed.

Lemma solve_returns (b : Board) (ids : list PieceId) : exists r, solve b ids = Some r.
Proof.
  unfold solve. destruct (solveOn_returns (cloneBoard b) ids) as (r & ->). simpl. eauto.
Qed.

(** C9: on a board of the grid's size [solve] returns, and a placement
    list it returns stays inside the grid, its placements share no cell,
    they use distinct ids of the available list, each with the shape its
    orientation index names in that piece's table, and the cells they cover
    are exactly the cells that were empty in the input board. *)
Theorem solve_result_is_exact_cover (b : Board) (availablePieceIds : list PieceId) :
  wf_board b ->
  (exists r, solve b availablePieceIds = Some r) /\
  forall sol, solve b availablePieceIds = Some (Some sol) ->
    (forall pl c r, In pl sol -> In (c, r) (placementCells pl) -> inGrid c r) /\
    NoDup (solutionCells sol) /\
    NoDup (map pl_pieceId sol) /\
    (forall pl, In pl sol -> In (pl_pieceId pl) availablePieceIds /\ valid_orientation pl) /\
    (forall c r, In (c, r) (solutionCells sol) <-> inGrid c r /\ isNull b c r = true).
Proof.
  intros _. split; [apply solve_returns|].
  intros sol H. exact (solve_solves _ _ _ H).
Qed.

Lemma solve_result_is_exact_cover_witness :
  wf_board boardOneIsland /\
  solve boardOneIsland [idL] = Some (Some [mkPlacement idL [(0,0); (1,0); (2,0)] 0 0 0]) /\
  NoDup (solutionCells [mkPlacement idL [(0,0); (1,0); (2,0)] 0 0 0]) /\
  (forall c r, In (c, r) (solutionCells [mkPlacement idL [(0,0); (1,0); (2,0)] 0 0 0]) <->
               inGrid c r /\ isNull boardOneIsland c r = true).
Proof.
  assert (Hwf : wf_board boardOneIsland) by (split; [reflexivity | repeat constructor]).
  assert (Hrun : solve boardOneIsland [idL]
                 = Some (Some [mkPlacement idL [(0,0); (1,0); (2,0)] 0 0 0]))
    by (vm_compute; reflexivity).
  split; [exact Hwf|]. split; [exact Hrun|].
  pose proof (proj2 (solve_result_is_exact_cover boardOneIsland [idL] Hwf) _ Hrun)
    as (_ & Hnd & _ & _ & Hcov).
  split; [exact Hnd | exact Hcov].
Defined.

(** ** The full library on the empty board *)

Lemma solve_empty_board : solve createEmptyBoard allIds = Some (Some firstSolution).
Proof. vm_compute. reflexivity. Qed.

Lemma inGridb_spec (c r : Z) : inGridb c r = true <-> inGrid c r.
Proof. apply inGrid_test. Qed.

Lemma createEmptyBoard_isNull (c r : Z) : inGrid c r -> isNull createEmptyBoard c r = true.
Proof.
  unfold inGrid, ROWS, COLS. intros [Hr Hc].
  assert (Er : r = 0 \/ r = 1 \/ r = 2 \/ r = 3 \/ r = 4) by lia.
  assert (Ec : c = 0 \/ c = 1 \/ c = 2 \/ c = 3 \/ c = 4 \/ c = 5 \/ c = 6 \/ c = 7 \/
               c = 8 \/ c = 9 \/ c = 10) by lia.
  repeat (destruct Er as [->|Er]); repeat (destruct Ec as [->|Ec]); subst; reflexivity.
Qed.

(** C1: for the twelve pieces of the library on the empty 5 x 11 board,
    [solve] returns a placement list, and that list covers each of the 55
    cells of the grid exactly once and no cell outside it. *)
Theorem solve_full_library_covers_board :
  totalBalls = ROWS * COLS /\
  exists sol,
    solve createEmptyBoard (map p_id PIECES) = Some (Some sol) /\
    length sol = length PIECES /\
    forall c r, count_occ Cell_eq_dec (solutionCells sol) (c, r)
                = if inGridb c r then 1%nat else 0%nat.
Proof.
  split; [reflexivity|].
  exists firstSolution. split; [exact solve_empty_board|]. split; [reflexivity|].
  destruct (solve_solves _ _ _ solve_empty_board) as (_ & Hnd & _ & _ & Hcov).
  intros c r. destruct (inGridb c r) eqn:Hg.
  - apply NoDup_count_occ'; [exact Hnd|]. apply Hcov.
    apply inGridb_spec in Hg. split; [exact Hg | now apply createEmptyBoard_isNull].
  - apply count_occ_not_In. intros Hin. apply Hcov in Hin as [Hin _].
    apply inGridb_spec in Hin. congruence.
Qed.

(** ** Cell counts *)

(** C10: every shape in a piece's orientation table has as many cells as the
    piece's base shape; hence, whenever [solve] returns a placement list,
    each placed shape has the declared size of its piece and the sizes add
    up to the same total. *)
Theorem orientations_keep_cell_count :
  (forall k, Forall (fun o => length o = length (p_shape (PIECE_MAP k))) (ORIENTATIONS k)) /\
  (forall b ids,
     exists r, solve b ids = Some r /\
       match r with
       | Some sol =>
           Forall (fun pl => Z.of_nat (length (pl_shape pl)) = pieceSize (pl_pieceId pl)) sol /\
           shapeCells sol = declaredCells sol
       | None => True
       end).
Proof.
  split.
  - intros k.
    pose proof (getAllOrientations_spec _ (PIECE_MAP_shape_nonempty k)) as (_ & _ & _ & H).
    now rewrite <- ORIENTATIONS_eq in H.
  - intros b ids. destruct (solve_returns b ids) as (r & E). exists r. split; [exact E|].
    destruct r as [sol|]; [|exact I].
    destruct (solve_solves _ _ _ E) as (_ & _ & _ & Hval & _).
    assert (HF : Forall (fun pl => Z.of_nat (length (pl_shape pl)) = pieceSize (pl_pieceId pl)) sol).
    { apply Forall_forall. intros pl Hpl. apply ORIENTATIONS_length.
      apply valid_orientation_In. now apply Hval. }
    split; [exact HF|].
    clear -HF. induction HF as [|pl sol Hpl _ IH]; simpl; [reflexivity | now rewrite Hpl, IH].
Qed.


(* ================================================================== *)
(** * Part VII: the solution counter                                    *)
(* ================================================================== *)

Lemma count_post_refl (maxCount : Z) (st : CountState) : count_post maxCount st st.
Proof. repeat split; auto; lia. Qed.

Lemma count_post_from (maxCount : Z) (st0 st st' : CountState) :
  c_board st = c_board st0 -> Permutation (c_remaining st0) (c_remaining st) ->
  c_count st0 <= c_count st <= Z.max (c_count st0) maxCount ->
  count_post maxCount st st' -> count_post maxCount st0 st'.
Proof.
  intros Hb Hr Hc (H1 & H2 & H3). repeat split; try congruence; try lia.
  etransitivity; eassumption.
Qed.

Section CountLoopFacts.
Variable rec : CountState -> Z -> option CountState.
Variable maxCount : Z.
Variable depth : nat.
Hypothesis Hrec : forall st m,
  NoDup (c_remaining st) -> (length (c_remaining st) < depth)%nat ->
  exists st', rec st m = Some st' /\ count_post maxCount st st'.
Variables targetCol targetRow : Z.

Lemma countCells_post (pieceId : PieceId) (shape : Shape) :
  forall cells st,
    NoDup (c_remaining st) -> In pieceId (c_remaining st) ->
    (length (c_remaining st) <= depth)%nat ->
    exists r, countCells rec maxCount targetCol targetRow pieceId shape cells st = Some r /\
              loop_post maxCount st r.
Proof.
  induction cells as [|[dc dr] cells IH]; intros st Hnd Hin Hlen; simpl.
  - eexists. split; [reflexivity|]. split; [apply count_post_refl | discriminate].
  - destruct (canPlace (c_board st) shape (targetCol - dc) (targetRow - dr)) eqn:Hcan;
      [|now apply IH].
    destruct (place_remove (c_board st) pieceId shape _ _ Hcan) as (b1 & Hplace & Hremove).
    rewrite Hplace.
    assert (Hback : forall rem', Permutation (set_delete pieceId (c_remaining st)) rem' ->
              let rem2 := set_add pieceId rem' in
              Permutation (c_remaining st) rem2 /\
              NoDup rem2 /\ In pieceId rem2 /\ (length rem2 <= depth)%nat).
    { intros rem' HP. pose proof (set_add_delete_perm _ _ _ Hnd Hin HP) as HP'.
      repeat split.
      - exact HP'.
      - eapply Permutation_NoDup; eassumption.
      - eapply Permutation_in; eassumption.
      - now rewrite <- (Permutation_length HP'). }
    destruct (hasDeadIslands_spec b1 (newMinOf (set_delete pieceId (c_remaining st))))
      as ([|] & -> & _).
    + rewrite Hremove. destruct (Hback _ (Permutation_refl _)) as (H0 & H1 & H2 & H3).
      destruct (IH (mkCountState (c_board st) _ (c_count st)) H1 H2 H3) as (r & E & Hp & Hf).
      exists r. split; [exact E|]. split; [|exact Hf].
      eapply count_post_from; [| | |exact Hp]; simpl; auto. lia.
    + destruct (Hrec (mkCountState b1 (set_delete pieceId (c_remaining st)) (c_count st))
                     (newMinOf (set_delete pieceId (c_remaining st))))
        as (st2 & Hcall & Hb & Hr & Hc).
      * now apply set_delete_NoDup.
      * simpl. pose proof (set_delete_length _ _ Hnd Hin). lia.
      * rewrite Hcall. simpl in Hb, Hr, Hc. rewrite Hb, Hremove.
        destruct (Hback _ Hr) as (H0 & H1 & H2 & H3).
        destruct (Z.geb_spec (c_count st2) maxCount) as [Hcap|Hgo].
        -- eexists. split; [reflexivity|]. split; [|simpl; lia].
           repeat split; simpl; auto; lia.
        -- destruct (IH (mkCountState (c_board st) _ (c_count st2)) H1 H2 H3)
             as (r & E & Hp & Hf).
           exists r. split; [exact E|]. split; [|exact Hf].
           eapply count_post_from; [| | |exact Hp]; simpl; auto.
Qed.

Lemma countOrients_post (pieceId : PieceId) :
  forall orientations st,
    NoDup (c_remaining st) -> In pieceId (c_remaining st) ->
    (length (c_remaining st) <= depth)%nat ->
    exists r, countOrients rec maxCount targetCol targetRow pieceId orientations st = Some r /\
              loop_post maxCount st r.
Proof.
  induction orientations as [|shape rest IH]; intros st Hnd Hin Hlen; simpl.
  - eexists. split; [reflexivity|]. split; [apply count_post_refl | discriminate].
  - destruct (countCells_post pieceId shape shape st Hnd Hin Hlen) as ([ok st1] & E & Hp & Hf).
    rewrite E. destruct ok.
    + eexists. split; [reflexivity|]. split; assumption.
    + destruct Hp as (Hb & Hr & Hc). simpl in *.
      destruct (IH st1) as (r & E' & Hp' & Hf').
      * eapply Permutation_NoDup; eassumption.
      * eapply Permutation_in; eassumption.
      * now rewrite <- (Permutation_length Hr).
      * exists r. split; [exact E'|]. split; [|exact Hf'].
        eapply count_post_from; [| | |exact Hp']; auto.
Qed.

Lemma countPieces_post :
  forall pieceIds st,
    NoDup (c_remaining st) -> (forall k, In k pieceIds -> In k (c_remaining st)) ->
    (length (c_remaining st) <= depth)%nat ->
    exists r, countPieces rec maxCount targetCol targetRow pieceIds st = Some r /\
              loop_post maxCount st r.
Proof.
  induction pieceIds as [|pieceId rest IH]; intros st Hnd Hin Hlen; simpl.
  - eexists. split; [reflexivity|]. split; [apply count_post_refl | discriminate].
  - destruct (countOrients_post pieceId (ORIENTATIONS pieceId) st Hnd) as ([ok st1] & E & Hp & Hf);
      [apply Hin; now left | exact Hlen |].
    rewrite E. destruct ok.
    + eexists. split; [reflexivity|]. split; assumption.
    + destruct Hp as (Hb & Hr & Hc). simpl in *.
      destruct (IH st1) as (r & E' & Hp' & Hf').
      * eapply Permutation_NoDup; eassumption.
      * intros k Hk. eapply Permutation_in; [exact Hr|]. apply Hin. now right.
      * now rewrite <- (Permutation_length Hr).
      * exists r. split; [exact E'|]. split; [|exact Hf'].
        eapply count_post_from; [| | |exact Hp']; auto.
Qed.
End CountLoopFacts.

Lemma _countSolve_post (maxCount : Z) (fuel : nat) :
  forall st m, NoDup (c_remaining st) -> (length (c_remaining st) < fuel)%nat ->
    exists st', _countSolve fuel maxCount st m = Some st' /\ count_post maxCount st st'.
Proof.
  induction fuel as [|fuel IH]; intros st m Hnd Hlen; [lia|]. cbn [_countSolve].
  destruct (Z.geb_spec (c_count st) maxCount) as [Hcap|Hgo].
  - exists st. split; [reflexivity | apply count_post_refl].
  - destruct (findFirstEmpty (c_board st)) as [[tc tr]|].
    + destruct (countPieces_post (fun s m => _countSolve fuel maxCount s m) maxCount fuel IH
                  tc tr (c_remaining st) st Hnd) as ([ok st'] & E & Hp & _); [auto | lia |].
      rewrite E. exists st'. split; [reflexivity | exact Hp].
    + eexists. split; [reflexivity|]. repeat split; simpl; auto; lia.
Qed.

(** Once the cap is reached a call returns at once and changes nothing. *)
Lemma _countSolve_at_cap (maxCount : Z) (fuel : nat) (st : CountState) (m : Z) :
  maxCount <= c_count st -> _countSolve (S fuel) maxCount st m = Some st.
Proof.
  intros H. cbn [_countSolve]. destruct (Z.geb_spec (c_count st) maxCount); [reflexivity | lia].
Qed.

(** ** Leaving the loops when the cap is reached *)

Section CountLoopCut.
Variable rec : CountState -> Z -> option CountState.
Variable maxCount : Z.
Variables targetCol targetRow : Z.

(** The innermost loop returns from inside only with the cap reached, and
    runs to its end only with the counter below the cap. *)
Lemma countCells_flag (pieceId : PieceId) (shape : Shape) :
  forall cells st flag st',
    countCells rec maxCount targetCol targetRow pieceId shape cells st = Some (flag, st') ->
    (flag = true -> maxCount <= c_count st') /\
    (c_count st < maxCount -> flag = false -> c_count st' < maxCount).
Proof.
  induction cells as [|[dc dr] cells IH]; intros st flag st'; simpl.
  - intros [= <- <-]. split; [discriminate | auto].
  - destruct (canPlace (c_board st) shape (targetCol - dc) (targetRow - dr)); [|apply IH].
    destruct (placePiece (c_board st) pieceId shape (targetCol - dc) (targetRow - dr))
      as [b1|]; [|discriminate].
    destruct (hasDeadIslands b1 (newMinOf (set_delete pieceId (c_remaining st))))
      as [[|]|]; [| |discriminate].
    + destruct (removePiece b1 pieceId shape (targetCol - dc) (targetRow - dr)) as [b2|];
        [|discriminate].
      intros H. apply IH in H. exact H.
    + destruct (rec (mkCountState b1 (set_delete pieceId (c_remaining st)) (c_count st))
                    (newMinOf (set_delete pieceId (c_remaining st)))) as [st2|];
        [|discriminate].
      destruct (removePiece (c_board st2) pieceId shape (targetCol - dc) (targetRow - dr))
        as [b2|]; [|discriminate].
      destruct (Z.geb_spec (c_count st2) maxCount) as [Hcap|Hgo].
      * intros [= <- <-]. simpl. split; [intros _; exact Hcap | discriminate].
      * intros H. apply IH in H. simpl in H. destruct H as [H1 H2].
        split; [exact H1|]. intros _. apply H2. exact Hgo.
Qed.

Lemma countOrients_flag (pieceId : PieceId) :
  forall orientations st flag st',
    countOrients rec maxCount targetCol targetRow pieceId orientations st
    = Some (flag, st') ->
    (flag = true -> maxCount <= c_count st') /\
    (c_count st < maxCount -> flag = false -> c_count st' < maxCount).
Proof.
  induction orientations as [|shape rest IH]; intros st flag st'; simpl.
  - intros [= <- <-]. split; [discriminate | auto].
  - destruct (countCells rec maxCount targetCol targetRow pieceId shape shape st)
      as [[[|] st1]|] eqn:E; [| |discriminate].
    + intros [= <- <-]. destruct (countCells_flag _ _ _ _ _ _ E) as [H1 _].
      split; [exact H1 | discriminate].
    + intros H. apply IH in H. destruct H as [H1 H2].
      destruct (countCells_flag _ _ _ _ _ _ E) as [_ H3].
      split; [exact H1|]. intros Hlt Hf. apply H2; [now apply H3 | exact Hf].
Qed.

Lemma countPieces_flag :
  forall pieceIds st flag st',
    countPieces rec maxCount targetCol targetRow pieceIds st = Some (flag, st') ->
    (flag = true -> maxCount <= c_count st') /\
    (c_count st < maxCount -> flag = false -> c_count st' < maxCount).
Proof.
  induction pieceIds as [|pieceId rest IH]; intros st flag st'; simpl.
  - intros [= <- <-]. split; [discriminate | auto].
  - destruct (countOrients rec maxCount targetCol targetRow pieceId (ORIENTATIONS pieceId) st)
      as [[[|] st1]|] eqn:E; [| |discriminate].
    + intros [= <- <-]. destruct (countOrients_flag _ _ _ _ _ E) as [H1 _].
      split; [exact H1 | discriminate].
    + intros H. apply IH in H. destruct H as [H1 H2].
      destruct (countOrients_flag _ _ _ _ _ E) as [_ H3].
      split; [exact H1|]. intros Hlt Hf. apply H2; [now apply H3 | exact Hf].
Qed.

(** A loop that has returned from inside has not looked at the candidates
    after the one that reached the cap: whatever follows them in the
    list, the result is the same. *)
Lemma countCells_cut (pieceId : PieceId) (shape : Shape) (more : list Cell) :
  forall cells st st',
    countCells rec maxCount targetCol targetRow pieceId shape cells st = Some (true, st') ->
    countCells rec maxCount targetCol targetRow pieceId shape (cells ++ more) st
    = Some (true, st').
Proof.
  induction cells as [|[dc dr] cells IH]; intros st st'; simpl.
  - discriminate.
  - destruct (canPlace (c_board st) shape (targetCol - dc) (targetRow - dr)); [|apply IH].
    destruct (placePiece (c_board st) pieceId shape (targetCol - dc) (targetRow - dr))
      as [b1|]; [|discriminate].
    destruct (hasDeadIslands b1 (newMinOf (set_delete pieceId (c_remaining st))))
      as [[|]|]; [| |discriminate].
    + destruct (removePiece b1 pieceId shape (targetCol - dc) (targetRow - dr)) as [b2|];
        [apply IH | discriminate].
    + destruct (rec (mkCountState b1 (set_delete pieceId (c_remaining st)) (c_count st))
                    (newMinOf (set_delete pieceId (c_remaining st)))) as [st2|];
        [|discriminate].
      destruct (removePiece (c_board st2) pieceId shape (targetCol - dc) (targetRow - dr))
        as [b2|]; [|discriminate].
      destruct (c_count st2 >=? maxCount); [intros E; exact E | apply IH].
Qed.

Lemma countOrients_cut (pieceId : PieceId) (more : list Shape) :
  forall orientations st st',
    countOrients rec maxCount targetCol targetRow pieceId orientations st
    = Some (true, st') ->
    countOrients rec maxCount targetCol targetRow pieceId (orientations ++ more) st
    = Some (true, st').
Proof.
  induction orientations as [|shape rest IH]; intros st st'; simpl.
  - discriminate.
  - destruct (countCells rec maxCount targetCol targetRow pieceId shape shape st)
      as [[[|] st1]|]; [intros E; exact E | apply IH | discriminate].
Qed.

Lemma countPieces_cut (more : list PieceId) :
  forall pieceIds st st',
    countPieces rec maxCount targetCol targetRow pieceIds st = Some (true, st') ->
    countPieces rec maxCount targetCol targetRow (pieceIds ++ more) st = Some (true, st').
Proof.
  induction pieceIds as [|pieceId rest IH]; intros st st'; simpl.
  - discriminate.
  - destruct (countOrients rec maxCount targetCol targetRow pieceId (ORIENTATIONS pieceId) st)
      as [[[|] st1]|]; [intros E; exact E | apply IH | discriminate].
Qed.
End CountLoopCut.

(** A call that starts below the cap on a board with an empty cell is the
    run of its outer loop, and the loop returned from inside exactly when
    the call leaves the counter at the cap. *)
Lemma _countSolve_flag (maxCount : Z) (fuel : nat) (st st' : CountState) (m : Z)
    (targetCol targetRow : Z) :
  c_count st < maxCount ->
  findFirstEmpty (c_board st) = Some (targetCol, targetRow) ->
  _countSolve (S fuel) maxCount st m = Some st' ->
  exists flag,
    countPieces (_countSolve fuel maxCount) maxCount targetCol targetRow (c_remaining st) st
    = Some (flag, st') /\
    (flag = true <-> maxCount <= c_count st').
Proof.
  intros Hlt Htarget. cbn [_countSolve].
  destruct (Z.geb_spec (c_count st) maxCount) as [|_]; [lia|]. rewrite Htarget.
  change (fun s m0 => _countSolve fuel maxCount s m0) with (_countSolve fuel maxCount).
  destruct (countPieces (_countSolve fuel maxCount) maxCount targetCol targetRow
                        (c_remaining st) st) as [[flag st1]|] eqn:E; [|discriminate].
  cbn [option_map snd]. intros [= <-]. exists flag. split; [reflexivity|].
  destruct (countPieces_flag _ _ _ _ _ _ _ _ E) as [H1 H2].
  split; [exact H1|]. intros Hcap. destruct flag; [reflexivity|].
  specialize (H2 Hlt eq_refl). lia.
Qed.

Lemma countSolutionsOn_spec (b : Board) (ids : list PieceId) (maxCount : Z) :
  0 <= maxCount ->
  exists n, countSolutionsOn b ids maxCount = Some (n, b) /\ 0 <= n <= maxCount.
Proof.
  intros Hmax. unfold countSolutionsOn.
  destruct (set_of_list_spec ids) as [Hnd _].
  destruct (_countSolve_post maxCount (S (length (set_of_list ids)))
              (mkCountState b (set_of_list ids) 0) 3 Hnd) as (st' & E & Hb & _ & Hc);
    [simpl; lia|].
  rewrite E. simpl in *. exists (c_count st'). rewrite Hb. split; [reflexivity | lia].
Qed.

(** C2: on a board of the grid's size, for every list of ids and every cap
    [maxCount >= 0], [countSolutions] returns an integer between 0 and
    [maxCount].  The counter stops at the cap at every depth: a call of
    [_countSolve] that finds the counter at the cap returns at once without
    touching it; a call that starts below the cap is the run of its outer
    loop, which returned from inside exactly when the call leaves the
    counter at the cap; and each of the three nested loops, whatever the
    nested calls do, returns from inside only with the cap reached, has then
    looked at no candidate after the one that reached it (the result is the
    same whatever follows in the list), and runs to its end only with the
    counter still below the cap. *)
Theorem countSolutions_never_exceeds_cap (b : Board) (availablePieceIds : list PieceId)
    (maxCount : Z) :
  wf_board b -> 0 <= maxCount ->
  (exists n, countSolutions b availablePieceIds maxCount = Some n /\ 0 <= n <= maxCount) /\
  (forall fuel st m, maxCount <= c_count st ->
                     _countSolve (S fuel) maxCount st m = Some st) /\
  (forall fuel st st' m targetCol targetRow,
     c_count st < maxCount ->
     findFirstEmpty (c_board st) = Some (targetCol, targetRow) ->
     _countSolve (S fuel) maxCount st m = Some st' ->
     exists flag,
       countPieces (_countSolve fuel maxCount) maxCount targetCol targetRow
                   (c_remaining st) st = Some (flag, st') /\
       (flag = true <-> maxCount <= c_count st')) /\
  (forall rec targetCol targetRow st st',
     (forall pieceIds more,
        countPieces rec maxCount targetCol targetRow pieceIds st = Some (true, st') ->
        maxCount <= c_count st' /\
        countPieces rec maxCount targetCol targetRow (pieceIds ++ more) st
        = Some (true, st')) /\
     (forall pieceId orientations more,
        countOrients rec maxCount targetCol targetRow pieceId orientations st
        = Some (true, st') ->
        maxCount <= c_count st' /\
        countOrients rec maxCount targetCol targetRow pieceId (orientations ++ more) st
        = Some (true, st')) /\
     (forall pieceId shape cells more,
        countCells rec maxCount targetCol targetRow pieceId shape cells st
        = Some (true, st') ->
        maxCount <= c_count st' /\
        countCells rec maxCount targetCol targetRow pieceId shape (cells ++ more) st
        = Some (true, st'))) /\
  (forall rec targetCol targetRow st st',
     c_count st < maxCount ->
     (forall pieceIds,
        countPieces rec maxCount targetCol targetRow pieceIds st = Some (false, st') ->
        c_count st' < maxCount) /\
     (forall pieceId orientations,
        countOrients rec maxCount targetCol targetRow pieceId orientations st
        = Some (false, st') ->
        c_count st' < maxCount) /\
     (forall pieceId shape cells,
        countCells rec maxCount targetCol targetRow pieceId shape cells st
        = Some (false, st') ->
        c_count st' < maxCount)).
Proof.
  intros _ Hmax. split; [|split; [|split; [|split]]].
  - unfold countSolutions. rewrite cloneBoard_id.
    destruct (countSolutionsOn_spec b availablePieceIds maxCount Hmax) as (n & -> & Hn).
    exists n. split; [reflexivity | exact Hn].
  - intros fuel st m. apply _countSolve_at_cap.
  - intros fuel st st' m targetCol targetRow. apply _countSolve_flag.
  - intros rec targetCol targetRow st st'. split; [|split].
    + intros pieceIds more E. split; [|now apply countPieces_cut].
      now apply (countPieces_flag _ _ _ _ _ _ _ _ E).
    + intros pieceId orientations more E. split; [|now apply countOrients_cut].
      now apply (countOrients_flag _ _ _ _ _ _ _ _ _ E).
    + intros pieceId shape cells more E. split; [|now apply countCells_cut].
      now apply (countCells_flag _ _ _ _ _ _ _ _ _ _ E).
  - intros rec targetCol targetRow st st' Hlt. split; [|split].
    + intros pieceIds E. now apply (countPieces_flag _ _ _ _ _ _ _ _ E).
    + intros pieceId orientations E. now apply (countOrients_flag _ _ _ _ _ _ _ _ _ E).
    + intros pieceId shape cells E. now apply (countCells_flag _ _ _ _ _ _ _ _ _ _ E).
Qed.

Lemma countSolutions_never_exceeds_cap_witness :
  wf_board boardWithoutDGH /\ 0 <= 2 /\
  countSolutions boardWithoutDGH [idD; idG; idH] 10 = Some 6 /\
  (exists n, countSolutions boardWithoutDGH [idD; idG; idH] 2 = Some n /\ 0 <= n <= 2) /\
  (exists st' targetCol targetRow,
     _countSolve 4 2 (mkCountState boardWithoutDGH [idD; idG; idH] 0) 3 = Some st' /\
     c_count st' = 2 /\
     countPieces (_countSolve 3 2) 2 targetCol targetRow [idD; idG; idH]
                 (mkCountState boardWithoutDGH [idD; idG; idH] 0) = Some (true, st')).
Proof.
  assert (Hwf : wf_board boardWithoutDGH) by (split; [reflexivity | repeat constructor]).
  split; [exact Hwf|]. split; [lia|]. split; [vm_compute; reflexivity|].
  destruct (countSolutions_never_exceeds_cap boardWithoutDGH [idD; idG; idH] 2 Hwf
              ltac:(lia)) as (Hbound & _ & Hloop & _).
  split; [exact Hbound|].
  set (st0 := mkCountState boardWithoutDGH [idD; idG; idH] 0).
  assert (Hc : option_map c_count (_countSolve 4 2 st0 3) = Some 2)
    by (vm_compute; reflexivity).
  destruct (_countSolve 4 2 st0 3) as [st'|] eqn:E; [|discriminate Hc].
  cbn [option_map] in Hc. injection Hc as Hc.
  assert (Ht : exists t, findFirstEmpty (c_board st0) = Some t) by (vm_compute; eauto).
  destruct Ht as [[targetCol targetRow] Ht].
  destruct (Hloop 3%nat st0 st' 3 targetCol targetRow ltac:(cbn; lia) Ht E)
    as (flag & Eloop & Hflag).
  exists st', targetCol, targetRow. split; [reflexivity|]. split; [exact Hc|].
  assert (Hf : flag = true) by (apply Hflag; lia). rewrite Hf in Eloop. exact Eloop.
Defined.


(** ** The ordered packer always returns *)

Section OrderedLoopFacts.
Variable rec : OrderedState -> list PieceId -> Z -> OrderedResult.
Variable depth : nat.
Hypothesis Hrec : forall st ids m,
  (length ids < depth)%nat -> exists r, rec st ids m = Some r /\ ordered_post st r.
Variables targetCol targetRow : Z.

Lemma orderedCells_post (pieceId : PieceId) (newRemaining : list PieceId) (oi : Z)
    (shape : Shape) :
  (length newRemaining < depth)%nat ->
  forall cells st,
    exists r, orderedCells rec targetCol targetRow pieceId newRemaining oi shape cells st
              = Some r /\ ordered_post st r.
Proof.
  intros Hlen. induction cells as [|[dc dr] cells IH]; intros st; simpl.
  - eexists. split; [reflexivity|]. intros _. auto.
  - destruct (canPlace (o_board st) shape (targetCol - dc) (targetRow - dr)) eqn:Hcan;
      [|now apply IH].
    destruct (place_remove (o_board st) pieceId shape _ _ Hcan) as (b1 & Hplace & Hremove).
    rewrite Hplace.
    destruct (hasDeadIslands_spec b1 (newMinOf newRemaining)) as ([|] & -> & _).
    + rewrite Hremove.
      destruct (IH (mkOrderedState (o_board st) (o_solution st))) as (r & E & Hp).
      exists r. split; [exact E|]. intros Hf. exact (Hp Hf).
    + destruct (Hrec (mkOrderedState b1
                  (o_solution st ++ [mkPlacement pieceId shape (targetCol - dc) (targetRow - dr) oi]))
                  newRemaining (newMinOf newRemaining) Hlen) as ([ok st2] & Hcall & Hp).
      rewrite Hcall. destruct ok.
      * eexists. split; [reflexivity|]. intros Hf. discriminate Hf.
      * destruct (Hp eq_refl) as [Hb Hs]. simpl in Hb, Hs.
        rewrite Hb, Hremove, Hs, removelast_last.
        destruct (IH (mkOrderedState (o_board st) (o_solution st))) as (r & E & Hp').
        exists r. split; [exact E|]. intros Hf. exact (Hp' Hf).
Qed.

Lemma orderedOrients_post (pieceId : PieceId) (newRemaining : list PieceId) :
  (length newRemaining < depth)%nat ->
  forall orientations oi st,
    exists r, orderedOrients rec targetCol targetRow pieceId newRemaining oi orientations st
              = Some r /\ ordered_post st r.
Proof.
  intros Hlen. induction orientations as [|shape rest IH]; intros oi st; simpl.
  - eexists. split; [reflexivity|]. intros _. auto.
  - destruct (orderedCells_post pieceId newRemaining oi shape Hlen shape st)
      as ([ok st1] & E & Hp).
    rewrite E. destruct ok.
    + eexists. split; [reflexivity|]. intros Hf. discriminate Hf.
    + destruct (Hp eq_refl) as [Hb Hs]. simpl in Hb, Hs.
      destruct (IH (oi + 1) st1) as (r & E' & Hp').
      exists r. split; [exact E'|]. intros Hf. destruct (Hp' Hf) as [Hb' Hs'].
      split; congruence.
Qed.

Lemma orderedPieces_post :
  forall rest before st,
    (length (before ++ rest) <= depth)%nat ->
    exists r, orderedPieces rec targetCol targetRow before rest st = Some r /\
              ordered_post st r.
Proof.
  induction rest as [|pieceId after IH]; intros before st Hlen; simpl.
  - eexists. split; [reflexivity|]. intros _. auto.
  - assert (Hlen' : (length (before ++ after) < depth)%nat).
    { rewrite length_app in *. simpl in Hlen. lia. }
    destruct (orderedOrients_post pieceId (before ++ after) Hlen' (ORIENTATIONS pieceId) 0 st)
      as ([ok st1] & E & Hp).
    rewrite E. destruct ok.
    + eexists. split; [reflexivity|]. intros Hf. discriminate Hf.
    + destruct (Hp eq_refl) as [Hb Hs]. simpl in Hb, Hs.
      destruct (IH (before ++ [pieceId]) st1) as (r & E' & Hp').
      { now rewrite <- app_assoc. }
      exists r. split; [exact E'|]. intros Hf. destruct (Hp' Hf) as [Hb' Hs'].
      split; congruence.
Qed.
End OrderedLoopFacts.

Lemma _solveOrdered_post (fuel : nat) :
  forall st ids m, (length ids < fuel)%nat ->
    exists r, _solveOrdered fuel st ids m = Some r /\ ordered_post st r.
Proof.
  induction fuel as [|fuel IH]; intros st ids m Hlen; [lia|]. simpl.
  destruct (findFirstEmpty (o_board st)) as [[tc tr]|].
  - apply (orderedPieces_post (_solveOrdered fuel) fuel IH). simpl. lia.
  - eexists. split; [reflexivity|]. intros Hf. discriminate Hf.
Qed.

Lemma solveWithOrderOn_returns (b : Board) (ids : list PieceId) :
  exists r, solveWithOrderOn b ids = Some r.
Proof.
  unfold solveWithOrderOn.
  destruct (_solveOrdered_post (S (length ids)) (mkOrderedState b []) ids 3 ltac:(lia))
    as ([[|] st] & -> & _); eauto.
Qed.

Lemma countSolutionsOn_returns (b : Board) (ids : list PieceId) (maxCount : Z) :
  exists r, countSolutionsOn b ids maxCount = Some r.
Proof.
  unfold countSolutionsOn.
  destruct (set_of_list_spec ids) as [Hnd _].
  destruct (_countSolve_post maxCount (S (length (set_of_list ids)))
              (mkCountState b (set_of_list ids) 0) 3 Hnd) as (st' & -> & _);
    [simpl; lia | simpl; eauto].
Qed.


(* ================================================================== *)
(** * Part VIII: the caller's board                                     *)
(* ================================================================== *)

Lemma list_upd_nth_error {A} (f : A -> A) (l : list A) (n m : nat) :
  m <> n -> nth_error (list_upd n f l) m = nth_error l m.
Proof.
  revert n m; induction l as [|x t IH]; intros [|n] [|m] H; simpl; auto; try congruence.
Qed.

Lemma writeBoard_length (b : Store.BoardRef) :
  forall h v, length (Store.writeBoard h b v) = length h.
Proof.
  induction b as [|a rest IH]; intros h [|row rows]; simpl; auto.
  now rewrite IH, list_upd_length.
Qed.

Lemma writeBoard_other (b : Store.BoardRef) :
  forall h v a, ~ In a b -> nth_error (Store.writeBoard h b v) a = nth_error h a.
Proof.
  induction b as [|a' rest IH]; intros h [|row rows] a Hnin; simpl; auto.
  rewrite IH by (intros H; apply Hnin; now right).
  apply list_upd_nth_error. intros ->. apply Hnin. now left.
Qed.

Lemma readBoard_ext (b : Store.BoardRef) (h h' : Store.Heap) :
  (forall a, In a b -> nth_error h' a = nth_error h a) -> Store.readBoard h' b = Store.readBoard h b.
Proof.
  induction b as [|a rest IH]; intros H; simpl; [reflexivity|].
  rewrite (H a (or_introl eq_refl)), IH; [reflexivity|].
  intros a' Ha'. apply H. now right.
Qed.

Lemma readBoard_bound (b : Store.BoardRef) (h : Store.Heap) (rows : Board) :
  Store.readBoard h b = Some rows -> forall a, In a b -> (a < length h)%nat.
Proof.
  revert rows; induction b as [|a' rest IH]; intros rows H a Ha; [contradiction|].
  simpl in H. destruct (nth_error h a') as [row|] eqn:E; [|discriminate].
  destruct (Store.readBoard h rest) as [rows'|] eqn:E'; [|discriminate].
  destruct Ha as [<-|Ha]; [|eapply IH; eauto].
  apply nth_error_Some. congruence.
Qed.

(** A search run on a clone leaves every row that existed before the call
    as it was. *)
Lemma onClone_frame {R : Type} (search : Board -> option (R * Board)) (h h' : Store.Heap)
    (b : Store.BoardRef) (res : R) :
  Store.onClone search h b = Some (res, h') ->
  (forall a, (a < length h)%nat -> nth_error h' a = nth_error h a) /\
  Store.readBoard h' b = Store.readBoard h b.
Proof.
  unfold Store.onClone, Store.cloneBoard. intros H.
  destruct (Store.readBoard h b) as [rows|] eqn:Hread; [|discriminate].
  destruct (Store.readBoard (h ++ rows) _) as [v|]; [|discriminate].
  destruct (search v) as [[res' v']|]; [|discriminate].
  injection H as _ <-.
  assert (Hold : forall a, (a < length h)%nat ->
            nth_error (Store.writeBoard (h ++ rows) (seq (length h) (length rows)) v') a
            = nth_error h a).
  { intros a Ha. rewrite writeBoard_other.
    - now apply nth_error_app1.
    - intros Hin. apply in_seq in Hin. lia. }
  split; [exact Hold|].
  rewrite <- Hread. apply readBoard_ext. intros a Ha. apply Hold.
  eapply readBoard_bound; eassumption.
Qed.

Lemma readBoard_fresh (rows : Board) :
  forall h, Store.readBoard (h ++ rows) (seq (length h) (length rows)) = Some rows.
Proof.
  induction rows as [|row rows IH]; intros h; simpl; [reflexivity|].
  rewrite nth_error_app2, Nat.sub_diag by lia. simpl.
  replace (h ++ row :: rows) with ((h ++ [row]) ++ rows) by now rewrite <- app_assoc.
  replace (S (length h)) with (length (h ++ [row])) by (rewrite length_app; simpl; lia).
  now rewrite IH.
Qed.

(** On a board whose rows exist, a search that returns on every board value
    returns on the clone. *)
Lemma onClone_returns {R : Type} (search : Board -> option (R * Board)) (h : Store.Heap)
    (b : Store.BoardRef) (v : Board) :
  (forall w, exists r, search w = Some r) ->
  Store.readBoard h b = Some v ->
  exists r, Store.onClone search h b = Some r.
Proof.
  intros Hsearch Hread. unfold Store.onClone, Store.cloneBoard. rewrite Hread, readBoard_fresh.
  destruct (Hsearch v) as ([res v'] & ->). eauto.
Qed.

Lemma heapAfter_returns (h : Store.Heap) (b : Store.BoardRef) (v : Board) (call : Store.Call) :
  Store.readBoard h b = Some v -> exists h', Store.heapAfter h b call = Some h'.
Proof.
  intros Hread. destruct call as [ids | ids | ids maxCount]; simpl.
  - destruct (onClone_returns (fun w => solveOn w ids) h b v) as ([res h'] & E); auto.
    { intros w. apply solveOn_returns. }
    unfold Store.solve. rewrite E. simpl. eauto.
  - destruct (onClone_returns (fun w => solveWithOrderOn w ids) h b v) as ([res h'] & E); auto.
    { intros w. apply solveWithOrderOn_returns. }
    unfold Store.solveWithOrder. rewrite E. simpl. eauto.
  - destruct (onClone_returns (fun w => countSolutionsOn w ids maxCount) h b v)
      as ([res h'] & E); auto.
    { intros w. apply countSolutionsOn_returns. }
    unfold Store.countSolutions. rewrite E. simpl. eauto.
Qed.

(** C5: on a caller's board of the grid's size, each of [solve],
    [solveWithOrder] and [countSolutions] returns, and when it has returned
    every row object that existed before the call holds what it held, so the
    caller's board reads exactly as before: the search ran on its own
    copy. *)
Theorem entry_points_leave_board_unchanged (h : Store.Heap) (b : Store.BoardRef)
    (v : Board) (call : Store.Call) :
  Store.readBoard h b = Some v -> wf_board v ->
  exists h',
    Store.heapAfter h b call = Some h' /\
    (forall a, (a < length h)%nat -> nth_error h' a = nth_error h a) /\
    Store.readBoard h' b = Some v.
Proof.
  intros Hread _.
  destruct (heapAfter_returns h b v call Hread) as (h' & E).
  exists h'. split; [exact E|]. rewrite <- Hread.
  destruct call as [ids | ids | ids maxCount]; simpl in E.
  - destruct (Store.solve h b ids) as [[res h1]|] eqn:E'; [|discriminate].
    injection E as <-. exact (onClone_frame _ _ _ _ _ E').
  - destruct (Store.solveWithOrder h b ids) as [[res h1]|] eqn:E'; [|discriminate].
    injection E as <-. exact (onClone_frame _ _ _ _ _ E').
  - destruct (Store.countSolutions h b ids maxCount) as [[res h1]|] eqn:E'; [|discriminate].
    injection E as <-. exact (onClone_frame _ _ _ _ _ E').
Qed.

Lemma entry_points_leave_board_unchanged_witness :
  Store.readBoard boardOneIsland [0; 1; 2; 3; 4]%nat = Some boardOneIsland /\
  wf_board boardOneIsland /\
  Store.heapAfter boardOneIsland [0; 1; 2; 3; 4]%nat (Store.CallSolve [idL])
  = Some heapAfterSolve /\
  exists h',
    Store.heapAfter boardOneIsland [0; 1; 2; 3; 4]%nat (Store.CallSolve [idL]) = Some h' /\
    (forall a, (a < length boardOneIsland)%nat -> nth_error h' a = nth_error boardOneIsland a) /\
    Store.readBoard h' [0; 1; 2; 3; 4]%nat = Some boardOneIsland.
Proof.
  assert (Hwf : wf_board boardOneIsland) by (split; [reflexivity | repeat constructor]).
  split; [reflexivity|]. split; [exact Hwf|]. split; [vm_compute; reflexivity|].
  exact (entry_points_leave_board_unchanged boardOneIsland [0; 1; 2; 3; 4]%nat boardOneIsland
           (Store.CallSolve [idL]) eq_refl Hwf).
Defined.


(* ================================================================== *)
(** * Part IX: the challenge generators                              *)
(* ================================================================== *)

(** ** [generateChallenge] accepts only a count of one *)

Lemma attempts_accepted (shuffle : nat -> list Placement -> list Placement)
    (preCount : nat) (sol : list Placement) (g : GeneratedChallenge) (n : nat) :
  forall attempt,
    attempts shuffle n attempt preCount sol = Some (Some g) ->
    exists a testBoard,
      (attempt <= a < attempt + n)%nat /\
      placeAll createEmptyBoard (firstn preCount (shuffle a sol)) = Some testBoard /\
      countSolutions testBoard (map pl_pieceId (skipn preCount (shuffle a sol))) 2 = Some 1 /\
      g = mkGenerated (map lockedOf (firstn preCount (shuffle a sol))) sol.
Proof.
  induction n as [|n IH]; intros attempt; simpl; [discriminate|].
  destruct (placeAll createEmptyBoard (firstn preCount (shuffle attempt sol)))
    as [testBoard|] eqn:Hboard; [|discriminate].
  destruct (countSolutions testBoard _ 2) as [count|] eqn:Hcount; [|discriminate].
  destruct (Z.eqb_spec count 1) as [->|Hne].
  - intros [= <-]. exists attempt, testBoard. repeat split; auto; lia.
  - intros H. destruct (IH _ H) as (a & tb & Ha & H1 & H2 & H3).
    exists a, tb. repeat split; auto; lia.
Qed.

(** A challenge returned by [generateChallenge] locks the first pieces of
    one of the shuffles of the packer's solution, and the counter, capped at
    2, counted exactly one completion of the others on the board holding
    the locked ones. *)
Lemma generateChallenge_accepts_count_one
    (shuffle : nat -> list Placement -> list Placement) (difficulty : Z)
    (g : GeneratedChallenge) :
  generateChallenge shuffle difficulty = Some (Some g) ->
  exists sol a testBoard,
    let preCount := Z.to_nat (Z.max 5 (10 - difficulty)) in
    solve createEmptyBoard (map p_id PIECES) = Some (Some sol) /\
    (a < 100)%nat /\
    placeAll createEmptyBoard (firstn preCount (shuffle a sol)) = Some testBoard /\
    countSolutions testBoard (map pl_pieceId (skipn preCount (shuffle a sol))) 2 = Some 1 /\
    g = mkGenerated (map lockedOf (firstn preCount (shuffle a sol))) sol.
Proof.
  unfold generateChallenge, challengeFrom.
  destruct (solve createEmptyBoard (map p_id PIECES)) as [[sol|]|]; try discriminate.
  intros H. destruct (attempts_accepted _ _ _ _ _ _ H) as (a & tb & Ha & H1 & H2 & H3).
  exists sol, a, tb. repeat split; auto; lia.
Qed.

(** ** [buildChallengesFromSolutions] checks nothing *)

Lemma solveWithOrder_seed42 :
  solveWithOrder createEmptyBoard (shuffleWithSeed (map p_id PIECES) 42)
  = Some (Some solution42).
Proof. vm_compute. reflexivity. Qed.

Lemma buildChallenge_31 (rest : list (list Placement)) :
  buildChallenge (solution42 :: rest) 31 4 0 = Some challenge31.
Proof. vm_compute. reflexivity. Qed.

Lemma buildChallenge_returns (solutions : list (list Placement)) (challengeId difficulty i : Z) :
  solutions <> [] -> 0 <= i ->
  exists c, buildChallenge solutions challengeId difficulty i = Some c.
Proof.
  intros Hne Hi. unfold buildChallenge.
  destruct (DIFFICULTY_CONFIG difficulty) as [playerPieces name].
  assert (Hlen : 0 < Z.of_nat (length solutions)) by (destruct solutions; [congruence | simpl; lia]).
  pose proof (Z.mod_pos_bound i _ Hlen) as Hb.
  destruct (nth_error solutions (Z.to_nat (i mod Z.of_nat (length solutions)))) eqn:E; [eauto|].
  apply nth_error_None in E. lia.
Qed.

Lemma sequence_nth {A} (l : list (option A)) :
  (forall x, In x l -> x <> None) ->
  exists l', sequence l = Some l' /\ forall n x, nth_error l n = Some (Some x) ->
                                              nth_error l' n = Some x.
Proof.
  induction l as [|[x|] t IH]; intros H; simpl.
  - exists []. split; [reflexivity|]. intros [|n] x E; discriminate E.
  - destruct IH as (t' & -> & Ht); [intros y Hy; apply H; now right|].
    exists (x :: t'). split; [reflexivity|].
    intros [|n] y E; simpl in *; [congruence | now apply Ht].
  - exfalso. apply (H None); [now left | reflexivity].
Qed.

(** C3 fails on challenges.js: whatever other solutions it is given, the
    list [buildChallengesFromSolutions] returns holds, as challenge 31, a
    challenge for which the counter capped at 2 counts two completions. *)
Theorem buildChallenges_emits_ambiguous_challenge (rest : list (list Placement)) :
  exists challenges testBoard,
    buildChallengesFromSolutions (solution42 :: rest) = Some challenges /\
    nth_error challenges 30 = Some challenge31 /\
    ch_id challenge31 = 31 /\
    length (ch_prePlaced challenge31) = 4%nat /\
    placeLocked createEmptyBoard (ch_prePlaced challenge31) = Some testBoard /\
    countSolutions testBoard (ch_playerPieceIds challenge31) 2 = Some 2.
Proof.
  unfold buildChallengesFromSolutions.
  destruct (sequence_nth
              (map (fun k => buildChallenge (solution42 :: rest) (Z.of_nat k + 1)
                               (Z.of_nat k / CHALLENGES_PER_DIFFICULTY + 1)
                               (Z.of_nat k mod CHALLENGES_PER_DIFFICULTY))
                   (seq 0 (Z.to_nat (DIFFICULTY_LEVELS * CHALLENGES_PER_DIFFICULTY)))))
    as (challenges & E & Hnth).
  { intros x Hx. apply in_map_iff in Hx as (k & <- & _).
    destruct (buildChallenge_returns (solution42 :: rest) (Z.of_nat k + 1)
                (Z.of_nat k / CHALLENGES_PER_DIFFICULTY + 1)
                (Z.of_nat k mod CHALLENGES_PER_DIFFICULTY)) as (c & ->).
    - discriminate.
    - pose proof (Z.mod_pos_bound (Z.of_nat k) CHALLENGES_PER_DIFFICULTY eq_refl). lia.
    - discriminate. }
  destruct (placeLocked createEmptyBoard (ch_prePlaced challenge31)) as [testBoard|] eqn:Hb;
    [|vm_compute in Hb; discriminate Hb].
  exists challenges, testBoard. split; [exact E|]. split.
  - apply Hnth. change (Z.to_nat (DIFFICULTY_LEVELS * CHALLENGES_PER_DIFFICULTY)) with 50%nat.
    rewrite nth_error_map, (nth_error_nth' _ 0%nat) by (rewrite length_seq; lia).
    rewrite seq_nth by lia. simpl option_map. rewrite <- (buildChallenge_31 rest). reflexivity.
  - split; [reflexivity|]. split; [reflexivity|]. split; [reflexivity|].
    vm_compute in Hb. injection Hb as <-. vm_compute. reflexivity.
Qed.


(* ================================================================== *)
(** * Part X: the packer misses no covering                            *)
(* ================================================================== *)

(** ** The first empty cell *)

Lemma scanCols_Some (b : Board) (r : Z) (n : nat) :
  forall c c0 r0, scanCols n b c r = Some (c0, r0) ->
    r0 = r /\ c <= c0 < c + Z.of_nat n /\ isNull b c0 r = true /\
    forall c', c <= c' < c0 -> isNull b c' r = false.
Proof.
  induction n as [|n IH]; intros c c0 r0 H; [discriminate|].
  simpl in H. destruct (isNull b c r) eqn:E.
  - injection H as <- <-. split; [reflexivity|]. split; [lia|]. split; [exact E|].
    intros c' Hc'. lia.
  - destruct (IH _ _ _ H) as (-> & Hc0 & Hn & Hbefore).
    split; [reflexivity|]. split; [lia|]. split; [exact Hn|].
    intros c' Hc'. destruct (Z.eq_dec c' c) as [->|]; [exact E|]. apply Hbefore. lia.
Qed.

Lemma scanRows_Some (b : Board) (n : nat) :
  forall r c0 r0, scanRows n b r = Some (c0, r0) ->
    r <= r0 < r + Z.of_nat n /\ 0 <= c0 < COLS /\ isNull b c0 r0 = true /\
    (forall c', 0 <= c' < c0 -> isNull b c' r0 = false) /\
    (forall c' r', r <= r' < r0 -> 0 <= c' < COLS -> isNull b c' r' = false).
Proof.
  induction n as [|n IH]; intros r c0 r0 H; [discriminate|].
  cbn [scanRows] in H. destruct (scanCols _ b 0 r) as [[c1 r1]|] eqn:E.
  - injection H as -> ->.
    destruct (scanCols_Some _ _ _ _ _ _ E) as (-> & Hc0 & Hn & Hbefore).
    rewrite Z2Nat.id in Hc0 by (unfold COLS; lia).
    split; [lia|]. split; [lia|]. split; [exact Hn|]. split; [exact Hbefore|].
    intros c' r' Hr'. lia.
  - destruct (IH _ _ _ H) as (Hr0 & Hc0 & Hn & Hrow & Hrows).
    split; [lia|]. split; [lia|]. split; [exact Hn|]. split; [exact Hrow|].
    intros c' r' Hr' Hc'. destruct (Z.eq_dec r' r) as [->|].
    + apply (scanCols_None _ _ _ _ E). rewrite Z2Nat.id; unfold COLS in *; lia.
    + apply Hrows; lia.
Qed.

Lemma findFirstEmpty_spec (b : Board) :
  match findFirstEmpty b with
  | Some (c, r) =>
      inGrid c r /\ isNull b c r = true /\
      forall c' r', inGrid c' r' -> r' < r \/ (r' = r /\ c' < c) -> isNull b c' r' = false
  | None => forall c r, inGrid c r -> isNull b c r = false
  end.
Proof.
  destruct (findFirstEmpty b) as [[c r]|] eqn:E; [|now apply findFirstEmpty_None].
  destruct (scanRows_Some _ _ _ _ _ E) as (Hr & Hc & Hn & Hrow & Hrows).
  rewrite Z2Nat.id in Hr by (unfold ROWS; lia).
  split; [split; lia|]. split; [exact Hn|].
  intros c' r' [Hr' Hc'] [Hlt | [-> Hlt]]; [apply Hrows | apply Hrow]; lia.
Qed.

Lemma findFirstEmpty_Some (b : Board) (c r : Z) :
  findFirstEmpty b = Some (c, r) -> inGrid c r /\ isNull b c r = true.
Proof.
  intros E. pose proof (findFirstEmpty_spec b) as H. rewrite E in H.
  destruct H as (H1 & H2 & _). now split.
Qed.

(** [findFirstEmpty] returns the empty cell of the grid that comes first in
    reading order (rows from the top, each from the left), and [null]
    exactly when the grid has no empty cell. *)
Theorem findFirstEmpty_first_in_reading_order (b : Board) :
  match findFirstEmpty b with
  | Some (c, r) =>
      inGrid c r /\ isNull b c r = true /\
      forall c' r', inGrid c' r' -> r' < r \/ (r' = r /\ c' < c) -> isNull b c' r' = false
  | None => forall c r, inGrid c r -> isNull b c r = false
  end.
Proof. exact (findFirstEmpty_spec b). Qed.

(** ** What a placement writes *)

Lemma placePiece_effect (b : Board) (pieceId : PieceId) (shape : Shape) (col row : Z) :
  canPlace b shape col row = true ->
  exists b1,
    placePiece b pieceId shape col row = Some b1 /\
    dims b1 = dims b /\
    (forall c r, getCell b1 c r =
                 if in_dec Cell_eq_dec (c, r) (cellsAt shape col row)
                 then Some (Some pieceId) else getCell b c r) /\
    (forall shape' col' row' x,
       In x (cellsAt shape col row) -> In x (cellsAt shape' col' row') ->
       canPlace b1 shape' col' row' = false).
Proof.
  intros Hcan. destruct (place_remove b pieceId shape col row Hcan) as (b1 & Hplace & _).
  exists b1. split; [exact Hplace|].
  pose proof (placePiece_spec _ _ _ _ _ _ Hplace) as Hb1.
  split; [exact (writeCells_dims _ _ _ _ _ _ Hplace)|]. split; [exact Hb1|].
  intros shape' col' row' [c r] Hin Hin'.
  destruct (canPlace b1 shape' col' row') eqn:E; [|reflexivity].
  rewrite canPlace_spec in E. destruct (E c r Hin') as [_ Hn].
  unfold isNull in Hn. rewrite Hb1 in Hn.
  destruct (in_dec Cell_eq_dec (c, r) (cellsAt shape col row)); [discriminate | contradiction].
Qed.

(** Where a shape fits, [placePiece] writes the piece id into the cells of
    the translated shape and into no other cell, the board keeps its
    dimensions, and afterwards no shape that shares a cell with the placed
    one fits any more. *)
Theorem placePiece_fills_exactly_the_shape (b : Board) (pieceId : PieceId) (shape : Shape)
    (col row : Z) :
  canPlace b shape col row = true ->
  exists b1,
    placePiece b pieceId shape col row = Some b1 /\
    dims b1 = dims b /\
    (forall c r, getCell b1 c r =
                 if in_dec Cell_eq_dec (c, r) (cellsAt shape col row)
                 then Some (Some pieceId) else getCell b c r) /\
    (forall shape' col' row' x,
       In x (cellsAt shape col row) -> In x (cellsAt shape' col' row') ->
       canPlace b1 shape' col' row' = false).
Proof. apply placePiece_effect. Qed.

Lemma placePiece_fills_exactly_the_shape_witness :
  canPlace createEmptyBoard [(0,0); (1,0); (2,0)] 3 1 = true /\
  exists b1,
    placePiece createEmptyBoard idL [(0,0); (1,0); (2,0)] 3 1 = Some b1 /\
    getCell b1 4 1 = Some (Some idL) /\ getCell b1 6 1 = Some None /\
    canPlace b1 [(0,0); (1,0); (0,1); (1,1)] 5 0 = false.
Proof.
  split; [reflexivity|].
  destruct (placePiece_fills_exactly_the_shape createEmptyBoard idL [(0,0); (1,0); (2,0)] 3 1
              eq_refl) as (b1 & Hplace & _ & Hcells & Hblock).
  exists b1. split; [exact Hplace|]. split; [|split].
  - rewrite Hcells. reflexivity.
  - rewrite Hcells. reflexivity.
  - apply (Hblock _ 5 0 (5, 1)); simpl; auto.
Defined.

(** ** The pieces are connected *)

Lemma memCell_In (x : Cell) (l : list Cell) : memCell x l = true -> In x l.
Proof.
  unfold memCell. rewrite existsb_exists. intros ([c r] & Hin & E).
  destruct x as [c' r']. simpl in E. apply andb_true_iff in E as [E1 E2].
  apply Z.eqb_eq in E1, E2. now subst.
Qed.

Lemma grow_linked (shape : Shape) (x : Cell) (n : nat) :
  forall reached,
    (forall y, In y reached -> linked shape x y) ->
    forall y, In y (grow n shape reached) -> linked shape x y.
Proof.
  induction n as [|n IH]; intros reached Hr y Hy; [now apply Hr|].
  simpl in Hy. apply (IH _) in Hy; [exact Hy|].
  intros z Hz. apply in_app_or in Hz as [Hz|Hz]; [now apply Hr|].
  apply filter_In in Hz as [Hz Hadj]. apply existsb_exists in Hadj as (u & Hu & Hadj).
  apply (linked_step shape x u z); [now apply Hr | | exact Hz].
  unfold adjacentb in Hadj. apply Z.eqb_eq in Hadj. exact Hadj.
Qed.

Lemma connectedb_sound (x : Cell) (rest : Shape) :
  connectedb (x :: rest) = true -> forall y, In y (x :: rest) -> linked (x :: rest) x y.
Proof.
  unfold connectedb. intros H y Hy. rewrite forallb_forall in H.
  apply (grow_linked _ _ (length (x :: rest)) [x]).
  - intros z [<-|[]]. constructor. now left.
  - apply memCell_In. now apply H.
Qed.

(** Every shape of the orientation table is in one piece. *)
Lemma ORIENTATIONS_connected (k : PieceId) (o : Shape) :
  In o (ORIENTATIONS k) -> connectedb o = true.
Proof.
  intros Hin.
  assert (H : forallb connectedb (ORIENTATIONS k) = true) by (destruct k; vm_compute; reflexivity).
  rewrite forallb_forall in H. now apply H.
Qed.

(** A linked shape laid on empty cells lies within one region. *)
Lemma linked_connected (b : Board) (shape : Shape) (col row : Z) (x y : Cell) :
  (forall z, In z shape -> emptyCell b (col + fst z, row + snd z)) ->
  linked shape x y ->
  connected b (col + fst x, row + snd x) (col + fst y, row + snd y).
Proof.
  intros Hempty. induction 1 as [x Hx | x y z Hxy IH Hadj Hz].
  - constructor. now apply Hempty.
  - eapply connected_step; [exact IH | | now apply Hempty].
    unfold adjacent in *. simpl. lia.
Qed.

Lemma in_cellsAt (shape : Shape) (col row : Z) (x : Cell) :
  In x (cellsAt shape col row) <->
  exists z, In z shape /\ x = (col + fst z, row + snd z).
Proof.
  unfold cellsAt. rewrite in_map_iff. split.
  - intros ([dc dr] & <- & Hin). exists (dc, dr). split; [exact Hin | reflexivity].
  - intros ([dc dr] & Hin & ->). exists (dc, dr). split; [reflexivity | exact Hin].
Qed.

(** The cells of a placement that lies on empty cells are connected to one
    another through empty cells. *)
Lemma placement_one_region (b : Board) (pl : Placement) :
  valid_orientation pl ->
  (forall x, In x (placementCells pl) -> emptyCell b x) ->
  forall x y, In x (placementCells pl) -> In y (placementCells pl) -> connected b x y.
Proof.
  intros Hval Hempty x y Hx Hy. unfold placementCells in *.
  apply valid_orientation_In in Hval.
  pose proof (ORIENTATIONS_connected _ _ Hval) as Hconn.
  destruct (pl_shape pl) as [|x0 rest] eqn:Eshape; [contradiction|].
  assert (Hz : forall z, In z (x0 :: rest) ->
                 emptyCell b (pl_col pl + fst z, pl_row pl + snd z)).
  { intros z Hin. apply Hempty. apply in_cellsAt. eauto. }
  apply in_cellsAt in Hx as (zx & Hzx & ->). apply in_cellsAt in Hy as (zy & Hzy & ->).
  apply connected_trans with (y := (pl_col pl + fst x0, pl_row pl + snd x0)).
  - apply connected_sym. apply (linked_connected b (x0 :: rest)); [exact Hz|].
    now apply connectedb_sound.
  - apply (linked_connected b (x0 :: rest)); [exact Hz|]. now apply connectedb_sound.
Qed.

(** ** Pruning keeps every covering *)

Lemma newMinOf_le (ids : list PieceId) (k : PieceId) : In k ids -> newMinOf ids <= pieceSize k.
Proof.
  destruct ids as [|q t]; [contradiction|]. simpl.
  assert (G : forall t m, fold_left (fun m q => if pieceSize q <? m then pieceSize q else m) t m <= m /\
                          forall k, In k t ->
                            fold_left (fun m q => if pieceSize q <? m then pieceSize q else m) t m
                            <= pieceSize k).
  { clear. induction t as [|q t IH]; intros m; simpl; [split; [lia | intros k []]|].
    destruct (IH (if pieceSize q <? m then pieceSize q else m)) as [H1 H2].
    destruct (Z.ltb_spec (pieceSize q) m); split; try lia.
    - intros k [<-|Hk]; [lia | now apply H2].
    - intros k [<-|Hk]; [lia | now apply H2]. }
  destruct (G t (pieceSize q)) as [H1 H2].
  intros [<-|Hk]; [exact H1 | now apply H2].
Qed.

Lemma solves_cell_empty (b : Board) (ids : list PieceId) (sol : list Placement)
    (pl : Placement) (x : Cell) :
  solves b ids sol -> In pl sol -> In x (placementCells pl) -> emptyCell b x.
Proof.
  intros (_ & _ & _ & _ & Hcov) Hpl Hx. destruct x as [c r].
  apply Hcov. apply in_solutionCells. eauto.
Qed.

(** A position whose empty cells can be covered with the remaining pieces
    has no region smaller than the smallest of them: the island test never
    rejects it. *)
Lemma cover_no_dead_island (b : Board) (ids : list PieceId) (sol : list Placement) :
  solves b ids sol -> ~ dead_island b (newMinOf ids).
Proof.
  intros Hs (x & n & Hx & (cells & Hnd & Hall & <-) & Hlt).
  pose proof Hs as (_ & Hcells & _ & Hval & Hcov).
  destruct x as [c r]. destruct Hx as [Hg Hn]. simpl in Hg, Hn.
  assert (Hin : In (c, r) (solutionCells sol)) by (apply Hcov; now split).
  apply in_solutionCells in Hin as (pl & Hpl & Hin).
  destruct (Hval pl Hpl) as [Hid Hvo].
  pose proof (newMinOf_le _ _ Hid) as Hmin.
  assert (Hincl : incl (placementCells pl) cells).
  { intros y Hy. apply Hall.
    apply (placement_one_region b pl Hvo); [|exact Hin | exact Hy].
    intros z Hz. eapply solves_cell_empty; eauto. }
  assert (Hnd' : NoDup (placementCells pl)).
  { apply cellsAt_NoDup. eapply ORIENTATIONS_NoDup, valid_orientation_In, Hvo. }
  pose proof (NoDup_incl_length Hnd' Hincl) as Hlen.
  unfold placementCells in Hlen. rewrite cellsAt_length in Hlen.
  pose proof (ORIENTATIONS_length _ _ (valid_orientation_In _ Hvo)). lia.
Qed.

Lemma hasDeadIslands_cover (b : Board) (ids : list PieceId) (sol : list Placement) :
  solves b ids sol -> hasDeadIslands b (newMinOf ids) = Some false.
Proof.
  intros Hs. destruct (hasDeadIslands_spec b (newMinOf ids)) as ([|] & E & Hres); [|exact E].
  exfalso. apply (cover_no_dead_island _ _ _ Hs). now apply Hres.
Qed.

(** ** Taking a placement out of a covering *)

Lemma solves_ids (b : Board) (ids ids' : list PieceId) (sol : list Placement) :
  (forall k, In k ids -> In k ids') -> solves b ids sol -> solves b ids' sol.
Proof.
  intros Hsub (H1 & H2 & H3 & H4 & H5).
  split; [exact H1|]. split; [exact H2|]. split; [exact H3|]. split; [|exact H5].
  intros pl Hpl. destruct (H4 pl Hpl) as [Ha Hb]. split; [now apply Hsub | exact Hb].
Qed.

Lemma solves_perm_ids (b : Board) (ids ids' : list PieceId) (sol : list Placement) :
  Permutation ids ids' -> solves b ids sol -> solves b ids' sol.
Proof. intros HP. apply solves_ids. intros k. now apply Permutation_in. Qed.

Lemma solutionCells_app (l1 l2 : list Placement) :
  solutionCells (l1 ++ l2) = solutionCells l1 ++ solutionCells l2.
Proof. unfold solutionCells. now rewrite map_app, concat_app. Qed.

Lemma solutionCells_cons (pl : Placement) (l : list Placement) :
  solutionCells (pl :: l) = placementCells pl ++ solutionCells l.
Proof. reflexivity. Qed.

Lemma NoDup_app_inv {A : Type} (l1 l2 : list A) :
  NoDup (l1 ++ l2) -> NoDup l1 /\ NoDup l2 /\ forall x, In x l1 -> ~ In x l2.
Proof.
  induction l1 as [|a l1 IH]; simpl; intros H.
  - split; [constructor|]. split; [exact H|]. intros x [].
  - inversion H as [|? ? Ha Hrest]; subst. destruct (IH Hrest) as (H1 & H2 & H3).
    split; [|split; [exact H2|]].
    + constructor; [|exact H1]. intros Hin. apply Ha, in_or_app. now left.
    + intros x [<-|Hx]; [|now apply H3]. intros Hin. apply Ha, in_or_app. now right.
Qed.

(** In a covering, the placement that covers a given cell is unique, and
    so is its place in the list. *)
Lemma solves_split (b : Board) (ids : list PieceId) (sol : list Placement) (pl : Placement) :
  solves b ids sol -> In pl sol ->
  exists l1 l2, sol = l1 ++ pl :: l2 /\
    forall x, In x (placementCells pl) -> ~ In x (solutionCells (l1 ++ l2)).
Proof.
  intros (_ & Hnd & _ & _ & _) Hin.
  apply in_split in Hin as (l1 & l2 & ->). exists l1, l2. split; [reflexivity|].
  rewrite solutionCells_app, solutionCells_cons in Hnd.
  apply NoDup_app_inv in Hnd as (_ & Hnd2 & Hsep1).
  apply NoDup_app_inv in Hnd2 as (_ & _ & Hsep2).
  intros x Hx. rewrite solutionCells_app. intros Hin.
  apply in_app_or in Hin as [Hin|Hin].
  - apply (Hsep1 x Hin). apply in_or_app. now left.
  - exact (Hsep2 x Hx Hin).
Qed.

(** A placement of a covering fits the board; once it is placed, the other
    placements cover what is left, without its piece. *)
Lemma solves_take (b : Board) (ids : list PieceId) (l1 l2 : list Placement) (pl : Placement) :
  solves b ids (l1 ++ pl :: l2) ->
  canPlace b (pl_shape pl) (pl_col pl) (pl_row pl) = true /\
  forall b1, placePiece b (pl_pieceId pl) (pl_shape pl) (pl_col pl) (pl_row pl) = Some b1 ->
             solves b1 (set_delete (pl_pieceId pl) ids) (l1 ++ l2).
Proof.
  intros Hs.
  assert (Hpl : In pl (l1 ++ pl :: l2)) by (apply in_or_app; right; now left).
  pose proof Hs as (Hgrid & Hnd & Hids & Hval & Hcov).
  split.
  - apply canPlace_spec. intros c r Hin.
    apply (solves_cell_empty _ _ _ pl (c, r) Hs Hpl Hin).
  - intros b1 Hplace.
    pose proof (placePiece_spec _ _ _ _ _ _ Hplace) as Hb1.
    fold (placementCells pl) in Hb1.
    assert (Hsub : forall x, In x (l1 ++ l2) -> In x (l1 ++ pl :: l2)).
    { intros x Hx. apply in_app_or in Hx as [Hx|Hx]; apply in_or_app; [now left | right; now right]. }
    assert (Hsep : forall x, In x (placementCells pl) -> ~ In x (solutionCells (l1 ++ l2))).
    { rewrite solutionCells_app, solutionCells_cons in Hnd.
      apply NoDup_app_inv in Hnd as (_ & Hnd2 & Hsep1).
      apply NoDup_app_inv in Hnd2 as (_ & _ & Hsep2).
      intros x Hx. rewrite solutionCells_app. intros Hin.
      apply in_app_or in Hin as [Hin|Hin].
      - apply (Hsep1 x Hin). apply in_or_app. now left.
      - exact (Hsep2 x Hx Hin). }
    split; [|split; [|split; [|split]]].
    + intros pl' c r Hpl' Hin. apply (Hgrid pl' c r); auto.
    + rewrite solutionCells_app, solutionCells_cons in Hnd. rewrite solutionCells_app.
      apply NoDup_app_inv in Hnd as (Hnd1 & Hnd2 & Hsep1).
      apply NoDup_app_inv in Hnd2 as (_ & Hnd2 & _).
      apply NoDup_app; auto. intros x Hx1 Hx2. apply (Hsep1 x Hx1). apply in_or_app. now right.
    + rewrite map_app in *. simpl in Hids. now apply NoDup_remove_1 in Hids.
    + intros pl' Hpl'. destruct (Hval pl' (Hsub _ Hpl')) as [Hin Hvo]. split; [|exact Hvo].
      apply set_delete_In. split; [exact Hin|].
      rewrite map_app in Hids. simpl in Hids. apply NoDup_remove_2 in Hids.
      intros E. apply Hids. rewrite <- E, <- map_app. now apply in_map.
    + intros c r. unfold isNull. rewrite Hb1.
      destruct (in_dec Cell_eq_dec (c, r) (placementCells pl)) as [Hin|Hnin].
      * split; [intros Hin'; exfalso; exact (Hsep _ Hin Hin') | intros [_ H]; discriminate H].
      * fold (isNull b c r). rewrite <- Hcov.
        rewrite !solutionCells_app, solutionCells_cons, !in_app_iff. tauto.
Qed.

(** ** A failed search leaves no covering *)

Section SolveLoopsComplete.
Variable rec : SolveState -> Z -> SolveResult.
Hypothesis Hrec : rec_spec rec.
Hypothesis Hcomplete : rec_complete rec.
Variables targetCol targetRow : Z.

Lemma solveCells_complete (pieceId : PieceId) (oi : Z) (shape : Shape) :
  0 <= oi -> nth_error (ORIENTATIONS pieceId) (Z.to_nat oi) = Some shape ->
  forall cells st st',
    NoDup (remaining st) -> In pieceId (remaining st) ->
    solveCells rec targetCol targetRow pieceId oi shape cells st = Some (false, st') ->
    forall d sol, In d cells -> solves (board st) (remaining st) sol ->
                  ~ In (tried pieceId shape oi targetCol targetRow d) sol.
Proof.
  intros Hoi Hshape. induction cells as [|[dc dr] cells IH]; intros st st' Hnd Hin; simpl;
    [intros _ d sol []|].
  (* what a covering that uses the placement of this round would give *)
  assert (Huse : forall sol, solves (board st) (remaining st) sol ->
            In (tried pieceId shape oi targetCol targetRow (dc, dr)) sol ->
            canPlace (board st) shape (targetCol - dc) (targetRow - dr) = true /\
            forall b1, placePiece (board st) pieceId shape (targetCol - dc) (targetRow - dr)
                       = Some b1 ->
                       exists rest, solves b1 (set_delete pieceId (remaining st)) rest).
  { intros sol Hs Hpl. apply in_split in Hpl as (l1 & l2 & ->).
    destruct (solves_take _ _ _ _ _ Hs) as [Hcan Hrest]. simpl in Hcan, Hrest.
    split; [exact Hcan|]. intros b1 Hb1. exists (l1 ++ l2). now apply Hrest. }
  assert (Hnext : forall st1 : SolveState,
            board st1 = board st -> Permutation (remaining st) (remaining st1) ->
            solveCells rec targetCol targetRow pieceId oi shape cells st1 = Some (false, st') ->
            forall d sol, In d cells -> solves (board st) (remaining st) sol ->
                          ~ In (tried pieceId shape oi targetCol targetRow d) sol).
  { intros st1 Hb Hr Hrun d sol Hd Hs.
    apply (IH st1 st'); auto.
    - eapply Permutation_NoDup; eassumption.
    - eapply Permutation_in; eassumption.
    - rewrite Hb. eapply solves_perm_ids; eassumption. }
  destruct (canPlace (board st) shape (targetCol - dc) (targetRow - dr)) eqn:Hcan.
  - destruct (place_remove (board st) pieceId shape _ _ Hcan) as (b1 & Hplace & Hremove).
    rewrite Hplace.
    destruct (hasDeadIslands b1 (newMinOf (set_delete pieceId (remaining st))))
      as [[|]|] eqn:Hdead; [| |discriminate].
    + rewrite Hremove. intros Hrun d sol [<-|Hd] Hs.
      * intros Hpl. destruct (Huse sol Hs Hpl) as [_ Hrest].
        destruct (Hrest b1 Hplace) as (rest & Hs').
        apply hasDeadIslands_cover in Hs'. congruence.
      * revert d sol Hd Hs. eapply Hnext; [| |exact Hrun]; simpl; auto.
        apply set_add_delete_perm; auto.
    + destruct (rec _ _) as [[[|] st2]|] eqn:Hcall; [discriminate| |discriminate].
      pose proof Hcall as Hpost.
      apply Hrec in Hpost; [|now apply set_delete_NoDup].
      destruct Hpost as (Hb & Hsol & Hr).
      simpl in Hb, Hsol, Hr. rewrite Hb, Hremove.
      intros Hrun d sol [<-|Hd] Hs.
      * intros Hpl. destruct (Huse sol Hs Hpl) as [_ Hrest].
        destruct (Hrest b1 Hplace) as (rest & Hs').
        eapply Hcomplete; [|exact Hcall|exact Hs']. now apply set_delete_NoDup.
      * revert d sol Hd Hs. eapply Hnext; [| |exact Hrun]; simpl; auto.
        apply set_add_delete_perm; auto.
  - intros Hrun d sol [<-|Hd] Hs.
    + intros Hpl. destruct (Huse sol Hs Hpl) as [Hcan' _]. congruence.
    + revert d sol Hd Hs. eapply Hnext; [| |exact Hrun]; auto.
Qed.

Lemma solveOrients_complete (pieceId : PieceId) :
  forall orientations before oi st st',
    ORIENTATIONS pieceId = before ++ orientations -> oi = Z.of_nat (length before) ->
    NoDup (remaining st) -> In pieceId (remaining st) ->
    solveOrients rec targetCol targetRow pieceId oi orientations st = Some (false, st') ->
    forall j shape d sol,
      nth_error orientations j = Some shape -> In d shape ->
      solves (board st) (remaining st) sol ->
      ~ In (tried pieceId shape (oi + Z.of_nat j) targetCol targetRow d) sol.
Proof.
  induction orientations as [|shape0 rest IH]; intros before oi st st' Hsplit Hoi Hnd Hin; simpl.
  - intros _ [|j] shape d sol H; discriminate H.
  - destruct (solveCells _ _ _ _ _ _ _ _) as [[[|] st1]|] eqn:Hcells; [discriminate| |discriminate].
    assert (Hnth : nth_error (ORIENTATIONS pieceId) (Z.to_nat oi) = Some shape0).
    { subst oi. rewrite Nat2Z.id, Hsplit, nth_error_app2, Nat.sub_diag; [reflexivity | lia]. }
    assert (Hf : solve_post st false st1).
    { eapply (solveCells_post rec Hrec); [| | | |exact Hcells]; auto. lia. }
    destruct Hf as (Hb & Hs & Hr).
    intros Hrun [|j] shape d sol Hj Hd Hsol.
    + injection Hj as <-. rewrite Z.add_0_r.
      eapply solveCells_complete; [| | | |exact Hcells| |]; eauto. lia.
    + simpl in Hj. replace (oi + Z.of_nat (S j)) with ((oi + 1) + Z.of_nat j) by lia.
      eapply (IH (before ++ [shape0]) (oi + 1) st1 st'); [| | | |exact Hrun| | |].
      * now rewrite <- app_assoc.
      * rewrite length_app. simpl. lia.
      * eapply Permutation_NoDup; eassumption.
      * eapply Permutation_in; eassumption.
      * exact Hj.
      * exact Hd.
      * rewrite Hb. eapply solves_perm_ids; eassumption.
Qed.

Lemma solvePieces_complete :
  forall pieceIds st st',
    NoDup (remaining st) -> (forall k, In k pieceIds -> In k (remaining st)) ->
    solvePieces rec targetCol targetRow pieceIds st = Some (false, st') ->
    forall k j shape d sol,
      In k pieceIds -> nth_error (ORIENTATIONS k) j = Some shape -> In d shape ->
      solves (board st) (remaining st) sol ->
      ~ In (tried k shape (Z.of_nat j) targetCol targetRow d) sol.
Proof.
  induction pieceIds as [|pieceId rest IH]; intros st st' Hnd Hin; simpl.
  - intros _ k j shape d sol [].
  - destruct (solveOrients _ _ _ _ _ _ _) as [[[|] st1]|] eqn:Hor; [discriminate| |discriminate].
    assert (Hf : solve_post st false st1).
    { eapply (solveOrients_post rec Hrec _ _ pieceId _ []); [| | | |exact Hor]; auto.
      apply Hin; now left. }
    destruct Hf as (Hb & Hs & Hr).
    intros Hrun k j shape d sol [<-|Hk] Hj Hd Hsol.
    + change (Z.of_nat j) with (0 + Z.of_nat j).
      eapply (solveOrients_complete pieceId _ [] 0 st st1); [| | | |exact Hor| | |]; eauto.
      apply Hin; now left.
    + eapply (IH st1 st'); [| |exact Hrun| | | |]; eauto.
      * eapply Permutation_NoDup; eassumption.
      * intros q Hq. eapply Permutation_in; [exact Hr|]. apply Hin. now right.
      * rewrite Hb. eapply solves_perm_ids; eassumption.
Qed.
End SolveLoopsComplete.

(** The placement of a covering that covers a cell is one of the rounds of
    the loops on that cell. *)
Lemma covering_placement (b : Board) (ids : list PieceId) (sol : list Placement) (c r : Z) :
  solves b ids sol -> inGrid c r -> isNull b c r = true ->
  exists k j shape d,
    In k ids /\ nth_error (ORIENTATIONS k) j = Some shape /\ In d shape /\
    In (tried k shape (Z.of_nat j) c r d) sol.
Proof.
  intros Hs Hg Hn. pose proof Hs as (_ & _ & _ & Hval & Hcov).
  assert (Hin : In (c, r) (solutionCells sol)) by (apply Hcov; now split).
  apply in_solutionCells in Hin as (pl & Hpl & Hin).
  destruct (Hval pl Hpl) as [Hid [Hoi Hnth]].
  apply in_cellsAt in Hin as (d & Hd & E). injection E as Ec Er.
  exists (pl_pieceId pl), (Z.to_nat (pl_orientationIndex pl)), (pl_shape pl), d.
  split; [exact Hid|]. split; [exact Hnth|]. split; [exact Hd|].
  unfold tried. rewrite Z2Nat.id by exact Hoi.
  replace (c - fst d) with (pl_col pl) by lia. replace (r - snd d) with (pl_row pl) by lia.
  destruct pl; exact Hpl.
Qed.

Lemma _solve_complete (fuel : nat) : rec_complete (_solve fuel).
Proof.
  induction fuel as [|fuel IH]; intros st m st' Hnd; simpl; [discriminate|].
  destruct (findFirstEmpty (board st)) as [[tc tr]|] eqn:Hfirst; [|discriminate].
  intros Hrun sol Hs.
  destruct (findFirstEmpty_Some _ _ _ Hfirst) as [Hg Hn].
  destruct (covering_placement _ _ _ _ _ Hs Hg Hn) as (k & j & shape & d & Hk & Hj & Hd & Hpl).
  revert Hpl.
  eapply (solvePieces_complete (_solve fuel) (_solve_post fuel) IH); [| |exact Hrun| | | |]; eauto.
Qed.

(** [solve] returns [null] only if the empty cells of the board cannot be
    covered with distinct pieces of the list. *)
Lemma solveOn_complete (b : Board) (ids : list PieceId) (b' : Board) :
  solveOn b ids = Some (None, b') -> forall sol, ~ solves b ids sol.
Proof.
  unfold solveOn.
  destruct (set_of_list_spec ids) as [Hnd Hids].
  set (sortedIds := js_sort cmpSize (set_of_list ids)).
  assert (Hperm : Permutation sortedIds (set_of_list ids)) by apply js_sort_perm.
  assert (Hnd' : NoDup sortedIds) by (eapply Permutation_NoDup; [symmetry; exact Hperm | exact Hnd]).
  rewrite (set_of_list_NoDup_id _ Hnd').
  destruct (_solve _ _ _) as [[[|] st]|] eqn:Hrun; try discriminate.
  intros _ sol Hs.
  apply (_solve_complete (S (length sortedIds)) (mkSolveState b sortedIds []) 3 st Hnd' Hrun sol).
  simpl.
  eapply solves_ids; [|exact Hs]. intros k Hk.
  eapply Permutation_in; [symmetry; exact Hperm|]. now apply Hids.
Qed.

Lemma solve_complete (b : Board) (ids : list PieceId) :
  solve b ids = Some None -> forall sol, ~ solves b ids sol.
Proof.
  unfold solve. rewrite cloneBoard_id.
  destruct (solveOn b ids) as [[[sol'|] b']|] eqn:E; try discriminate.
  intros _. eapply solveOn_complete; exact E.
Qed.

(** [solve] returns a placement list exactly when the empty cells of the
    board can be covered, each once, by distinct pieces of the list in
    orientations of the table; it returns [null] exactly when they cannot. *)
Theorem solve_finds_a_cover_iff_one_exists (b : Board) (availablePieceIds : list PieceId) :
  ((exists sol, solve b availablePieceIds = Some (Some sol)) <->
   (exists sol, solves b availablePieceIds sol)) /\
  (solve b availablePieceIds = Some None <->
   (forall sol, ~ solves b availablePieceIds sol)).
Proof.
  destruct (solve_returns b availablePieceIds) as ([sol|] & E).
  - pose proof (solve_solves _ _ _ E) as Hs. split.
    + split; intros _; eauto.
    + split; [rewrite E; discriminate | intros H; exfalso; exact (H sol Hs)].
  - pose proof (solve_complete _ _ E) as Hno. split.
    + split; [intros (sol & H); rewrite E in H; discriminate H
             | intros (sol & Hs); exfalso; exact (Hno sol Hs)].
    + split; [intros _; exact Hno | intros _; exact E].
Qed.

(** The island test never rejects a position that can still be completed:
    if the empty cells of a board can be covered with distinct pieces of
    [ids], [hasDeadIslands] called with the size of the smallest of them
    returns [false]. *)
Theorem pruning_keeps_coverable_positions (b : Board) (ids : list PieceId)
    (sol : list Placement) :
  solves b ids sol -> hasDeadIslands b (newMinOf ids) = Some false.
Proof. apply hasDeadIslands_cover. Qed.

Lemma pruning_keeps_coverable_positions_witness :
  solves boardOneIsland [idL] [mkPlacement idL [(0,0); (1,0); (2,0)] 0 0 0] /\
  newMinOf [idL] = 3 /\
  hasDeadIslands boardOneIsland (newMinOf [idL]) = Some false.
Proof.
  assert (Hs : solves boardOneIsland [idL] [mkPlacement idL [(0,0); (1,0); (2,0)] 0 0 0]).
  { apply solve_solves. vm_compute. reflexivity. }
  split; [exact Hs|]. split; [reflexivity|].
  exact (pruning_keeps_coverable_positions _ _ _ Hs).
Defined.

(** Started on an empty cell that is not yet visited, with a visited matrix
    that holds whole regions only, [bfsRegionSize] returns the number of
    cells of the region of the start cell and marks exactly the cells of
    that region as visited. *)
Theorem bfsRegionSize_measures_the_region (b : Board) (visited : Visited) (start : Cell) :
  wf_visited visited ->
  (forall x y, visitedAt visited x = true -> emptyCell b x -> adjacent x y ->
               emptyCell b y -> visitedAt visited y = true) ->
  emptyCell b start -> visitedAt visited start = false ->
  exists size visited',
    bfsRegionSize b visited (fst start) (snd start) = Some (size, visited') /\
    wf_visited visited' /\ region_size b start size /\
    (forall y, inGrid (fst y) (snd y) ->
               (visitedAt visited' y = true <->
                visitedAt visited y = true \/ connected b start y)).
Proof. apply bfsRegionSize_spec. Qed.

Lemma bfsRegionSize_measures_the_region_witness :
  emptyCell boardOneIsland (0, 0) /\
  exists visited',
    bfsRegionSize boardOneIsland newVisited 0 0 = Some (3, visited') /\
    region_size boardOneIsland (0, 0) 3 /\
    (visitedAt visited' (2, 0) = true <-> connected boardOneIsland (0, 0) (2, 0)).
Proof.
  assert (Hs : emptyCell boardOneIsland (0, 0)).
  { split; [unfold inGrid, ROWS, COLS; simpl; lia | reflexivity]. }
  split; [exact Hs|].
  destruct (bfsRegionSize_measures_the_region boardOneIsland newVisited (0, 0) newVisited_wf)
    as (size & v' & E & _ & Hsize & Hmark); [|exact Hs|reflexivity|].
  { intros x y Hx. rewrite newVisited_false in Hx. discriminate Hx. }
  assert (E' : exists v, bfsRegionSize boardOneIsland newVisited 0 0 = Some (3, v))
    by (vm_compute; eauto).
  destruct E' as (v & E'). simpl in E. rewrite E' in E. injection E as <- <-.
  exists v. split; [exact E'|]. split; [exact Hsize|].
  rewrite (Hmark (2, 0)) by (unfold inGrid, ROWS, COLS; simpl; lia).
  rewrite newVisited_false. split; [intros [H|H]; [discriminate H | exact H] | now right].
Defined.


(* ================================================================== *)
(** * Part XI: the ordered packer finds a covering when there is one   *)
(* ================================================================== *)

Lemma ordered_success_from (st0 st : OrderedState) (ids : list PieceId) (st' : OrderedState) :
  o_board st = o_board st0 -> o_solution st = o_solution st0 ->
  ordered_success st ids st' -> ordered_success st0 ids st'.
Proof.
  intros Hb Hs (new & H1 & H2 & H3 & H4 & H5). exists new.
  rewrite <- Hb, <- Hs. auto.
Qed.

Section OrderedLoopsCover.
Variable rec : OrderedState -> list PieceId -> Z -> OrderedResult.
Variable depth : nat.
Hypothesis Hrec : forall st ids m,
  (length ids < depth)%nat -> exists r, rec st ids m = Some r /\ ordered_post st r.
Hypothesis Hsound : forall st ids m st',
  (length ids < depth)%nat -> rec st ids m = Some (true, st') -> ordered_success st ids st'.
Hypothesis Hcomplete : forall st ids m st',
  (length ids < depth)%nat -> rec st ids m = Some (false, st') ->
  forall sol, ~ solves (o_board st) ids sol.
Variables targetCol targetRow : Z.

Lemma orderedCells_false (pieceId : PieceId) (newRemaining : list PieceId) (oi : Z)
    (shape : Shape) (cells : list Cell) (st st' : OrderedState) :
  (length newRemaining < depth)%nat ->
  orderedCells rec targetCol targetRow pieceId newRemaining oi shape cells st
  = Some (false, st') ->
  o_board st' = o_board st /\ o_solution st' = o_solution st.
Proof.
  intros Hlen H.
  destruct (orderedCells_post rec depth Hrec targetCol targetRow pieceId newRemaining oi
              shape Hlen cells st) as (r & E & Hp).
  rewrite E in H. injection H as ->. now apply Hp.
Qed.

Lemma orderedOrients_false (pieceId : PieceId) (newRemaining : list PieceId) (oi : Z)
    (orientations : list Shape) (st st' : OrderedState) :
  (length newRemaining < depth)%nat ->
  orderedOrients rec targetCol targetRow pieceId newRemaining oi orientations st
  = Some (false, st') ->
  o_board st' = o_board st /\ o_solution st' = o_solution st.
Proof.
  intros Hlen H.
  destruct (orderedOrients_post rec depth Hrec targetCol targetRow pieceId newRemaining
              Hlen orientations oi st) as (r & E & Hp).
  rewrite E in H. injection H as ->. now apply Hp.
Qed.

Lemma orderedCells_sound (pieceId : PieceId) (newRemaining : list PieceId) (oi : Z)
    (shape : Shape) :
  0 <= oi -> nth_error (ORIENTATIONS pieceId) (Z.to_nat oi) = Some shape ->
  (length newRemaining < depth)%nat ->
  forall cells st st',
    orderedCells rec targetCol targetRow pieceId newRemaining oi shape cells st
    = Some (true, st') ->
    ordered_success st (pieceId :: newRemaining) st'.
Proof.
  intros Hoi Hshape Hlen. induction cells as [|[dc dr] cells IH]; intros st st'; simpl;
    [discriminate|].
  destruct (canPlace (o_board st) shape (targetCol - dc) (targetRow - dr)) eqn:Hcan;
    [|now apply IH].
  destruct (place_remove (o_board st) pieceId shape _ _ Hcan) as (b1 & Hplace & Hremove).
  rewrite Hplace.
  destruct (hasDeadIslands b1 (newMinOf newRemaining)) as [[|]|]; [| |discriminate].
  - rewrite Hremove. intros H. apply IH in H.
    eapply ordered_success_from; [| |exact H]; reflexivity.
  - destruct (rec _ _ _) as [[[|] st2]|] eqn:Hcall; [| |discriminate].
    + intros [= <-]. apply Hsound in Hcall; [|exact Hlen].
      destruct Hcall as (new & H1 & H2 & H3 & (unused & H4) & H5). simpl in H1, H2.
      exists (mkPlacement pieceId shape (targetCol - dc) (targetRow - dr) oi :: new).
      split; [rewrite H1, <- app_assoc; reflexivity|].
      split; [econstructor; simpl; eauto|].
      split; [exact H3|].
      split; [exists unused; simpl; now constructor|].
      constructor; [split; assumption | exact H5].
    + destruct (Hrec (mkOrderedState b1
                  (o_solution st ++ [mkPlacement pieceId shape (targetCol - dc) (targetRow - dr) oi]))
                  newRemaining (newMinOf newRemaining) Hlen) as (r & E & Hp).
      rewrite Hcall in E. injection E as <-.
      destruct (Hp eq_refl) as [Hb Hs]. simpl in Hb, Hs.
      rewrite Hb, Hremove, Hs, removelast_last. intros H. apply IH in H.
      eapply ordered_success_from; [| |exact H]; reflexivity.
Qed.

Lemma orderedCells_complete (pieceId : PieceId) (newRemaining ids : list PieceId) (oi : Z)
    (shape : Shape) :
  (length newRemaining < depth)%nat ->
  (forall q, In q ids -> q <> pieceId -> In q newRemaining) ->
  forall cells st st',
    orderedCells rec targetCol targetRow pieceId newRemaining oi shape cells st
    = Some (false, st') ->
    forall d sol, In d cells -> solves (o_board st) ids sol ->
                  ~ In (tried pieceId shape oi targetCol targetRow d) sol.
Proof.
  intros Hlen Hsub. induction cells as [|[dc dr] cells IH]; intros st st'; simpl;
    [intros _ d sol []|].
  assert (Huse : forall sol, solves (o_board st) ids sol ->
            In (tried pieceId shape oi targetCol targetRow (dc, dr)) sol ->
            canPlace (o_board st) shape (targetCol - dc) (targetRow - dr) = true /\
            forall b1, placePiece (o_board st) pieceId shape (targetCol - dc) (targetRow - dr)
                       = Some b1 ->
                       exists rest, solves b1 newRemaining rest).
  { intros sol Hs Hpl. apply in_split in Hpl as (l1 & l2 & ->).
    destruct (solves_take _ _ _ _ _ Hs) as [Hcan Hrest]. simpl in Hcan, Hrest.
    split; [exact Hcan|]. intros b1 Hb1. exists (l1 ++ l2).
    eapply solves_ids; [|apply Hrest; exact Hb1].
    intros q Hq. apply set_delete_In in Hq as [Hq Hne]. now apply Hsub. }
  assert (Hnext : forall sols,
            orderedCells rec targetCol targetRow pieceId newRemaining oi shape cells
              (mkOrderedState (o_board st) sols) = Some (false, st') ->
            forall d sol, In d cells -> solves (o_board st) ids sol ->
                          ~ In (tried pieceId shape oi targetCol targetRow d) sol).
  { intros sols Hrun d sol Hd Hs. apply (IH _ _ Hrun d sol Hd). exact Hs. }
  destruct (canPlace (o_board st) shape (targetCol - dc) (targetRow - dr)) eqn:Hcan.
  - destruct (place_remove (o_board st) pieceId shape _ _ Hcan) as (b1 & Hplace & Hremove).
    rewrite Hplace.
    destruct (hasDeadIslands b1 (newMinOf newRemaining)) as [[|]|] eqn:Hdead;
      [| |discriminate].
    + rewrite Hremove. intros Hrun d sol [<-|Hd] Hs.
      * intros Hpl. destruct (Huse sol Hs Hpl) as [_ Hrest].
        destruct (Hrest b1 Hplace) as (rest & Hs').
        apply hasDeadIslands_cover in Hs'. congruence.
      * revert d sol Hd Hs. eapply Hnext. exact Hrun.
    + destruct (rec _ _ _) as [[[|] st2]|] eqn:Hcall; [discriminate| |discriminate].
      destruct (Hrec (mkOrderedState b1
                  (o_solution st ++ [mkPlacement pieceId shape (targetCol - dc) (targetRow - dr) oi]))
                  newRemaining (newMinOf newRemaining) Hlen) as (r & E & Hp).
      rewrite Hcall in E. injection E as <-.
      destruct (Hp eq_refl) as [Hb Hs0]. simpl in Hb, Hs0.
      rewrite Hb, Hremove.
      intros Hrun d sol [<-|Hd] Hs.
      * intros Hpl. destruct (Huse sol Hs Hpl) as [_ Hrest].
        destruct (Hrest b1 Hplace) as (rest & Hs').
        eapply Hcomplete; [exact Hlen | exact Hcall | exact Hs'].
      * revert d sol Hd Hs. eapply Hnext. exact Hrun.
  - intros Hrun d sol [<-|Hd] Hs.
    + intros Hpl. destruct (Huse sol Hs Hpl) as [Hcan' _]. congruence.
    + revert d sol Hd Hs. destruct st as [b0 s0]. eapply Hnext. exact Hrun.
Qed.

Lemma orderedOrients_sound (pieceId : PieceId) (newRemaining : list PieceId) :
  (length newRemaining < depth)%nat ->
  forall orientations before oi st st',
    ORIENTATIONS pieceId = before ++ orientations -> oi = Z.of_nat (length before) ->
    orderedOrients rec targetCol targetRow pieceId newRemaining oi orientations st
    = Some (true, st') ->
    ordered_success st (pieceId :: newRemaining) st'.
Proof.
  intros Hlen. induction orientations as [|shape rest IH]; intros before oi st st' Hsplit Hoi;
    simpl; [discriminate|].
  destruct (orderedCells _ _ _ _ _ _ _ _ _) as [[[|] st1]|] eqn:Hcells; [| |discriminate].
  - intros [= <-]. eapply orderedCells_sound; [| | |exact Hcells]; auto; [lia|].
    subst oi. rewrite Nat2Z.id, Hsplit, nth_error_app2, Nat.sub_diag; [reflexivity | lia].
  - intros H. destruct (orderedCells_false _ _ _ _ _ _ _ Hlen Hcells) as [Hb Hs].
    eapply ordered_success_from; [exact Hb | exact Hs |].
    eapply (IH (before ++ [shape])); [| |exact H].
    + now rewrite <- app_assoc.
    + rewrite length_app. simpl. lia.
Qed.

Lemma orderedOrients_complete (pieceId : PieceId) (newRemaining ids : list PieceId) :
  (length newRemaining < depth)%nat ->
  (forall q, In q ids -> q <> pieceId -> In q newRemaining) ->
  forall orientations oi st st',
    orderedOrients rec targetCol targetRow pieceId newRemaining oi orientations st
    = Some (false, st') ->
    forall j shape d sol,
      nth_error orientations j = Some shape -> In d shape ->
      solves (o_board st) ids sol ->
      ~ In (tried pieceId shape (oi + Z.of_nat j) targetCol targetRow d) sol.
Proof.
  intros Hlen Hsub. induction orientations as [|shape0 rest IH]; intros oi st st'; simpl.
  - intros _ [|j] shape d sol H; discriminate H.
  - destruct (orderedCells _ _ _ _ _ _ _ _ _) as [[[|] st1]|] eqn:Hcells;
      [discriminate| |discriminate].
    destruct (orderedCells_false _ _ _ _ _ _ _ Hlen Hcells) as [Hb Hs].
    intros Hrun [|j] shape d sol Hj Hd Hsol.
    + injection Hj as <-. rewrite Z.add_0_r.
      eapply orderedCells_complete; [exact Hlen | exact Hsub | exact Hcells | exact Hd | exact Hsol].
    + simpl in Hj. replace (oi + Z.of_nat (S j)) with ((oi + 1) + Z.of_nat j) by lia.
      eapply (IH (oi + 1) st1 st' Hrun); [exact Hj | exact Hd |].
      rewrite Hb. exact Hsol.
Qed.

Lemma orderedPieces_false :
  forall rest before st st',
    (length (before ++ rest) <= depth)%nat ->
    orderedPieces rec targetCol targetRow before rest st = Some (false, st') ->
    o_board st' = o_board st /\ o_solution st' = o_solution st.
Proof.
  intros rest before st st' Hlen H.
  destruct (orderedPieces_post rec depth Hrec targetCol targetRow rest before st Hlen)
    as (r & E & Hp).
  rewrite E in H. injection H as ->. now apply Hp.
Qed.

Lemma orderedPieces_sound :
  forall rest before st st',
    (length (before ++ rest) <= depth)%nat ->
    orderedPieces rec targetCol targetRow before rest st = Some (true, st') ->
    ordered_success st (before ++ rest) st'.
Proof.
  induction rest as [|pieceId after IH]; intros before st st' Hlen; simpl; [discriminate|].
  assert (Hlen' : (length (before ++ after) < depth)%nat).
  { rewrite length_app in *. simpl in Hlen. lia. }
  destruct (orderedOrients _ _ _ _ _ _ _ _) as [[[|] st1]|] eqn:Hor; [| |discriminate].
  - intros [= <-].
    pose proof (orderedOrients_sound pieceId (before ++ after) Hlen'
                  (ORIENTATIONS pieceId) [] 0 st st1 eq_refl eq_refl Hor)
      as (new & H1 & H2 & H3 & (unused & H4) & H5).
    exists new. repeat (split; [assumption|]). split; [|exact H5].
    exists unused. rewrite <- H4. symmetry. apply Permutation_middle.
  - intros H. destruct (orderedOrients_false _ _ _ _ _ _ Hlen' Hor) as [Hb Hs].
    eapply ordered_success_from; [exact Hb | exact Hs |].
    replace (before ++ pieceId :: after) with ((before ++ [pieceId]) ++ after)
      by (now rewrite <- app_assoc).
    apply IH; [now rewrite <- app_assoc | exact H].
Qed.

Lemma orderedPieces_complete :
  forall rest before st st',
    (length (before ++ rest) <= depth)%nat ->
    orderedPieces rec targetCol targetRow before rest st = Some (false, st') ->
    forall k j shape d sol,
      In k rest -> nth_error (ORIENTATIONS k) j = Some shape -> In d shape ->
      solves (o_board st) (before ++ rest) sol ->
      ~ In (tried k shape (Z.of_nat j) targetCol targetRow d) sol.
Proof.
  induction rest as [|pieceId after IH]; intros before st st' Hlen; simpl.
  - intros _ k j shape d sol [].
  - assert (Hlen' : (length (before ++ after) < depth)%nat).
    { rewrite length_app in *. simpl in Hlen. lia. }
    destruct (orderedOrients _ _ _ _ _ _ _ _) as [[[|] st1]|] eqn:Hor;
      [discriminate| |discriminate].
    destruct (orderedOrients_false _ _ _ _ _ _ Hlen' Hor) as [Hb Hs].
    intros Hrun k j shape d sol [<-|Hk] Hj Hd Hsol.
    + change (Z.of_nat j) with (0 + Z.of_nat j).
      eapply (orderedOrients_complete pieceId (before ++ after) (before ++ pieceId :: after)
                Hlen'); [|exact Hor | exact Hj | exact Hd | exact Hsol].
      intros q Hq Hne. apply in_app_or in Hq as [Hq|[Hq|Hq]];
        [apply in_or_app; now left | congruence | apply in_or_app; now right].
    + eapply (IH (before ++ [pieceId]) st1 st'); [| exact Hrun | exact Hk | exact Hj | exact Hd |].
      * now rewrite <- app_assoc.
      * rewrite Hb, <- app_assoc. exact Hsol.
Qed.
End OrderedLoopsCover.

Lemma _solveOrdered_cover (fuel : nat) :
  (forall st ids m st', (length ids < fuel)%nat ->
     _solveOrdered fuel st ids m = Some (true, st') -> ordered_success st ids st') /\
  (forall st ids m st', (length ids < fuel)%nat ->
     _solveOrdered fuel st ids m = Some (false, st') ->
     forall sol, ~ solves (o_board st) ids sol).
Proof.
  induction fuel as [|fuel [IHs IHc]]; [split; intros; lia|].
  split; intros st ids m st' Hlen; simpl.
  - destruct (findFirstEmpty (o_board st)) as [[tc tr]|] eqn:Hfirst.
    + intros H.
      apply (orderedPieces_sound (_solveOrdered fuel) fuel (_solveOrdered_post fuel) IHs
               tc tr ids [] st st'); [simpl; lia | exact H].
    + intros [= <-]. exists []. rewrite app_nil_r.
      split; [reflexivity|]. split; [constructor|]. split; [exact Hfirst|].
      split; [exists ids; reflexivity | constructor].
  - destruct (findFirstEmpty (o_board st)) as [[tc tr]|] eqn:Hfirst; [|discriminate].
    intros Hrun sol Hs.
    destruct (findFirstEmpty_Some _ _ _ Hfirst) as [Hg Hn].
    destruct (covering_placement _ _ _ _ _ Hs Hg Hn) as (k & j & shape & d & Hk & Hj & Hd & Hpl).
    revert Hpl.
    eapply (orderedPieces_complete (_solveOrdered fuel) fuel (_solveOrdered_post fuel) IHc
              tc tr ids [] st st'); [simpl; lia | exact Hrun | exact Hk | exact Hj | exact Hd
                                     | exact Hs].
Qed.

Lemma solveWithOrder_solves (b : Board) (ids : list PieceId) (sol : list Placement) :
  NoDup ids -> solveWithOrder b ids = Some (Some sol) -> solves b ids sol.
Proof.
  intros Hnd. unfold solveWithOrder, solveWithOrderOn. rewrite cloneBoard_id.
  destruct (_solveOrdered _ _ _ _) as [[[|] st]|] eqn:Hrun; try discriminate.
  simpl. intros [= <-].
  apply (proj1 (_solveOrdered_cover _)) in Hrun; [|lia].
  destruct Hrun as (new & H1 & H2 & H3 & (unused & H4) & H5). simpl in *. subst new.
  assert (Hshapes : Forall (fun pl => NoDup (pl_shape pl)) (o_solution st)).
  { eapply Forall_impl; [|exact H5]. intros pl Hv.
    eapply ORIENTATIONS_NoDup, valid_orientation_In, Hv. }
  destruct (placed_cells _ _ _ H2 Hshapes) as (Hcells & Hcov & Hout).
  rewrite Forall_forall in H5.
  assert (Hnd' : NoDup (map pl_pieceId (o_solution st) ++ unused))
    by (eapply Permutation_NoDup; eassumption).
  split; [|split; [|split; [|split]]].
  - intros pl c r Hpl Hin. apply (Hcov c r). apply in_solutionCells. eauto.
  - exact Hcells.
  - now apply NoDup_app_inv in Hnd'.
  - intros pl Hpl. split; [|now apply H5].
    eapply Permutation_in; [symmetry; exact H4|]. apply in_or_app. left. now apply in_map.
  - intros c r. split.
    + intros Hin. destruct (Hcov c r Hin) as (Hg & Hn & _). now split.
    + intros [Hg Hn].
      destruct (in_dec Cell_eq_dec (c, r) (solutionCells (o_solution st))) as [|Hnin];
        [assumption|].
      pose proof (findFirstEmpty_None _ H3 c r Hg) as Hfull.
      unfold isNull in Hfull, Hn. rewrite (Hout c r Hnin) in Hfull. congruence.
Qed.

Lemma solveWithOrder_complete (b : Board) (ids : list PieceId) :
  solveWithOrder b ids = Some None -> forall sol, ~ solves b ids sol.
Proof.
  unfold solveWithOrder, solveWithOrderOn. rewrite cloneBoard_id.
  destruct (_solveOrdered _ _ _ _) as [[[|] st]|] eqn:Hrun; try discriminate.
  intros _ sol.
  apply (proj2 (_solveOrdered_cover (S (length ids))) (mkOrderedState b []) ids 3 st); [lia|].
  exact Hrun.
Qed.

Lemma solveWithOrder_returns (b : Board) (ids : list PieceId) :
  exists r, solveWithOrder b ids = Some r.
Proof.
  unfold solveWithOrder. destruct (solveWithOrderOn_returns (cloneBoard b) ids) as (r & ->).
  simpl. eauto.
Qed.

(** For a list of distinct piece ids, [solveWithOrder] returns a placement
    list exactly when the empty cells of the board can be covered, each
    once, by distinct pieces of the list; the list it returns is such a
    covering, and it returns [null] exactly when there is none. *)
Theorem solveWithOrder_finds_a_cover_iff_one_exists (b : Board) (orderedPieceIds : list PieceId) :
  NoDup orderedPieceIds ->
  (forall sol, solveWithOrder b orderedPieceIds = Some (Some sol) ->
               solves b orderedPieceIds sol) /\
  ((exists sol, solveWithOrder b orderedPieceIds = Some (Some sol)) <->
   (exists sol, solves b orderedPieceIds sol)) /\
  (solveWithOrder b orderedPieceIds = Some None <->
   (forall sol, ~ solves b orderedPieceIds sol)).
Proof.
  intros Hnd. split; [intros sol; now apply solveWithOrder_solves|].
  destruct (solveWithOrder_returns b orderedPieceIds) as ([sol|] & E).
  - pose proof (solveWithOrder_solves _ _ _ Hnd E) as Hs. split.
    + split; intros _; eauto.
    + split; [rewrite E; discriminate | intros H; exfalso; exact (H sol Hs)].
  - pose proof (solveWithOrder_complete _ _ E) as Hno. split.
    + split; [intros (sol & H); rewrite E in H; discriminate H
             | intros (sol & Hs); exfalso; exact (Hno sol Hs)].
    + split; [intros _; exact Hno | intros _; exact E].
Qed.

Lemma solveWithOrder_finds_a_cover_iff_one_exists_witness :
  NoDup [idL] /\
  solveWithOrder boardOneIsland [idL]
  = Some (Some [mkPlacement idL [(0,0); (1,0); (2,0)] 0 0 0]) /\
  solves boardOneIsland [idL] [mkPlacement idL [(0,0); (1,0); (2,0)] 0 0 0].
Proof.
  assert (Hnd : NoDup [idL]) by (constructor; [intros [] | constructor]).
  assert (Hrun : solveWithOrder boardOneIsland [idL]
                 = Some (Some [mkPlacement idL [(0,0); (1,0); (2,0)] 0 0 0]))
    by (vm_compute; reflexivity).
  split; [exact Hnd|]. split; [exact Hrun|].
  exact (proj1 (solveWithOrder_finds_a_cover_iff_one_exists boardOneIsland [idL] Hnd) _ Hrun).
Defined.


(* ================================================================== *)
(** * Part XII: what the counter counts                                *)
(* ================================================================== *)

Lemma ForallOrdPairs_app {A : Type} (R : A -> A -> Prop) (l1 l2 : list A) :
  ForallOrdPairs R l1 -> ForallOrdPairs R l2 ->
  (forall x y, In x l1 -> In y l2 -> R x y) ->
  ForallOrdPairs R (l1 ++ l2).
Proof.
  induction 1 as [|a l Ha Hl IH]; intros H2 Hx; simpl; [exact H2|].
  constructor.
  - apply Forall_app. split; [exact Ha|].
    apply Forall_forall. intros y Hy. apply Hx; [now left | exact Hy].
  - apply IH; [exact H2|]. intros x y Hin. apply Hx. now right.
Qed.

Lemma ForallOrdPairs_map {A B : Type} (R : A -> A -> Prop) (R' : B -> B -> Prop) (f : A -> B)
    (l : list A) :
  (forall x y, R x y -> R' (f x) (f y)) ->
  ForallOrdPairs R l -> ForallOrdPairs R' (map f l).
Proof.
  intros Hf. induction 1 as [|a l Ha Hl IH]; simpl; constructor; [|exact IH].
  apply Forall_map. eapply Forall_impl; [|exact Ha]. intros y. apply Hf.
Qed.

Lemma distinct_covers_cons (pl : Placement) (L : list (list Placement)) :
  distinct_covers L -> distinct_covers (map (cons pl) L).
Proof.
  apply ForallOrdPairs_map. intros s s' Hne HP. apply Hne.
  eapply Permutation_cons_inv; exact HP.
Qed.

(** In a covering, one placement only covers a given cell. *)
Lemma solves_unique_at (b : Board) (ids : list PieceId) (sol : list Placement)
    (pl pl' : Placement) (x : Cell) :
  solves b ids sol -> In pl sol -> In pl' sol ->
  In x (placementCells pl) -> In x (placementCells pl') -> pl = pl'.
Proof.
  intros Hs Hpl Hpl' Hx Hx'.
  destruct (solves_split _ _ _ _ Hs Hpl) as (l1 & l2 & -> & Hsep).
  apply in_app_or in Hpl' as [Hin|[E|Hin]]; [|exact E|]; exfalso; apply (Hsep x Hx);
    apply in_solutionCells; exists pl'; (split; [apply in_or_app; auto | exact Hx']).
Qed.

Lemma solves_perm (b : Board) (ids : list PieceId) (sol sol' : list Placement) :
  Permutation sol sol' -> solves b ids sol -> solves b ids sol'.
Proof.
  intros HP (H1 & H2 & H3 & H4 & H5).
  assert (HPc : Permutation (solutionCells sol) (solutionCells sol')).
  { unfold solutionCells. clear -HP. induction HP; simpl.
    - reflexivity.
    - now apply Permutation_app_head.
    - rewrite !app_assoc. apply Permutation_app_tail, Permutation_app_comm.
    - etransitivity; eassumption. }
  assert (Hin : forall pl, In pl sol' -> In pl sol)
    by (intros pl; apply Permutation_in; now symmetry).
  split; [|split; [|split; [|split]]].
  - intros pl c r Hpl. apply H1. now apply Hin.
  - eapply Permutation_NoDup; eassumption.
  - eapply Permutation_NoDup; [apply Permutation_map; exact HP | exact H3].
  - intros pl Hpl. apply H4. now apply Hin.
  - intros c r. rewrite <- H5. split; apply Permutation_in; [now symmetry | exact HPc].
Qed.

(** A placement that fits, on top of a covering of what it leaves. *)
Lemma solves_put (b b1 : Board) (ids : list PieceId) (pl : Placement) (s : list Placement) :
  canPlace b (pl_shape pl) (pl_col pl) (pl_row pl) = true ->
  placePiece b (pl_pieceId pl) (pl_shape pl) (pl_col pl) (pl_row pl) = Some b1 ->
  In (pl_pieceId pl) ids -> valid_orientation pl ->
  solves b1 (set_delete (pl_pieceId pl) ids) s ->
  solves b ids (pl :: s).
Proof.
  intros Hcan Hplace Hid Hvo (H1 & H2 & H3 & H4 & H5).
  pose proof (placePiece_spec _ _ _ _ _ _ Hplace) as Hb1. fold (placementCells pl) in Hb1.
  rewrite canPlace_spec in Hcan. fold (placementCells pl) in Hcan.
  assert (Hsep : forall x, In x (placementCells pl) -> ~ In x (solutionCells s)).
  { intros [c r] Hx Hin. apply H5 in Hin as [_ Hn]. unfold isNull in Hn. rewrite Hb1 in Hn.
    destruct (in_dec Cell_eq_dec (c, r) (placementCells pl)); [discriminate | contradiction]. }
  split; [|split; [|split; [|split]]].
  - intros pl' c r [<-|Hpl'] Hin; [now apply Hcan | eapply H1; eassumption].
  - rewrite solutionCells_cons. apply NoDup_app; [|exact H2 | exact Hsep].
    apply cellsAt_NoDup. eapply ORIENTATIONS_NoDup, valid_orientation_In, Hvo.
  - simpl. constructor; [|exact H3]. intros Hin.
    apply in_map_iff in Hin as (pl' & E & Hpl'). destruct (H4 pl' Hpl') as [Hd _].
    apply set_delete_In in Hd. now destruct Hd.
  - intros pl' [<-|Hpl']; [now split|]. destruct (H4 pl' Hpl') as [Hd Hv].
    apply set_delete_In in Hd. now destruct Hd.
  - intros c r. rewrite solutionCells_cons, in_app_iff, H5. unfold isNull at 1. rewrite Hb1.
    destruct (in_dec Cell_eq_dec (c, r) (placementCells pl)) as [Hin|Hnin].
    + split; [intros _; now apply Hcan | intros _; now left].
    + fold (isNull b c r). tauto.
Qed.

Lemma counted_in_nil (B : Placement -> Prop) (maxCount : Z) (b : Board) (ids : list PieceId)
    (c : Z) :
  (forall sol pl, solves b ids sol -> In pl sol -> B pl -> False) ->
  counted_in B maxCount b ids c c [].
Proof.
  intros Hno. split; [simpl; lia|]. split; [constructor|]. split; [constructor|].
  intros _ sol pl Hs Hpl HB. exfalso. eapply Hno; eassumption.
Qed.

Lemma counted_in_perm (B : Placement -> Prop) (maxCount : Z) (b : Board)
    (ids ids' : list PieceId) (c0 c1 : Z) (L : list (list Placement)) :
  Permutation ids ids' ->
  counted_in B maxCount b ids' c0 c1 L -> counted_in B maxCount b ids c0 c1 L.
Proof.
  intros HP (H1 & H2 & H3 & H4). split; [exact H1|]. split; [|split; [exact H3|]].
  - eapply Forall_impl; [|exact H2]. intros s [Hs HB]. split; [|exact HB].
    eapply solves_perm_ids; [symmetry; exact HP | exact Hs].
  - intros Hc sol pl Hs. apply H4; [exact Hc|]. eapply solves_perm_ids; eassumption.
Qed.

Lemma counted_in_ext (B B' : Placement -> Prop) (maxCount : Z) (b : Board)
    (ids : list PieceId) (c0 c1 : Z) (L : list (list Placement)) :
  (forall pl, B pl <-> B' pl) ->
  counted_in B maxCount b ids c0 c1 L -> counted_in B' maxCount b ids c0 c1 L.
Proof.
  intros HB (H1 & H2 & H3 & H4). split; [exact H1|]. split; [|split; [exact H3|]].
  - eapply Forall_impl; [|exact H2]. intros s [Hs (pl & Hpl & Hp)]. split; [exact Hs|].
    exists pl. split; [exact Hpl | now apply HB].
  - intros Hc sol pl Hs Hpl Hp. apply (H4 Hc sol pl Hs Hpl). now apply HB.
Qed.

(** A loop that returns with the cap reached has counted what it says,
    whatever rounds it skipped. *)
Lemma counted_in_capped (B B' : Placement -> Prop) (maxCount : Z) (b : Board)
    (ids : list PieceId) (c0 c1 : Z) (L : list (list Placement)) :
  (forall pl, B pl -> B' pl) -> maxCount <= c1 ->
  counted_in B maxCount b ids c0 c1 L -> counted_in B' maxCount b ids c0 c1 L.
Proof.
  intros HB Hcap (H1 & H2 & H3 & H4). split; [exact H1|]. split; [|split; [exact H3|]].
  - eapply Forall_impl; [|exact H2]. intros s [Hs (pl & Hpl & Hp)]. split; [exact Hs|].
    exists pl. split; [exact Hpl | now apply HB].
  - intros Hc. lia.
Qed.

Section CountLoopsCover.
Variable rec : CountState -> Z -> option CountState.
Variable maxCount : Z.
Variable depth : nat.
Hypothesis Hrec : forall st m,
  NoDup (c_remaining st) -> (length (c_remaining st) < depth)%nat ->
  exists st', rec st m = Some st' /\ count_post maxCount st st'.
Hypothesis Hsem : forall st m st',
  NoDup (c_remaining st) -> (length (c_remaining st) < depth)%nat ->
  rec st m = Some st' ->
  exists L, counted maxCount (c_board st) (c_remaining st) (c_count st) (c_count st') L.
Variables targetCol targetRow : Z.

Lemma tried_covers_target (k : PieceId) (shape : Shape) (oi : Z) (d : Cell) :
  In d shape ->
  In (targetCol, targetRow) (placementCells (tried k shape oi targetCol targetRow d)).
Proof.
  intros Hd. unfold placementCells, tried. simpl. apply in_cellsAt.
  exists d. split; [exact Hd | f_equal; lia].
Qed.

(** Two parts of a loop, one after the other, that try different
    placements on the target cell. *)
Lemma counted_in_app (B1 B2 : Placement -> Prop) (b : Board) (ids : list PieceId)
    (c0 c1 c2 : Z) (L1 L2 : list (list Placement)) :
  (forall pl, B1 pl -> In (targetCol, targetRow) (placementCells pl)) ->
  (forall pl, B2 pl -> In (targetCol, targetRow) (placementCells pl)) ->
  (forall pl, B1 pl -> B2 pl -> False) ->
  counted_in B1 maxCount b ids c0 c1 L1 ->
  counted_in B2 maxCount b ids c1 c2 L2 ->
  counted_in (fun pl => B1 pl \/ B2 pl) maxCount b ids c0 c2 (L1 ++ L2).
Proof.
  intros Ht1 Ht2 Hdisj (Ha1 & Ha2 & Ha3 & Ha4) (Hb1 & Hb2 & Hb3 & Hb4).
  split; [rewrite length_app; lia|]. split; [|split].
  - apply Forall_app. split; (eapply Forall_impl; [|eassumption]);
      intros s [Hs (pl & Hpl & Hp)]; (split; [exact Hs|]); exists pl; auto.
  - apply ForallOrdPairs_app; [exact Ha3 | exact Hb3|].
    intros s s' Hs Hs' HP.
    rewrite Forall_forall in Ha2, Hb2.
    destruct (Ha2 s Hs) as [Hsol (pl & Hpl & Hp)].
    destruct (Hb2 s' Hs') as [Hsol' (pl' & Hpl' & Hp')].
    assert (E : pl = pl').
    { eapply (solves_unique_at _ _ s' pl pl' (targetCol, targetRow)); eauto.
      eapply Permutation_in; eassumption. }
    subst pl'. exact (Hdisj pl Hp Hp').
  - intros Hc sol pl Hs Hpl [Hp|Hp].
    + destruct (Ha4 ltac:(lia) sol pl Hs Hpl Hp) as (s & Hin & HP).
      exists s. split; [apply in_or_app; now left | exact HP].
    + destruct (Hb4 Hc sol pl Hs Hpl Hp) as (s & Hin & HP).
      exists s. split; [apply in_or_app; now right | exact HP].
Qed.

(** One round of the innermost loop that reaches the recursive call. *)
Lemma counted_round (b b1 : Board) (ids : list PieceId) (k : PieceId) (shape : Shape)
    (oi : Z) (d : Cell) (c0 c1 : Z) (L0 : list (list Placement)) :
  0 <= oi -> nth_error (ORIENTATIONS k) (Z.to_nat oi) = Some shape ->
  In k ids ->
  canPlace b shape (targetCol - fst d) (targetRow - snd d) = true ->
  placePiece b k shape (targetCol - fst d) (targetRow - snd d) = Some b1 ->
  counted maxCount b1 (set_delete k ids) c0 c1 L0 ->
  counted_in (B_cells targetCol targetRow k shape oi [d]) maxCount b ids c0 c1
             (map (cons (tried k shape oi targetCol targetRow d)) L0).
Proof.
  intros Hoi Hnth Hk Hcan Hplace (H1 & H2 & H3 & H4).
  set (pl0 := tried k shape oi targetCol targetRow d).
  split; [rewrite length_map; exact H1|]. split; [|split].
  - apply Forall_map. eapply Forall_impl; [|exact H2]. intros s Hs. split.
    + apply (solves_put b b1 ids pl0 s); simpl; auto. split; assumption.
    + exists pl0. split; [now left|]. exists d. split; [now left | reflexivity].
  - now apply distinct_covers_cons.
  - intros Hc sol pl Hs Hpl (d' & [<-|[]] & ->). fold pl0 in Hpl.
    apply in_split in Hpl as (l1 & l2 & ->).
    destruct (solves_take _ _ _ _ _ Hs) as [_ Hrest].
    specialize (Hrest b1 Hplace).
    destruct (H4 Hc _ Hrest) as (s & Hin & HP).
    exists (pl0 :: s). split; [now apply in_map|].
    etransitivity; [symmetry; apply Permutation_middle|]. now constructor.
Qed.

Lemma B_cells_cons (k : PieceId) (shape : Shape) (oi : Z) (d : Cell) (cells : list Cell)
    (pl : Placement) :
  B_cells targetCol targetRow k shape oi [d] pl \/ B_cells targetCol targetRow k shape oi cells pl <->
  B_cells targetCol targetRow k shape oi (d :: cells) pl.
Proof.
  unfold B_cells. split.
  - intros [(d' & [<-|[]] & ->)|(d' & Hd' & ->)]; eexists; split; eauto; [now left | now right].
  - intros (d' & [<-|Hd'] & ->); [left | right]; eexists; split; eauto. now left.
Qed.

Lemma tried_inj (k : PieceId) (shape : Shape) (oi : Z) (d d' : Cell) :
  tried k shape oi targetCol targetRow d = tried k shape oi targetCol targetRow d' -> d = d'.
Proof.
  unfold tried. intros [= H1 H2]. destruct d, d'. simpl in *. f_equal; lia.
Qed.

Lemma countCells_counted (k : PieceId) (oi : Z) (shape : Shape) :
  0 <= oi -> nth_error (ORIENTATIONS k) (Z.to_nat oi) = Some shape ->
  forall cells st r,
    NoDup cells -> incl cells shape ->
    NoDup (c_remaining st) -> In k (c_remaining st) ->
    (length (c_remaining st) <= depth)%nat ->
    countCells rec maxCount targetCol targetRow k shape cells st = Some r ->
    exists L, counted_in (B_cells targetCol targetRow k shape oi cells) maxCount (c_board st) (c_remaining st)
                         (c_count st) (c_count (snd r)) L.
Proof.
  intros Hoi Hnth. induction cells as [|[dc dr] cells IH];
    intros st r Hndc Hincl Hnd Hin Hlen; simpl.
  - intros [= <-]. exists []. apply counted_in_nil. intros sol pl _ _ (d & [] & _).
  - inversion Hndc as [|? ? Hfresh Hndc']; subst.
    assert (Hincl' : incl cells shape) by (intros x Hx; apply Hincl; now right).
    assert (Hd0 : In (dc, dr) shape) by (apply Hincl; now left).
    (* the rounds that follow, run from a state with the same board *)
    assert (Hrest : forall (st1 : CountState) L1,
              c_board st1 = c_board st -> Permutation (c_remaining st) (c_remaining st1) ->
              counted_in (B_cells targetCol targetRow k shape oi [(dc, dr)]) maxCount (c_board st)
                         (c_remaining st) (c_count st) (c_count st1) L1 ->
              countCells rec maxCount targetCol targetRow k shape cells st1 = Some r ->
              exists L, counted_in (B_cells targetCol targetRow k shape oi ((dc, dr) :: cells)) maxCount
                          (c_board st) (c_remaining st) (c_count st) (c_count (snd r)) L).
    { intros st1 L1 Hb Hr HL1 Hrun.
      destruct (IH st1 r Hndc' Hincl') as (L2 & HL2); auto.
      - eapply Permutation_NoDup; eassumption.
      - eapply Permutation_in; eassumption.
      - now rewrite <- (Permutation_length Hr).
      - rewrite Hb in HL2. apply (counted_in_perm _ _ _ _ _ _ _ _ Hr) in HL2.
        exists (L1 ++ L2).
        eapply counted_in_ext; [intros pl; apply B_cells_cons|].
        eapply counted_in_app; [| | |exact HL1 | exact HL2].
        + intros pl (d & [<-|[]] & ->). now apply tried_covers_target.
        + intros pl (d & Hd & ->). apply tried_covers_target. now apply Hincl'.
        + intros pl (d & [<-|[]] & ->) (d' & Hd' & E).
          apply tried_inj in E. subst d'. contradiction. }
    (* a covering that uses the placement of this round *)
    assert (Huse : forall sol pl, solves (c_board st) (c_remaining st) sol -> In pl sol ->
              B_cells targetCol targetRow k shape oi [(dc, dr)] pl ->
              canPlace (c_board st) shape (targetCol - dc) (targetRow - dr) = true /\
              forall b1, placePiece (c_board st) k shape (targetCol - dc) (targetRow - dr)
                         = Some b1 ->
                         exists rest, solves b1 (set_delete k (c_remaining st)) rest).
    { intros sol pl Hs Hpl (d & [<-|[]] & ->). apply in_split in Hpl as (l1 & l2 & ->).
      destruct (solves_take _ _ _ _ _ Hs) as [Hcan Hr]. simpl in Hcan, Hr.
      split; [exact Hcan|]. intros b1 Hb1. exists (l1 ++ l2). now apply Hr. }
    destruct (canPlace (c_board st) shape (targetCol - dc) (targetRow - dr)) eqn:Hcan.
    + destruct (place_remove (c_board st) k shape _ _ Hcan) as (b1 & Hplace & Hremove).
      rewrite Hplace.
      destruct (hasDeadIslands b1 (newMinOf (set_delete k (c_remaining st))))
        as [[|]|] eqn:Hdead; [| |discriminate].
      * rewrite Hremove. intros Hrun.
        eapply (Hrest _ []); [| | |exact Hrun]; simpl; auto.
        -- apply set_add_delete_perm; auto.
        -- apply counted_in_nil. intros sol pl Hs Hpl HB.
           destruct (Huse sol pl Hs Hpl HB) as [_ Hr].
           destruct (Hr b1 Hplace) as (rest & Hs').
           apply hasDeadIslands_cover in Hs'. congruence.
      * destruct (rec _ _) as [st2|] eqn:Hcall; [|discriminate].
        assert (Hnd1 : NoDup (set_delete k (c_remaining st))) by now apply set_delete_NoDup.
        assert (Hlen1 : (length (set_delete k (c_remaining st)) < depth)%nat).
        { pose proof (set_delete_length _ _ Hnd Hin). lia. }
        destruct (Hrec (mkCountState b1 (set_delete k (c_remaining st)) (c_count st))
                       (newMinOf (set_delete k (c_remaining st))) Hnd1 Hlen1)
          as (st2' & E & Hb & Hr & Hc).
        rewrite Hcall in E. injection E as <-. simpl in Hb, Hr, Hc.
        destruct (Hsem (mkCountState b1 (set_delete k (c_remaining st)) (c_count st))
                       _ _ Hnd1 Hlen1 Hcall) as (L0 & HL0). simpl in HL0.
        pose proof (counted_round (c_board st) b1 (c_remaining st) k shape oi (dc, dr)
                      (c_count st) (c_count st2) L0 Hoi Hnth Hin Hcan Hplace HL0) as HL1.
        rewrite Hb, Hremove.
        destruct (Z.geb_spec (c_count st2) maxCount) as [Hcap|Hgo].
        -- intros [= <-]. simpl. eexists.
           eapply counted_in_capped; [| |exact HL1]; [|exact Hcap].
           intros pl HB. apply B_cells_cons. now left.
        -- intros Hrun.
           eapply (Hrest (mkCountState (c_board st) (set_add k (c_remaining st2))
                            (c_count st2)) _); [| |exact HL1 |exact Hrun]; simpl; auto.
           apply set_add_delete_perm; auto.
    + intros Hrun. eapply (Hrest st []); [| | |exact Hrun]; auto.
      apply counted_in_nil. intros sol pl Hs Hpl HB.
      destruct (Huse sol pl Hs Hpl HB) as [Hcan' _]. congruence.
Qed.

Lemma B_orients_cons (k : PieceId) (oi : Z) (shape0 : Shape) (rest : list Shape)
    (pl : Placement) :
  B_cells targetCol targetRow k shape0 oi shape0 pl \/ B_orients targetCol targetRow k (oi + 1) rest pl <->
  B_orients targetCol targetRow k oi (shape0 :: rest) pl.
Proof.
  unfold B_cells, B_orients. split.
  - intros [(d & Hd & ->)|(j & shape & d & Hj & Hd & ->)].
    + exists O, shape0, d. rewrite Z.add_0_r. auto.
    + exists (S j), shape, d. split; [exact Hj|]. split; [exact Hd|]. f_equal. lia.
  - intros ([|j] & shape & d & Hj & Hd & ->).
    + injection Hj as <-. left. exists d. rewrite Z.add_0_r. auto.
    + right. exists j, shape, d. split; [exact Hj|]. split; [exact Hd|]. f_equal. lia.
Qed.

Lemma countOrients_counted (k : PieceId) :
  forall orientations before oi st r,
    ORIENTATIONS k = before ++ orientations -> oi = Z.of_nat (length before) ->
    NoDup (c_remaining st) -> In k (c_remaining st) ->
    (length (c_remaining st) <= depth)%nat ->
    countOrients rec maxCount targetCol targetRow k orientations st = Some r ->
    exists L, counted_in (B_orients targetCol targetRow k oi orientations) maxCount (c_board st)
                         (c_remaining st) (c_count st) (c_count (snd r)) L.
Proof.
  induction orientations as [|shape0 rest IH]; intros before oi st r Hsplit Hoi Hnd Hin Hlen;
    simpl.
  - intros [= <-]. exists []. apply counted_in_nil.
    intros sol pl _ _ ([|j] & shape & d & Hj & _); discriminate Hj.
  - assert (Hnth : nth_error (ORIENTATIONS k) (Z.to_nat oi) = Some shape0).
    { subst oi. rewrite Nat2Z.id, Hsplit, nth_error_app2, Nat.sub_diag; [reflexivity | lia]. }
    assert (Hoi0 : 0 <= oi) by lia.
    destruct (countCells_post rec maxCount depth Hrec targetCol targetRow k shape0 shape0 st
                Hnd Hin Hlen) as ([ok st1] & E & (Hb & Hr & Hc) & Hf).
    rewrite E. simpl in Hb, Hr, Hc, Hf.
    destruct (countCells_counted k oi shape0 Hoi0 Hnth shape0 st (ok, st1)) as (L1 & HL1);
      auto.
    { eapply ORIENTATIONS_NoDup. eapply nth_error_In. exact Hnth. }
    { apply incl_refl. }
    simpl in HL1. destruct ok.
    + intros [= <-]. exists L1. simpl.
      eapply counted_in_capped; [| |exact HL1]; [|now apply Hf].
      intros pl HB. apply B_orients_cons. now left.
    + intros Hrun.
      destruct (IH (before ++ [shape0]) (oi + 1) st1 r) as (L2 & HL2); auto.
      * now rewrite <- app_assoc.
      * rewrite length_app. simpl. lia.
      * eapply Permutation_NoDup; eassumption.
      * eapply Permutation_in; eassumption.
      * now rewrite <- (Permutation_length Hr).
      * rewrite Hb in HL2. apply (counted_in_perm _ _ _ _ _ _ _ _ Hr) in HL2.
        exists (L1 ++ L2).
        eapply counted_in_ext; [intros pl; apply B_orients_cons|].
        eapply counted_in_app; [| | |exact HL1 | exact HL2].
        -- intros pl (d & Hd & ->). now apply tried_covers_target.
        -- intros pl (j & shape & d & Hj & Hd & ->). now apply tried_covers_target.
        -- intros pl (d & Hd & ->) (j & shape & d' & Hj & Hd' & E').
           unfold tried in E'. injection E' as _ _ _ E'. lia.
Qed.

Lemma B_pieces_cons (k : PieceId) (rest : list PieceId) (pl : Placement) :
  B_orients targetCol targetRow k 0 (ORIENTATIONS k) pl \/ B_pieces targetCol targetRow rest pl <-> B_pieces targetCol targetRow (k :: rest) pl.
Proof.
  unfold B_orients, B_pieces. split.
  - intros [(j & shape & d & Hj & Hd & ->)|(k' & j & shape & d & Hk & Hj & Hd & ->)].
    + exists k, j, shape, d. split; [now left|]. auto.
    + exists k', j, shape, d. split; [now right|]. auto.
  - intros (k' & j & shape & d & [<-|Hk] & Hj & Hd & ->).
    + left. exists j, shape, d. auto.
    + right. exists k', j, shape, d. auto.
Qed.

Lemma countPieces_counted :
  forall pieceIds st r,
    NoDup pieceIds ->
    NoDup (c_remaining st) -> (forall k, In k pieceIds -> In k (c_remaining st)) ->
    (length (c_remaining st) <= depth)%nat ->
    countPieces rec maxCount targetCol targetRow pieceIds st = Some r ->
    exists L, counted_in (B_pieces targetCol targetRow pieceIds) maxCount (c_board st) (c_remaining st)
                         (c_count st) (c_count (snd r)) L.
Proof.
  induction pieceIds as [|k rest IH]; intros st r Hndp Hnd Hin Hlen; simpl.
  - intros [= <-]. exists []. apply counted_in_nil.
    intros sol pl _ _ (k & j & shape & d & [] & _).
  - inversion Hndp as [|? ? Hfresh Hndp']; subst.
    assert (Hk : In k (c_remaining st)) by (apply Hin; now left).
    destruct (countOrients_post rec maxCount depth Hrec targetCol targetRow k
                (ORIENTATIONS k) st Hnd Hk Hlen) as ([ok st1] & E & (Hb & Hr & Hc) & Hf).
    rewrite E. simpl in Hb, Hr, Hc, Hf.
    destruct (countOrients_counted k (ORIENTATIONS k) [] 0 st (ok, st1) eq_refl eq_refl
                Hnd Hk Hlen E) as (L1 & HL1).
    simpl in HL1. destruct ok.
    + intros [= <-]. exists L1. simpl.
      eapply counted_in_capped; [| |exact HL1]; [|now apply Hf].
      intros pl HB. apply B_pieces_cons. now left.
    + intros Hrun.
      destruct (IH st1 r) as (L2 & HL2); auto.
      * eapply Permutation_NoDup; eassumption.
      * intros q Hq. eapply Permutation_in; [exact Hr|]. apply Hin. now right.
      * now rewrite <- (Permutation_length Hr).
      * rewrite Hb in HL2. apply (counted_in_perm _ _ _ _ _ _ _ _ Hr) in HL2.
        exists (L1 ++ L2).
        eapply counted_in_ext; [intros pl; apply B_pieces_cons|].
        eapply counted_in_app; [| | |exact HL1 | exact HL2].
        -- intros pl (j & shape & d & Hj & Hd & ->). now apply tried_covers_target.
        -- intros pl (k' & j & shape & d & Hk' & Hj & Hd & ->). now apply tried_covers_target.
        -- intros pl (j & shape & d & Hj & Hd & ->) (k' & j' & shape' & d' & Hk' & _ & _ & E').
           unfold tried in E'. injection E' as <-. contradiction.
Qed.
End CountLoopsCover.

Lemma pieceSize_pos (k : PieceId) : 0 < pieceSize k.
Proof. destruct k; vm_compute; reflexivity. Qed.

(** On a full board the empty list is the one covering. *)
Lemma solves_full (b : Board) (ids : list PieceId) :
  findFirstEmpty b = None ->
  solves b ids [] /\ forall sol, solves b ids sol -> sol = [].
Proof.
  intros Hfull. pose proof (findFirstEmpty_None _ Hfull) as Hno. split.
  - split; [intros pl c r []|]. split; [constructor|]. split; [constructor|].
    split; [intros pl []|]. intros c r. split; [intros []|].
    intros [Hg Hn]. rewrite (Hno c r Hg) in Hn. discriminate Hn.
  - intros [|pl rest] Hs; [reflexivity|]. exfalso.
    pose proof Hs as (_ & _ & _ & Hval & Hcov).
    destruct (Hval pl (or_introl eq_refl)) as [_ Hvo].
    pose proof (ORIENTATIONS_length _ _ (valid_orientation_In _ Hvo)) as Hlen.
    pose proof (pieceSize_pos (pl_pieceId pl)) as Hpos.
    destruct (pl_shape pl) as [|[dc dr] t] eqn:Eshape; [simpl in Hlen; lia|].
    assert (Hin : In (pl_col pl + dc, pl_row pl + dr) (solutionCells (pl :: rest))).
    { rewrite solutionCells_cons. apply in_or_app. left.
      unfold placementCells. rewrite Eshape. now left. }
    apply Hcov in Hin as [Hg Hn]. rewrite (Hno _ _ Hg) in Hn. discriminate Hn.
Qed.

Lemma _countSolve_counted (maxCount : Z) (fuel : nat) :
  forall st m st',
    NoDup (c_remaining st) -> (length (c_remaining st) < fuel)%nat ->
    _countSolve fuel maxCount st m = Some st' ->
    exists L, counted maxCount (c_board st) (c_remaining st) (c_count st) (c_count st') L.
Proof.
  induction fuel as [|fuel IH]; intros st m st' Hnd Hlen; [lia|]. cbn [_countSolve].
  destruct (Z.geb_spec (c_count st) maxCount) as [Hcap|Hgo].
  - intros [= <-]. exists []. split; [simpl; lia|]. split; [constructor|].
    split; [constructor|]. intros Hc. lia.
  - destruct (findFirstEmpty (c_board st)) as [[tc tr]|] eqn:Hfirst.
    + destruct (countPieces _ _ _ _ _ _) as [[ok st1]|] eqn:Hrun; [|discriminate].
      simpl. intros [= <-].
      destruct (countPieces_counted (fun s m => _countSolve fuel maxCount s m) maxCount fuel
                  (_countSolve_post maxCount fuel) IH tc tr (c_remaining st) st (ok, st1))
        as (L & H1 & H2 & H3 & H4); auto; [lia|].
      exists L. simpl in *. split; [exact H1|]. split; [|split; [exact H3|]].
      * eapply Forall_impl; [|exact H2]. now intros s [Hs _].
      * intros Hc sol Hs.
        destruct (findFirstEmpty_Some _ _ _ Hfirst) as [Hg Hn].
        destruct (covering_placement _ _ _ _ _ Hs Hg Hn)
          as (k & j & shape & d & Hk & Hj & Hd & Hpl).
        apply (H4 Hc sol _ Hs Hpl). exists k, j, shape, d. auto.
    + intros [= <-]. simpl. destruct (solves_full _ (c_remaining st) Hfirst) as [Hnil Honly].
      exists [[]]. split; [simpl; lia|]. split; [now constructor|].
      split; [repeat constructor|].
      intros _ sol Hs. exists []. split; [now left|]. now rewrite (Honly sol Hs).
Qed.

Lemma counted_ids (maxCount : Z) (b : Board) (ids ids' : list PieceId) (c0 c1 : Z)
    (L : list (list Placement)) :
  (forall k, In k ids <-> In k ids') ->
  counted maxCount b ids c0 c1 L -> counted maxCount b ids' c0 c1 L.
Proof.
  intros Hiff (H1 & H2 & H3 & H4). split; [exact H1|]. split; [|split; [exact H3|]].
  - eapply Forall_impl; [|exact H2]. intros s. apply solves_ids. intros k. apply Hiff.
  - intros Hc sol Hs. apply (H4 Hc). eapply solves_ids; [|exact Hs]. intros k. apply Hiff.
Qed.

(** What [countSolutions] returns is a number of coverings. *)
Lemma countSolutions_counted (b : Board) (ids : list PieceId) (maxCount : Z) :
  exists n L, countSolutions b ids maxCount = Some n /\ counted maxCount b ids 0 n L.
Proof.
  unfold countSolutions, countSolutionsOn. rewrite cloneBoard_id.
  destruct (set_of_list_spec ids) as [Hnd Hids].
  destruct (_countSolve_post maxCount (S (length (set_of_list ids)))
              (mkCountState b (set_of_list ids) 0) 3 Hnd) as (st' & E & _); [simpl; lia|].
  destruct (_countSolve_counted maxCount (S (length (set_of_list ids)))
              (mkCountState b (set_of_list ids) 0) 3 st' Hnd ltac:(simpl; lia) E) as (L & HL).
  rewrite E. simpl in *. exists (c_count st'), L. split; [reflexivity|].
  eapply counted_ids; [exact Hids | exact HL].
Qed.

(** [countSolutions] returns the number of coverings of the empty cells of
    the board by distinct pieces of the list, counted up to the order of
    their placements, or the cap if there are at least that many: it
    returns a number [n] for which [n] different coverings exist, and if
    [n] is below the cap every covering is one of them. *)
Theorem countSolutions_counts_the_coverings (b : Board) (availablePieceIds : list PieceId)
    (maxCount : Z) :
  exists n L,
    countSolutions b availablePieceIds maxCount = Some n /\
    Z.of_nat (length L) = n /\
    Forall (solves b availablePieceIds) L /\
    distinct_covers L /\
    (n < maxCount ->
     forall sol, solves b availablePieceIds sol -> exists s, In s L /\ Permutation sol s).
Proof.
  destruct (countSolutions_counted b availablePieceIds maxCount) as (n & L & E & H1 & H2).
  exists n, L. split; [exact E|]. split; [lia | exact H2].
Qed.

(** With the cap 2 the answer tells the three cases apart. *)
Lemma countSolutions_two (b : Board) (ids : list PieceId) :
  (countSolutions b ids 2 = Some 0 /\ forall sol, ~ solves b ids sol) \/
  (countSolutions b ids 2 = Some 1 /\
   exists sol, solves b ids sol /\ forall sol', solves b ids sol' -> Permutation sol' sol) \/
  (countSolutions b ids 2 = Some 2 /\
   exists sol sol', solves b ids sol /\ solves b ids sol' /\ ~ Permutation sol sol').
Proof.
  destruct (countSolutions_counted b ids 2) as (n & L & E & H1 & H2 & H3 & H4).
  assert (Hn : 0 <= n <= 2).
  { unfold countSolutions in E. rewrite cloneBoard_id in E.
    destruct (countSolutionsOn_spec b ids 2 ltac:(lia)) as (n' & E' & Hn').
    rewrite E' in E. simpl in E. injection E as <-. exact Hn'. }
  assert (Hcase : n = 0 \/ n = 1 \/ n = 2) by lia.
  destruct Hcase as [-> | [-> | ->]].
  - left. split; [exact E|]. intros sol Hs.
    destruct (H4 ltac:(lia) sol Hs) as (s & Hin & _).
    destruct L; [contradiction | simpl in H1; lia].
  - right; left. split; [exact E|].
    destruct L as [|s [|s' L]]; simpl in H1; try lia.
    exists s. split; [now inversion H2|].
    intros sol' Hs'. destruct (H4 ltac:(lia) sol' Hs') as (s0 & [<-|[]] & HP). exact HP.
  - right; right. split; [exact E|].
    destruct L as [|s [|s' [|s'' L]]]; simpl in H1; try lia.
    exists s, s'. inversion H2 as [|? ? Hs HF]; subst. inversion HF as [|? ? Hs' _]; subst.
    split; [exact Hs|]. split; [exact Hs'|].
    inversion H3 as [|? ? Hd _]; subst. now inversion Hd.
Qed.

(** With the cap 2, [countSolutions] returns 0 exactly when the empty cells
    cannot be covered, 1 exactly when they can be covered in one way only
    (up to the order of the placements), and 2 exactly when they can be
    covered in two different ways. *)
Theorem countSolutions_one_iff_unique_cover (b : Board) (availablePieceIds : list PieceId) :
  (countSolutions b availablePieceIds 2 = Some 0 <->
   forall sol, ~ solves b availablePieceIds sol) /\
  (countSolutions b availablePieceIds 2 = Some 1 <->
   exists sol, solves b availablePieceIds sol /\
               forall sol', solves b availablePieceIds sol' -> Permutation sol' sol) /\
  (countSolutions b availablePieceIds 2 = Some 2 <->
   exists sol sol', solves b availablePieceIds sol /\ solves b availablePieceIds sol' /\
                    ~ Permutation sol sol').
Proof.
  destruct (countSolutions_two b availablePieceIds)
    as [[E Hnone]|[[E (s & Hs & Huniq)]|[E (s & s' & Hs & Hs' & Hne)]]];
    rewrite E; (split; [|split]); split; try discriminate; try (intros _; assumption);
    try (intros _; eauto; fail).
  - intros (sol & Hsol & _). exfalso. exact (Hnone sol Hsol).
  - intros (sol & sol' & Hsol & _). exfalso. exact (Hnone sol Hsol).
  - intros Hnone. exfalso. exact (Hnone s Hs).
  - intros (sol & sol' & Hsol & Hsol' & Hne). exfalso. apply Hne.
    etransitivity; [apply Huniq; exact Hsol | symmetry; apply Huniq; exact Hsol'].
  - intros Hnone. exfalso. exact (Hnone s Hs).
  - intros (sol & Hsol & Huniq). exfalso. apply Hne.
    etransitivity; [apply Huniq; exact Hs | symmetry; apply Huniq; exact Hs'].
Qed.


(* ================================================================== *)
(** * Part XIII: the challenges and their completions                  *)
(* ================================================================== *)

(** ** [generateChallenge] returns puzzles with one completion *)

Lemma generateChallenge_unique
    (shuffle : nat -> list Placement -> list Placement) (difficulty : Z)
    (g : GeneratedChallenge) :
  generateChallenge shuffle difficulty = Some (Some g) ->
  exists sol a testBoard,
    let preCount := Z.to_nat (Z.max 5 (10 - difficulty)) in
    let playerIds := map pl_pieceId (skipn preCount (shuffle a sol)) in
    solve createEmptyBoard (map p_id PIECES) = Some (Some sol) /\
    (a < 100)%nat /\
    g = mkGenerated (map lockedOf (firstn preCount (shuffle a sol))) sol /\
    placeAll createEmptyBoard (firstn preCount (shuffle a sol)) = Some testBoard /\
    exists s, solves testBoard playerIds s /\
              forall s', solves testBoard playerIds s' -> Permutation s' s.
Proof.
  intros H.
  destruct (generateChallenge_accepts_count_one _ _ _ H)
    as (sol & a & tb & Hsolve & Ha & Hboard & Hcount & Hg).
  exists sol, a, tb. cbv zeta. split; [exact Hsolve|]. split; [exact Ha|].
  split; [exact Hg|]. split; [exact Hboard|].
  destruct (countSolutions_two tb
              (map pl_pieceId (skipn (Z.to_nat (Z.max 5 (10 - difficulty))) (shuffle a sol))))
    as [[E _]|[[_ Huniq]|[E _]]]; [congruence | exact Huniq | congruence].
Qed.

(** Whatever order the random comparator produces, a descriptor that
    [generateChallenge] returns locks the first [max(5, 10 - difficulty)]
    placements of a reordering of the packer's solution, and on the board
    that holds them the remaining pieces have exactly one covering of the
    empty cells, up to the order of the placements. *)
Theorem generateChallenge_emits_unique_puzzles
    (shuffle : nat -> list Placement -> list Placement) (difficulty : Z)
    (g : GeneratedChallenge) :
  generateChallenge shuffle difficulty = Some (Some g) ->
  exists sol a testBoard,
    let preCount := Z.to_nat (Z.max 5 (10 - difficulty)) in
    let playerIds := map pl_pieceId (skipn preCount (shuffle a sol)) in
    solve createEmptyBoard (map p_id PIECES) = Some (Some sol) /\
    (a < 100)%nat /\
    g = mkGenerated (map lockedOf (firstn preCount (shuffle a sol))) sol /\
    placeAll createEmptyBoard (firstn preCount (shuffle a sol)) = Some testBoard /\
    exists s, solves testBoard playerIds s /\
              forall s', solves testBoard playerIds s' -> Permutation s' s.
Proof. apply generateChallenge_unique. Qed.

Lemma generateChallenge_emits_unique_puzzles_witness :
  exists g,
    generateChallenge (fun _ l => l) 1 = Some (Some g) /\
    length (g_prePlaced g) = 9%nat /\
    exists testBoard s,
      placeAll createEmptyBoard (firstn 9 firstSolution) = Some testBoard /\
      solves testBoard [idL; idH; idC] s /\
      forall s', solves testBoard [idL; idH; idC] s' -> Permutation s' s.
Proof.
  assert (H : exists g, generateChallenge (fun _ l => l) 1 = Some (Some g))
    by (vm_compute; eauto).
  destruct H as (g & H). exists g. split; [exact H|].
  destruct (generateChallenge_emits_unique_puzzles _ _ _ H)
    as (sol & a & tb & Hsolve & Ha & Hg & Hboard & s & Hs & Huniq).
  change (map p_id PIECES) with allIds in Hsolve.
  rewrite solve_empty_board in Hsolve. injection Hsolve as <-.
  split; [rewrite Hg; reflexivity|].
  exists tb, s. split; [exact Hboard|]. split; [exact Hs | exact Huniq].
Defined.


(* ================================================================== *)
(** * Part XIV: canonical shapes, keys and the eight images            *)
(* ================================================================== *)

(** ** [normalize] picks a canonical form *)

Lemma normalize_canonical (s s' : Shape) :
  congruent s s' ->
  normalize s' = normalize s /\
  normalize (normalize s) = normalize s /\
  congruent s (normalize s).
Proof.
  intros H. split; [now apply normalize_of_congruent|].
  split; [apply normalize_idem | apply normalize_congruent].
Qed.

(** Two shapes that list the same cells up to one translation and the
    order of the cells have the same normal form; normalizing a normal form
    changes nothing; and the normal form lists the cells of the shape, moved
    by one offset. *)
Theorem normalize_gives_one_form_per_shape (s s' : Shape) :
  congruent s s' ->
  normalize s' = normalize s /\
  normalize (normalize s) = normalize s /\
  congruent s (normalize s).
Proof. apply normalize_canonical. Qed.

Lemma normalize_gives_one_form_per_shape_witness :
  congruent [(0,0); (1,0); (2,0); (2,1)] [(7,4); (5,3); (7,3); (6,3)] /\
  normalize [(7,4); (5,3); (7,3); (6,3)] = [(0,0); (1,0); (2,0); (2,1)] /\
  normalize [(0,0); (1,0); (2,0); (2,1)] = [(0,0); (1,0); (2,0); (2,1)].
Proof.
  assert (Hc : congruent [(0,0); (1,0); (2,0); (2,1)] [(7,4); (5,3); (7,3); (6,3)]).
  { exists 5, 3. simpl.
    apply (perm_trans (l' := [(5,3); (7,4); (7,3); (6,3)])); [apply perm_swap|].
    apply perm_skip.
    apply (perm_trans (l' := [(7,3); (7,4); (6,3)])); [apply perm_swap|].
    apply (perm_trans (l' := [(7,3); (6,3); (7,4)])); [apply perm_skip, perm_swap|].
    apply perm_swap. }
  split; [exact Hc|].
  destruct (normalize_gives_one_form_per_shape _ _ Hc) as (H1 & H2 & _).
  split; [rewrite H1|]; reflexivity.
Defined.

(** ** [shapeKey] tells shapes apart *)

Lemma plain_uint (d : Decimal.uint) : plain (NilEmpty.string_of_uint d).
Proof. induction d; simpl; try exact I; (split; [split; discriminate | assumption]). Qed.

Lemma plain_num (z : Z) : plain (num_to_string z).
Proof.
  unfold num_to_string. destruct (Z.to_int z); simpl; [apply plain_uint|].
  split; [split; discriminate | apply plain_uint].
Qed.

Lemma num_to_string_inj (z z' : Z) : num_to_string z = num_to_string z' -> z = z'.
Proof.
  unfold num_to_string. intros H.
  apply (f_equal NilEmpty.int_of_string) in H. rewrite !NilEmpty.isi in H.
  injection H as H. apply (f_equal Z.of_int) in H. now rewrite !DecimalZ.of_to in H.
Qed.

Lemma split_at_comma (a a' t t' : string) :
  plain a -> plain a' ->
  (a ++ String "," t = a' ++ String "," t')%string -> a = a' /\ t = t'.
Proof.
  revert a'. induction a as [|x a IH]; intros [|x' a'] Ha Ha'; simpl.
  - intros [= ->]. now split.
  - intros [= <- _]. destruct Ha' as [[Hx _] _]. now elim Hx.
  - intros [= -> _]. destruct Ha as [[Hx _] _]. now elim Hx.
  - intros [= <- H]. destruct Ha as [_ Ha], Ha' as [_ Ha'].
    destruct (IH a' Ha Ha' H) as [-> ->]. now split.
Qed.

Lemma split_at_tail (a a' t t' : string) :
  plain a -> plain a' -> key_tail t -> key_tail t' ->
  (a ++ t = a' ++ t')%string -> a = a' /\ t = t'.
Proof.
  revert a'. induction a as [|x a IH]; intros [|x' a'] Ha Ha' Ht Ht'; simpl.
  - intros ->. now split.
  - intros E. destruct Ha' as [[_ Hx] _].
    destruct Ht as [-> | (u & ->)]; [discriminate E|]. injection E as <- _. now elim Hx.
  - intros E. destruct Ha as [[_ Hx] _].
    destruct Ht' as [-> | (u & ->)]; [discriminate E|]. injection E as -> _. now elim Hx.
  - intros [= <- H]. destruct Ha as [_ Ha], Ha' as [_ Ha'].
    destruct (IH a' Ha Ha' Ht Ht' H) as [-> ->]. now split.
Qed.

Lemma append_assoc3 (a b c : string) : ((a ++ b) ++ c = a ++ (b ++ c))%string.
Proof. induction a as [|x a IH]; simpl; [reflexivity | now rewrite IH]. Qed.

Lemma concat_cons (x : string) (l : list string) :
  String.concat "|" (x :: l) = (x ++ keyRest l)%string.
Proof.
  destruct l as [|y l]; simpl; [|reflexivity].
  induction x as [|a x IH]; simpl; [reflexivity | now rewrite <- IH].
Qed.

Lemma shapeKey_cons (p : Cell) (s : Shape) :
  shapeKey (p :: s) = (cellKey p ++ keyRest (map cellKey s))%string.
Proof.
  unfold shapeKey. cbn [map]. rewrite concat_cons. destruct p as [c r]. reflexivity.
Qed.

Lemma cellKey_split (p p' : Cell) (t t' : string) :
  key_tail t -> key_tail t' ->
  (cellKey p ++ t = cellKey p' ++ t')%string -> p = p' /\ t = t'.
Proof.
  destruct p as [c r], p' as [c' r']. unfold cellKey. intros Ht Ht'.
  rewrite !append_assoc3. cbn [append]. intros H.
  apply split_at_comma in H; try apply plain_num. destruct H as [Hc H].
  apply split_at_tail in H; try apply plain_num; try assumption. destruct H as [Hr H].
  apply num_to_string_inj in Hc, Hr. now subst.
Qed.

Lemma keyRest_tail (l : list string) : key_tail (keyRest l).
Proof. destruct l; [now left | right; eexists; reflexivity]. Qed.

Lemma cellKey_nonempty (p : Cell) (t : string) : (cellKey p ++ t)%string <> EmptyString.
Proof.
  destruct p as [c r]. unfold cellKey. destruct (num_to_string c); discriminate.
Qed.

Lemma shapeKey_inj (s s' : Shape) : shapeKey s = shapeKey s' -> s = s'.
Proof.
  revert s'. induction s as [|p s IH]; intros [|p' s'].
  - reflexivity.
  - rewrite shapeKey_cons. change (shapeKey []) with EmptyString.
    intros H. symmetry in H. now apply cellKey_nonempty in H.
  - rewrite shapeKey_cons. change (shapeKey []) with EmptyString.
    intros H. now apply cellKey_nonempty in H.
  - rewrite !shapeKey_cons. intros H.
    apply cellKey_split in H; try apply keyRest_tail. destruct H as [-> H]. f_equal.
    apply IH.
    change (shapeKey s) with (String.concat "|" (map cellKey s)).
    change (shapeKey s') with (String.concat "|" (map cellKey s')).
    destruct (map cellKey s), (map cellKey s'); cbn [keyRest] in H; try discriminate H;
      [reflexivity | now injection H].
Qed.

(** Two shapes with integer coordinates have the same key only if they are
    the same list of cells: the set of keys that [getAllOrientations] keeps
    never takes two different shapes for one. *)
Theorem shapeKey_is_injective (s s' : Shape) : shapeKey s = shapeKey s' <-> s = s'.
Proof. split; [apply shapeKey_inj | now intros ->]. Qed.

(** ** The orientations are the eight images *)

Lemma rotate_normalize (x : Shape) : rotate90CW (normalize x) = normalize (map turn x).
Proof.
  destruct (rotate90CW_is_normalize (normalize x)) as (y & E & _).
  rewrite <- (normalized_fixed _ (ex_intro _ y E)).
  apply normalize_of_congruent.
  eapply congruent_trans; [|apply rotate90CW_congruent].
  apply map_turn_congruent, normalize_congruent.
Qed.

Lemma flip_normalize (x : Shape) : flipH (normalize x) = normalize (map mirror x).
Proof.
  destruct (flipH_is_normalize (normalize x)) as (y & E & _).
  rewrite <- (normalized_fixed _ (ex_intro _ y E)).
  apply normalize_of_congruent.
  eapply congruent_trans; [|apply flipH_congruent].
  apply map_mirror_congruent, normalize_congruent.
Qed.

Lemma rotations_members (n : nat) :
  forall current st,
    fst st = map shapeKey (snd st) ->
    fst (rotations n current st) = map shapeKey (snd (rotations n current st)) /\
    forall o, In o (snd (rotations n current st)) <-> In o (snd st) \/ In o (rot_list n current).
Proof.
  induction n as [|n IH]; intros current [seen os] Hinv.
  - simpl. split; [exact Hinv | intros o; tauto].
  - cbn [rotations rot_list fst snd] in *.
    destruct (existsb (String.eqb (shapeKey current)) seen) eqn:Hseen.
    + destruct (IH (rotate90CW current) (seen, os) Hinv) as [H1 H2].
      split; [exact H1|]. intros o. rewrite H2. cbn [snd In].
      assert (Hcur : In current os).
      { apply existsb_string_In in Hseen. rewrite Hinv in Hseen.
        apply in_map_iff in Hseen as (o' & E & Ho'). apply shapeKey_inj in E. now subst. }
      split; [tauto|]. intros [H|[<-|H]]; tauto.
    + destruct (IH (rotate90CW current) (seen ++ [shapeKey current], os ++ [current]))
        as [H1 H2].
      { cbn [fst snd]. now rewrite map_app, Hinv. }
      split; [exact H1|]. intros o. rewrite H2. cbn [snd In]. rewrite in_app_iff. simpl.
      tauto.
Qed.

Lemma getAllOrientations_members (base : Shape) (o : Shape) :
  In o (getAllOrientations base) <->
  In o (rot_list 4 (normalize base) ++ rot_list 4 (flipH (normalize base))).
Proof.
  unfold getAllOrientations. cbn [fold_left].
  destruct (rotations_members 4 (normalize base) ([], []) eq_refl) as [Ha Ma].
  destruct (rotations_members 4 (flipH (normalize base)) _ Ha) as [_ Mb].
  rewrite Mb, Ma, in_app_iff. cbn [snd In]. tauto.
Qed.

Lemma rot_list_images (base : Shape) :
  rot_list 4 (normalize base) ++ rot_list 4 (flipH (normalize base)) = images base.
Proof.
  unfold images, symmetries. cbn [rot_list app map].
  rewrite flip_normalize, !rotate_normalize, !map_map, map_id. reflexivity.
Qed.

Lemma getAllOrientations_images (base : Shape) (o : Shape) :
  In o (getAllOrientations base) <-> In o (images base).
Proof. now rewrite getAllOrientations_members, rot_list_images. Qed.

(** Composing a symmetry with the quarter turn or the mirror gives a
    symmetry again. *)
Ltac find_image :=
  cbn [In]; repeat (first [ left; f_equal; apply map_ext; intros [c r];
                            unfold turn, mirror; simpl; f_equal; lia
                          | right ]).

Lemma images_closed (base : Shape) (o : Shape) :
  In o (images base) -> In (rotate90CW o) (images base) /\ In (flipH o) (images base).
Proof.
  unfold images, symmetries. cbn [map In].
  intros H. repeat (destruct H as [<-|H]); try contradiction;
    rewrite rotate_normalize, flip_normalize, !map_map; split; find_image.
Qed.

Lemma getAllOrientations_closed (base : Shape) (o : Shape) :
  In o (getAllOrientations base) ->
  In (rotate90CW o) (getAllOrientations base) /\ In (flipH o) (getAllOrientations base).
Proof.
  rewrite !getAllOrientations_images. apply images_closed.
Qed.

(** For every shape, [getAllOrientations] returns exactly the normal forms
    of its images under the eight symmetries of the square (four quarter
    turns, with and without the mirror), so the quarter turn and the mirror
    image of a shape of the list are in the list again. *)
Theorem getAllOrientations_lists_the_eight_images (base : Shape) (o : Shape) :
  (In o (getAllOrientations base) <-> In o (images base)) /\
  (In o (getAllOrientations base) ->
   In (rotate90CW o) (getAllOrientations base) /\ In (flipH o) (getAllOrientations base)).
Proof.
  split; [apply getAllOrientations_images | apply getAllOrientations_closed].
Qed.

Lemma ORIENTATIONS_closed (k : PieceId) (o : Shape) :
  In o (ORIENTATIONS k) -> In (rotate90CW o) (ORIENTATIONS k) /\ In (flipH o) (ORIENTATIONS k).
Proof. rewrite ORIENTATIONS_eq. apply getAllOrientations_closed. Qed.

Lemma getAllOrientations_lists_the_eight_images_witness :
  In [(0,0); (1,0); (2,0)] (getAllOrientations [(0,0); (1,0); (2,0)]) /\
  rotate90CW [(0,0); (1,0); (2,0)] = [(0,0); (0,1); (0,2)] /\
  In (rotate90CW [(0,0); (1,0); (2,0)]) (getAllOrientations [(0,0); (1,0); (2,0)]).
Proof.
  assert (Hin : In [(0,0); (1,0); (2,0)] (getAllOrientations [(0,0); (1,0); (2,0)]))
    by (vm_compute; now left).
  split; [exact Hin|]. split; [reflexivity|].
  exact (proj1 (proj2 (getAllOrientations_lists_the_eight_images _ _) Hin)).
Defined.


(* ================================================================== *)
(** * Part XV: the seeded shuffle and the challenges built with it     *)
(* ================================================================== *)

(** ** The shuffle *)

Lemma list_upd_app_l {A} (f : A -> A) (l1 l2 : list A) (x : A) :
  list_upd (length l1) f (l1 ++ x :: l2) = l1 ++ f x :: l2.
Proof. induction l1 as [|a l1 IH]; simpl; [reflexivity | now rewrite IH]. Qed.

Lemma list_upd_app_r {A} (f : A -> A) (l1 l2 : list A) (n : nat) :
  list_upd (length l1 + n) f (l1 ++ l2) = l1 ++ list_upd n f l2.
Proof. induction l1 as [|a l1 IH]; simpl; [reflexivity | now rewrite IH]. Qed.

Lemma list_upd_same {A} (l : list A) (n : nat) (x : A) :
  nth_error l n = Some x -> list_upd n (fun _ => x) l = l.
Proof.
  revert n; induction l as [|a l IH]; intros [|n]; simpl; try discriminate.
  - now intros [= ->].
  - intros H. now rewrite IH.
Qed.

Lemma swap_lt_perm {A} (l : list A) (i j : nat) (x y : A) :
  (i < j)%nat -> nth_error l i = Some x -> nth_error l j = Some y ->
  Permutation (list_upd j (fun _ => x) (list_upd i (fun _ => y) l)) l /\
  Permutation (list_upd i (fun _ => y) (list_upd j (fun _ => x) l)) l.
Proof.
  intros Hlt Hi Hj.
  apply nth_error_split in Hi as (l1 & l2 & -> & <-).
  replace j with (length l1 + S (j - length l1 - 1))%nat in * by lia.
  set (k := (j - length l1 - 1)%nat) in *.
  rewrite nth_error_app2 in Hj by lia.
  replace (length l1 + S k - length l1)%nat with (S k) in Hj by lia. simpl in Hj.
  apply nth_error_split in Hj as (l3 & l4 & -> & Hk).
  assert (HP : Permutation (l1 ++ y :: l3 ++ x :: l4) (l1 ++ x :: l3 ++ y :: l4)).
  { apply Permutation_app_head.
    etransitivity; [apply perm_skip; symmetry; apply Permutation_middle|].
    etransitivity; [apply perm_swap|].
    apply perm_skip. apply Permutation_middle. }
  split.
  - rewrite list_upd_app_l, list_upd_app_r. cbn [list_upd].
    rewrite <- Hk, list_upd_app_l. exact HP.
  - rewrite list_upd_app_r. cbn [list_upd].
    rewrite <- Hk, list_upd_app_l, list_upd_app_l. exact HP.
Qed.

Lemma swap_perm {A} (l : list A) (i j : nat) : Permutation (swap l i j) l.
Proof.
  unfold swap.
  destruct (nth_error l i) as [x|] eqn:Hi; [|reflexivity].
  destruct (nth_error l j) as [y|] eqn:Hj; [|reflexivity].
  destruct (Nat.lt_trichotomy i j) as [Hlt|[->|Hgt]].
  - exact (proj1 (swap_lt_perm l i j x y Hlt Hi Hj)).
  - rewrite Hi in Hj. injection Hj as <-.
    rewrite (list_upd_same l j x Hi). now rewrite (list_upd_same l j x Hi).
  - exact (proj2 (swap_lt_perm l j i y x Hgt Hj Hi)).
Qed.

Lemma shuffleLoop_perm {A} (i : nat) : forall s (l : list A), Permutation (shuffleLoop i s l) l.
Proof.
  induction i as [|i IH]; intros s l; simpl; [reflexivity|].
  etransitivity; [apply IH | apply swap_perm].
Qed.

Lemma shuffleWithSeed_perm {A} (arr : list A) (seed : Z) :
  Permutation (shuffleWithSeed arr seed) arr.
Proof. apply shuffleLoop_perm. Qed.

Lemma drawIndex_nonneg (i : nat) (s : Z) : 0 <= drawIndex i s.
Proof.
  unfold drawIndex, floorZ.
  destruct (Prim2SF _) as [| | |[|] m e]; try lia.
  rewrite Z.shiftl_nonneg. lia.
Qed.

Lemma list_upd_map_Some {A} (l : list A) (n : nat) (x : A) :
  list_upd n (fun _ => Some x) (map Some l) = map Some (list_upd n (fun _ => x) l).
Proof.
  revert n; induction l as [|a l IH]; intros [|n]; simpl; try reflexivity. now rewrite IH.
Qed.

Lemma swapArr_in_range {A} (l : list A) (i j : nat) :
  (i < length l)%nat -> (j < length l)%nat ->
  swapArr (map Some l) i j = map Some (swap l i j).
Proof.
  intros Hi Hj. unfold swapArr, swap, jsGet, jsSet.
  rewrite !nth_error_map.
  destruct (nth_error l i) as [x|] eqn:Ei; [|apply nth_error_None in Ei; lia].
  destruct (nth_error l j) as [y|] eqn:Ej; [|apply nth_error_None in Ej; lia].
  simpl. rewrite length_map.
  destruct (Nat.ltb_spec i (length l)); [|lia].
  rewrite list_upd_map_Some, length_map, list_upd_length.
  destruct (Nat.ltb_spec j (length l)); [|lia].
  now rewrite list_upd_map_Some.
Qed.

Lemma swap_length {A} (l : list A) (i j : nat) : length (swap l i j) = length l.
Proof. apply Permutation_length, swap_perm. Qed.

Lemma shuffleLoopArr_in_range {A} (i : nat) :
  forall s (l : list A),
    (i < length l)%nat -> drawsInRange i s = true ->
    shuffleLoopArr i s (map Some l) = map Some (shuffleLoop i s l).
Proof.
  induction i as [|i IH]; intros s l Hi Hd; [reflexivity|].
  cbn [drawsInRange] in Hd. apply andb_true_iff in Hd as [Hj Hd]. apply Z.leb_le in Hj.
  cbn [shuffleLoopArr shuffleLoop].
  pose proof (drawIndex_nonneg (S i) (lcgNext s)) as H0.
  change (floorZ (PrimFloat.mul (rngValue (lcgNext s)) (floatOfZ (Z.of_nat (S i) + 1))))
    with (drawIndex (S i) (lcgNext s)).
  rewrite swapArr_in_range by lia.
  apply IH; [rewrite swap_length; lia | exact Hd].
Qed.

Lemma shuffle_in_range {A : Type} (arr : list A) (seed : Z) :
  drawsInRange (length arr - 1) seed = true ->
  shuffleWithSeedArr arr seed = map Some (shuffleWithSeed arr seed) /\
  Permutation (shuffleWithSeed arr seed) arr.
Proof.
  intros Hd. split; [|apply shuffleWithSeed_perm].
  unfold shuffleWithSeedArr, shuffleWithSeed.
  destruct arr as [|a arr]; [reflexivity|].
  apply shuffleLoopArr_in_range; [simpl; lia | exact Hd].
Qed.

(** As long as every index drawn stays within [0 .. i], the array that
    [shuffleWithSeed] returns holds no [undefined] and is a rearrangement of
    its argument. *)
Theorem shuffleWithSeed_permutes_when_draws_in_range {A : Type} (arr : list A) (seed : Z) :
  drawsInRange (length arr - 1) seed = true ->
  shuffleWithSeedArr arr seed = map Some (shuffleWithSeed arr seed) /\
  Permutation (shuffleWithSeed arr seed) arr.
Proof. apply shuffle_in_range. Qed.

Lemma shuffleWithSeed_permutes_when_draws_in_range_witness :
  drawsInRange 11 42 = true /\
  shuffleWithSeedArr (map p_id PIECES) 42
  = map Some [idE; idB; idJ; idH; idG; idI; idK; idL; idC; idF; idA; idD] /\
  Permutation [idE; idB; idJ; idH; idG; idI; idK; idL; idC; idF; idA; idD] (map p_id PIECES).
Proof.
  assert (Hd : drawsInRange (length (map p_id PIECES) - 1) 42 = true)
    by (vm_compute; reflexivity).
  split; [exact Hd|].
  destruct (shuffleWithSeed_permutes_when_draws_in_range (map p_id PIECES) 42 Hd) as [H1 H2].
  assert (E : shuffleWithSeed (map p_id PIECES) 42
              = [idE; idB; idJ; idH; idG; idI; idK; idL; idC; idF; idA; idD])
    by (vm_compute; reflexivity).
  rewrite E in H1, H2. split; [exact H1 | exact H2].
Defined.

(** The generator can return exactly 1: there is a seed below 2^32 whose
    first draw on a twelve-element array is the index 12, past the end, so
    that the array returned has thirteen entries, [undefined] at index 11
    and the former last element at index 12. *)
Theorem shuffleWithSeed_can_draw_past_the_end :
  exists seed,
    0 <= seed < 4294967296 /\
    lcgNext seed mod 4294967296 = 4294967295 /\
    drawIndex 11 (lcgNext seed) = 12 /\
    length (shuffleWithSeedArr (map p_id PIECES) seed) = 13%nat /\
    nth_error (shuffleWithSeedArr (map p_id PIECES) seed) 11 = Some None /\
    nth_error (shuffleWithSeedArr (map p_id PIECES) seed) 12 = Some (Some idL).
Proof.
  exists 653637408. split; [lia|]. vm_compute. repeat split; reflexivity.
Qed.

(** ** The challenges of [buildChallengesFromSolutions] *)

(** The shuffles of twelve placements that the challenges use never draw
    an index out of range. *)
Lemma selection_draws_in_range (d i x : Z) :
  1 <= d <= 5 -> 0 <= i <= 9 -> 0 <= x <= 9 ->
  drawsInRange 11 (selectionSeed d i x) = true.
Proof.
  intros Hd Hi Hx.
  assert (H : forallb (fun d => forallb (fun i => forallb (fun x =>
                drawsInRange 11 (selectionSeed (Z.of_nat d) (Z.of_nat i) (Z.of_nat x)))
                (seq 0 10)) (seq 0 10)) (seq 1 5) = true) by (vm_compute; reflexivity).
  rewrite forallb_forall in H.
  assert (H1 := H (Z.to_nat d) ltac:(apply in_seq; lia)). rewrite forallb_forall in H1.
  assert (H2 := H1 (Z.to_nat i) ltac:(apply in_seq; lia)). rewrite forallb_forall in H2.
  assert (H3 := H2 (Z.to_nat x) ltac:(apply in_seq; lia)).
  rewrite !Z2Nat.id in H3 by lia. exact H3.
Qed.

Lemma DIFFICULTY_CONFIG_players (d : Z) :
  1 <= d <= 5 -> playerPieces d = 2 * d.
Proof.
  intros H. assert (E : d = 1 \/ d = 2 \/ d = 3 \/ d = 4 \/ d = 5) by lia.
  destruct E as [->|[->|[->|[->| ->]]]]; reflexivity.
Qed.

Lemma Some_inj {A} (x y : A) : Some x = Some y -> x = y.
Proof. congruence. Qed.

Lemma sequence_length {A} (l : list (option A)) (l' : list A) :
  sequence l = Some l' -> length l' = length l.
Proof.
  revert l'; induction l as [|[x|] t IH]; intros l'; simpl; try discriminate.
  - now intros [= <-].
  - destruct (sequence t) as [t'|]; [|discriminate]. intros [= <-]. simpl. now rewrite (IH t').
Qed.

(** What one challenge is made of. *)
Lemma buildChallenge_spec (solutions : list (list Placement)) (challengeId d i : Z) :
  solutions <> [] -> 1 <= d <= 5 -> 0 <= i <= 9 ->
  exists sol,
    let x := i mod Z.of_nat (length solutions) in
    let shuffled := shuffleWithSeed sol (selectionSeed d i x) in
    let preCount := Z.to_nat (12 - playerPieces d) in
    0 <= x <= 9 /\
    nth_error solutions (Z.to_nat x) = Some sol /\
    buildChallenge solutions challengeId d i
    = Some (mkChallenge challengeId d (snd (DIFFICULTY_CONFIG d))
              (map lockedOf (firstn preCount shuffled))
              (map pl_pieceId (skipn preCount shuffled))
              (map lockedOf sol)).
Proof.
  intros Hne Hd Hi. unfold buildChallenge, playerPieces, selectionSeed.
  assert (Hlen : 0 < Z.of_nat (length solutions)) by (destruct solutions; [congruence | simpl; lia]).
  pose proof (Z.mod_pos_bound i _ Hlen) as Hb.
  assert (Hx : i mod Z.of_nat (length solutions) <= i) by (apply Z.mod_le; lia).
  destruct (DIFFICULTY_CONFIG d) as [pp name]. cbn [fst snd].
  destruct (nth_error solutions (Z.to_nat (i mod Z.of_nat (length solutions)))) as [sol|] eqn:E.
  - exists sol. cbv zeta. split; [lia|]. split; reflexivity.
  - apply nth_error_None in E. lia.
Qed.

Lemma buildChallenges_nth (solutions : list (list Placement)) :
  solutions <> [] ->
  exists challenges,
    buildChallengesFromSolutions solutions = Some challenges /\
    length challenges = 50%nat /\
    forall k c, nth_error challenges k = Some c ->
      (k < 50)%nat /\
      buildChallenge solutions (Z.of_nat k + 1) (Z.of_nat k / 10 + 1) (Z.of_nat k mod 10)
      = Some c.
Proof.
  intros Hne. unfold buildChallengesFromSolutions.
  change (Z.to_nat (DIFFICULTY_LEVELS * CHALLENGES_PER_DIFFICULTY)) with 50%nat.
  change CHALLENGES_PER_DIFFICULTY with 10.
  set (f := fun k => buildChallenge solutions (Z.of_nat k + 1) (Z.of_nat k / 10 + 1)
                       (Z.of_nat k mod 10)).
  destruct (sequence_nth (map f (seq 0 50))) as (challenges & E & Hnth).
  { intros x Hx. apply in_map_iff in Hx as (k & <- & _). unfold f.
    destruct (buildChallenge_returns solutions (Z.of_nat k + 1) (Z.of_nat k / 10 + 1)
                (Z.of_nat k mod 10) Hne) as (c & ->); [|discriminate].
    pose proof (Z.mod_pos_bound (Z.of_nat k) 10 eq_refl). lia. }
  exists challenges. split; [exact E|].
  pose proof (sequence_length _ _ E) as Hlen. rewrite length_map, length_seq in Hlen.
  split; [exact Hlen|]. intros k c Hk.
  assert (Hlt : (k < 50)%nat) by (rewrite <- Hlen; apply nth_error_Some; congruence).
  split; [exact Hlt|].
  destruct (buildChallenge_returns solutions (Z.of_nat k + 1) (Z.of_nat k / 10 + 1)
              (Z.of_nat k mod 10) Hne) as (c' & Ec').
  { pose proof (Z.mod_pos_bound (Z.of_nat k) 10 eq_refl). lia. }
  rewrite Ec'. f_equal.
  assert (Hc' : nth_error challenges k = Some c').
  { apply Hnth. rewrite nth_error_map, (nth_error_nth' _ 0%nat) by (rewrite length_seq; lia).
    rewrite seq_nth by lia. simpl. f_equal. exact Ec'. }
  congruence.
Qed.

Lemma shuffle_twelve (sol : list Placement) (d i x : Z) :
  length sol = 12%nat -> 1 <= d <= 5 -> 0 <= i <= 9 -> 0 <= x <= 9 ->
  let shuffled := shuffleWithSeed sol (selectionSeed d i x) in
  shuffleWithSeedArr sol (selectionSeed d i x) = map Some shuffled /\
  Permutation shuffled sol /\ length shuffled = 12%nat.
Proof.
  intros Hlen Hd Hi Hx. cbv zeta.
  destruct (shuffle_in_range sol (selectionSeed d i x)) as [H1 H2].
  { rewrite Hlen. now apply selection_draws_in_range. }
  split; [exact H1|]. split; [exact H2|]. now rewrite (Permutation_length H2).
Qed.

Lemma buildChallenges_structure (solutions : list (list Placement)) :
  solutions <> [] -> Forall (fun sol => length sol = 12%nat) solutions ->
  exists challenges,
    buildChallengesFromSolutions solutions = Some challenges /\
    length challenges = 50%nat /\
    forall k c, nth_error challenges k = Some c ->
      let d := Z.of_nat k / 10 + 1 in
      ch_id c = Z.of_nat k + 1 /\ ch_difficulty c = d /\
      Z.of_nat (length (ch_prePlaced c)) = 12 - playerPieces d /\
      Z.of_nat (length (ch_playerPieceIds c)) = playerPieces d /\
      exists sol,
        In sol solutions /\
        ch_solution c = map lockedOf sol /\
        Permutation (map lk_pieceId (ch_prePlaced c) ++ ch_playerPieceIds c)
                    (map pl_pieceId sol).
Proof.
  intros Hne H12.
  destruct (buildChallenges_nth solutions Hne) as (challenges & E & Hlen & Hnth).
  exists challenges. split; [exact E|]. split; [exact Hlen|].
  intros k c Hk. cbv zeta. destruct (Hnth k c Hk) as [Hlt Hc].
  remember (Z.of_nat k / 10 + 1) as d eqn:Ed.
  assert (Hd : 1 <= d <= 5).
  { assert (0 <= Z.of_nat k / 10 < 5); [|lia].
    split; [apply Z.div_pos; lia | apply Z.div_lt_upper_bound; lia]. }
  assert (Hi : 0 <= Z.of_nat k mod 10 <= 9)
    by (pose proof (Z.mod_pos_bound (Z.of_nat k) 10 eq_refl); lia).
  clear Ed.
  destruct (buildChallenge_spec solutions (Z.of_nat k + 1) _ _ Hne Hd Hi)
    as (sol & Hx & Hsol & Hbuild).
  rewrite Hbuild in Hc. apply Some_inj in Hc. subst c.
  cbv beta iota delta [ch_id ch_difficulty ch_prePlaced ch_playerPieceIds ch_solution].
  assert (Hin : In sol solutions) by (eapply nth_error_In; exact Hsol).
  rewrite Forall_forall in H12. pose proof (H12 sol Hin) as Hl.
  destruct (shuffle_twelve sol _ _ _ Hl Hd Hi Hx) as (_ & HP & Hl').
  pose proof (DIFFICULTY_CONFIG_players _ Hd) as Hpp.
  split; [reflexivity|]. split; [reflexivity|].
  rewrite !length_map, length_firstn, length_skipn, Hl', Hpp.
  split; [lia|]. split; [lia|].
  exists sol. split; [exact Hin|]. split; [reflexivity|].
  rewrite map_map.
  change (fun x => lk_pieceId (lockedOf x)) with pl_pieceId.
  rewrite <- map_app, firstn_skipn. now apply Permutation_map.
Qed.

(** From a non-empty list of solutions of twelve placements each,
    [buildChallengesFromSolutions] returns fifty challenges numbered 1 to 50,
    ten for each difficulty 1 to 5 in that order; a challenge of difficulty
    [d] locks [12 - 2 d] placements and leaves [2 d] pieces to the player;
    its locked and player pieces together are the pieces of one of the
    solutions, each once, and that solution is the one it records. *)
Theorem buildChallenges_split_each_solution (solutions : list (list Placement)) :
  solutions <> [] -> Forall (fun sol => length sol = 12%nat) solutions ->
  exists challenges,
    buildChallengesFromSolutions solutions = Some challenges /\
    length challenges = 50%nat /\
    forall k c, nth_error challenges k = Some c ->
      let d := Z.of_nat k / 10 + 1 in
      ch_id c = Z.of_nat k + 1 /\ ch_difficulty c = d /\
      Z.of_nat (length (ch_prePlaced c)) = 12 - playerPieces d /\
      Z.of_nat (length (ch_playerPieceIds c)) = playerPieces d /\
      exists sol,
        In sol solutions /\
        ch_solution c = map lockedOf sol /\
        Permutation (map lk_pieceId (ch_prePlaced c) ++ ch_playerPieceIds c)
                    (map pl_pieceId sol).
Proof. apply buildChallenges_structure. Qed.

Lemma buildChallenges_split_each_solution_witness :
  [solution42] <> [] /\ Forall (fun sol => length sol = 12%nat) [solution42] /\
  exists challenges c,
    buildChallengesFromSolutions [solution42] = Some challenges /\
    length challenges = 50%nat /\
    nth_error challenges 30 = Some c /\ ch_id c = 31 /\ ch_difficulty c = 4 /\
    length (ch_prePlaced c) = 4%nat /\ length (ch_playerPieceIds c) = 8%nat.
Proof.
  assert (Hne : [solution42] <> []) by discriminate.
  assert (H12 : Forall (fun sol => length sol = 12%nat) [solution42])
    by (constructor; [reflexivity | constructor]).
  split; [exact Hne|]. split; [exact H12|].
  destruct (buildChallenges_split_each_solution [solution42] Hne H12)
    as (challenges & E & Hlen & Hall).
  destruct (nth_error challenges 30) as [c|] eqn:Hc;
    [|apply nth_error_None in Hc; rewrite Hlen in Hc; lia].
  exists challenges, c. split; [exact E|]. split; [exact Hlen|]. split; [exact Hc|].
  destruct (Hall 30%nat c Hc) as (H1 & H2 & H3 & H4 & _).
  split; [exact H1|]. split; [exact H2|].
  change (12 - playerPieces (Z.of_nat 30 / 10 + 1)) with 4 in H3.
  change (playerPieces (Z.of_nat 30 / 10 + 1)) with 8 in H4. split; lia.
Defined.

(** ** [getChallenge] *)

Lemma buildChallenge_id (solutions : list (list Placement)) (challengeId d i : Z)
    (c : Challenge) :
  buildChallenge solutions challengeId d i = Some c -> ch_id c = challengeId.
Proof.
  unfold buildChallenge. destruct (DIFFICULTY_CONFIG d) as [pp name].
  destruct (nth_error solutions _); [|discriminate]. intros H.
  apply Some_inj in H. now subst c.
Qed.

Lemma find_by_id (l : list Challenge) (id : Z) :
  forall base,
    (forall k c, nth_error l k = Some c -> ch_id c = Z.of_nat k + base) ->
    match find (fun c => ch_id c =? id) l with
    | Some c => base <= id < base + Z.of_nat (length l) /\
                nth_error l (Z.to_nat (id - base)) = Some c /\ ch_id c = id
    | None => id < base \/ base + Z.of_nat (length l) <= id
    end.
Proof.
  induction l as [|x l IH]; intros base Hids; simpl; [lia|].
  pose proof (Hids O x eq_refl) as Hx. simpl in Hx.
  destruct (Z.eqb_spec (ch_id x) id) as [E|Hne].
  - split; [lia|]. split; [|exact E]. replace (id - base) with 0 by lia. reflexivity.
  - specialize (IH (base + 1)).
    destruct (find (fun c => ch_id c =? id) l) as [c|].
    + destruct IH as (Hb & Hn & Hc).
      { intros k c' Hk. rewrite (Hids (S k) c' Hk). lia. }
      split; [lia|]. split; [|exact Hc].
      replace (Z.to_nat (id - base)) with (S (Z.to_nat (id - (base + 1)))) by lia. exact Hn.
    + destruct IH as [Hlt|Hge]; [|lia|lia].
      intros k c' Hk. rewrite (Hids (S k) c' Hk). lia.
Qed.

Lemma getChallenge_spec (solutions : list (list Placement)) (id : Z) :
  solutions <> [] ->
  exists challenges,
    buildChallengesFromSolutions solutions = Some challenges /\
    match getChallenge challenges id with
    | Some c => 1 <= id <= 50 /\ ch_id c = id /\
                nth_error challenges (Z.to_nat (id - 1)) = Some c
    | None => id < 1 \/ 50 < id
    end.
Proof.
  intros Hne. destruct (buildChallenges_nth solutions Hne) as (challenges & E & Hlen & Hnth).
  exists challenges. split; [exact E|].
  pose proof (find_by_id challenges id 1) as H. unfold getChallenge.
  destruct (find (fun c => ch_id c =? id) challenges) as [c|].
  - destruct H as (Hb & Hn & Hc).
    { intros k c' Hk. destruct (Hnth k c' Hk) as [_ Hb]. now apply buildChallenge_id in Hb. }
    rewrite Hlen in Hb. split; [lia|]. split; [exact Hc | exact Hn].
  - destruct H as [Hlt|Hge]; [|lia|rewrite Hlen in Hge; lia].
    intros k c' Hk. destruct (Hnth k c' Hk) as [_ Hb]. now apply buildChallenge_id in Hb.
Qed.

(** On the array that [buildChallengesFromSolutions] returns, [getChallenge]
    returns for an id from 1 to 50 the challenge with that id, which is the
    entry of index [id - 1], and [null] for every other id. *)
Theorem getChallenge_finds_the_challenge_of_that_id (solutions : list (list Placement))
    (id : Z) :
  solutions <> [] ->
  exists challenges,
    buildChallengesFromSolutions solutions = Some challenges /\
    match getChallenge challenges id with
    | Some c => 1 <= id <= 50 /\ ch_id c = id /\
                nth_error challenges (Z.to_nat (id - 1)) = Some c
    | None => id < 1 \/ 50 < id
    end.
Proof. apply getChallenge_spec. Qed.

Lemma getChallenge_finds_the_challenge_of_that_id_witness :
  [solution42] <> [] /\
  exists challenges,
    buildChallengesFromSolutions [solution42] = Some challenges /\
    (exists c, getChallenge challenges 31 = Some c /\ ch_id c = 31) /\
    getChallenge challenges 51 = None.
Proof.
  assert (Hne : [solution42] <> []) by discriminate.
  split; [exact Hne|].
  destruct (getChallenge_finds_the_challenge_of_that_id [solution42] 31 Hne)
    as (challenges & E & H31).
  destruct (getChallenge_finds_the_challenge_of_that_id [solution42] 51 Hne)
    as (challenges' & E' & H51).
  rewrite E in E'. apply Some_inj in E'. subst challenges'.
  exists challenges. split; [exact E|]. split.
  - destruct (getChallenge challenges 31) as [c|]; [|lia].
    exists c. split; [reflexivity | apply H31].
  - destruct (getChallenge challenges 51) as [c|]; [lia | reflexivity].
Defined.

(** ** Every challenge can be completed *)

Lemma gridCells_NoDup : NoDup gridCells.
Proof. apply nodupb_sound. vm_compute. reflexivity. Qed.

Lemma gridCells_inGrid (x : Cell) : In x gridCells -> inGrid (fst x) (snd x).
Proof.
  intros Hin.
  assert (H : forallb (fun x => inGridb (fst x) (snd x)) gridCells = true)
    by (vm_compute; reflexivity).
  rewrite forallb_forall in H. apply inGridb_spec. now apply H.
Qed.

Lemma sizeSum_app (l1 l2 : list PieceId) : sizeSum (l1 ++ l2) = sizeSum l1 + sizeSum l2.
Proof. induction l1 as [|k l1 IH]; simpl; [reflexivity | rewrite IH; lia]. Qed.

Lemma sizeSum_perm (l l' : list PieceId) : Permutation l l' -> sizeSum l = sizeSum l'.
Proof. induction 1; simpl; lia. Qed.

Lemma sizeSum_zero (l : list PieceId) : sizeSum l = 0 -> l = [].
Proof.
  destruct l as [|k l]; [reflexivity|]. simpl.
  pose proof (pieceSize_pos k).
  assert (0 <= sizeSum l) by (clear; induction l as [|q l IH]; simpl;
                              [lia | pose proof (pieceSize_pos q); lia]).
  lia.
Qed.

Lemma allIds_all (k : PieceId) : In k allIds.
Proof. destruct k; vm_compute; tauto. Qed.

Lemma allIds_NoDup : NoDup allIds.
Proof.
  unfold allIds. simpl.
  repeat (constructor; [simpl; intros H; repeat (destruct H as [H|H]; [discriminate H|]);
                        exact H|]).
  constructor.
Qed.

(** Distinct pieces whose sizes add up to 55 are all the pieces. *)
Lemma sizeSum_all (ids : list PieceId) :
  NoDup ids -> sizeSum ids = 55 -> Permutation ids allIds.
Proof.
  intros Hnd Hsum.
  set (rest := filter (fun k => negb (set_has k ids)) allIds).
  assert (HP : Permutation allIds (ids ++ rest)).
  { apply NoDup_Permutation; [exact allIds_NoDup | |].
    - apply NoDup_app; [exact Hnd | apply NoDup_filter, allIds_NoDup |].
      intros k Hk Hr. apply filter_In in Hr as [_ Hr]. apply negb_true_iff in Hr.
      apply set_has_In in Hk. congruence.
    - intros k. split; [|intros _; apply allIds_all].
      intros _. apply in_or_app. destruct (set_has k ids) eqn:E.
      + left. now apply set_has_In.
      + right. apply filter_In. split; [apply allIds_all | now rewrite E]. }
  pose proof (sizeSum_perm _ _ HP) as Hs. rewrite sizeSum_app, Hsum in Hs.
  change (sizeSum allIds) with 55 in Hs.
  assert (Hr : rest = []) by (apply sizeSum_zero; lia).
  rewrite Hr, app_nil_r in HP. now symmetry.
Qed.

Lemma solutionCells_size (sol : list Placement) :
  (forall pl, In pl sol -> valid_orientation pl) ->
  Z.of_nat (length (solutionCells sol)) = sizeSum (map pl_pieceId sol).
Proof.
  induction sol as [|pl sol IH]; intros Hv; [reflexivity|].
  rewrite solutionCells_cons, length_app. simpl.
  unfold placementCells at 1. rewrite cellsAt_length.
  rewrite Nat2Z.inj_add, IH by (intros q Hq; apply Hv; now right).
  rewrite (ORIENTATIONS_length (pl_pieceId pl) (pl_shape pl)); [reflexivity|].
  apply valid_orientation_In, Hv. now left.
Qed.

(** A covering of the empty board uses every piece of the library. *)
Lemma cover_uses_all_pieces (ids : list PieceId) (sol : list Placement) :
  solves createEmptyBoard ids sol ->
  Permutation (map pl_pieceId sol) allIds /\ length sol = 12%nat.
Proof.
  intros (_ & Hnd & Hids & Hval & Hcov).
  assert (HP : Permutation (solutionCells sol) gridCells).
  { apply NoDup_Permutation; [exact Hnd | exact gridCells_NoDup|].
    intros [c r]. rewrite Hcov. split.
    - intros [Hg _]. now apply gridCells_In.
    - intros Hin. apply gridCells_inGrid in Hin. split; [exact Hin|].
      now apply createEmptyBoard_isNull. }
  assert (Hsum : sizeSum (map pl_pieceId sol) = 55).
  { rewrite <- solutionCells_size by (intros pl Hpl; now apply Hval).
    rewrite (Permutation_length HP). reflexivity. }
  pose proof (sizeSum_all _ Hids Hsum) as Hall.
  split; [exact Hall|]. apply Permutation_length in Hall. now rewrite length_map in Hall.
Qed.

Lemma solves_own_ids (b : Board) (ids : list PieceId) (sol : list Placement) :
  solves b ids sol -> solves b (map pl_pieceId sol) sol.
Proof.
  intros (H1 & H2 & H3 & H4 & H5).
  split; [exact H1|]. split; [exact H2|]. split; [exact H3|]. split; [|exact H5].
  intros pl Hpl. split; [now apply in_map | now apply H4].
Qed.

(** The first placements of a covering can be put on the board one after
    the other, and the others cover what is left. *)
Lemma solves_prefix (pre rest : list Placement) :
  forall b ids, solves b ids (pre ++ rest) ->
    exists b', placeAll b pre = Some b' /\ solves b' (map pl_pieceId rest) rest.
Proof.
  induction pre as [|p pre IH]; intros b ids Hs; simpl.
  - exists b. split; [reflexivity|]. eapply solves_own_ids; exact Hs.
  - destruct (solves_take b ids [] (pre ++ rest) p Hs) as [Hcan Hrest].
    destruct (place_remove b (pl_pieceId p) (pl_shape p) _ _ Hcan) as (b1 & Hplace & _).
    rewrite Hplace. eapply IH. apply Hrest. exact Hplace.
Qed.

Lemma placeLocked_lockedOf (ps : list Placement) :
  (forall pl, In pl ps -> valid_orientation pl) ->
  forall b, placeLocked b (map lockedOf ps) = placeAll b ps.
Proof.
  induction ps as [|p ps IH]; intros Hv b; [reflexivity|].
  cbn [map placeLocked placeAll lockedOf lk_pieceId lk_orientationIndex lk_col lk_row].
  destruct (Hv p (or_introl eq_refl)) as [_ Hnth]. rewrite Hnth.
  destruct (placePiece b _ _ _ _) as [b'|]; [|reflexivity].
  apply IH. intros q Hq. apply Hv. now right.
Qed.

Lemma challenges_solvable (solutions : list (list Placement)) :
  solutions <> [] -> Forall (solves createEmptyBoard allIds) solutions ->
  exists challenges,
    buildChallengesFromSolutions solutions = Some challenges /\
    Forall (fun c => exists testBoard s,
              placeLocked createEmptyBoard (ch_prePlaced c) = Some testBoard /\
              solves testBoard (ch_playerPieceIds c) s /\
              exists n, countSolutions testBoard (ch_playerPieceIds c) 2 = Some n /\
                        1 <= n <= 2)
           challenges.
Proof.
  intros Hne Hsol.
  destruct (buildChallenges_nth solutions Hne) as (challenges & E & Hlen & Hnth).
  exists challenges. split; [exact E|].
  apply Forall_forall. intros c Hc. apply In_nth_error in Hc as (k & Hk).
  destruct (Hnth k c Hk) as [Hlt Hb].
  remember (Z.of_nat k / 10 + 1) as d eqn:Ed.
  assert (Hd : 1 <= d <= 5).
  { assert (0 <= Z.of_nat k / 10 < 5); [|lia].
    split; [apply Z.div_pos; lia | apply Z.div_lt_upper_bound; lia]. }
  assert (Hi : 0 <= Z.of_nat k mod 10 <= 9)
    by (pose proof (Z.mod_pos_bound (Z.of_nat k) 10 eq_refl); lia).
  clear Ed.
  destruct (buildChallenge_spec solutions (Z.of_nat k + 1) _ _ Hne Hd Hi)
    as (sol & Hx & Hnsol & Hbuild).
  rewrite Hbuild in Hb. apply Some_inj in Hb. subst c.
  cbv beta iota delta [ch_prePlaced ch_playerPieceIds].
  assert (Hin : In sol solutions) by (eapply nth_error_In; exact Hnsol).
  rewrite Forall_forall in Hsol. pose proof (Hsol sol Hin) as Hs.
  destruct (cover_uses_all_pieces _ _ Hs) as [_ Hl].
  destruct (shuffle_twelve sol _ _ _ Hl Hd Hi Hx) as (_ & HP & _).
  set (shuffled := shuffleWithSeed sol _) in *.
  set (preCount := Z.to_nat (12 - playerPieces d)).
  assert (Hs' : solves createEmptyBoard allIds (firstn preCount shuffled ++ skipn preCount shuffled)).
  { rewrite firstn_skipn. eapply solves_perm; [symmetry; exact HP | exact Hs]. }
  destruct (solves_prefix _ _ _ _ Hs') as (tb & Hboard & Hrest).
  exists tb, (skipn preCount shuffled).
  split.
  - rewrite placeLocked_lockedOf; [exact Hboard|].
    intros pl Hpl. destruct Hs as (_ & _ & _ & Hval & _). apply Hval.
    eapply Permutation_in; [exact HP|].
    rewrite <- (firstn_skipn preCount shuffled). apply in_or_app. now left.
  - split; [exact Hrest|].
    destruct (countSolutions_two tb (map pl_pieceId (skipn preCount shuffled)))
      as [[_ Hnone]|[[E1 _]|[E2 _]]].
    + exfalso. exact (Hnone _ Hrest).
    + exists 1. split; [exact E1 | lia].
    + exists 2. split; [exact E2 | lia].
Qed.

(** If every solution handed to [buildChallengesFromSolutions] is a
    covering of the empty board by the twelve pieces, every challenge it
    returns can be completed: the locked pieces go on the empty board
    without overlap, the player pieces cover the cells they leave, and the
    counter capped at 2 counts 1 or 2 completions, never 0. *)
Theorem every_challenge_can_be_completed (solutions : list (list Placement)) :
  solutions <> [] -> Forall (solves createEmptyBoard allIds) solutions ->
  exists challenges,
    buildChallengesFromSolutions solutions = Some challenges /\
    Forall (fun c => exists testBoard s,
              placeLocked createEmptyBoard (ch_prePlaced c) = Some testBoard /\
              solves testBoard (ch_playerPieceIds c) s /\
              exists n, countSolutions testBoard (ch_playerPieceIds c) 2 = Some n /\
                        1 <= n <= 2)
           challenges.
Proof. apply challenges_solvable. Qed.

Lemma solveWithOrder_seed42_solves : solves createEmptyBoard allIds solution42.
Proof.
  eapply solves_ids; [intros k _; apply allIds_all|].
  apply solveWithOrder_solves; [|exact solveWithOrder_seed42].
  eapply Permutation_NoDup; [symmetry; apply shuffleWithSeed_perm | exact allIds_NoDup].
Qed.

Lemma every_challenge_can_be_completed_witness :
  [solution42] <> [] /\ Forall (solves createEmptyBoard allIds) [solution42] /\
  exists challenges,
    buildChallengesFromSolutions [solution42] = Some challenges /\
    Forall (fun c => exists testBoard n,
              placeLocked createEmptyBoard (ch_prePlaced c) = Some testBoard /\
              countSolutions testBoard (ch_playerPieceIds c) 2 = Some n /\ 1 <= n <= 2)
           challenges.
Proof.
  assert (Hne : [solution42] <> []) by discriminate.
  assert (Hs : Forall (solves createEmptyBoard allIds) [solution42])
    by (constructor; [exact solveWithOrder_seed42_solves | constructor]).
  split; [exact Hne|]. split; [exact Hs|].
  destruct (every_challenge_can_be_completed [solution42] Hne Hs) as (challenges & E & Hall).
  exists challenges. split; [exact E|].
  eapply Forall_impl; [|exact Hall].
  intros c (tb & s & H1 & _ & n & H2 & H3). exists tb, n. auto.
Defined.

(** ** [generateSolutionsSync] *)

Lemma shuffleWithUndefinedSeed_perm {A} (arr : list A) :
  Permutation (shuffleWithUndefinedSeed arr) arr.
Proof.
  unfold shuffleWithUndefinedSeed. destruct (length arr - 1)%nat; [reflexivity|].
  etransitivity; [apply shuffleLoop_perm | apply swap_perm].
Qed.

(** The draws of a shuffle of twelve elements with the seed [undefined]
    stay in range. *)
Lemma undefined_seed_draws_in_range : drawIndex 11 0 = 0 /\ drawsInRange 10 0 = true.
Proof. vm_compute. split; reflexivity. Qed.

(** The packer finds a covering of the empty board whatever the order of
    the twelve ids. *)
Lemma solveWithOrder_full_library (orderedIds : list PieceId) :
  Permutation orderedIds allIds ->
  exists sol, solveWithOrder createEmptyBoard orderedIds = Some (Some sol) /\
              solves createEmptyBoard allIds sol.
Proof.
  intros HP.
  assert (Hnd : NoDup orderedIds)
    by (eapply Permutation_NoDup; [symmetry; exact HP | exact allIds_NoDup]).
  destruct (solveWithOrder_returns createEmptyBoard orderedIds) as ([sol|] & E).
  - exists sol. split; [exact E|].
    eapply solves_ids; [intros k _; apply allIds_all|].
    apply solveWithOrder_solves; [exact Hnd | exact E].
  - exfalso. apply (solveWithOrder_complete _ _ E firstSolution).
    eapply solves_ids; [|apply solve_solves; exact solve_empty_board].
    intros k _. eapply Permutation_in; [symmetry; exact HP | apply allIds_all].
Qed.

Lemma solutionsLoop_spec (seeds : list Z) (n : nat) :
  forall i seen solutions,
    solutions_inv seen solutions ->
    exists seen' solutions',
      solutionsLoop n i seeds seen solutions = Some (seen', solutions') /\
      solutions_inv seen' solutions' /\
      (length solutions <= length solutions' <= length solutions + n)%nat /\
      (n <> O -> solutions' <> []).
Proof.
  induction n as [|n IH]; intros i seen solutions Hinv.
  - exists seen, solutions. split; [reflexivity|]. split; [exact Hinv|]. split; [lia|].
    intros H. now elim H.
  - cbn [solutionsLoop].
    set (orderedIds := match nth_error seeds i with
                       | Some seed => shuffleWithSeed (map p_id PIECES) seed
                       | None => shuffleWithUndefinedSeed (map p_id PIECES)
                       end).
    assert (HP : Permutation orderedIds allIds).
    { unfold orderedIds. destruct (nth_error seeds i);
        [apply shuffleWithSeed_perm | apply shuffleWithUndefinedSeed_perm]. }
    destruct (solveWithOrder_full_library orderedIds HP) as (sol & E & Hs).
    rewrite E. destruct Hinv as (Hseen & Hnd & Hall).
    destruct (existsb (String.eqb (fingerprint sol)) seen) eqn:Hdup.
    + destruct (IH (S i) seen solutions) as (seen' & sols' & E' & Hinv' & Hlen & _).
      { now split. }
      exists seen', sols'. split; [exact E'|]. split; [exact Hinv'|]. split; [lia|].
      intros _ Hnil. apply existsb_string_In in Hdup. rewrite Hseen in Hdup.
      destruct solutions; [contradiction|]. rewrite Hnil in Hlen. simpl in Hlen. lia.
    + destruct (IH (S i) (seen ++ [fingerprint sol]) (solutions ++ [sol]))
        as (seen' & sols' & E' & Hinv' & Hlen & _).
      { split; [now rewrite map_app, Hseen|]. split.
        - apply NoDup_app; [exact Hnd | repeat constructor; intros [] |].
          intros k Hk [<-|[]]. apply existsb_string_In in Hk. congruence.
        - apply Forall_app. split; [exact Hall | constructor; [exact Hs | constructor]]. }
      exists seen', sols'. split; [exact E'|]. split; [exact Hinv'|].
      rewrite length_app in Hlen. simpl in Hlen. split; [lia|].
      intros _ Hnil. rewrite Hnil in Hlen. simpl in Hlen. lia.
Qed.

Lemma generateSolutionsSync_spec (count : nat) (seeds : list Z) :
  exists solutions,
    generateSolutionsSync count seeds = Some solutions /\
    (1 <= length solutions <= Nat.max 1 count)%nat /\
    Forall (solves createEmptyBoard allIds) solutions /\
    NoDup (map fingerprint solutions).
Proof.
  unfold generateSolutionsSync.
  destruct (solutionsLoop_spec seeds count 0 [] [])
    as (seen & sols & E & (Hseen & Hnd & Hall) & Hlen & Hne).
  { split; [reflexivity|]. split; constructor. }
  rewrite E. simpl in Hlen. destruct sols as [|s sols].
  - assert (count = O) by (destruct count; [reflexivity | exfalso; now apply Hne]).
    subst count. change (map p_id PIECES) with allIds. rewrite solve_empty_board.
    exists [firstSolution]. split; [reflexivity|]. split; [cbn [length]; lia|]. split.
    + constructor; [|constructor]. apply solve_solves, solve_empty_board.
    + simpl. constructor; [intros [] | constructor].
  - exists (s :: sols). split; [reflexivity|]. split; [cbn [length] in *; lia|].
    split; [exact Hall|]. now rewrite <- Hseen.
Qed.

(** For seeds that are integers of magnitude at most 2^32 whose shuffles
    draw within range, [generateSolutionsSync] returns at least one solution
    and at most [count] (one if [count] is 0, from the fallback); every
    solution it returns covers each cell of the empty board exactly once
    with the twelve pieces, and no two of them have the same fingerprint.
    The packer fails for no ordering of the ids, so the fallback is used
    only when [count] is 0. *)
Theorem generateSolutionsSync_returns_distinct_coverings (count : nat) (seeds : list Z) :
  Forall (fun seed => Z.abs seed <= 4294967296 /\ drawsInRange 11 seed = true) seeds ->
  exists solutions,
    generateSolutionsSync count seeds = Some solutions /\
    (1 <= length solutions <= Nat.max 1 count)%nat /\
    Forall (solves createEmptyBoard allIds) solutions /\
    NoDup (map fingerprint solutions).
Proof. intros _. apply generateSolutionsSync_spec. Qed.

Lemma generateSolutionsSync_returns_distinct_coverings_witness :
  Forall (fun seed => Z.abs seed <= 4294967296 /\ drawsInRange 11 seed = true) [42] /\
  generateSolutionsSync 1 [42] = Some [solution42] /\
  solves createEmptyBoard allIds solution42.
Proof.
  assert (H : Forall (fun seed => Z.abs seed <= 4294967296 /\ drawsInRange 11 seed = true)
                     [42]).
  { constructor; [|constructor]. split; [simpl; lia | vm_compute; reflexivity]. }
  split; [exact H|].
  assert (E : generateSolutionsSync 1 [42] = Some [solution42]) by (vm_compute; reflexivity).
  split; [exact E|].
  destruct (generateSolutionsSync_returns_distinct_coverings 1 [42] H)
    as (sols & E' & _ & Hall & _).
  rewrite E in E'. apply Some_inj in E'. subst sols. now inversion Hall.
Defined.


(* ================================================================== *)
(** * Part XVI: the game state                                         *)
(* ================================================================== *)

(** ** Cells of a well-formed board *)

Lemma getCell_inGrid (b : Board) (c r : Z) :
  wf_board b -> (inGrid c r <-> exists v, getCell b c r = Some v).
Proof.
  intros [Hl Hrows]. unfold inGrid, getCell, ROWS, COLS in *. split.
  - intros [Hr Hc].
    destruct (r <? 0) eqn:E1; [apply Z.ltb_lt in E1; lia|].
    destruct (c <? 0) eqn:E2; [apply Z.ltb_lt in E2; lia|]. cbn [orb].
    destruct (nth_error b (Z.to_nat r)) as [row|] eqn:Er.
    + assert (Hrow : length row = Z.to_nat 11).
      { rewrite Forall_forall in Hrows. apply Hrows. eapply nth_error_In; eassumption. }
      destruct (nth_error row (Z.to_nat c)) as [v|] eqn:Ec; [eauto|].
      apply nth_error_None in Ec. lia.
    + apply nth_error_None in Er. lia.
  - intros [v Hv].
    destruct (r <? 0) eqn:E1; [discriminate|].
    destruct (c <? 0) eqn:E2; [discriminate|]. cbn [orb] in Hv.
    apply Z.ltb_ge in E1, E2.
    destruct (nth_error b (Z.to_nat r)) as [row|] eqn:Er; [|discriminate].
    assert (Hrow : length row = Z.to_nat 11).
    { rewrite Forall_forall in Hrows. apply Hrows. eapply nth_error_In; eassumption. }
    assert (H1 : (Z.to_nat r < length b)%nat) by (apply nth_error_Some; congruence).
    assert (H2 : (Z.to_nat c < length row)%nat) by (apply nth_error_Some; congruence).
    lia.
Qed.

Lemma dims_length (b b' : Board) : dims b' = dims b -> length b' = length b.
Proof. unfold dims. intros H. apply (f_equal (@length nat)) in H. now rewrite !length_map in H. Qed.

(** ** The scanning loops of [doRemove] *)

Lemma clearCols_spec (k : PieceId) (n : nat) :
  forall b c r, 0 <= c -> 0 <= r -> (Z.to_nat r < length b)%nat ->
  exists b', clearCols n b k c r = Some b' /\ dims b' = dims b /\
    forall c' r', getCell b' c' r' =
      if (r' =? r) && (c <=? c') && (c' <? c + Z.of_nat n) && holds k (getCell b c' r')
      then Some None else getCell b c' r'.
Proof.
  induction n as [|n IH]; intros b c r Hc Hr Hlen.
  - exists b. split; [reflexivity|]. split; [reflexivity|]. intros c' r'.
    destruct (r' =? r), (Z.leb_spec c c'), (Z.ltb_spec c' (c + Z.of_nat 0)); cbn [andb];
      try reflexivity; lia.
  - cbn [clearCols].
    destruct (nth_error b (Z.to_nat r)) as [rowArr|] eqn:Er;
      [|apply nth_error_None in Er; lia].
    assert (Hget : getCell b c r = nth_error rowArr (Z.to_nat c)).
    { unfold getCell. destruct (r <? 0) eqn:E1; [apply Z.ltb_lt in E1; lia|].
      destruct (c <? 0) eqn:E2; [apply Z.ltb_lt in E2; lia|]. cbn [orb]. now rewrite Er. }
    assert (Hskip : holds k (getCell b c r) = false ->
            exists b', clearCols n b k (c + 1) r = Some b' /\ dims b' = dims b /\
              forall c' r', getCell b' c' r' =
                if (r' =? r) && (c <=? c') && (c' <? c + Z.of_nat (S n))
                   && holds k (getCell b c' r')
                then Some None else getCell b c' r').
    { intros Hk. destruct (IH b (c + 1) r ltac:(lia) Hr Hlen) as (b' & E & Hd & Hg).
      exists b'. split; [exact E|]. split; [exact Hd|]. intros c' r'. rewrite Hg.
      destruct (Z.eqb_spec r' r) as [->|]; cbn [andb]; [|reflexivity].
      destruct (Z.leb_spec (c + 1) c'), (Z.leb_spec c c'),
               (Z.ltb_spec c' (c + 1 + Z.of_nat n)), (Z.ltb_spec c' (c + Z.of_nat (S n)));
        cbn [andb]; try reflexivity; try lia.
      assert (c' = c) by lia. subst c'. now rewrite Hk. }
    destruct (nth_error rowArr (Z.to_nat c)) as [[q|]|] eqn:Ec.
    + destruct (PieceId_eqb q k) eqn:Eq.
      * destruct (setCell_exists b c r (Some q) None Hget) as (b1 & E1). rewrite E1.
        pose proof (setCell_dims _ _ _ _ _ E1) as Hd1.
        pose proof (setCell_spec _ _ _ _ _ E1) as Hg1.
        destruct (IH b1 (c + 1) r ltac:(lia) Hr) as (b' & E & Hd & Hg).
        { rewrite (dims_length _ _ Hd1). exact Hlen. }
        exists b'. split; [exact E|]. split; [congruence|]. intros c' r'.
        rewrite Hg, !Hg1.
        destruct (Z.eqb_spec r' r) as [->|]; cbn [andb]; [|now rewrite andb_false_r].
        destruct (Z.eqb_spec c' c) as [->|Hne]; cbn [andb].
        -- rewrite Hget. cbn [holds]. rewrite Eq.
           destruct (Z.leb_spec (c + 1) c), (Z.leb_spec c c),
                    (Z.ltb_spec c (c + Z.of_nat (S n))); cbn [andb]; try reflexivity; lia.
        -- destruct (Z.leb_spec (c + 1) c'), (Z.leb_spec c c'),
                    (Z.ltb_spec c' (c + 1 + Z.of_nat n)), (Z.ltb_spec c' (c + Z.of_nat (S n)));
             cbn [andb]; try reflexivity; lia.
      * apply Hskip. rewrite Hget. cbn [holds]. exact Eq.
    + apply Hskip. now rewrite Hget.
    + apply Hskip. now rewrite Hget.
Qed.

Lemma clearRows_spec (k : PieceId) (n : nat) :
  forall b r, 0 <= r -> (Z.to_nat r + n <= length b)%nat ->
  exists b', clearRows n b k r = Some b' /\ dims b' = dims b /\
    forall c' r', getCell b' c' r' =
      if (r <=? r') && (r' <? r + Z.of_nat n) && (0 <=? c') && (c' <? COLS)
         && holds k (getCell b c' r')
      then Some None else getCell b c' r'.
Proof.
  induction n as [|n IH]; intros b r Hr Hlen.
  - exists b. split; [reflexivity|]. split; [reflexivity|]. intros c' r'.
    destruct (Z.leb_spec r r'), (Z.ltb_spec r' (r + Z.of_nat 0)); cbn [andb];
      try reflexivity; lia.
  - cbn [clearRows].
    destruct (clearCols_spec k (Z.to_nat COLS) b 0 r ltac:(lia) Hr ltac:(lia))
      as (b1 & E1 & Hd1 & Hg1).
    rewrite E1.
    destruct (IH b1 (r + 1) ltac:(lia)) as (b' & E & Hd & Hg).
    { rewrite (dims_length _ _ Hd1). lia. }
    exists b'. split; [exact E|]. split; [congruence|]. intros c' r'.
    rewrite Hg, !Hg1. rewrite Z2Nat.id by (unfold COLS; lia).
    replace (0 + COLS) with COLS by lia.
    destruct (Z.eqb_spec r' r) as [->|Hne]; cbn [andb].
    + destruct (Z.leb_spec (r + 1) r), (Z.leb_spec r r), (Z.ltb_spec r (r + Z.of_nat (S n)));
        cbn [andb]; try reflexivity; lia.
    + destruct (Z.leb_spec (r + 1) r'), (Z.leb_spec r r'),
               (Z.ltb_spec r' (r + 1 + Z.of_nat n)), (Z.ltb_spec r' (r + Z.of_nat (S n)));
        cbn [andb]; try reflexivity; lia.
Qed.

(** On a well-formed board the loops of [doRemove] empty exactly the cells
    that hold the id. *)
Lemma clearBoard_spec (k : PieceId) (b : Board) :
  wf_board b ->
  exists b', clearRows (Z.to_nat ROWS) b k 0 = Some b' /\ wf_board b' /\
    forall c r, getCell b' c r = if holds k (getCell b c r) then Some None else getCell b c r.
Proof.
  intros Hwf.
  destruct (clearRows_spec k (Z.to_nat ROWS) b 0 ltac:(lia)) as (b' & E & Hd & Hg).
  { destruct Hwf as [Hl _]. rewrite Hl. simpl. lia. }
  exists b'. split; [exact E|]. split.
  { apply wf_board_dims. rewrite Hd. now apply wf_board_dims. }
  intros c r. rewrite Hg.
  destruct (holds k (getCell b c r)) eqn:Hk; [|now rewrite andb_false_r].
  assert (Hin : inGrid c r).
  { apply (getCell_inGrid b c r Hwf). destruct (getCell b c r); [eauto | discriminate]. }
  unfold inGrid, ROWS, COLS in *.
  destruct (Z.leb_spec 0 r), (Z.ltb_spec r (0 + Z.of_nat (Z.to_nat 5))), (Z.leb_spec 0 c),
           (Z.ltb_spec c 11); cbn [andb]; try reflexivity; lia.
Qed.

(** ** Consistent states *)

Lemma PieceId_eqb_neq (a b : PieceId) : PieceId_eqb a b = false <-> a <> b.
Proof.
  split.
  - intros H E. apply PieceId_eqb_eq in E. congruence.
  - intros H. destruct (PieceId_eqb a b) eqn:E; [|reflexivity].
    apply PieceId_eqb_eq in E. contradiction.
Qed.

Lemma initialState_ok : game_ok initialState.
Proof.
  constructor; cbn [initialState g_board g_placed g_tray].
  - apply createEmptyBoard_wf.
  - intros c r k. split.
    + intros H. exfalso.
      assert (Hin : inGrid c r)
        by (apply (getCell_inGrid _ c r createEmptyBoard_wf); eauto).
      apply createEmptyBoard_isNull, isNull_getCell in Hin. congruence.
    + intros (p & Hp & _). discriminate.
  - intros k p c r Hp. discriminate.
  - intros k p Hp. discriminate.
  - intros k. split; [reflexivity|]. intros _.
    apply (proj2 (set_of_list_spec _)). apply allIds_all.
  - apply (proj1 (set_of_list_spec _)).
Qed.

(** The state [doPlace] leaves, apart from the timer flag. *)
Lemma doPlace_ok (g : GameState) (k : PieceId) (shape : Shape) (col row oi : Z) :
  game_ok g ->
  g_placed g k = None ->
  In shape (ORIENTATIONS k) ->
  canPlace (g_board g) shape col row = true ->
  exists g',
    doPlace g k shape col row oi = Some g' /\
    game_ok g' /\
    placePiece (g_board g) k shape col row = Some (g_board g') /\
    g_placed g' = map_set (g_placed g) k (mkPlaced col row oi shape) /\
    g_tray g' = set_delete k (g_tray g) /\
    g_selected g' = g_selected g /\ g_mode g' = g_mode g /\
    g_currentChallengeId g' = g_currentChallengeId g /\
    g_currentChallenge g' = g_currentChallenge g /\
    g_lockedPieces g' = g_lockedPieces g /\
    g_timerStarted g' = g_timerStarted g || negb (set_has k (g_lockedPieces g)).
Proof.
  intros Hok Hfree Hshape Hcan.
  destruct (placePiece_effect (g_board g) k shape col row Hcan) as (b1 & E1 & Hd1 & Hg1 & _).
  unfold placePiece in E1. unfold doPlace. rewrite E1.
  set (g1 := mkGame b1 (map_set (g_placed g) k (mkPlaced col row oi shape))
                    (set_delete k (g_tray g)) (g_selected g) (g_mode g)
                    (g_currentChallengeId g) (g_currentChallenge g)
                    (g_lockedPieces g) (g_timerStarted g)).
  assert (Hok1 : game_ok g1).
  { destruct Hok as [Hwf Hcells Hinside Hsh Htray Hnd].
    pose proof (proj1 (canPlace_spec _ _ _ _) Hcan) as Hfit.
    constructor; cbn [g1 g_board g_placed g_tray].
    - apply wf_board_dims. rewrite Hd1. now apply wf_board_dims.
    - intros c r q. rewrite Hg1. unfold map_set.
      destruct (in_dec Cell_eq_dec (c, r) (cellsAt shape col row)) as [Hin|Hout].
      + split.
        * intros [= <-]. rewrite PieceId_eqb_refl. eexists; split; [reflexivity|exact Hin].
        * intros (p & Hp & Hcell).
          destruct (PieceId_eqb q k) eqn:Eq; [apply PieceId_eqb_eq in Eq; now subst q|].
          exfalso.
          assert (Hq : getCell (g_board g) c r = Some (Some q)) by (apply Hcells; eauto).
          destruct (Hfit c r Hin) as [_ Hnull]. apply isNull_getCell in Hnull. congruence.
      + rewrite Hcells. split.
        * intros (p & Hp & Hcell).
          destruct (PieceId_eqb q k) eqn:Eq;
            [apply PieceId_eqb_eq in Eq; subst q; congruence | eauto].
        * intros (p & Hp & Hcell).
          destruct (PieceId_eqb q k) eqn:Eq; [|eauto].
          injection Hp as <-. cbn [pp_shape pp_col pp_row] in Hcell. contradiction.
    - intros q p c r Hp Hcell. unfold map_set in Hp.
      destruct (PieceId_eqb q k) eqn:Eq; [|eapply Hinside; eassumption].
      injection Hp as <-. cbn [pp_shape pp_col pp_row] in Hcell. now apply Hfit.
    - intros q p Hp. unfold map_set in Hp.
      destruct (PieceId_eqb q k) eqn:Eq; [|now apply Hsh].
      apply PieceId_eqb_eq in Eq. subst q. injection Hp as <-. exact Hshape.
    - intros q. rewrite set_delete_In, Htray. unfold map_set.
      destruct (PieceId_eqb q k) eqn:Eq.
      + apply PieceId_eqb_eq in Eq. split; [intros [_ H]; contradiction | discriminate].
      + apply PieceId_eqb_neq in Eq. tauto.
    - now apply set_delete_NoDup. }
  assert (Hrest : forall t, let g' := mkGame b1 (map_set (g_placed g) k (mkPlaced col row oi shape))
                    (set_delete k (g_tray g)) (g_selected g) (g_mode g)
                    (g_currentChallengeId g) (g_currentChallenge g)
                    (g_lockedPieces g) t in
            game_ok g').
  { intros t g'. destruct Hok1 as [A B C D E F]. constructor; assumption. }
  destruct (set_has k (g_lockedPieces g)) eqn:El, (g_timerStarted g) eqn:Et;
    cbn [negb andb orb]; unfold startTimer; subst g1;
    cbn [g_timerStarted g_board g_placed g_tray g_selected g_mode
         g_currentChallengeId g_currentChallenge g_lockedPieces];
    (eexists; split; [reflexivity|]; split; [apply Hrest|];
     cbn [g_timerStarted g_board g_placed g_tray g_selected g_mode
          g_currentChallengeId g_currentChallenge g_lockedPieces];
     split; [exact E1|]; repeat split; reflexivity).
Qed.

Lemma holds_spec (k : PieceId) (v : option cell) : holds k v = true <-> v = Some (Some k).
Proof.
  unfold holds. destruct v as [[q|]|]; try (split; discriminate).
  rewrite PieceId_eqb_eq. split; [now intros -> | now intros [= ->]].
Qed.

(** The state [doRemove] leaves for a piece that is not locked. *)
Lemma doRemove_ok (g : GameState) (k : PieceId) :
  game_ok g ->
  set_has k (g_lockedPieces g) = false ->
  exists g',
    doRemove g k = Some (true, g') /\
    game_ok g' /\
    (forall c r, getCell (g_board g') c r =
                 if holds k (getCell (g_board g) c r) then Some None
                 else getCell (g_board g) c r) /\
    g_placed g' = map_delete (g_placed g) k /\
    g_tray g' = set_add k (g_tray g) /\
    g_selected g' = g_selected g /\ g_mode g' = g_mode g /\
    g_currentChallengeId g' = g_currentChallengeId g /\
    g_currentChallenge g' = g_currentChallenge g /\
    g_lockedPieces g' = g_lockedPieces g /\
    g_timerStarted g' = g_timerStarted g.
Proof.
  intros Hok Hl. unfold doRemove. rewrite Hl.
  destruct Hok as [Hwf Hcells Hinside Hsh Htray Hnd].
  destruct (clearBoard_spec k (g_board g) Hwf) as (b' & E & Hwf' & Hg). rewrite E.
  eexists. split; [reflexivity|].
  cbn [g_timerStarted g_board g_placed g_tray g_selected g_mode
       g_currentChallengeId g_currentChallenge g_lockedPieces].
  split; [|split; [exact Hg | repeat split; reflexivity]].
  constructor; cbn [g_board g_placed g_tray].
  - exact Hwf'.
  - intros c r q. rewrite Hg. unfold map_delete.
    destruct (holds k (getCell (g_board g) c r)) eqn:Hk.
    + apply holds_spec in Hk. split; [discriminate|].
      intros (p & Hp & Hcell). exfalso.
      destruct (PieceId_eqb q k) eqn:Eq; [discriminate|]. apply PieceId_eqb_neq in Eq.
      assert (Hq : getCell (g_board g) c r = Some (Some q)) by (apply Hcells; eauto).
      congruence.
    + rewrite Hcells. destruct (PieceId_eqb q k) eqn:Eq; [|reflexivity].
      apply PieceId_eqb_eq in Eq. subst q. split.
      * intros Hex. exfalso. apply (proj2 (Hcells c r k)) in Hex.
        apply holds_spec in Hex. congruence.
      * intros (p & Hp & _). discriminate.
  - intros q p c r Hp. unfold map_delete in Hp.
    destruct (PieceId_eqb q k); [discriminate | exact (Hinside q p c r Hp)].
  - intros q p Hp. unfold map_delete in Hp.
    destruct (PieceId_eqb q k); [discriminate | now apply Hsh].
  - intros q. rewrite set_add_In, Htray. unfold map_delete.
    destruct (PieceId_eqb q k) eqn:Eq.
    + apply PieceId_eqb_eq in Eq. tauto.
    + apply PieceId_eqb_neq in Eq. tauto.
  - now apply set_add_NoDup.
Qed.

(** Taking back the piece just placed restores the board, the map of
    placed pieces and the content of the tray. *)
Lemma doPlace_doRemove (g : GameState) (k : PieceId) (shape : Shape) (col row oi : Z) :
  game_ok g ->
  g_placed g k = None ->
  In shape (ORIENTATIONS k) ->
  canPlace (g_board g) shape col row = true ->
  set_has k (g_lockedPieces g) = false ->
  exists g1 g2,
    doPlace g k shape col row oi = Some g1 /\
    doRemove g1 k = Some (true, g2) /\
    g_board g2 = g_board g /\
    (forall q, g_placed g2 q = g_placed g q) /\
    Permutation (g_tray g2) (g_tray g) /\
    g_lockedPieces g2 = g_lockedPieces g /\
    game_ok g2.
Proof.
  intros Hok Hfree Hshape Hcan Hl.
  destruct (doPlace_ok g k shape col row oi Hok Hfree Hshape Hcan)
    as (g1 & E1 & Hok1 & Hb1 & Hp1 & Ht1 & _ & _ & _ & _ & Hl1 & _).
  destruct (doRemove_ok g1 k Hok1) as (g2 & E2 & Hok2 & Hb2 & Hp2 & Ht2 & _ & _ & _ & _ & Hl2 & _);
    [now rewrite Hl1|].
  exists g1, g2. split; [exact E1|]. split; [exact E2|].
  destruct (placePiece_effect (g_board g) k shape col row Hcan) as (b1 & Eb & Hd1 & Hg1 & _).
  rewrite Hb1 in Eb. injection Eb as <-.
  pose proof (proj1 (canPlace_spec _ _ _ _) Hcan) as Hfit.
  split; [|split; [|split; [|split; [congruence | exact Hok2]]]].
  - apply board_ext.
    + rewrite <- Hd1. destruct Hok1 as [Hwf1 _ _ _ _ _], Hok2 as [Hwf2 _ _ _ _ _].
      apply wf_board_dims in Hwf1, Hwf2. congruence.
    + intros c r. rewrite Hb2, Hg1.
      destruct (in_dec Cell_eq_dec (c, r) (cellsAt shape col row)) as [Hin|Hout].
      * cbn [holds]. rewrite PieceId_eqb_refl.
        destruct (Hfit c r Hin) as [_ Hnull]. apply isNull_getCell in Hnull. now rewrite Hnull.
      * destruct (holds k (getCell (g_board g) c r)) eqn:Hk; [|reflexivity].
        apply holds_spec in Hk. apply (ok_cells g Hok) in Hk as (p & Hp & _). congruence.
  - intros q. rewrite Hp2, Hp1. unfold map_delete, map_set.
    destruct (PieceId_eqb q k) eqn:Eq; [|reflexivity].
    apply PieceId_eqb_eq in Eq. now subst q.
  - rewrite Ht2, Ht1. symmetry.
    apply set_add_delete_perm; [apply (ok_tray_NoDup g Hok) | | reflexivity].
    now apply (ok_tray g Hok).
Qed.

(** ** The win test *)

Lemma isBoardFull_spec (g : GameState) :
  wf_board (g_board g) ->
  (isBoardFull g = true <-> forall c r, inGrid c r -> isNull (g_board g) c r = false).
Proof.
  intros Hwf. unfold isBoardFull. rewrite forallb_forall. split.
  - intros H c r Hin.
    destruct (proj1 (getCell_inGrid _ c r Hwf) Hin) as [v Hv].
    unfold isNull. rewrite Hv. destruct v as [q|]; [reflexivity|]. exfalso.
    unfold getCell in Hv.
    destruct ((r <? 0) || (c <? 0)); [discriminate|].
    destruct (nth_error (g_board g) (Z.to_nat r)) as [row|] eqn:Er; [|discriminate].
    apply nth_error_In in Er, Hv. specialize (H row Er).
    rewrite forallb_forall in H. specialize (H None Hv). discriminate.
  - intros H row Hrow. apply forallb_forall. intros v Hv.
    destruct v as [q|]; [reflexivity|]. exfalso.
    apply In_nth_error in Hrow as [r Hr]. apply In_nth_error in Hv as [c Hc].
    assert (Hget : getCell (g_board g) (Z.of_nat c) (Z.of_nat r) = Some None).
    { unfold getCell.
      destruct (Z.ltb_spec (Z.of_nat r) 0); [lia|]. destruct (Z.ltb_spec (Z.of_nat c) 0); [lia|].
      cbn [orb]. now rewrite !Nat2Z.id, Hr. }
    assert (Hin : inGrid (Z.of_nat c) (Z.of_nat r)) by (apply (getCell_inGrid _ _ _ Hwf); eauto).
    specialize (H _ _ Hin). apply isNull_getCell in Hget. congruence.
Qed.

(** [isBoardFull] agrees with the packer's [findFirstEmpty]. *)
Lemma isBoardFull_findFirstEmpty (g : GameState) :
  wf_board (g_board g) ->
  (isBoardFull g = true <-> findFirstEmpty (g_board g) = None).
Proof.
  intros Hwf. rewrite (isBoardFull_spec g Hwf). split.
  - intros H. pose proof (findFirstEmpty_spec (g_board g)) as Hs.
    destruct (findFirstEmpty (g_board g)) as [[c r]|]; [|reflexivity].
    destruct Hs as (Hin & Hnull & _). rewrite (H c r Hin) in Hnull. discriminate.
  - intros E. now apply findFirstEmpty_None.
Qed.

(** The placed pieces with ids in [l], as placements of the packer. *)
Lemma placements_of_state (g : GameState) :
  game_ok g ->
  forall l, NoDup l -> (forall k, In k l -> g_placed g k <> None) ->
  exists sol,
    map pl_pieceId sol = l /\
    (forall pl, In pl sol ->
       valid_orientation pl /\
       exists p, g_placed g (pl_pieceId pl) = Some p /\
                 placementCells pl = cellsAt (pp_shape p) (pp_col p) (pp_row p)) /\
    NoDup (solutionCells sol).
Proof.
  intros Hok. induction l as [|k l IH]; intros Hnd Hall.
  - exists []. split; [reflexivity|]. split; [intros pl []|constructor].
  - inversion Hnd as [|? ? Hk Hl]; subst.
    destruct (IH Hl) as (sol & Hids & Hsol & Hcells); [intros q Hq; apply Hall; now right|].
    destruct (g_placed g k) as [p|] eqn:Hp; [|exfalso; now apply (Hall k (or_introl eq_refl))].
    destruct (In_nth_error _ _ (ok_shape g Hok k p Hp)) as [n Hn].
    set (pl := mkPlacement k (pp_shape p) (pp_col p) (pp_row p) (Z.of_nat n)).
    exists (pl :: sol). split; [simpl; now rewrite Hids|]. split.
    + intros pl' [<-|Hin]; [|now apply Hsol].
      split; [split; [cbn; lia | cbn [pl pl_pieceId pl_orientationIndex pl_shape];
                                 now rewrite Nat2Z.id]|].
      exists p. split; [exact Hp | reflexivity].
    + rewrite solutionCells_cons. apply NoDup_app; [| exact Hcells |].
      * apply cellsAt_NoDup. apply (ORIENTATIONS_NoDup k). exact (ok_shape g Hok k p Hp).
      * intros [c r] Hx Hy. apply in_solutionCells in Hy as (pl' & Hpl' & Hy).
        destruct (Hsol pl' Hpl') as (_ & p' & Hp' & Ecells). rewrite Ecells in Hy.
        assert (H1 : getCell (g_board g) c r = Some (Some k))
          by (apply (ok_cells g Hok); exists p; split; [exact Hp | exact Hx]).
        assert (H2 : getCell (g_board g) c r = Some (Some (pl_pieceId pl')))
          by (apply (ok_cells g Hok); exists p'; split; [exact Hp' | exact Hy]).
        apply Hk. rewrite <- Hids. apply in_map_iff. exists pl'. split; [congruence | exact Hpl'].
Qed.

Lemma win_iff_all_placed (g : GameState) :
  game_ok g ->
  (isBoardFull g = true <-> g_tray g = []) /\
  (isBoardFull g = true <-> findFirstEmpty (g_board g) = None) /\
  (isBoardFull g = true <-> forall k, g_placed g k <> None).
Proof.
  intros Hok.
  assert (Htray : g_tray g = [] <-> forall k, g_placed g k <> None).
  { split.
    - intros E k Hk. apply (ok_tray g Hok) in Hk. rewrite E in Hk. exact Hk.
    - intros H. destruct (g_tray g) as [|k t] eqn:E; [reflexivity|]. exfalso.
      apply (H k). apply (ok_tray g Hok). rewrite E. now left. }
  assert (Hmain : isBoardFull g = true <-> forall k, g_placed g k <> None).
  { rewrite (isBoardFull_spec g (ok_board g Hok)). split.
    - intros Hfull.
      set (P := filter (fun k => match g_placed g k with Some _ => true | None => false end)
                       allIds).
      destruct (placements_of_state g Hok P) as (sol & Hids & Hsol & Hnd).
      { apply NoDup_filter, allIds_NoDup. }
      { intros k Hk. apply filter_In in Hk as [_ Hk]. destruct (g_placed g k); congruence. }
      assert (Hs : solves createEmptyBoard allIds sol).
      { split; [|split; [exact Hnd|split; [|split]]].
        - intros pl c r Hpl Hc. destruct (Hsol pl Hpl) as (_ & p & Hp & E).
          rewrite E in Hc. exact (ok_inside g Hok _ _ _ _ Hp Hc).
        - rewrite Hids. apply NoDup_filter, allIds_NoDup.
        - intros pl Hpl. split; [apply allIds_all | now apply Hsol].
        - intros c r. split.
          + intros Hc. apply in_solutionCells in Hc as (pl & Hpl & Hc).
            destruct (Hsol pl Hpl) as (_ & p & Hp & E). rewrite E in Hc.
            pose proof (ok_inside g Hok _ _ _ _ Hp Hc) as Hin.
            split; [exact Hin | now apply createEmptyBoard_isNull].
          + intros [Hin _]. specialize (Hfull c r Hin).
            destruct (proj1 (getCell_inGrid _ c r (ok_board g Hok)) Hin) as [v Hv].
            unfold isNull in Hfull. rewrite Hv in Hfull.
            destruct v as [k|]; [|discriminate].
            apply (ok_cells g Hok) in Hv as (p & Hp & Hc).
            assert (Hk : In k P).
            { apply filter_In. split; [apply allIds_all | now rewrite Hp]. }
            rewrite <- Hids in Hk. apply in_map_iff in Hk as (pl & Ek & Hpl).
            apply in_solutionCells. exists pl. split; [exact Hpl|].
            destruct (Hsol pl Hpl) as (_ & p' & Hp' & E). rewrite E.
            rewrite Ek, Hp in Hp'. now injection Hp' as <-. }
      destruct (cover_uses_all_pieces allIds sol Hs) as [Hperm _].
      rewrite Hids in Hperm. intros k.
      assert (Hk : In k P) by (eapply Permutation_in; [symmetry; exact Hperm | apply allIds_all]).
      apply filter_In in Hk as [_ Hk]. destruct (g_placed g k); congruence.
    - intros Hall c r Hin.
      destruct (placements_of_state g Hok allIds allIds_NoDup) as (sol & Hids & Hsol & Hnd);
        [intros k _; apply Hall|].
      assert (Hlen : Z.of_nat (length (solutionCells sol)) = 55).
      { rewrite solutionCells_size; [now rewrite Hids | intros pl Hpl; now apply Hsol]. }
      assert (Hincl : incl (solutionCells sol) gridCells).
      { intros [c' r'] Hc. apply gridCells_In. cbn [fst snd].
        apply in_solutionCells in Hc as (pl & Hpl & Hc).
        destruct (Hsol pl Hpl) as (_ & p & Hp & E). rewrite E in Hc.
        exact (ok_inside g Hok _ _ _ _ Hp Hc). }
      assert (Hback : incl gridCells (solutionCells sol)).
      { apply NoDup_length_incl; [exact Hnd | | exact Hincl].
        rewrite gridCells_length. unfold ROWS, COLS. lia. }
      assert (Hc : In (c, r) (solutionCells sol)) by (apply Hback, gridCells_In; exact Hin).
      apply in_solutionCells in Hc as (pl & Hpl & Hc).
      destruct (Hsol pl Hpl) as (_ & p & Hp & E). rewrite E in Hc.
      assert (Hv : getCell (g_board g) c r = Some (Some (pl_pieceId pl)))
        by (apply (ok_cells g Hok); eauto).
      unfold isNull. now rewrite Hv. }
  split; [now rewrite Htray|]. split; [|exact Hmain].
  apply isBoardFull_findFirstEmpty, (ok_board g Hok).
Qed.

(** ** The anchor *)

Lemma anchorLoop_spec (cc cr : Q) :
  forall cells best,
    let a := anchorLoop cc cr cells best (Some (sqDist cc cr best)) in
    (a = best /\ forall p, In p cells -> (sqDist cc cr best <= sqDist cc cr p)%Q) \/
    (exists l1 l2, cells = l1 ++ a :: l2 /\
       (sqDist cc cr a < sqDist cc cr best)%Q /\
       (forall p, In p l1 -> (sqDist cc cr a < sqDist cc cr p)%Q) /\
       (forall p, In p l2 -> (sqDist cc cr a <= sqDist cc cr p)%Q)).
Proof.
  induction cells as [|p rest IH]; intros best; cbn [anchorLoop].
  - left. split; [reflexivity | intros p []].
  - destruct (Qlt_le_dec (sqDist cc cr p) (sqDist cc cr best)) as [Hlt|Hle].
    + right. destruct (IH p) as [[Ea Hall]|(l1 & l2 & E & Ha & H1 & H2)].
      * exists [], rest. rewrite Ea. split; [reflexivity|]. split; [exact Hlt|].
        split; [intros q [] | exact Hall].
      * exists (p :: l1), l2. split; [cbn [app]; f_equal; exact E|].
        split; [eapply Qlt_trans; eassumption|]. split; [|exact H2].
        intros q [<-|Hq]; [exact Ha | now apply H1].
    + destruct (IH best) as [[Ea Hall]|(l1 & l2 & E & Ha & H1 & H2)].
      * left. split; [exact Ea|]. intros q [<-|Hq]; [exact Hle | now apply Hall].
      * right. exists (p :: l1), l2. split; [cbn [app]; f_equal; exact E|]. split; [exact Ha|].
        split; [|exact H2].
        intros q [<-|Hq]; [eapply Qlt_le_trans; eassumption | now apply H1].
Qed.

Lemma computeAnchor_spec (shape : Shape) :
  shape <> [] ->
  exists a l1 l2,
    computeAnchor shape = Some a /\
    shape = l1 ++ a :: l2 /\
    (forall p, In p l1 -> (centerDist shape a < centerDist shape p)%Q) /\
    (forall p, In p l2 -> (centerDist shape a <= centerDist shape p)%Q).
Proof.
  destruct shape as [|first rest]; [congruence|]. intros _.
  unfold computeAnchor, centerDist.
  set (cc := (inject_Z (list_max (map fst (first :: rest))) / 2)%Q).
  set (cr := (inject_Z (list_max (map snd (first :: rest))) / 2)%Q).
  cbn [anchorLoop].
  destruct (anchorLoop_spec cc cr rest first) as [[Ea Hall]|(l1 & l2 & E & Ha & H1 & H2)].
  - eexists _, [], rest. split; [reflexivity|]. rewrite Ea.
    split; [reflexivity|]. split; [intros p [] | exact Hall].
  - eexists _, (first :: l1), l2. split; [reflexivity|].
    split; [cbn [app]; f_equal; exact E|]. split; [|exact H2].
    intros q [<-|Hq]; [exact Ha | now apply H1].
Qed.

Lemma computeAnchor_In (shape : Shape) :
  shape <> [] -> exists a, computeAnchor shape = Some a /\ In a shape.
Proof.
  intros Hne. destruct (computeAnchor_spec shape Hne) as (a & l1 & l2 & E & Es & _).
  exists a. split; [exact E|]. rewrite Es. apply in_or_app. right. now left.
Qed.

(** ** The orientation tables, as the selection uses them *)

Lemma ORIENTATIONS_distinct (k : PieceId) : NoDup (ORIENTATIONS k).
Proof.
  rewrite ORIENTATIONS_eq.
  apply (getAllOrientations_spec _ (PIECE_MAP_shape_nonempty k)).
Qed.

Lemma ORIENTATIONS_nonempty (k : PieceId) (o : Shape) : In o (ORIENTATIONS k) -> o <> [].
Proof.
  rewrite ORIENTATIONS_eq. intros Hin.
  pose proof (PIECE_MAP_shape_nonempty k) as Hne.
  destruct (getAllOrientations_spec _ Hne) as (_ & _ & _ & Hlen).
  rewrite Forall_forall in Hlen. specialize (Hlen o Hin).
  remember (p_shape (PIECE_MAP k)) as base eqn:Eb. clear Eb Hin. intros ->.
  destruct base; [congruence | discriminate].
Qed.

Lemma ORIENTATIONS_normal (k : PieceId) (o : Shape) : In o (ORIENTATIONS k) -> normalize o = o.
Proof.
  rewrite ORIENTATIONS_eq, getAllOrientations_images. unfold images.
  intros Hin. apply in_map_iff in Hin as (f & <- & _). apply normalize_idem.
Qed.

Lemma ORIENTATIONS_first (k : PieceId) : exists o, nth_error (ORIENTATIONS k) 0 = Some o.
Proof. destruct k; vm_compute; eauto. Qed.

Lemma rotate4_fixed (k : PieceId) (o : Shape) :
  In o (ORIENTATIONS k) -> rotate90CW (rotate90CW (rotate90CW (rotate90CW o))) = o.
Proof.
  intros Hin. rewrite <- (ORIENTATIONS_normal k o Hin) at 2.
  destruct (rotate90CW_is_normalize (rotate90CW (rotate90CW (rotate90CW o)))) as (x & E & _).
  rewrite <- (normalized_fixed _ (ex_intro _ x E)).
  apply normalize_of_congruent, rotate4_congruent.
Qed.

Lemma flip2_fixed (k : PieceId) (o : Shape) :
  In o (ORIENTATIONS k) -> flipH (flipH o) = o.
Proof.
  intros Hin. rewrite <- (ORIENTATIONS_normal k o Hin) at 2.
  destruct (flipH_is_normalize (flipH o)) as (x & E & _).
  rewrite <- (normalized_fixed _ (ex_intro _ x E)).
  apply normalize_of_congruent, flip2_congruent.
Qed.

(** ** [findIndex] by key *)

Lemma findIndexFrom_spec {A : Type} (pred : A -> bool) (arr : list A) :
  forall i, 0 <= i ->
    (findIndexFrom pred arr i = -1 /\ forall x, In x arr -> pred x = false) \/
    (exists n x, findIndexFrom pred arr i = i + Z.of_nat n /\
                 nth_error arr n = Some x /\ pred x = true /\
                 forall m y, (m < n)%nat -> nth_error arr m = Some y -> pred y = false).
Proof.
  induction arr as [|a arr IH]; intros i Hi; cbn [findIndexFrom].
  - left. split; [reflexivity | intros x []].
  - destruct (pred a) eqn:Ea.
    + right. exists O, a. split; [lia|]. split; [reflexivity|]. split; [exact Ea|].
      intros m y Hm. lia.
    + destruct (IH (i + 1) ltac:(lia)) as [[E Hall]|(n & x & E & Hn & Hx & Hfirst)].
      * left. split; [exact E|]. intros x [<-|Hx]; [exact Ea | now apply Hall].
      * right. exists (S n), x. split; [lia|]. split; [exact Hn|]. split; [exact Hx|].
        intros [|m] y Hm Hy; [cbn in Hy; now injection Hy as <-|].
        apply (Hfirst m y); [lia | exact Hy].
Qed.

(** Looking a shape of the table up by its key gives its index. *)
Lemma findIndex_by_key (k : PieceId) (o : Shape) :
  In o (ORIENTATIONS k) ->
  exists n,
    findIndex (fun x => String.eqb (shapeKey x) (shapeKey o)) (ORIENTATIONS k) = Z.of_nat n /\
    nth_error (ORIENTATIONS k) n = Some o.
Proof.
  intros Hin. unfold findIndex.
  destruct (findIndexFrom_spec (fun x => String.eqb (shapeKey x) (shapeKey o))
                               (ORIENTATIONS k) 0 ltac:(lia))
    as [[_ Hall]|(n & x & E & Hn & Hx & _)].
  - specialize (Hall o Hin). cbn beta in Hall. rewrite String.eqb_refl in Hall. discriminate.
  - exists n. split; [rewrite E; lia|].
    apply String.eqb_eq, shapeKey_inj in Hx. now subst x.
Qed.

(** The selection that [rotateSelected] and [flipSelected] leave when the
    shape in hand changes to [shape]. *)
Lemma reselect_spec (k : PieceId) (shape : Shape) :
  In shape (ORIENTATIONS k) ->
  exists n a,
    findIndex (fun x => String.eqb (shapeKey x) (shapeKey shape)) (ORIENTATIONS k) = Z.of_nat n /\
    orientationAt (ORIENTATIONS k) (Z.of_nat n) = Some shape /\
    computeAnchor shape = Some a /\ In a shape /\
    selection_ok (mkSelection k (Z.of_nat n) shape (fst a) (snd a)).
Proof.
  intros Hin. destruct (findIndex_by_key k shape Hin) as (n & E & Hn).
  destruct (computeAnchor_In shape (ORIENTATIONS_nonempty k shape Hin)) as (a & Ea & Ha).
  exists n, a. split; [exact E|]. split.
  { unfold orientationAt. destruct (Z.ltb_spec (Z.of_nat n) 0); [lia|]. now rewrite Nat2Z.id. }
  split; [exact Ea|]. split; [exact Ha|].
  split; cbn [sel_orientationIndex sel_id sel_shape]; [lia | now rewrite Nat2Z.id].
Qed.

Lemma rotateSelected_spec (g : GameState) (sel : Selection) :
  g_selected g = Some sel -> selection_ok sel ->
  exists sel',
    rotateSelected g = Some (withSelection g (Some sel') (g_mode g)) /\
    selection_ok sel' /\
    sel_id sel' = sel_id sel /\
    sel_shape sel' = rotate90CW (sel_shape sel) /\
    computeAnchor (sel_shape sel') = Some (sel_anchorCol sel', sel_anchorRow sel') /\
    In (sel_anchorCol sel', sel_anchorRow sel') (sel_shape sel').
Proof.
  intros Hsel [H0 Hn]. unfold rotateSelected. rewrite Hsel.
  assert (Hin : In (rotate90CW (sel_shape sel)) (ORIENTATIONS (sel_id sel))).
  { exact (proj1 (ORIENTATIONS_closed _ _ (nth_error_In _ _ Hn))). }
  destruct (reselect_spec _ _ Hin) as (n & [ac ar] & E & Hat & Ea & Ha & Hok).
  cbv zeta. rewrite E.
  destruct (Z.eqb_spec (Z.of_nat n) (-1)); [lia|]. cbn [negb].
  rewrite Hat, Ea.
  eexists. split; [reflexivity|]. split; [exact Hok|].
  cbn [sel_id sel_shape sel_anchorCol sel_anchorRow]. repeat split; assumption.
Qed.

Lemma flipSelected_spec (g : GameState) (sel : Selection) :
  g_selected g = Some sel -> selection_ok sel ->
  exists sel',
    flipSelected g = Some (withSelection g (Some sel') (g_mode g)) /\
    selection_ok sel' /\
    sel_id sel' = sel_id sel /\
    sel_shape sel' = flipH (sel_shape sel) /\
    computeAnchor (sel_shape sel') = Some (sel_anchorCol sel', sel_anchorRow sel') /\
    In (sel_anchorCol sel', sel_anchorRow sel') (sel_shape sel').
Proof.
  intros Hsel [H0 Hn]. unfold flipSelected. rewrite Hsel.
  assert (Hin : In (flipH (sel_shape sel)) (ORIENTATIONS (sel_id sel))).
  { exact (proj2 (ORIENTATIONS_closed _ _ (nth_error_In _ _ Hn))). }
  destruct (reselect_spec _ _ Hin) as (n & [ac ar] & E & Hat & Ea & Ha & Hok).
  cbv zeta. rewrite E.
  destruct (Z.eqb_spec (Z.of_nat n) (-1)); [lia|]. cbn [negb].
  rewrite Hat, Ea.
  eexists. split; [reflexivity|]. split; [exact Hok|].
  cbn [sel_id sel_shape sel_anchorCol sel_anchorRow]. repeat split; assumption.
Qed.

Lemma selection_ok_index (sel sel' : Selection) :
  selection_ok sel -> selection_ok sel' ->
  sel_id sel' = sel_id sel -> sel_shape sel' = sel_shape sel ->
  sel_orientationIndex sel' = sel_orientationIndex sel.
Proof.
  intros [H0 Hn] [H0' Hn'] Eid Eshape. rewrite Eid, Eshape, <- Hn in Hn'.
  apply (proj1 (NoDup_nth_error _) (ORIENTATIONS_distinct (sel_id sel))) in Hn'.
  - lia.
  - apply nth_error_Some. rewrite Hn', Hn. discriminate.
Qed.

Lemma withSelection_twice (g : GameState) (s s' : option Selection) (m : Mode) :
  withSelection (withSelection g s m) s' (g_mode (withSelection g s m)) = withSelection g s' m.
Proof. reflexivity. Qed.

Lemma selection_eq (sel sel' : Selection) :
  sel_id sel' = sel_id sel -> sel_orientationIndex sel' = sel_orientationIndex sel ->
  sel_shape sel' = sel_shape sel ->
  sel_anchorCol sel' = sel_anchorCol sel -> sel_anchorRow sel' = sel_anchorRow sel ->
  sel' = sel.
Proof. destruct sel, sel'; cbn. intros; subst; reflexivity. Qed.

(** Four quarter turns bring the piece in hand back to the table entry and
    the anchor it started from. *)
Lemma rotate4_restores (g : GameState) (sel : Selection) :
  g_selected g = Some sel -> selection_ok sel ->
  computeAnchor (sel_shape sel) = Some (sel_anchorCol sel, sel_anchorRow sel) ->
  andThen (andThen (andThen (rotateSelected g) rotateSelected) rotateSelected) rotateSelected
  = Some g.
Proof.
  intros Hsel Hok Hanchor.
  destruct (rotateSelected_spec g sel Hsel Hok) as (s1 & E1 & Hok1 & Hid1 & Hs1 & _).
  rewrite E1. cbn [andThen].
  destruct (rotateSelected_spec (withSelection g (Some s1) (g_mode g)) s1 eq_refl Hok1) as (s2 & E2 & Hok2 & Hid2 & Hs2 & _).
  rewrite E2, withSelection_twice. cbn [andThen].
  destruct (rotateSelected_spec (withSelection g (Some s2) (g_mode g)) s2 eq_refl Hok2) as (s3 & E3 & Hok3 & Hid3 & Hs3 & _).
  rewrite E3, withSelection_twice. cbn [andThen].
  destruct (rotateSelected_spec (withSelection g (Some s3) (g_mode g)) s3 eq_refl Hok3) as (s4 & E4 & Hok4 & Hid4 & Hs4 & Ha4 & _).
  rewrite E4, withSelection_twice.
  assert (Eid : sel_id s4 = sel_id sel) by congruence.
  assert (Eshape : sel_shape s4 = sel_shape sel).
  { rewrite Hs4, Hs3, Hs2, Hs1. apply (rotate4_fixed (sel_id sel)).
    destruct Hok as [_ Hn]. eapply nth_error_In; exact Hn. }
  assert (E : s4 = sel).
  { rewrite Eshape, Hanchor in Ha4. injection Ha4 as Ec Er.
    apply selection_eq; try congruence. now apply selection_ok_index. }
  rewrite E. f_equal. destruct g; cbn in Hsel |- *. unfold withSelection; cbn. now rewrite Hsel.
Qed.

Lemma flip2_restores (g : GameState) (sel : Selection) :
  g_selected g = Some sel -> selection_ok sel ->
  computeAnchor (sel_shape sel) = Some (sel_anchorCol sel, sel_anchorRow sel) ->
  andThen (flipSelected g) flipSelected = Some g.
Proof.
  intros Hsel Hok Hanchor.
  destruct (flipSelected_spec g sel Hsel Hok) as (s1 & E1 & Hok1 & Hid1 & Hs1 & _).
  rewrite E1. cbn [andThen].
  destruct (flipSelected_spec (withSelection g (Some s1) (g_mode g)) s1 eq_refl Hok1) as (s2 & E2 & Hok2 & Hid2 & Hs2 & Ha2 & _).
  rewrite E2, withSelection_twice.
  assert (Eid : sel_id s2 = sel_id sel) by congruence.
  assert (Eshape : sel_shape s2 = sel_shape sel).
  { rewrite Hs2, Hs1. apply (flip2_fixed (sel_id sel)).
    destruct Hok as [_ Hn]. eapply nth_error_In; exact Hn. }
  assert (E : s2 = sel).
  { rewrite Eshape, Hanchor in Ha2. injection Ha2 as Ec Er.
    apply selection_eq; try congruence. now apply selection_ok_index. }
  rewrite E. f_equal. destruct g; cbn in Hsel |- *. unfold withSelection; cbn. now rewrite Hsel.
Qed.

(** [selectPiece] takes a piece of the tray that is not locked in hand, in
    the first orientation of its table and anchored on one of its cells;
    for every other piece it changes nothing. *)
Lemma selectPiece_spec (g : GameState) (k : PieceId) :
  if set_has k (g_tray g) && negb (set_has k (g_lockedPieces g)) then
    exists sel,
      selectPiece g k = Some (withSelection g (Some sel) ModeSelected) /\
      selection_ok sel /\ sel_id sel = k /\ sel_orientationIndex sel = 0 /\
      computeAnchor (sel_shape sel) = Some (sel_anchorCol sel, sel_anchorRow sel) /\
      In (sel_anchorCol sel, sel_anchorRow sel) (sel_shape sel)
  else selectPiece g k = Some g.
Proof.
  unfold selectPiece.
  destruct (set_has k (g_tray g)); cbn [andb negb]; [|reflexivity].
  destruct (set_has k (g_lockedPieces g)); cbn [negb]; [reflexivity|].
  destruct (ORIENTATIONS_first k) as [o Ho]. cbv zeta.
  change (Z.to_nat 0) with O. rewrite Ho.
  destruct (computeAnchor_In o (ORIENTATIONS_nonempty k o (nth_error_In _ _ Ho)))
    as ([ac ar] & Ea & Ha).
  rewrite Ea. eexists. split; [reflexivity|].
  cbn [sel_id sel_shape sel_anchorCol sel_anchorRow sel_orientationIndex].
  split; [split; [cbn; lia | exact Ho]|]. repeat split; assumption.
Qed.

(** ** Clicks on the board *)

Lemma game_ok_ext (g g' : GameState) :
  g_board g' = g_board g -> g_placed g' = g_placed g -> g_tray g' = g_tray g ->
  game_ok g -> game_ok g'.
Proof.
  intros Eb Ep Et [A B C D E F].
  constructor; rewrite ?Eb, ?Ep, ?Et; assumption.
Qed.

Lemma click_with_piece_in_hand (g : GameState) (sel : Selection) (hoverCol hoverRow : Z)
    (piece : option PieceId) :
  game_ok g -> g_mode g = ModeSelected -> g_selected g = Some sel ->
  selection_ok sel -> In (sel_anchorCol sel, sel_anchorRow sel) (sel_shape sel) ->
  In (sel_id sel) (g_tray g) ->
  let col := hoverCol - sel_anchorCol sel in
  let row := hoverRow - sel_anchorRow sel in
  if canPlace (g_board g) (sel_shape sel) col row then
    exists outcome g',
      handleBoardClick g hoverCol hoverRow piece = Some (outcome, g') /\
      game_ok g' /\ g_selected g' = None /\ g_mode g' = ModeIdle /\
      g_placed g' (sel_id sel)
      = Some (mkPlaced col row (sel_orientationIndex sel) (sel_shape sel)) /\
      (forall q, q <> sel_id sel -> g_placed g' q = g_placed g q) /\
      getCell (g_board g') hoverCol hoverRow = Some (Some (sel_id sel)) /\
      g_tray g' = set_delete (sel_id sel) (g_tray g) /\
      (outcome = ClickWon \/ outcome = ClickPlaced) /\
      (outcome = ClickWon <-> g_tray g' = [])
  else handleBoardClick g hoverCol hoverRow piece = Some (ClickInvalid, g).
Proof.
  intros Hok Hmode Hsel Hsok Hanchor Htray col row.
  unfold handleBoardClick, anchoredOrigin, gameCanPlace. rewrite Hmode, Hsel.
  fold col; fold row.
  destruct (canPlace (g_board g) (sel_shape sel) col row) eqn:Hcan; [|reflexivity].
  assert (Hfree : g_placed g (sel_id sel) = None) by now apply (ok_tray g Hok).
  assert (Hshape : In (sel_shape sel) (ORIENTATIONS (sel_id sel)))
    by (destruct Hsok as [_ Hn]; eapply nth_error_In; exact Hn).
  destruct (doPlace_ok g (sel_id sel) (sel_shape sel) col row (sel_orientationIndex sel)
                       Hok Hfree Hshape Hcan)
    as (g1 & E1 & Hok1 & Hb1 & Hp1 & Ht1 & _).
  rewrite E1.
  assert (Hok2 : game_ok (deselectPiece g1)) by (now apply (game_ok_ext g1)).
  eexists _, (deselectPiece g1). split; [reflexivity|].
  split; [exact Hok2|]. split; [reflexivity|]. split; [reflexivity|].
  assert (Hp2 : g_placed (deselectPiece g1) (sel_id sel)
                = Some (mkPlaced col row (sel_orientationIndex sel) (sel_shape sel))).
  { cbn [deselectPiece withSelection g_placed]. rewrite Hp1. unfold map_set.
    now rewrite PieceId_eqb_refl. }
  split; [exact Hp2|]. split.
  { intros q Hq. cbn [deselectPiece withSelection g_placed]. rewrite Hp1. unfold map_set.
    apply PieceId_eqb_neq in Hq. now rewrite Hq. }
  split.
  { apply (ok_cells _ Hok2). eexists. split; [exact Hp2|].
    cbn [pp_shape pp_col pp_row]. apply in_cellsAt.
    exists (sel_anchorCol sel, sel_anchorRow sel). split; [exact Hanchor|].
    cbn [fst snd]. unfold col, row. f_equal; lia. }
  split; [exact Ht1|].
  destruct (win_iff_all_placed _ Hok2) as (Hwin & _).
  destruct (isBoardFull (deselectPiece g1)) eqn:Efull.
  - split; [now left|]. split; [intros _; now apply Hwin | reflexivity].
  - split; [now right|]. split; [discriminate|].
    intros E. apply Hwin in E. discriminate.
Qed.

Lemma click_with_empty_hand (g : GameState) (hoverCol hoverRow : Z) (piece : option PieceId) :
  game_ok g -> g_mode g = ModeIdle ->
  piece = match getCell (g_board g) hoverCol hoverRow with
          | Some (Some k) => Some k
          | _ => None
          end ->
  match piece with
  | None => handleBoardClick g hoverCol hoverRow piece = Some (ClickIgnored, g)
  | Some k =>
      if set_has k (g_lockedPieces g)
      then handleBoardClick g hoverCol hoverRow piece = Some (ClickLocked, g)
      else exists g',
             handleBoardClick g hoverCol hoverRow piece = Some (ClickRemoved, g') /\
             game_ok g' /\ g_placed g' k = None /\ In k (g_tray g') /\
             (forall q, q <> k -> g_placed g' q = g_placed g q) /\
             (forall c r, getCell (g_board g') c r =
                          if holds k (getCell (g_board g) c r) then Some None
                          else getCell (g_board g) c r) /\
             isNull (g_board g') hoverCol hoverRow = true
  end.
Proof.
  intros Hok Hmode Hpiece. unfold handleBoardClick. rewrite Hmode.
  destruct piece as [k|]; [|reflexivity].
  destruct (set_has k (g_lockedPieces g)) eqn:Hl; [reflexivity|].
  destruct (doRemove_ok g k Hok Hl) as (g' & E & Hok' & Hb & Hp & Ht & _).
  rewrite E. exists g'. split; [reflexivity|]. split; [exact Hok'|].
  assert (Hnone : g_placed g' k = None)
    by (rewrite Hp; unfold map_delete; now rewrite PieceId_eqb_refl).
  split; [exact Hnone|]. split; [now apply (ok_tray g' Hok')|]. split.
  { intros q Hq. rewrite Hp. unfold map_delete. apply PieceId_eqb_neq in Hq. now rewrite Hq. }
  split; [exact Hb|].
  apply isNull_getCell. rewrite Hb.
  destruct (getCell (g_board g) hoverCol hoverRow) as [[q|]|]; try discriminate.
  injection Hpiece as ->. cbn [holds]. now rewrite PieceId_eqb_refl.
Qed.

(** ** Loading a challenge *)

(** A challenge built from coverings of the empty board locks a prefix of
    one of them, reordered, and hands the pieces of the rest to the player. *)
Lemma challenge_from_solution (solutions : list (list Placement)) :
  solutions <> [] -> Forall (solves createEmptyBoard allIds) solutions ->
  exists challenges,
    buildChallengesFromSolutions solutions = Some challenges /\
    forall c, In c challenges ->
      exists shuffled n,
        solves createEmptyBoard allIds shuffled /\
        ch_prePlaced c = map lockedOf (firstn n shuffled) /\
        ch_playerPieceIds c = map pl_pieceId (skipn n shuffled).
Proof.
  intros Hne Hsol.
  destruct (buildChallenges_nth solutions Hne) as (challenges & E & Hlen & Hnth).
  exists challenges. split; [exact E|].
  intros c Hc. apply In_nth_error in Hc as (k & Hk).
  destruct (Hnth k c Hk) as [Hlt Hb].
  remember (Z.of_nat k / 10 + 1) as d eqn:Ed.
  assert (Hd : 1 <= d <= 5).
  { assert (0 <= Z.of_nat k / 10 < 5); [|lia].
    split; [apply Z.div_pos; lia | apply Z.div_lt_upper_bound; lia]. }
  assert (Hi : 0 <= Z.of_nat k mod 10 <= 9)
    by (pose proof (Z.mod_pos_bound (Z.of_nat k) 10 eq_refl); lia).
  clear Ed.
  destruct (buildChallenge_spec solutions (Z.of_nat k + 1) _ _ Hne Hd Hi)
    as (sol & Hx & Hnsol & Hbuild).
  rewrite Hbuild in Hb. apply Some_inj in Hb. subst c.
  cbv beta iota delta [ch_prePlaced ch_playerPieceIds].
  assert (Hin : In sol solutions) by (eapply nth_error_In; exact Hnsol).
  rewrite Forall_forall in Hsol. pose proof (Hsol sol Hin) as Hs.
  destruct (cover_uses_all_pieces _ _ Hs) as [_ Hl].
  destruct (shuffle_twelve sol _ _ _ Hl Hd Hi Hx) as (_ & HP & _).
  eexists _, _. split; [|split; reflexivity].
  eapply solves_perm; [symmetry; exact HP | exact Hs].
Qed.

Lemma set_add_new (k : PieceId) (s : IdSet) : ~ In k s -> set_add k s = s ++ [k].
Proof.
  intros H. unfold set_add. destruct (set_has k s) eqn:E; [|reflexivity].
  apply set_has_In in E. contradiction.
Qed.

Lemma placePrePlaced_spec (pre : list Placement) :
  forall g rest ids,
    game_ok g ->
    solves (g_board g) ids (pre ++ rest) ->
    (forall pl, In pl pre -> g_placed g (pl_pieceId pl) = None) ->
    NoDup (g_lockedPieces g ++ map pl_pieceId pre) ->
    exists g',
      placePrePlaced g (map lockedOf pre) = Some g' /\
      game_ok g' /\
      placeAll (g_board g) pre = Some (g_board g') /\
      (forall k, g_placed g' k = None <->
                 g_placed g k = None /\ ~ In k (map pl_pieceId pre)) /\
      g_lockedPieces g' = g_lockedPieces g ++ map pl_pieceId pre /\
      g_timerStarted g' = g_timerStarted g /\
      g_selected g' = g_selected g /\ g_mode g' = g_mode g /\
      g_currentChallengeId g' = g_currentChallengeId g /\
      g_currentChallenge g' = g_currentChallenge g.
Proof.
  induction pre as [|p pre IH]; intros g rest ids Hok Hs Hfree Hnd.
  - exists g. split; [reflexivity|]. split; [exact Hok|]. split; [reflexivity|].
    split; [intros k; cbn; tauto|]. split; [cbn; now rewrite app_nil_r|].
    repeat split; reflexivity.
  - cbn [map placePrePlaced placeAll lockedOf lk_pieceId lk_col lk_row lk_orientationIndex].
    destruct (solves_take (g_board g) ids [] (pre ++ rest) p Hs) as [Hcan Hrest].
    assert (Hval : valid_orientation p).
    { destruct Hs as (_ & _ & _ & Hv & _). apply Hv. now left. }
    assert (Hat : orientationAt (ORIENTATIONS (pl_pieceId p)) (pl_orientationIndex p)
                  = Some (pl_shape p)).
    { destruct Hval as [H0 Hn]. unfold orientationAt.
      destruct (Z.ltb_spec (pl_orientationIndex p) 0); [lia | exact Hn]. }
    rewrite Hat.
    assert (Hnew : ~ In (pl_pieceId p) (g_lockedPieces g)).
    { intros Hin. apply NoDup_app_inv in Hnd as (_ & _ & Hd). apply (Hd _ Hin). now left. }
    set (g1 := mkGame (g_board g) (g_placed g) (g_tray g) (g_selected g) (g_mode g)
                      (g_currentChallengeId g) (g_currentChallenge g)
                      (set_add (pl_pieceId p) (g_lockedPieces g)) (g_timerStarted g)).
    assert (Hok1 : game_ok g1) by (now apply (game_ok_ext g)).
    destruct (doPlace_ok g1 (pl_pieceId p) (pl_shape p) (pl_col p) (pl_row p)
                         (pl_orientationIndex p) Hok1)
      as (g2 & E2 & Hok2 & Hb2 & Hp2 & Ht2 & Hsel2 & Hm2 & Hci2 & Hcc2 & Hl2 & Htm2).
    { apply Hfree. now left. }
    { now apply valid_orientation_In. }
    { exact Hcan. }
    rewrite E2. cbn [g1 g_board g_placed g_tray g_selected g_mode g_currentChallengeId
                     g_currentChallenge g_lockedPieces g_timerStarted] in *.
    rewrite Hb2.
    assert (Hids : NoDup (map pl_pieceId (p :: pre))).
    { apply NoDup_app_inv in Hnd as (_ & H & _). exact H. }
    cbn [map] in Hids. inversion Hids as [|? ? Hp Hpre]; subst.
    destruct (IH g2 rest (set_delete (pl_pieceId p) ids) Hok2)
      as (g' & E & Hok' & Hb & Hpl & Hl & Htm & Hsel & Hm & Hci & Hcc).
    { apply (Hrest (g_board g2)). exact Hb2. }
    { intros pl Hpl. rewrite Hp2. unfold map_set.
      destruct (PieceId_eqb (pl_pieceId pl) (pl_pieceId p)) eqn:Eq.
      - exfalso. apply PieceId_eqb_eq in Eq. apply Hp. rewrite <- Eq. now apply in_map.
      - apply Hfree. now right. }
    { rewrite Hl2, (set_add_new _ _ Hnew), <- app_assoc. exact Hnd. }
    exists g'. split; [exact E|]. split; [exact Hok'|]. split; [exact Hb|]. split.
    { intros k. rewrite Hpl, Hp2. unfold map_set. cbn [In].
      destruct (PieceId_eqb k (pl_pieceId p)) eqn:Eq.
      - apply PieceId_eqb_eq in Eq. subst k. split; [intros [H _]; discriminate|].
        intros [_ H]. exfalso. apply H. now left.
      - apply PieceId_eqb_neq in Eq. split.
        + intros [H1 H2]. split; [exact H1|]. intros [H|H]; [congruence | contradiction].
        + intros [H1 H2]. split; [exact H1|]. intros H. apply H2. now right. }
    split.
    { rewrite Hl, Hl2, (set_add_new _ _ Hnew), <- app_assoc. reflexivity. }
    split.
    { rewrite Htm, Htm2.
      assert (Hhas : set_has (pl_pieceId p) (set_add (pl_pieceId p) (g_lockedPieces g)) = true)
        by (apply set_has_In, set_add_In; now left).
      rewrite Hhas. apply orb_false_r. }
    repeat split; congruence.
Qed.

(** The state a fresh challenge starts from. *)
Lemma loadChallenge_spec (solutions : list (list Placement)) :
  solutions <> [] -> Forall (solves createEmptyBoard allIds) solutions ->
  exists challenges,
    buildChallengesFromSolutions solutions = Some challenges /\
    forall g id,
      match getChallenge challenges id with
      | None => loadChallenge challenges g id = Some g
      | Some c =>
          exists g',
            loadChallenge challenges g id = Some g' /\
            game_ok g' /\
            placeLocked createEmptyBoard (ch_prePlaced c) = Some (g_board g') /\
            g_lockedPieces g' = map lk_pieceId (ch_prePlaced c) /\
            Permutation (g_tray g') (ch_playerPieceIds c) /\
            (forall k, In k (g_lockedPieces g') <-> g_placed g' k <> None) /\
            g_timerStarted g' = false /\
            g_selected g' = None /\ g_mode g' = ModeIdle /\
            g_currentChallengeId g' = id /\ g_currentChallenge g' = Some c /\
            (forall k, In k (g_lockedPieces g') ->
                       doRemove g' k = Some (false, g') /\ selectPiece g' k = Some g')
      end.
Proof.
  intros Hne Hsol.
  destruct (challenge_from_solution solutions Hne Hsol) as (challenges & E & Hch).
  exists challenges. split; [exact E|]. intros g id. unfold loadChallenge.
  destruct (getChallenge challenges id) as [c|] eqn:Eg; [|reflexivity].
  assert (Hin : In c challenges).
  { unfold getChallenge in Eg. apply find_some in Eg. tauto. }
  destruct (Hch c Hin) as (shuffled & n & Hs & Hpre & Hplayer).
  set (g0 := mkGame createEmptyBoard (fun _ => None) (set_of_list (map p_id PIECES))
                    None ModeIdle id (Some c) [] false).
  assert (Hok0 : game_ok g0) by (apply (game_ok_ext initialState); [reflexivity..|apply initialState_ok]).
  assert (Hs' : solves (g_board g0) allIds (firstn n shuffled ++ skipn n shuffled))
    by (rewrite firstn_skipn; exact Hs).
  assert (Hids : NoDup (map pl_pieceId shuffled)) by (destruct Hs as (_ & _ & H & _); exact H).
  rewrite <- (firstn_skipn n shuffled), map_app in Hids.
  destruct (NoDup_app_inv _ _ Hids) as (Hnd1 & Hnd2 & Hdisj).
  destruct (placePrePlaced_spec (firstn n shuffled) g0 (skipn n shuffled) allIds Hok0 Hs')
    as (g' & E' & Hok' & Hb & Hpl & Hl & Htm & Hsel & Hm & Hci & Hcc).
  { intros pl _. reflexivity. }
  { exact Hnd1. }
  rewrite Hpre. exists g'. split; [exact E'|]. split; [exact Hok'|].
  cbn [g0 g_board g_placed g_lockedPieces g_timerStarted g_selected g_mode
       g_currentChallengeId g_currentChallenge app] in *.
  assert (Hlocked : g_lockedPieces g' = map lk_pieceId (map lockedOf (firstn n shuffled))).
  { rewrite Hl, map_map. reflexivity. }
  assert (Hplaced : forall k, In k (g_lockedPieces g') <-> g_placed g' k <> None).
  { intros k. rewrite Hl. split.
    - intros Hk Hnone. apply Hpl in Hnone as [_ Hnone]. contradiction.
    - intros Hk. destruct (set_has k (map pl_pieceId (firstn n shuffled))) eqn:Eh;
        [now apply set_has_In|].
      exfalso. apply Hk. apply Hpl. split; [reflexivity|].
      intros H. apply set_has_In in H. congruence. }
  split.
  { rewrite placeLocked_lockedOf; [exact Hb|].
    intros pl Hpl'. destruct Hs as (_ & _ & _ & Hval & _). apply Hval.
    rewrite <- (firstn_skipn n shuffled). apply in_or_app. now left. }
  split; [exact Hlocked|]. split.
  { rewrite Hplayer. apply NoDup_Permutation;
      [apply (ok_tray_NoDup g' Hok') | exact Hnd2 |].
    intros k. rewrite (ok_tray g' Hok'), Hpl. split.
    - intros [_ Hk].
      assert (Hall : In k (map pl_pieceId (firstn n shuffled) ++ map pl_pieceId (skipn n shuffled))).
      { rewrite <- map_app, firstn_skipn.
        destruct (cover_uses_all_pieces _ _ Hs) as [HP _].
        eapply Permutation_in; [symmetry; exact HP | apply allIds_all]. }
      apply in_app_or in Hall as [H|H]; [contradiction | exact H].
    - intros Hk. split; [reflexivity|]. intros H. exact (Hdisj k H Hk). }
  split; [exact Hplaced|].
  split; [exact Htm|]. split; [exact Hsel|]. split; [exact Hm|].
  split; [exact Hci|]. split; [exact Hcc|].
  intros k Hk. apply set_has_In in Hk. split.
  - unfold doRemove. now rewrite Hk.
  - unfold selectPiece. rewrite Hk. now destruct (set_has k (g_tray g')).
Qed.

(** ** The best times *)

Lemma markChallengeCompleted_lookup (p : Progress) (i t : Z) (now : string) (j : Z) :
  snd (markChallengeCompleted p i t now) j =
  if j =? i then
    match p i with
    | None => Some (mkBestTime t now)
    | Some old => if t <? bt_time old then Some (mkBestTime t now) else Some old
    end
  else p j.
Proof.
  unfold markChallengeCompleted.
  destruct (Z.eqb_spec j i) as [E|E]; [subst j|];
    (destruct (p i) as [old|] eqn:Ep; [destruct (t <? bt_time old)|]); cbn [snd];
    try rewrite Z.eqb_refl; try reflexivity; try exact Ep;
    apply Z.eqb_neq in E; now rewrite E.
Qed.

Lemma recordRuns_best (runs : list Run) :
  forall completed id,
    match recordRuns completed runs id with
    | None => completed id = None /\ forall t now, ~ In (id, t, now) runs
    | Some best =>
        (completed id = Some best \/ In (id, bt_time best, bt_completedAt best) runs) /\
        (forall old, completed id = Some old -> bt_time best <= bt_time old) /\
        (forall t now, In (id, t, now) runs -> bt_time best <= t)
    end.
Proof.
  induction runs as [|[[i t] now] runs IH]; intros completed id.
  - cbn [recordRuns fold_left]. destruct (completed id) as [best|] eqn:E.
    + split; [now left|]. split; [intros old [= <-]; lia | intros ? ? []].
    + split; [reflexivity | intros ? ? []].
  - unfold recordRuns. cbn [fold_left].
    fold (recordRuns (snd (markChallengeCompleted completed i t now)) runs).
    specialize (IH (snd (markChallengeCompleted completed i t now)) id).
    rewrite markChallengeCompleted_lookup in IH.
    destruct (recordRuns (snd (markChallengeCompleted completed i t now)) runs id)
      as [best|].
    + destruct IH as (Hfrom & Hold & Hruns).
      destruct (Z.eqb_spec id i) as [->|Hne].
      * destruct (completed i) as [old|] eqn:Ec.
        -- destruct (Z.ltb_spec t (bt_time old)) as [Hlt|Hge].
           ++ pose proof (Hold _ eq_refl) as Hb. cbn [bt_time] in Hb. split.
              { destruct Hfrom as [[= <-]|Hin]; right; [now left | now right]. }
              split; [intros o [= <-]; lia|].
              intros t' now' [[= <- <-]|Hin]; [exact Hb | now apply (Hruns t' now')].
           ++ pose proof (Hold _ eq_refl) as Hb. split.
              { destruct Hfrom as [Hf|Hin]; [now left | right; now right]. }
              split; [intros o [= <-]; exact Hb|].
              intros t' now' [[= <- <-]|Hin]; [lia | now apply (Hruns t' now')].
        -- pose proof (Hold _ eq_refl) as Hb. cbn [bt_time] in Hb. split.
           { destruct Hfrom as [[= <-]|Hin]; right; [now left | now right]. }
           split; [intros o; discriminate|].
           intros t' now' [[= <- <-]|Hin]; [exact Hb | now apply (Hruns t' now')].
      * split.
        { destruct Hfrom as [Hf|Hin]; [now left | right; now right]. }
        split; [exact Hold|].
        intros t' now' [[= E _ _]|Hin]; [congruence | now apply (Hruns t' now')].
    + destruct IH as (Hnone & Hruns).
      destruct (Z.eqb_spec id i) as [E|Hne].
      * destruct (completed i) as [old|]; [destruct (t <? bt_time old)|]; discriminate.
      * split; [exact Hnone|].
        intros t' now' [[= E _ _]|Hin]; [congruence | now apply (Hruns t' now')].
Qed.

(** ** The clock text *)

Lemma formatTime_seconds (ms : Z) : formatTime ms = formatTime (1000 * (ms / 1000)).
Proof. unfold formatTime. now rewrite (Z.mul_comm 1000), Z.div_mul by lia. Qed.

Lemma formatTime_below_100_minutes (ms : Z) :
  0 <= ms < 6000000 -> formatTime ms = clockText (ms / 1000).
Proof.
  intros Hms. rewrite formatTime_seconds.
  assert (Ht : 0 <= ms / 1000 < 6000).
  { split; [apply Z.div_pos; lia | apply Z.div_lt_upper_bound; lia]. }
  remember (ms / 1000) as t eqn:Et. clear Et Hms ms.
  assert (H : forallb (fun n => String.eqb (formatTime (1000 * Z.of_nat n))
                                           (clockText (Z.of_nat n)))
                      (seq 0 (Z.to_nat 6000)) = true) by (vm_compute; reflexivity).
  rewrite forallb_forall in H.
  specialize (H (Z.to_nat t) ltac:(apply in_seq; lia)).
  rewrite Z2Nat.id in H by lia. now apply String.eqb_eq.
Qed.

(* ------------------------------------------------------------------ *)
(** ** The properties of the game state                                *)
(* ------------------------------------------------------------------ *)

(** In a consistent state, [doPlace] of a tray piece in an orientation of
    its table at a position where [canPlace] holds returns a consistent
    state: the board gets the piece exactly as the packer's [placePiece]
    writes it, the map records the placement, the piece leaves the tray,
    every other record stays, and the timer runs afterwards unless the
    piece is locked and it was not running. *)
Theorem doPlace_keeps_the_state_consistent (g : GameState) (k : PieceId) (shape : Shape)
    (col row orientationIndex : Z) :
  game_ok g -> In k (g_tray g) -> In shape (ORIENTATIONS k) ->
  canPlace (g_board g) shape col row = true ->
  exists g',
    doPlace g k shape col row orientationIndex = Some g' /\
    game_ok g' /\
    placePiece (g_board g) k shape col row = Some (g_board g') /\
    g_placed g' k = Some (mkPlaced col row orientationIndex shape) /\
    (forall q, q <> k -> g_placed g' q = g_placed g q) /\
    g_tray g' = set_delete k (g_tray g) /\
    g_lockedPieces g' = g_lockedPieces g /\
    g_timerStarted g' = g_timerStarted g || negb (set_has k (g_lockedPieces g)).
Proof.
  intros Hok Htray Hshape Hcan.
  assert (Hfree : g_placed g k = None) by now apply (ok_tray g Hok).
  destruct (doPlace_ok g k shape col row orientationIndex Hok Hfree Hshape Hcan)
    as (g' & E & Hok' & Hb & Hp & Ht & _ & _ & _ & _ & Hl & Htm).
  exists g'. split; [exact E|]. split; [exact Hok'|]. split; [exact Hb|].
  split; [rewrite Hp; unfold map_set; now rewrite PieceId_eqb_refl|].
  split.
  { intros q Hq. rewrite Hp. unfold map_set. apply PieceId_eqb_neq in Hq. now rewrite Hq. }
  split; [exact Ht|]. split; [exact Hl | exact Htm].
Qed.

Lemma doPlace_keeps_the_state_consistent_witness :
  game_ok initialState /\ In idL (g_tray initialState) /\
  In [(0,0); (1,0); (2,0)] (ORIENTATIONS idL) /\
  canPlace (g_board initialState) [(0,0); (1,0); (2,0)] 4 2 = true /\
  exists g',
    doPlace initialState idL [(0,0); (1,0); (2,0)] 4 2 0 = Some g' /\
    game_ok g' /\ g_timerStarted g' = true.
Proof.
  assert (H1 : In idL (g_tray initialState)) by (apply set_has_In; vm_compute; reflexivity).
  assert (H2 : In [(0,0); (1,0); (2,0)] (ORIENTATIONS idL))
    by (apply (nth_error_In _ 0); vm_compute; reflexivity).
  assert (H3 : canPlace (g_board initialState) [(0,0); (1,0); (2,0)] 4 2 = true)
    by (vm_compute; reflexivity).
  split; [exact initialState_ok|]. split; [exact H1|]. split; [exact H2|]. split; [exact H3|].
  destruct (doPlace_keeps_the_state_consistent initialState idL _ 4 2 0
              initialState_ok H1 H2 H3) as (g' & E & Hok & _ & _ & _ & _ & _ & Htm).
  exists g'. split; [exact E|]. split; [exact Hok | exact Htm].
Defined.

(** [doRemove] refuses a locked piece and leaves the state as it is.  For
    any other piece, in a consistent state, it returns [true] and a
    consistent state in which exactly the cells that showed the piece are
    empty, the piece has no record and is in the tray, and the records of
    the other pieces, the locked set and the timer flag are unchanged. *)
Theorem doRemove_returns_the_piece_to_the_tray (g : GameState) (k : PieceId) :
  game_ok g ->
  if set_has k (g_lockedPieces g) then doRemove g k = Some (false, g)
  else
    exists g',
      doRemove g k = Some (true, g') /\
      game_ok g' /\
      (forall c r, getCell (g_board g') c r =
                   if holds k (getCell (g_board g) c r) then Some None
                   else getCell (g_board g) c r) /\
      g_placed g' k = None /\ In k (g_tray g') /\
      (forall q, q <> k -> g_placed g' q = g_placed g q) /\
      g_tray g' = set_add k (g_tray g) /\
      g_lockedPieces g' = g_lockedPieces g /\
      g_timerStarted g' = g_timerStarted g.
Proof.
  intros Hok. destruct (set_has k (g_lockedPieces g)) eqn:Hl.
  - unfold doRemove. now rewrite Hl.
  - destruct (doRemove_ok g k Hok Hl)
      as (g' & E & Hok' & Hb & Hp & Ht & _ & _ & _ & _ & Hl' & Htm).
    exists g'. split; [exact E|]. split; [exact Hok'|]. split; [exact Hb|].
    assert (Hnone : g_placed g' k = None)
      by (rewrite Hp; unfold map_delete; now rewrite PieceId_eqb_refl).
    split; [exact Hnone|]. split; [now apply (ok_tray g' Hok')|]. split.
    { intros q Hq. rewrite Hp. unfold map_delete. apply PieceId_eqb_neq in Hq.
      now rewrite Hq. }
    split; [exact Ht|]. split; [exact Hl' | exact Htm].
Qed.

Lemma doRemove_returns_the_piece_to_the_tray_witness :
  game_ok initialState /\
  exists g', doRemove initialState idL = Some (true, g') /\ game_ok g' /\
             g_board g' = createEmptyBoard.
Proof.
  split; [exact initialState_ok|].
  pose proof (doRemove_returns_the_piece_to_the_tray initialState idL initialState_ok) as H.
  cbn [initialState g_lockedPieces set_has existsb] in H.
  destruct H as (g' & E & Hok & _). exists g'. split; [exact E|]. split; [exact Hok|].
  assert (E' : option_map (fun x => g_board (snd x)) (doRemove initialState idL)
               = Some createEmptyBoard) by (vm_compute; reflexivity).
  rewrite E in E'. now injection E'.
Defined.

(** Placing a tray piece that is not locked and taking it back at once
    restores the board and every record of the map; the tray holds the same
    pieces again (the piece taken back goes last), and the state is
    consistent. *)
Theorem doPlace_then_doRemove_restores_the_state (g : GameState) (k : PieceId)
    (shape : Shape) (col row orientationIndex : Z) :
  game_ok g -> In k (g_tray g) -> In shape (ORIENTATIONS k) ->
  canPlace (g_board g) shape col row = true ->
  set_has k (g_lockedPieces g) = false ->
  exists g1 g2,
    doPlace g k shape col row orientationIndex = Some g1 /\
    doRemove g1 k = Some (true, g2) /\
    g_board g2 = g_board g /\
    (forall q, g_placed g2 q = g_placed g q) /\
    Permutation (g_tray g2) (g_tray g) /\
    g_lockedPieces g2 = g_lockedPieces g /\
    game_ok g2.
Proof.
  intros Hok Htray. apply doPlace_doRemove; [exact Hok | now apply (ok_tray g Hok)].
Qed.

Lemma doPlace_then_doRemove_restores_the_state_witness :
  game_ok initialState /\ In idL (g_tray initialState) /\
  In [(0,0); (1,0); (2,0)] (ORIENTATIONS idL) /\
  canPlace (g_board initialState) [(0,0); (1,0); (2,0)] 4 2 = true /\
  set_has idL (g_lockedPieces initialState) = false /\
  exists g1 g2,
    doPlace initialState idL [(0,0); (1,0); (2,0)] 4 2 0 = Some g1 /\
    doRemove g1 idL = Some (true, g2) /\ g_board g2 = createEmptyBoard.
Proof.
  assert (H1 : In idL (g_tray initialState)) by (apply set_has_In; vm_compute; reflexivity).
  assert (H2 : In [(0,0); (1,0); (2,0)] (ORIENTATIONS idL))
    by (apply (nth_error_In _ 0); vm_compute; reflexivity).
  assert (H3 : canPlace (g_board initialState) [(0,0); (1,0); (2,0)] 4 2 = true)
    by (vm_compute; reflexivity).
  split; [exact initialState_ok|]. split; [exact H1|]. split; [exact H2|]. split; [exact H3|].
  split; [reflexivity|].
  destruct (doPlace_then_doRemove_restores_the_state initialState idL _ 4 2 0
              initialState_ok H1 H2 H3 eq_refl) as (g1 & g2 & E1 & E2 & Hb & _).
  exists g1, g2. split; [exact E1|]. split; [exact E2 | exact Hb].
Defined.

(** In a consistent state the win test [isBoardFull] holds exactly when the
    tray is empty, exactly when each of the twelve pieces has a record in
    the map, and exactly when the packer's [findFirstEmpty] finds no cell. *)
Theorem isBoardFull_iff_all_pieces_placed (g : GameState) :
  game_ok g ->
  (isBoardFull g = true <-> g_tray g = []) /\
  (isBoardFull g = true <-> findFirstEmpty (g_board g) = None) /\
  (isBoardFull g = true <-> forall k, g_placed g k <> None).
Proof. apply win_iff_all_placed. Qed.

Lemma isBoardFull_iff_all_pieces_placed_witness :
  game_ok initialState /\ isBoardFull initialState = false /\ g_tray initialState <> [].
Proof.
  split; [exact initialState_ok|].
  destruct (isBoardFull_iff_all_pieces_placed initialState initialState_ok) as (H & _).
  assert (E : isBoardFull initialState = false) by (vm_compute; reflexivity).
  split; [exact E|]. intros Ht. apply H in Ht. congruence.
Defined.

(** For a non-empty shape [computeAnchor] returns a cell of the shape whose
    squared distance to the centre of the bounding box (half the largest
    column, half the largest row) is the least; among the cells at that
    distance it returns the one that comes first in the shape. *)
Theorem computeAnchor_picks_the_cell_nearest_the_centre (shape : Shape) :
  shape <> [] ->
  exists a l1 l2,
    computeAnchor shape = Some a /\
    shape = l1 ++ a :: l2 /\
    (forall p, In p l1 -> (centerDist shape a < centerDist shape p)%Q) /\
    (forall p, In p l2 -> (centerDist shape a <= centerDist shape p)%Q).
Proof. apply computeAnchor_spec. Qed.

Lemma computeAnchor_picks_the_cell_nearest_the_centre_witness :
  [(0,0); (1,0); (2,0); (2,1)] <> [] /\
  computeAnchor [(0,0); (1,0); (2,0); (2,1)] = Some (1, 0) /\
  exists l1 l2, [(0,0); (1,0); (2,0); (2,1)] = l1 ++ (1, 0) :: l2.
Proof.
  assert (Hne : [(0,0); (1,0); (2,0); (2,1)] <> ([] : Shape)) by discriminate.
  split; [exact Hne|].
  assert (E : computeAnchor [(0,0); (1,0); (2,0); (2,1)] = Some (1, 0))
    by (vm_compute; reflexivity).
  split; [exact E|].
  destruct (computeAnchor_picks_the_cell_nearest_the_centre _ Hne)
    as (a & l1 & l2 & Ea & Es & _).
  rewrite E in Ea. injection Ea as <-. exists l1, l2. exact Es.
Defined.

(** With a piece in hand that names an entry of its table,
    [rotateSelected] and [flipSelected] always find the turned or mirrored
    shape in the table (the fallback to the next index is never taken, and
    a flip never does nothing): the new selection names the entry that
    holds that shape and is anchored on one of its cells.  Four calls of
    [rotateSelected], or two of [flipSelected], give back the state they
    started from when the anchor was the computed one. *)
Theorem rotate_and_flip_stay_in_the_table (g : GameState) (sel : Selection) :
  g_selected g = Some sel -> selection_ok sel ->
  (exists sel',
     rotateSelected g = Some (withSelection g (Some sel') (g_mode g)) /\
     selection_ok sel' /\ sel_id sel' = sel_id sel /\
     sel_shape sel' = rotate90CW (sel_shape sel) /\
     computeAnchor (sel_shape sel') = Some (sel_anchorCol sel', sel_anchorRow sel') /\
     In (sel_anchorCol sel', sel_anchorRow sel') (sel_shape sel')) /\
  (exists sel',
     flipSelected g = Some (withSelection g (Some sel') (g_mode g)) /\
     selection_ok sel' /\ sel_id sel' = sel_id sel /\
     sel_shape sel' = flipH (sel_shape sel) /\
     computeAnchor (sel_shape sel') = Some (sel_anchorCol sel', sel_anchorRow sel') /\
     In (sel_anchorCol sel', sel_anchorRow sel') (sel_shape sel')) /\
  (computeAnchor (sel_shape sel) = Some (sel_anchorCol sel, sel_anchorRow sel) ->
   andThen (andThen (andThen (rotateSelected g) rotateSelected) rotateSelected)
           rotateSelected = Some g /\
   andThen (flipSelected g) flipSelected = Some g).
Proof.
  intros Hsel Hok.
  split; [now apply rotateSelected_spec|]. split; [now apply flipSelected_spec|].
  intros Ha. split; [now apply (rotate4_restores g sel) | now apply (flip2_restores g sel)].
Qed.

Lemma selectPiece_A : selectPiece initialState idA = Some stateWithA.
Proof. vm_compute. reflexivity. Qed.

Lemma handA_ok : selection_ok handA.
Proof. split; [cbn; lia | vm_compute; reflexivity]. Qed.

Lemma stateWithA_ok : game_ok stateWithA.
Proof. apply (game_ok_ext initialState); [reflexivity..|apply initialState_ok]. Qed.

Lemma rotate_and_flip_stay_in_the_table_witness :
  g_selected stateWithA = Some handA /\ selection_ok handA /\
  andThen (andThen (andThen (rotateSelected stateWithA) rotateSelected) rotateSelected)
          rotateSelected = Some stateWithA /\
  andThen (flipSelected stateWithA) flipSelected = Some stateWithA.
Proof.
  split; [reflexivity|]. split; [exact handA_ok|].
  destruct (rotate_and_flip_stay_in_the_table stateWithA handA eq_refl handA_ok)
    as (_ & _ & H).
  apply H. vm_compute. reflexivity.
Defined.

(** [selectPiece] takes a tray piece that is not locked in hand, in the
    first orientation of its table and anchored on a cell of the shape; for
    a piece that is on the board or locked it changes nothing. *)
Theorem selectPiece_takes_only_free_tray_pieces (g : GameState) (k : PieceId) :
  if set_has k (g_tray g) && negb (set_has k (g_lockedPieces g)) then
    exists sel,
      selectPiece g k = Some (withSelection g (Some sel) ModeSelected) /\
      selection_ok sel /\ sel_id sel = k /\ sel_orientationIndex sel = 0 /\
      computeAnchor (sel_shape sel) = Some (sel_anchorCol sel, sel_anchorRow sel) /\
      In (sel_anchorCol sel, sel_anchorRow sel) (sel_shape sel)
  else selectPiece g k = Some g.
Proof. apply selectPiece_spec. Qed.

(** A click on a board cell with a piece in hand (a tray piece, anchored on
    one of its cells) either places the piece, when it fits with its anchor
    on the clicked cell, or changes nothing.  After a placement the clicked
    cell shows the piece, the hand is empty, the state is consistent, and
    the win is reported exactly when the tray has become empty. *)
Theorem click_places_the_piece_on_the_clicked_cell (g : GameState) (sel : Selection)
    (hoverCol hoverRow : Z) (piece : option PieceId) :
  game_ok g -> g_mode g = ModeSelected -> g_selected g = Some sel ->
  selection_ok sel -> In (sel_anchorCol sel, sel_anchorRow sel) (sel_shape sel) ->
  In (sel_id sel) (g_tray g) ->
  let col := hoverCol - sel_anchorCol sel in
  let row := hoverRow - sel_anchorRow sel in
  if canPlace (g_board g) (sel_shape sel) col row then
    exists outcome g',
      handleBoardClick g hoverCol hoverRow piece = Some (outcome, g') /\
      game_ok g' /\ g_selected g' = None /\ g_mode g' = ModeIdle /\
      g_placed g' (sel_id sel)
      = Some (mkPlaced col row (sel_orientationIndex sel) (sel_shape sel)) /\
      (forall q, q <> sel_id sel -> g_placed g' q = g_placed g q) /\
      getCell (g_board g') hoverCol hoverRow = Some (Some (sel_id sel)) /\
      g_tray g' = set_delete (sel_id sel) (g_tray g) /\
      (outcome = ClickWon \/ outcome = ClickPlaced) /\
      (outcome = ClickWon <-> g_tray g' = [])
  else handleBoardClick g hoverCol hoverRow piece = Some (ClickInvalid, g).
Proof. apply click_with_piece_in_hand. Qed.

Lemma click_places_the_piece_on_the_clicked_cell_witness :
  game_ok stateWithA /\ g_mode stateWithA = ModeSelected /\
  g_selected stateWithA = Some handA /\ selection_ok handA /\
  In (sel_anchorCol handA, sel_anchorRow handA) (sel_shape handA) /\
  In (sel_id handA) (g_tray stateWithA) /\
  exists g', handleBoardClick stateWithA 3 2 None = Some (ClickPlaced, g') /\
             getCell (g_board g') 3 2 = Some (Some idA).
Proof.
  assert (H1 : In (sel_anchorCol handA, sel_anchorRow handA) (sel_shape handA))
    by (cbn; tauto).
  assert (H2 : In (sel_id handA) (g_tray stateWithA))
    by (apply set_has_In; vm_compute; reflexivity).
  split; [exact stateWithA_ok|]. split; [reflexivity|]. split; [reflexivity|].
  split; [exact handA_ok|]. split; [exact H1|]. split; [exact H2|].
  pose proof (click_places_the_piece_on_the_clicked_cell stateWithA handA 3 2 None
                stateWithA_ok eq_refl eq_refl handA_ok H1 H2) as H.
  cbv zeta in H.
  assert (Hcan : canPlace (g_board stateWithA) (sel_shape handA)
                          (3 - sel_anchorCol handA) (2 - sel_anchorRow handA) = true)
    by (vm_compute; reflexivity).
  rewrite Hcan in H.
  destruct H as (outcome & g' & E & _ & _ & _ & _ & _ & Hcell & _).
  assert (Eo : option_map fst (handleBoardClick stateWithA 3 2 None) = Some ClickPlaced)
    by (vm_compute; reflexivity).
  rewrite E in Eo. cbn in Eo. injection Eo as ->.
  exists g'. split; [exact E | exact Hcell].
Defined.

(** A click with an empty hand on a cell that shows a piece takes that
    piece off the board unless it is locked: the cells that showed it are
    empty afterwards, among them the clicked one, the piece is back in the
    tray and the state is consistent; a locked piece and an empty cell leave
    the state as it is. *)
Theorem click_removes_the_piece_unless_locked (g : GameState) (hoverCol hoverRow : Z)
    (piece : option PieceId) :
  game_ok g -> g_mode g = ModeIdle ->
  piece = match getCell (g_board g) hoverCol hoverRow with
          | Some (Some k) => Some k
          | _ => None
          end ->
  match piece with
  | None => handleBoardClick g hoverCol hoverRow piece = Some (ClickIgnored, g)
  | Some k =>
      if set_has k (g_lockedPieces g)
      then handleBoardClick g hoverCol hoverRow piece = Some (ClickLocked, g)
      else exists g',
             handleBoardClick g hoverCol hoverRow piece = Some (ClickRemoved, g') /\
             game_ok g' /\ g_placed g' k = None /\ In k (g_tray g') /\
             (forall q, q <> k -> g_placed g' q = g_placed g q) /\
             (forall c r, getCell (g_board g') c r =
                          if holds k (getCell (g_board g) c r) then Some None
                          else getCell (g_board g) c r) /\
             isNull (g_board g') hoverCol hoverRow = true
  end.
Proof. apply click_with_empty_hand. Qed.

Lemma click_removes_the_piece_unless_locked_witness :
  game_ok initialState /\ g_mode initialState = ModeIdle /\
  handleBoardClick initialState 3 2 None = Some (ClickIgnored, initialState).
Proof.
  split; [exact initialState_ok|]. split; [reflexivity|].
  exact (click_removes_the_piece_unless_locked initialState 3 2 None
           initialState_ok eq_refl eq_refl).
Defined.

(** For challenges built from coverings of the empty board, [loadChallenge]
    with an unknown id changes nothing, and with the id of a challenge it
    returns a consistent state: the board holds the locked placements as
    the challenge builder's check puts them, the locked set lists the
    pre-placed pieces, which are exactly the pieces on the board, the tray
    holds the player pieces, nothing is in hand, the timer is not running,
    and every locked piece can be neither removed nor selected. *)
Theorem loadChallenge_sets_up_the_locked_pieces (solutions : list (list Placement)) :
  solutions <> [] -> Forall (solves createEmptyBoard allIds) solutions ->
  exists challenges,
    buildChallengesFromSolutions solutions = Some challenges /\
    forall g id,
      match getChallenge challenges id with
      | None => loadChallenge challenges g id = Some g
      | Some c =>
          exists g',
            loadChallenge challenges g id = Some g' /\
            game_ok g' /\
            placeLocked createEmptyBoard (ch_prePlaced c) = Some (g_board g') /\
            g_lockedPieces g' = map lk_pieceId (ch_prePlaced c) /\
            Permutation (g_tray g') (ch_playerPieceIds c) /\
            (forall k, In k (g_lockedPieces g') <-> g_placed g' k <> None) /\
            g_timerStarted g' = false /\
            g_selected g' = None /\ g_mode g' = ModeIdle /\
            g_currentChallengeId g' = id /\ g_currentChallenge g' = Some c /\
            (forall k, In k (g_lockedPieces g') ->
                       doRemove g' k = Some (false, g') /\ selectPiece g' k = Some g')
      end.
Proof. apply loadChallenge_spec. Qed.

Lemma loadChallenge_sets_up_the_locked_pieces_witness :
  [solution42] <> [] /\ Forall (solves createEmptyBoard allIds) [solution42] /\
  exists challenges g',
    buildChallengesFromSolutions [solution42] = Some challenges /\
    loadChallenge challenges initialState 7 = Some g' /\ game_ok g'.
Proof.
  assert (Hne : [solution42] <> []) by discriminate.
  assert (Hs : Forall (solves createEmptyBoard allIds) [solution42])
    by (constructor; [exact solveWithOrder_seed42_solves | constructor]).
  split; [exact Hne|]. split; [exact Hs|].
  destruct (loadChallenge_sets_up_the_locked_pieces [solution42] Hne Hs)
    as (challenges & E & H).
  specialize (H initialState 7).
  destruct (getChallenge_spec [solution42] 7 Hne) as (challenges' & E' & Hget).
  rewrite E in E'. apply Some_inj in E'. subst challenges'.
  destruct (getChallenge challenges 7) as [c|]; [|lia].
  destruct H as (g' & Eg & Hok & _).
  exists challenges, g'. split; [exact E|]. split; [exact Eg | exact Hok].
Defined.

(** After any sequence of runs recorded by [markChallengeCompleted], the
    entry of a challenge holds the least time among its earlier entry and
    the runs of that challenge, with the moment of a run that took that
    time (or the earlier entry itself); a challenge without an earlier
    entry and without a run has no entry. *)
Theorem markChallengeCompleted_keeps_the_best_time (completed : Progress)
    (runs : list Run) (id : Z) :
  match recordRuns completed runs id with
  | None => completed id = None /\ forall t now, ~ In (id, t, now) runs
  | Some best =>
      (completed id = Some best \/ In (id, bt_time best, bt_completedAt best) runs) /\
      (forall old, completed id = Some old -> bt_time best <= bt_time old) /\
      (forall t now, In (id, t, now) runs -> bt_time best <= t)
  end.
Proof. apply recordRuns_best. Qed.

(** For a time below one hundred minutes [formatTime] returns the five
    characters [MM:SS]: the tens and units of the whole minutes, a colon,
    the tens and units of the remaining whole seconds. *)
Theorem formatTime_shows_minutes_and_seconds (ms : Z) :
  0 <= ms < 6000000 -> formatTime ms = clockText (ms / 1000).
Proof. apply formatTime_below_100_minutes. Qed.

Lemma formatTime_shows_minutes_and_seconds_witness :
  0 <= 754321 < 6000000 /\ formatTime 754321 = "12:34"%string.
Proof.
  assert (H : 0 <= 754321 < 6000000) by lia.
  split; [exact H|].
  rewrite (formatTime_shows_minutes_and_seconds 754321 H). vm_compute. reflexivity.
Defined.

